(** * Tentai Show (galaxies): generator, Game-ID codec and solvers

    A shallow embedding of [src/generator/simple_generator.c] and of the
    solvers under [src/solver/], followed by the properties of the
    specification that were checked against them.

    Conventions of the embedding.
    - A C or C++ [int] is a [Z]; [/] and [%] are [Z.quot] and [Z.rem]
      (truncation toward zero).  Bit flags are tested with [Z.land] and set
      with [Z.lor].  In the parsers, where the numbers come from the text of
      a Game ID, the results of [int] arithmetic are wrapped to 32 bits
      ([int32]), as the compiled code does.
    - A [space *] is the index of the cell in [state->grid] (a [Z]); the
      macro [SPACE(s,x,y)] computes that index, [deref] reads the cell and
      [store] updates it in place.
    - A C function that can stop the program ([assert], integer division by
      zero) returns a [result]; a loop is a fold over the list of the values
      its counter takes.
    - Record fields carry a prefix ([sp_x] for [space.x], [gs_w] for
      [game_state.w], ...), everything else keeps the name it has in the
      source. *)

From Stdlib Require Import ZArith Lia Ascii String Permutation.
From stdpp Require Import base tactics option list numbers list_numbers gmap.

#[local] Open Scope Z_scope.

(* ===================================================================== *)
(** * Part I: the embedding *)
(* ===================================================================== *)

(** ** Faults and the result monad *)

Inductive fault : Type :=
| DivideByZero      (* integer division by zero *)
| AssertionFailed.  (* a failed [assert] *)

Inductive result (A : Type) : Type :=
| Ok (a : A)
| Fault (f : fault).
Arguments Ok {A} a.
Arguments Fault {A} f.

Definition bind {A B} (m : result A) (k : A -> result B) : result B :=
  match m with
  | Ok a => k a
  | Fault f => Fault f
  end.

Notation "'do' x <- m ; k" := (bind m (fun x => k))
  (at level 10, x pattern, m at level 100, k at level 200).

Definition assert (b : bool) : result unit :=
  if b then Ok tt else Fault AssertionFailed.

(** [fold_res f l a]: a loop over [l] whose body can fault. *)
Fixpoint fold_res {A B} (f : A -> B -> result A) (l : list B) (a : A) : result A :=
  match l with
  | [] => Ok a
  | b :: l' => do a' <- f a b; fold_res f l' a'
  end.

(** The values of [v] in [for (v = lo; v < hi; v += 2)]. *)
Definition range2 (lo hi : Z) : list Z :=
  (fun k => lo + 2 * k) <$> seqZ 0 ((hi - lo + 1) `div` 2).

(* ===================================================================== *)
(** ** The generator: [src/generator/simple_generator.c] *)
(* ===================================================================== *)

Module Generator.

Inductive space_type : Type := s_tile | s_edge | s_vertex.

#[global] Instance space_type_eq_dec : EqDecision space_type.
Proof. solve_decision. Defined.

Definition F_DOT : Z := 1.
Definition F_EDGE_SET : Z := 2.
Definition F_TILE_ASSOC : Z := 4.
Definition F_DOT_BLACK : Z := 8.
Definition F_MARK : Z := 16.

(** [typedef struct space] *)
Record space : Type := mkSpace {
  sp_x : Z;
  sp_y : Z;
  sp_type : space_type;
  sp_flags : Z;        (* unsigned int *)
  sp_dotx : Z;
  sp_doty : Z;
  sp_nassoc : Z
}.

(** A [space *]: the index of a cell of [grid]. *)
Definition ptr : Type := Z.

(** [typedef struct game_state] *)
Record game_state : Type := mkState {
  gs_w : Z;
  gs_h : Z;
  gs_sx : Z;
  gs_sy : Z;
  gs_grid : list space;
  gs_ndots : Z;
  gs_dots : list ptr   (* NULL is the empty list *)
}.

(** [memset(sp, 0, sizeof(space))]; [s_tile] is the enumerator 0. *)
Definition zero_space : space := mkSpace 0 0 s_tile 0 0 0 0.

(** [fl & m] as a C truth value. *)
Definition has_flag (fl m : Z) : bool := negb (Z.land fl m =? 0).

(** [fl & ~m] on a 32-bit [unsigned int]. *)
Definition clear_bits (fl m : Z) : Z := Z.land fl (4294967295 - m).

Definition INGRID (s : game_state) (x y : Z) : bool :=
  (0 <=? x) && (0 <=? y) && (x <? gs_sx s) && (y <? gs_sy s).

(** [&SPACE(s,x,y)] *)
Definition SPACE (s : game_state) (x y : Z) : ptr := y * gs_sx s + x.

Definition IS_VERTICAL_EDGE (x : Z) : bool := Z.rem x 2 =? 0.

(** Reading the cell behind a pointer. *)
Definition deref (s : game_state) (p : ptr) : space :=
  default zero_space (gs_grid s !! Z.to_nat p).

(** Updating the cell behind a pointer in place. *)
Definition store (s : game_state) (p : ptr) (f : space -> space) : game_state :=
  mkState (gs_w s) (gs_h s) (gs_sx s) (gs_sy s)
          (alter f (Z.to_nat p) (gs_grid s)) (gs_ndots s) (gs_dots s).

Definition set_flags (fl : Z) (sp : space) : space :=
  mkSpace (sp_x sp) (sp_y sp) (sp_type sp) fl (sp_dotx sp) (sp_doty sp) (sp_nassoc sp).

Definition or_flags (m : Z) (sp : space) : space :=
  set_flags (Z.lor (sp_flags sp) m) sp.

Definition set_nassoc (n : Z) (sp : space) : space :=
  mkSpace (sp_x sp) (sp_y sp) (sp_type sp) (sp_flags sp) (sp_dotx sp) (sp_doty sp) n.

Definition incr_nassoc (sp : space) : space := set_nassoc (sp_nassoc sp + 1) sp.

(** [tile->flags |= F_TILE_ASSOC; tile->dotx = dx; tile->doty = dy;] *)
Definition associate (dx dy : Z) (sp : space) : space :=
  mkSpace (sp_x sp) (sp_y sp) (sp_type sp) (Z.lor (sp_flags sp) F_TILE_ASSOC)
          dx dy (sp_nassoc sp).

(** *** blank_game *)

Definition init_space (x y : Z) : space :=
  mkSpace x y
    (if negb (Z.rem x 2 =? 0) && negb (Z.rem y 2 =? 0) then s_tile
     else if (Z.rem x 2 =? 0) && (Z.rem y 2 =? 0) then s_vertex
     else s_edge)
    0 0 0 0.

Definition blank_game (w h : Z) : game_state :=
  let sx := 2 * w + 1 in
  let sy := 2 * h + 1 in
  let st0 := mkState w h sx sy (replicate (Z.to_nat (sx * sy)) zero_space) 0 [] in
  let st1 :=
    foldl (fun st y =>
             foldl (fun st x => store st (SPACE st x y) (fun _ => init_space x y))
                   st (seqZ 0 sx))
          st0 (seqZ 0 sy) in
  (* Set edges around the border *)
  let st2 :=
    foldl (fun st x =>
             store (store st (SPACE st x 0) (or_flags F_EDGE_SET))
                   (SPACE st x (sy - 1)) (or_flags F_EDGE_SET))
          st1 (seqZ 0 sx) in
  foldl (fun st y =>
           store (store st (SPACE st 0 y) (or_flags F_EDGE_SET))
                 (SPACE st (sx - 1) y) (or_flags F_EDGE_SET))
        st2 (seqZ 0 sy).

(** *** clear_game *)

Definition clear_space (sx sy : Z) (sp : space) : space :=
  mkSpace (sp_x sp) (sp_y sp) (sp_type sp)
    (if (sp_x sp =? 0) || (sp_y sp =? 0) || (sp_x sp =? sx - 1) || (sp_y sp =? sy - 1)
     then F_EDGE_SET else 0)
    (-1) (-1) 0.

Definition clear_game (s : game_state) : game_state :=
  mkState (gs_w s) (gs_h s) (gs_sx s) (gs_sy s)
          (clear_space (gs_sx s) (gs_sy s) <$> gs_grid s) 0 [].

(** *** game_update_dots *)

Definition game_update_dots (s : game_state) : game_state :=
  let idx := seqZ 0 (gs_sx s * gs_sy s) in
  let ds := filter (fun i => has_flag (sp_flags (deref s i)) F_DOT = true) idx in
  mkState (gs_w s) (gs_h s) (gs_sx s) (gs_sy s) (gs_grid s)
          (Z.of_nat (length ds)) ds.

(** *** dot_is_possible *)

Definition dot_is_possible (s : game_state) (sp : ptr) (allow_assoc : bool) : bool :=
  let c := deref s sp in
  let '(bx, by_) :=
    match sp_type c with
    | s_tile => (1, 1)
    | s_edge => if IS_VERTICAL_EDGE (sp_x c) then (2, 1) else (1, 2)
    | s_vertex => (2, 2)
    end in
  forallb (fun dx =>
    forallb (fun dy =>
      if negb (INGRID s (sp_x c + dx) (sp_y c + dy)) then true
      else
        let adj := deref s (SPACE s (sp_x c + dx) (sp_y c + dy)) in
        if negb allow_assoc && has_flag (sp_flags adj) F_TILE_ASSOC then false
        else if (negb (dx =? 0) || negb (dy =? 0)) && has_flag (sp_flags adj) F_DOT
        then false
        else if (Z.abs dx <? bx) && (Z.abs dy <? by_)
                && has_flag (sp_flags adj) F_EDGE_SET
        then false
        else true)
      (seqZ (- by_) (2 * by_ + 1)))
    (seqZ (- bx) (2 * bx + 1)).

(** *** add_dot *)

Definition add_dot (s : game_state) (sp : ptr) : game_state :=
  store s sp (fun c => set_nassoc 0 (or_flags F_DOT c)).

(** *** space_opposite_dot: [None] is the NULL pointer. *)

Definition space_opposite_dot (s : game_state) (sp dot : ptr) : option ptr :=
  let dx := sp_x (deref s dot) - sp_x (deref s sp) in
  let dy := sp_y (deref s dot) - sp_y (deref s sp) in
  let x := sp_x (deref s dot) + dx in
  let y := sp_y (deref s dot) + dy in
  if negb (INGRID s x y) then None else Some (SPACE s x y).

(** [tile_opp->flags & F_TILE_ASSOC &&
     (tile_opp->dotx != dot->x || tile_opp->doty != dot->y)] *)
Definition owned_by_other (s : game_state) (tile_opp dot : ptr) : bool :=
  has_flag (sp_flags (deref s tile_opp)) F_TILE_ASSOC
  && (negb (sp_dotx (deref s tile_opp) =? sp_x (deref s dot))
      || negb (sp_doty (deref s tile_opp) =? sp_y (deref s dot))).

(** *** solver_obvious_dot *)

(** The body of the two nested loops, for the tile at [(x, y)]. *)
Definition obvious_step (dot : ptr) (acc : game_state * Z) (x y : Z)
  : result (game_state * Z) :=
  let '(s, ret) := acc in
  let tile := SPACE s x y in
  if has_flag (sp_flags (deref s tile)) F_TILE_ASSOC then Ok (s, ret)
  else
    match space_opposite_dot s tile dot with
    | None => Ok (s, ret)
    | Some tile_opp =>
      if owned_by_other s tile_opp dot then Ok (s, ret)
      else
        (* Associate this tile with dot *)
        let s1 := store s tile
                    (associate (sp_x (deref s dot)) (sp_y (deref s dot))) in
        let s2 := store s1 dot incr_nassoc in
        if has_flag (sp_flags (deref s2 tile_opp)) F_TILE_ASSOC then
          do _ <- assert ((sp_dotx (deref s2 tile_opp) =? sp_x (deref s2 dot))
                          && (sp_doty (deref s2 tile_opp) =? sp_y (deref s2 dot)));
          Ok (s2, 1)
        else
          let s3 := store s2 tile_opp
                      (associate (sp_x (deref s2 dot)) (sp_y (deref s2 dot))) in
          let s4 := store s3 dot incr_nassoc in
          Ok (s4, 1)
    end.

Definition solver_obvious_dot (s : game_state) (dot : ptr) : result (game_state * Z) :=
  do _ <- assert (has_flag (sp_flags (deref s dot)) F_DOT);
  fold_res (fun acc x => fold_res (fun acc y => obvious_step dot acc x y)
                                  (range2 1 (gs_sy s)) acc)
           (range2 1 (gs_sx s)) (s, 0).

(** *** outline_tile_fordot *)

Definition outline_dirs : list (Z * Z) := [(-1, 0); (1, 0); (0, -1); (0, 1)].

(** [same]: do the tile and the tile across the edge belong together? *)
Definition outline_same (s : game_state) (tile : ptr) (tx ty : Z) : bool :=
  if INGRID s tx ty then
    let tadj := deref s (SPACE s tx ty) in
    if negb (has_flag (sp_flags (deref s tile)) F_TILE_ASSOC)
    then negb (has_flag (sp_flags tadj) F_TILE_ASSOC)
    else has_flag (sp_flags tadj) F_TILE_ASSOC
         && (sp_dotx (deref s tile) =? sp_dotx tadj)
         && (sp_doty (deref s tile) =? sp_doty tadj)
  else false.

Definition outline_step (tile : ptr) (mark : bool) (acc : game_state * bool)
    (d : Z * Z) : game_state * bool :=
  let '(s, didsth) := acc in
  let ex := sp_x (deref s tile) + d.1 in
  let ey := sp_y (deref s tile) + d.2 in
  let tx := ex + d.1 in
  let ty := ey + d.2 in
  if negb (INGRID s ex ey) then (s, didsth)
  else
    let edge := SPACE s ex ey in
    let has_edge := has_flag (sp_flags (deref s edge)) F_EDGE_SET in
    let same := outline_same s tile tx ty in
    if negb has_edge && negb same then
      ((if mark then store s edge (or_flags F_EDGE_SET) else s), true)
    else if has_edge && same then
      ((if mark
        then store s edge (fun c => set_flags (clear_bits (sp_flags c) F_EDGE_SET) c)
        else s), true)
    else (s, didsth).

Definition outline_tile_fordot (s : game_state) (tile : ptr) (mark : bool)
  : game_state * bool :=
  foldl (outline_step tile mark) (s, false) outline_dirs.

(** *** dot_expand_or_move *)

(** First loop: is every mirror image in the grid and free or ours? *)
Definition expand_check (s : game_state) (dot : ptr) (toadd : list ptr) : bool :=
  forallb (fun tile =>
             match space_opposite_dot s tile dot with
             | None => false
             | Some tile_opp => negb (owned_by_other s tile_opp dot)
             end) toadd.

(** Body of the second loop.  [tile_opp] is not NULL here (first loop);
    a NULL dereference is not modelled. *)
Definition expand_step (dot : ptr) (s : game_state) (tile : ptr) : game_state :=
  let tile_opp := default 0 (space_opposite_dot s tile dot) in
  let s1 := store s tile (associate (sp_x (deref s dot)) (sp_y (deref s dot))) in
  let s2 := store s1 dot incr_nassoc in
  if negb (has_flag (sp_flags (deref s2 tile_opp)) F_TILE_ASSOC) then
    let s3 := store s2 tile_opp
                (associate (sp_x (deref s2 dot)) (sp_y (deref s2 dot))) in
    store s3 dot incr_nassoc
  else s2.

Definition dot_expand_or_move (s : game_state) (dot : ptr) (toadd : list ptr)
  : result (game_state * bool) :=
  do _ <- assert (has_flag (sp_flags (deref s dot)) F_DOT);
  if negb (expand_check s dot toadd) then Ok (s, false)
  else
    let s' := foldl (expand_step dot) s toadd in
    do r <- solver_obvious_dot s' dot;
    do _ <- assert (negb (r.2 =? -1));
    Ok (r.1, true).

(** *** generate_try_block *)

Definition MAX_TOADD : Z := 20.
Definition MAX_OUTSIDE : Z := 100.

(** The loop filling [toadd]; [Ok None] is its [return 0]. *)
Fixpoint collect_toadd (s : game_state) (cells : list (Z * Z)) (toadd : list ptr)
  : result (option (list ptr)) :=
  match cells with
  | [] => Ok (Some toadd)
  | (x, y) :: rest =>
    let sp := SPACE s x y in
    do _ <- assert (bool_decide (sp_type (deref s sp) = s_tile));
    if has_flag (sp_flags (deref s sp)) F_TILE_ASSOC then Ok None
    else if MAX_TOADD <=? Z.of_nat (length toadd) then Ok None
    else collect_toadd s rest (toadd ++ [sp])
  end.

(** The cells of [for (y = y1; y <= y2; y += 2) for (x = x1; x <= x2; x += 2)]. *)
Definition block_cells (x1 y1 x2 y2 : Z) : list (Z * Z) :=
  y ← range2 y1 (y2 + 1); (fun x => (x, y)) <$> range2 x1 (x2 + 1).

Definition push_outside (cond : bool) (p : ptr) (outside : list ptr) : list ptr :=
  if cond && (Z.of_nat (length outside) <? MAX_OUTSIDE) then outside ++ [p] else outside.

(** Collect outside tiles *)
Definition collect_outside (s : game_state) (x1 y1 x2 y2 : Z) : list ptr :=
  let out1 :=
    foldl (fun out x =>
             push_outside (y2 <=? gs_sy s - 3) (SPACE s x (y2 + 2))
               (push_outside (2 <=? y1) (SPACE s x (y1 - 2)) out))
          [] (range2 x1 (x2 + 1)) in
  foldl (fun out y =>
           push_outside (x2 <=? gs_sx s - 3) (SPACE s (x2 + 2) y)
             (push_outside (2 <=? x1) (SPACE s (x1 - 2) y) out))
        out1 (range2 y1 (y2 + 1)).

(** The loop over the shuffled outside tiles; it returns at the first dot
    that accepts the block. *)
Fixpoint try_outside (s : game_state) (maxsz : Z) (toadd outside : list ptr)
  : result (game_state * bool) :=
  match outside with
  | [] => Ok (s, false)
  | o :: rest =>
    if negb (has_flag (sp_flags (deref s o)) F_TILE_ASSOC)
    then try_outside s maxsz toadd rest
    else
      let dot := SPACE s (sp_dotx (deref s o)) (sp_doty (deref s o)) in
      if maxsz <=? sp_nassoc (deref s dot) then try_outside s maxsz toadd rest
      else
        do r <- dot_expand_or_move s dot toadd;
        if r.2 then Ok (r.1, true) else try_outside r.1 maxsz toadd rest
  end.

(** [x1, y1, x2, y2] of [generate_pass]: the rectangle of tiles tried for
    the candidate cell [c]. *)
Definition candidate_rect (c : space) : Z * Z * Z * Z :=
  if bool_decide (sp_type c = s_edge) then
    if IS_VERTICAL_EDGE (sp_x c)
    then (sp_x c - 1, sp_y c, sp_x c + 1, sp_y c)
    else (sp_x c, sp_y c - 1, sp_x c, sp_y c + 1)
  else (sp_x c, sp_y c, sp_x c, sp_y c).

(** *** The random source: [random_bits], [random_upto], [shuffle] *)

Module Random.

(** [unsigned long] arithmetic, 64 bits wide. *)
Definition ulong (v : Z) : Z := v `mod` 2 ^ 64.

(** [struct random_state { unsigned long state[4]; }] *)
Record random_state : Type := mkRS {
  st0 : Z;
  st1 : Z;
  st2 : Z;
  st3 : Z
}.

(** [random_bits]: the value returned and the state after the call. *)
Definition random_bits (rs : random_state) (bits : Z) : Z * random_state :=
  let ret := Z.lxor (st0 rs) (ulong (Z.shiftl (st0 rs) 11)) in
  let s3 := Z.lxor (Z.lxor (st3 rs) (Z.shiftr (st3 rs) 19))
                   (Z.lxor ret (Z.shiftr ret 8)) in
  let rs' := mkRS (st1 rs) (st2 rs) (st3 rs) s3 in
  (if bits <? 32 then Z.land s3 (ulong (ulong (Z.shiftl 1 bits) - 1)) else s3, rs').

(** [while (max > 0) { bits++; max >>= 1; }]: at most one turn per bit of
    an [unsigned long]. *)
Fixpoint count_bits (fuel : nat) (bits max : Z) : Z :=
  match fuel with
  | O => bits
  | S fuel' => if 0 <? max then count_bits fuel' (bits + 1) (Z.shiftr max 1) else bits
  end.

(** [while (1) { ret = random_bits(rs, bits); if (ret < limit) return ret; }]:
    the loop has no bound, it is run with fuel. *)
Fixpoint draw (fuel : nat) (rs : random_state) (bits limit : Z)
  : option (Z * random_state) :=
  match fuel with
  | O => None
  | S fuel' =>
    let '(ret, rs') := random_bits rs bits in
    if ret <? limit then Some (ret, rs') else draw fuel' rs' bits limit
  end.

Definition random_upto (fuel : nat) (rs : random_state) (limit : Z)
  : option (Z * random_state) :=
  if limit =? 0 then Some (0, rs)
  else draw fuel rs (count_bits 64 0 limit) limit.

(** The three [memcpy] of [shuffle]: the elements at [i] and [j] change
    places. *)
Definition swap {A} (l : list A) (i j : nat) : list A :=
  match l !! i, l !! j with
  | Some a, Some b => <[j := a]> (<[i := b]> l)
  | _, _ => l
  end.

(** The turns of [for (i = nelts; i-- > 1; )] from the index [i] down
    to 1. *)
Fixpoint shuffle_from {A} (fuel : nat) (i : nat) (l : list A) (rs : random_state)
  : option (list A * random_state) :=
  match i with
  | O => Some (l, rs)
  | S i' =>
    match random_upto fuel rs (Z.of_nat (S i') + 1) with
    | None => None
    | Some (j, rs') =>
      shuffle_from fuel i' (if j =? Z.of_nat (S i') then l else swap l (S i') (Z.to_nat j)) rs'
    end
  end.

(** [shuffle(array, nelts, eltsize, rs)] on an array of [nelts] elements. *)
Definition shuffle {A} (fuel : nat) (l : list A) (rs : random_state)
  : option (list A * random_state) :=
  shuffle_from fuel (length l - 1) l rs.

End Random.

Section RandomSource.

(** The pseudo-random stream ([random_state], [random_bits], [random_upto])
    and the Fisher-Yates [shuffle] built on it only decide in which order
    cells are visited.  The generator is parameterised by the stream state and
    by [shuffle], which returns the shuffled array and the advanced stream;
    the source itself is [Random] above. *)
Variable random_state : Type.
Variable shuffle : forall A : Type, list A -> random_state -> list A * random_state.

Definition generate_try_block (s : game_state) (rs : random_state)
    (x1 y1 x2 y2 : Z) : result (game_state * random_state * bool) :=
  if (x1 <? 0) || (y1 <? 0) || (gs_sx s <=? x2) || (gs_sy s <=? y2)
  then Ok (s, rs, false)
  else if gs_ndots s =? 0 then Fault DivideByZero
  else
    let maxsz := Z.quot (gs_w s * gs_h s) (gs_ndots s) in
    let maxsz := if maxsz <? 4 then 4 else maxsz in
    do r <- collect_toadd s (block_cells x1 y1 x2 y2) [];
    match r with
    | None => Ok (s, rs, false)
    | Some toadd =>
      let '(outside, rs') := shuffle ptr (collect_outside s x1 y1 x2 y2) rs in
      do r <- try_outside s maxsz toadd outside;
      Ok (r.1, rs', r.2)
    end.

(** *** generate_pass *)

Definition GP_DOTS : Z := 1.

(** The body of the loop, for the candidate [scratch[i]]. *)
Definition generate_step (scratch : list Z) (flags : Z)
    (acc : game_state * random_state) (i : Z)
  : result (game_state * random_state) :=
  let '(s, rs) := acc in
  let sp : ptr := default 0 (scratch !! Z.to_nat i) in
  let c := deref s sp in
  let '(x1, y1, x2, y2) := candidate_rect c in
  do r <- (if bool_decide (sp_type c ≠ s_vertex)
           then generate_try_block s rs x1 y1 x2 y2
           else Ok (s, rs, false));
  let '(s, rs, done) := r in
  if done then Ok (s, rs)
  else if negb (has_flag flags GP_DOTS) then Ok (s, rs)
  else if bool_decide (sp_type (deref s sp) = s_edge) && negb (Z.rem i 2 =? 0)
  then Ok (s, rs)
  else if dot_is_possible s sp false then
    do r <- solver_obvious_dot (add_dot s sp) sp;
    Ok (r.1, rs)
  else Ok (s, rs).

Definition generate_pass (s : game_state) (rs : random_state) (scratch : list Z)
    (perc : Z) (flags : Z) : result (game_state * random_state) :=
  let sz := gs_sx s * gs_sy s in
  let nspc := Z.quot (perc * sz) 100 in
  let '(scratch, rs) := shuffle Z scratch rs in
  fold_res (generate_step scratch flags) (seqZ 0 nspc) (s, rs).

(** *** generate_new_game *)

(** Outline all tiles *)
Definition outline_all (s : game_state) : game_state :=
  foldl (fun st i =>
           if bool_decide (sp_type (deref st i) = s_tile)
           then (outline_tile_fordot st i true).1 else st)
        s (seqZ 0 (gs_sx s * gs_sy s)).

Definition generate_new_game (w h : Z) (rs : random_state)
  : result (game_state * random_state) :=
  let state := blank_game w h in
  let sz := gs_sx state * gs_sy state in
  let scratch := seqZ 0 sz in
  let state := clear_game state in
  do r <- generate_pass state rs scratch 100 GP_DOTS;
  let state := game_update_dots r.1 in
  Ok (outline_all state, r.2).

End RandomSource.

(** *** encode_game *)

(** [(char) n] for a code in the ASCII range. *)
Definition chr (n : Z) : ascii := ascii_of_nat (Z.to_nat n).

(** [while (run > 26) { *p++ = 'z'; run -= 26; }]: the letters written and
    the value of [run] on exit. *)
Fixpoint emit_zs (fuel : nat) (run : Z) : list ascii * Z :=
  match fuel with
  | O => ([], run)
  | S fuel' =>
    if 26 <? run
    then let '(out, r) := emit_zs fuel' (run - 26) in ("z"%char :: out, r)
    else ([], run)
  end.

(** The flush of a nonzero run: the [while] loop and [*p++ = 'a' + run - 1]. *)
Definition emit_run (run : Z) : list ascii :=
  let '(zs, r) := emit_zs (Z.to_nat run) run in
  zs ++ [chr (97 + r - 1)].

(** The body of the scan, for the cell at [(x, y)]: the pair is [run] and
    the text written so far. *)
Definition encode_step (s : game_state) (acc : Z * list ascii) (x y : Z)
  : Z * list ascii :=
  let '(run, out) := acc in
  let sp := deref s (SPACE s x y) in
  if has_flag (sp_flags sp) F_DOT then
    let out := if negb (run =? 0) then out ++ emit_run run else out in
    (0, out ++ [if has_flag (sp_flags sp) F_DOT_BLACK then "B"%char else "M"%char])
  else (run + 1, out).

Definition encode_game (s : game_state) : list ascii :=
  let '(run, out) :=
    foldl (fun acc y => foldl (fun acc x => encode_step s acc x y) acc (seqZ 0 (gs_sx s)))
          (0, []) (seqZ 0 (gs_sy s)) in
  if negb (run =? 0) then out ++ emit_run run else out.

End Generator.

(* ===================================================================== *)
(** ** The solvers: [src/solver/] *)
(* ===================================================================== *)

Module Solver.

(** *** Text helpers (the C and C++ library calls the parsers use) *)

Definition ord (c : ascii) : Z := Z.of_nat (nat_of_ascii c).

Definition is_digit (c : ascii) : bool := (48 <=? ord c) && (ord c <=? 57).

(** [isspace] in the C locale. *)
Definition is_space (c : ascii) : bool :=
  (ord c =? 32) || ((9 <=? ord c) && (ord c <=? 13)).

(** [std::string::find(c)] and [strchr]: the first position of [c]. *)
Fixpoint find_char (c : ascii) (s : list ascii) : option nat :=
  match s with
  | [] => None
  | a :: s' => if bool_decide (a = c) then Some O else S <$> find_char c s'
  end.

(** [std::string::substr(pos, len)] for [pos] within the string. *)
Definition substr (s : list ascii) (pos len : nat) : list ascii :=
  take len (drop pos s).

Fixpoint skip_spaces (s : list ascii) : list ascii :=
  match s with
  | c :: s' => if is_space c then skip_spaces s' else s
  | [] => []
  end.

(** The longest prefix of decimal digits, accumulated in [acc], and the
    rest of the text. *)
Fixpoint scan_digits (acc : Z) (s : list ascii) : Z * list ascii :=
  match s with
  | c :: s' => if is_digit c then scan_digits (10 * acc + (ord c - 48)) s' else (acc, s)
  | [] => (acc, [])
  end.

(** What [%d] and [strtol(.., 10)] read: blanks, an optional sign, at least
    one digit.  The result is the value and the unread rest. *)
Definition scan_int (s : list ascii) : option (Z * list ascii) :=
  let s := skip_spaces s in
  let '(neg, s) :=
    match s with
    | c :: s' => if bool_decide (c = "-"%char) then (true, s')
                 else if bool_decide (c = "+"%char) then (false, s')
                 else (false, s)
    | [] => (false, s)
    end in
  match s with
  | c :: _ =>
    if is_digit c then
      let '(n, rest) := scan_digits 0 s in
      Some (if neg then - n else n, rest)
    else None
  | [] => None
  end.

Definition INT_MAX : Z := 2147483647.
Definition INT_MIN : Z := -2147483648.
Definition LONG_MAX : Z := 9223372036854775807.
Definition LONG_MIN : Z := -9223372036854775808.

(** The value an [int] holds after a computation or a store whose exact
    result is [v]: the low 32 bits, in two's complement. *)
Definition int32 (v : Z) : Z := (v + 2147483648) `mod` 4294967296 - 2147483648.

(** [%d] of [sscanf]: the number is read as a [long], which saturates as
    [strtol] does, and stored into an [int], which keeps its low 32 bits
    (the C library of a 64-bit Linux; C itself leaves a number that does
    not fit undefined). *)
Definition scan_d (s : list ascii) : option (Z * list ascii) :=
  match scan_int s with
  | Some (n, rest) => Some (int32 (Z.max LONG_MIN (Z.min LONG_MAX n)), rest)
  | None => None
  end.

(** [std::stoi]: [None] when it throws ([invalid_argument], [out_of_range]). *)
Definition stoi (s : list ascii) : option Z :=
  match scan_int s with
  | Some (n, _) => if (INT_MIN <=? n) && (n <=? INT_MAX) then Some n else None
  | None => None
  end.

(** *** Puzzle and Dot *)

Record Dot : Type := mkDot {
  dot_x : Z;
  dot_y : Z;
  dot_is_black : bool
}.

Record Puzzle : Type := mkPuzzle {
  pz_w : Z;
  pz_h : Z;
  pz_sx : Z;
  pz_sy : Z;
  pz_dots : list Dot
}.

(** The body of the loop over [data]: [pos] and the dots read so far. *)
Definition decode_char (sx : Z) (acc : Z * list Dot) (c : ascii) : Z * list Dot :=
  let '(pos, dots) := acc in
  if bool_decide (c = "M"%char)
  then (pos + 1, dots ++ [mkDot (Z.rem pos sx) (Z.quot pos sx) false])
  else if bool_decide (c = "B"%char)
  then (pos + 1, dots ++ [mkDot (Z.rem pos sx) (Z.quot pos sx) true])
  else if (97 <=? ord c) && (ord c <=? 122)
  then (pos + (ord c - 97 + 1), dots)
  else (pos, dots).

Definition decode_data (sx : Z) (data : list ascii) : list Dot :=
  (foldl (decode_char sx) (0, []) data).2.

(** [Puzzle::fromGameId] (the same text in the three C++ solvers);
    [None] is [nullptr]. *)
Definition fromGameId (game_id : list ascii) : option Puzzle :=
  match find_char ":"%char game_id with
  | None => None
  | Some colon =>
    match find_char "x"%char game_id with
    | None => None
    | Some xpos =>
      if bool_decide (colon < xpos)%nat then None
      else
        match stoi (substr game_id 0 xpos),
              stoi (substr game_id (xpos + 1) (colon - (xpos + 1))) with
        | Some w, Some h =>
          let sx := int32 (2 * w + 1) in
          let sy := int32 (2 * h + 1) in
          let data := drop (colon + 1) game_id in
          Some (mkPuzzle w h sx sy (decode_data sx data))
        | _, _ => None
        end
    end
  end.

(** [parse_game_id] of [seq_solver.c] and [openmp_solver.c]; [None] is NULL.
    [dots] is a fixed array of [MAX_DOTS] entries in the source. *)
Definition parse_game_id (game_id : list ascii) : option Puzzle :=
  match find_char ":"%char game_id with
  | None => None
  | Some colon =>
    match scan_d game_id with
    | Some (w, "x"%char :: rest) =>
      match scan_d rest with
      | Some (h, _) =>
        let sx := int32 (2 * w + 1) in
        let sy := int32 (2 * h + 1) in
        let data := drop (colon + 1) game_id in
        Some (mkPuzzle w h sx sy (decode_data sx data))
      | None => None
      end
    | _ => None
    end
  end.

(** *** The tile grid of a search state *)

(** [static_cast<int16_t>(d)] and the store of an [int] into [int8_t]. *)
Definition int16 (d : Z) : Z := (d + 32768) `mod` 65536 - 32768.
Definition int8 (d : Z) : Z := (d + 128) `mod` 256 - 128.

(** [grid[y][x]]; every read in the solvers is guarded by a bounds test. *)
Definition at_ (g : list (list Z)) (x y : Z) : Z :=
  default 0 (g !! Z.to_nat y ≫= fun row => row !! Z.to_nat x).

(** [grid[y][x] = v] *)
Definition set_at (g : list (list Z)) (x y v : Z) : list (list Z) :=
  alter (fun row => <[Z.to_nat x := v]> row) (Z.to_nat y) g.

(** [class State] of [seq_solver.cpp]; in the DFS solvers the same three
    values are the members [grid_], [filled_count_] and [current_hash_]. *)
Record State : Type := mkSt {
  grid : list (list Z);
  filledCount : Z;
  hash : Z
}.

(** [State(w, h)] with [filledCount = 0] and [hash = 0]. *)
Definition initial_state (w h : Z) : State :=
  mkSt (replicate (Z.to_nat h) (replicate (Z.to_nat w) (-1))) 0 0.

(** [getSymmetricTile] / [get_symmetric_tile] *)
Definition getSymmetricTile (dot_x dot_y tx ty : Z) : Z * Z :=
  let cx := tx * 2 + 1 in
  let cy := ty * 2 + 1 in
  let rx := 2 * dot_x - cx in
  let ry := 2 * dot_y - cy in
  (Z.quot (rx - 1) 2, Z.quot (ry - 1) 2).

(** [touchesDot] / [touches_dot] *)
Definition touchesDot (dot_x dot_y tx ty : Z) : bool :=
  let cx := tx * 2 + 1 in
  let cy := ty * 2 + 1 in
  (Z.abs (cx - dot_x) <=? 1) && (Z.abs (cy - dot_y) <=? 1).

Definition dirs : list (Z * Z) := [(1, 0); (-1, 0); (0, 1); (0, -1)].

(** [struct Move] of the DFS solvers. *)
Record Move : Type := mkMove {
  mv_tx : Z;
  mv_ty : Z;
  mv_d : Z;
  mv_sx : Z;
  mv_sy : Z;
  symmetric_was_empty : bool
}.

(** The outcome of a search: the loops of the solvers are run with fuel. *)
Inductive outcome (A : Type) : Type :=
| Found (a : A)
| NoSolution
| OutOfFuel.
Arguments Found {A} a.
Arguments NoSolution {A}.
Arguments OutOfFuel {A}.

Section WithPuzzle.

(** The puzzle [p_] and the Zobrist table, [zobrist cell dot], filled with
    random 64-bit values when the solver is constructed. *)
Variable p_ : Puzzle.
Variable zobrist : Z -> Z -> Z.

Definition dot_of (d : Z) : Dot :=
  default (mkDot 0 0 false) (pz_dots p_ !! Z.to_nat d).

Definition inTileBounds (tx ty : Z) : bool :=
  (0 <=? tx) && (tx <? pz_w p_) && (0 <=? ty) && (ty <? pz_h p_).

Definition isValidTile (s : State) (tx ty : Z) : bool :=
  if negb (inTileBounds tx ty) then false else at_ (grid s) tx ty =? -1.

(** [tryFill]: the state after the call and the value returned. *)
Definition tryFill (s : State) (tx ty d : Z) : State * bool :=
  if negb (inTileBounds tx ty) then (s, true)  (* out-of-bounds is ignored *)
  else
    let cur := at_ (grid s) tx ty in
    if cur =? -1 then
      (mkSt (set_at (grid s) tx ty (int16 d))
            (filledCount s + 1)
            (Z.lxor (hash s) (zobrist (ty * pz_w p_ + tx) d)),
       true)
    else (s, cur =? d).

(** The tiles [seedForcedTiles] passes to [tryFill] for a dot at
    [(dx, dy)], in the order of the calls. *)
Definition forced_tiles (dx dy : Z) : list (Z * Z) :=
  let oddx := negb (Z.rem dx 2 =? 0) in
  let oddy := negb (Z.rem dy 2 =? 0) in
  if oddx && oddy then
    [(Z.quot (dx - 1) 2, Z.quot (dy - 1) 2)]
  else if oddx && negb oddy then
    let tx := Z.quot (dx - 1) 2 in
    [(tx, Z.quot dy 2 - 1); (tx, Z.quot dy 2)]
  else if negb oddx && oddy then
    let ty := Z.quot (dy - 1) 2 in
    [(Z.quot dx 2 - 1, ty); (Z.quot dx 2, ty)]
  else
    let tx1 := Z.quot dx 2 - 1 in
    let tx2 := Z.quot dx 2 in
    let ty1 := Z.quot dy 2 - 1 in
    let ty2 := Z.quot dy 2 in
    [(tx1, ty1); (tx1, ty2); (tx2, ty1); (tx2, ty2)].

(** [!tryFill(..) || !tryFill(..) || ...]: the calls stop at the first
    failure. *)
Fixpoint tryFill_all (s : State) (tiles : list (Z * Z)) (d : Z) : State * bool :=
  match tiles with
  | [] => (s, true)
  | (tx, ty) :: rest =>
    let '(s1, ok) := tryFill s tx ty d in
    if ok then tryFill_all s1 rest d else (s1, false)
  end.

(** The loop of [seedForcedTiles] over the dots [ds], numbered from [d]. *)
Fixpoint seed_from (s : State) (d : Z) (ds : list Dot) : State * bool :=
  match ds with
  | [] => (s, true)
  | dot :: rest =>
    let '(s1, ok) := tryFill_all s (forced_tiles (dot_x dot) (dot_y dot)) d in
    if ok then seed_from s1 (d + 1) rest else (s1, false)
  end.

Definition seedForcedTiles (s : State) : State * bool :=
  seed_from s 0 (pz_dots p_).

Definition allDotsUsed (s : State) : bool :=
  let nd := Z.of_nat (length (pz_dots p_)) in
  let used :=
    foldl (fun used y =>
             foldl (fun used x =>
                      let v := at_ (grid s) x y in
                      if (0 <=? v) && (v <? nd) then <[Z.to_nat v := true]> used
                      else used)
                   used (seqZ 0 (pz_w p_)))
          (replicate (length (pz_dots p_)) false) (seqZ 0 (pz_h p_)) in
  forallb id used.

(** The tiles of the board in the order of
    [for (y = 0; y < h; ++y) for (x = 0; x < w; ++x)]. *)
Definition tiles : list (Z * Z) :=
  y ← seqZ 0 (pz_h p_); (fun x => (x, y)) <$> seqZ 0 (pz_w p_).

(** **** Breadth-first search: [Solver::solve] of [seq_solver.cpp] *)

(** The triples [(nx, ny, d)] for which the loops reach [State next = s],
    in the order of the loops. *)
Definition bfs_candidates (s : State) : list (Z * Z * Z) :=
  '(x, y) ← tiles;
  if negb (at_ (grid s) x y =? -1) then
    let d := at_ (grid s) x y in
    dir ← dirs;
    let nx := x + dir.1 in
    let ny := y + dir.2 in
    if negb (isValidTile s nx ny) then []
    else
      let '(sx, sy) := getSymmetricTile (dot_x (dot_of d)) (dot_y (dot_of d)) nx ny in
      if isValidTile s sx sy || ((nx =? sx) && (ny =? sy)) then [(nx, ny, d)] else []
  else [].

(** The successor built for a candidate; [None] is the [continue] of the
    inner [else]. *)
Definition bfs_successor (s : State) (c : Z * Z * Z) : option State :=
  let '(nx, ny, d) := c in
  let '(sx, sy) := getSymmetricTile (dot_x (dot_of d)) (dot_y (dot_of d)) nx ny in
  let next := mkSt (set_at (grid s) nx ny (int16 d))
                   (filledCount s + 1)
                   (Z.lxor (hash s) (zobrist (ny * pz_w p_ + nx) d)) in
  if negb (nx =? sx) || negb (ny =? sy) then
    if at_ (grid next) sx sy =? -1 then
      Some (mkSt (set_at (grid next) sx sy (int16 d))
                 (filledCount next + 1)
                 (Z.lxor (hash next) (zobrist (sy * pz_w p_ + sx) d)))
    else None
  else Some next.

(** [if (visited_.insert(next.hash).second) q.push(next)] *)
Definition bfs_push (acc : list State * gset Z) (c : option State)
  : list State * gset Z :=
  match c with
  | None => acc
  | Some next =>
    let '(q, visited) := acc in
    if bool_decide (hash next ∈ visited) then acc
    else (q ++ [next], {[hash next]} ∪ visited)
  end.

Fixpoint bfs_loop (fuel : nat) (q : list State) (visited : gset Z) : outcome State :=
  match fuel with
  | O => OutOfFuel
  | S fuel' =>
    match q with
    | [] => NoSolution
    | s :: q' =>
      if filledCount s =? pz_w p_ * pz_h p_ then
        if allDotsUsed s then Found s else bfs_loop fuel' q' visited
      else
        let '(q'', visited') :=
          foldl bfs_push (q', visited) (bfs_successor s <$> bfs_candidates s) in
        bfs_loop fuel' q'' visited'
    end
  end.

(** [Solver::solve] of [seq_solver.cpp]; a seeding conflict returns
    [std::nullopt] before the queue exists. *)
Definition solve_bfs (fuel : nat) : outcome State :=
  let '(initial, ok) := seedForcedTiles (initial_state (pz_w p_) (pz_h p_)) in
  if negb ok then NoSolution
  else bfs_loop fuel [initial] {[hash initial]}.

(** **** Depth-first search: [seq_solver_dfs.cpp] *)

Definition already_added (moves : list Move) (x y d : Z) : bool :=
  existsb (fun m => (mv_tx m =? x) && (mv_ty m =? y) && (mv_d m =? d)) moves.

(** The body of the loop over [dirs] in [Solver::dfs]. *)
Definition dfs_moves_step (s : State) (x y : Z) (moves : list Move) (dir : Z * Z)
  : list Move :=
  let nx := x + dir.1 in
  let ny := y + dir.2 in
  if inTileBounds nx ny && negb (at_ (grid s) nx ny =? -1) then
    let d := at_ (grid s) nx ny in
    if already_added moves x y d then moves
    else
      let '(sx, sy) := getSymmetricTile (dot_x (dot_of d)) (dot_y (dot_of d)) x y in
      if isValidTile s sx sy || ((sx =? x) && (sy =? y)) then
        let sym_empty := at_ (grid s) sx sy =? -1 in
        if negb sym_empty && negb (at_ (grid s) sx sy =? d) then moves
        else moves ++ [mkMove x y d sx sy sym_empty]
      else moves
  else moves.

(** The move list [Solver::dfs] builds. *)
Definition dfs_moves (s : State) : list Move :=
  foldl (fun moves '(x, y) =>
           if at_ (grid s) x y =? -1
           then foldl (dfs_moves_step s x y) moves dirs
           else moves)
        [] tiles.

Definition applyMove (m : Move) (s : State) : State :=
  let s1 := mkSt (set_at (grid s) (mv_tx m) (mv_ty m) (int16 (mv_d m)))
                 (filledCount s + 1)
                 (Z.lxor (hash s) (zobrist (mv_ty m * pz_w p_ + mv_tx m) (mv_d m))) in
  if (negb (mv_tx m =? mv_sx m) || negb (mv_ty m =? mv_sy m)) && symmetric_was_empty m
  then mkSt (set_at (grid s1) (mv_sx m) (mv_sy m) (int16 (mv_d m)))
            (filledCount s1 + 1)
            (Z.lxor (hash s1) (zobrist (mv_sy m * pz_w p_ + mv_sx m) (mv_d m)))
  else s1.

Definition undoMove (m : Move) (s : State) : State :=
  let s1 := mkSt (set_at (grid s) (mv_tx m) (mv_ty m) (-1))
                 (filledCount s - 1)
                 (Z.lxor (hash s) (zobrist (mv_ty m * pz_w p_ + mv_tx m) (mv_d m))) in
  if (negb (mv_tx m =? mv_sx m) || negb (mv_ty m =? mv_sy m)) && symmetric_was_empty m
  then mkSt (set_at (grid s1) (mv_sx m) (mv_sy m) (-1))
            (filledCount s1 - 1)
            (Z.lxor (hash s1) (zobrist (mv_sy m * pz_w p_ + mv_sx m) (mv_d m)))
  else s1.

(** [Solver::dfs]: the state and the visited set after the call, and the
    value returned.  [dfs_try] is the loop over the moves. *)
Fixpoint dfs (fuel : nat) (s : State) (visited : gset Z)
  : outcome (State * gset Z * bool) :=
  match fuel with
  | O => OutOfFuel
  | S fuel' =>
    if filledCount s =? pz_w p_ * pz_h p_ then Found (s, visited, allDotsUsed s)
    else
      (fix dfs_try (moves : list Move) (s : State) (visited : gset Z)
         : outcome (State * gset Z * bool) :=
         match moves with
         | [] => Found (s, visited, false)
         | m :: rest =>
           let s1 := applyMove m s in
           if bool_decide (hash s1 ∈ visited)
           then dfs_try rest (undoMove m s1) visited
           else
             match dfs fuel' s1 ({[hash s1]} ∪ visited) with
             | Found (s2, visited2, true) => Found (s2, visited2, true)
             | Found (s2, visited2, false) => dfs_try rest (undoMove m s2) visited2
             | NoSolution => NoSolution
             | OutOfFuel => OutOfFuel
             end
         end) (dfs_moves s) s visited
  end.

(** [Solver::solve] of [seq_solver_dfs.cpp]. *)
Definition solve_dfs (fuel : nat) : outcome (State * bool) :=
  let '(s, ok) := seedForcedTiles (initial_state (pz_w p_) (pz_h p_)) in
  if negb ok then Found (s, false)
  else
    match dfs fuel s {[hash s]} with
    | Found (s', _, r) => Found (s', r)
    | NoSolution => NoSolution
    | OutOfFuel => OutOfFuel
    end.

(** **** [Solver::generateMoves] of [openmp_solver_dfs.cpp] *)

Definition generateMoves_step (s : State) (x y : Z) (moves : list Move) (dir : Z * Z)
  : list Move :=
  let nx := x + dir.1 in
  let ny := y + dir.2 in
  if negb (inTileBounds nx ny) then moves
  else
    let d := at_ (grid s) nx ny in
    if d =? -1 then moves
    else if already_added moves x y d then moves
    else
      let '(sx, sy) := getSymmetricTile (dot_x (dot_of d)) (dot_y (dot_of d)) x y in
      if negb (inTileBounds sx sy) then moves
      else
        let sym_empty := at_ (grid s) sx sy =? -1 in
        if negb sym_empty && negb (at_ (grid s) sx sy =? d) then moves
        else moves ++ [mkMove x y d sx sy sym_empty].

Definition generateMoves (s : State) : list Move :=
  foldl (fun moves '(x, y) =>
           if negb (at_ (grid s) x y =? -1) then moves
           else foldl (generateMoves_step s x y) moves dirs)
        [] tiles.

(** **** [Solver::solve] of [openmp_solver_dfs.cpp], up to the search

    [solve] seeds the forced tiles and returns false when the seeding
    fails; it then marks the seeded state as visited.  With more than one
    thread it builds the list of root moves and returns false when the list
    is empty; otherwise the workers share the root moves.  With one thread,
    or compiled without OpenMP, it runs [dfs] sequentially.  The searches
    themselves (threads, atomics, the shared visited set) are not embedded:
    [omp_workers] and [omp_sequential] are the points where they start. *)
Inductive omp_start : Type :=
| omp_false (s : State)                                        (* return false *)
| omp_workers (s : State) (visited : gset Z) (root_moves : list Move)
| omp_sequential (s : State) (visited : gset Z).

Definition solve_omp_start (max_threads : Z) : omp_start :=
  let '(s, ok) := seedForcedTiles (initial_state (pz_w p_) (pz_h p_)) in
  if negb ok then omp_false s
  else
    let visited : gset Z := {[hash s]} in
    if 1 <? max_threads then
      match generateMoves s with
      | [] => omp_false s
      | root_moves => omp_workers s visited root_moves
      end
    else omp_sequential s visited.

End WithPuzzle.

(** **** The C solver: [solve] of [seq_solver.c] *)

Section CSolver.

Variable p : Puzzle.
(** [zobrist_table], filled by [init_zobrist] from [rand]. *)
Variable zobrist_table : Z -> Z -> Z.

Definition MAX_W : Z := 20.
Definition MAX_H : Z := 20.
Definition MAX_DOTS : Z := 100.

Definition is_valid_tile (s : State) (w h tx ty : Z) : bool :=
  if (tx <? 0) || (w <=? tx) || (ty <? 0) || (h <=? ty) then false
  else at_ (grid s) tx ty =? -1.

(** [memset(initial->grid, -1, ..)], [filled_count = 0], [hash = 0]. *)
Definition c_initial : State :=
  mkSt (replicate (Z.to_nat MAX_H) (replicate (Z.to_nat MAX_W) (-1))) 0 0.

(** Pre-fill tiles that have dots in their center: the loop over the dots
    [ds], numbered from [i]; [None] is the return after
    "Error: Overlapping dots?".  [solve] of [openmp_solver.c] starts with
    the same loop. *)
Fixpoint prefill (s : State) (i : Z) (ds : list Dot) : option State :=
  match ds with
  | [] => Some s
  | dot :: rest =>
    let dx := dot_x dot in
    let dy := dot_y dot in
    if negb (Z.rem dx 2 =? 0) && negb (Z.rem dy 2 =? 0) then
      let tx := Z.quot (dx - 1) 2 in
      let ty := Z.quot (dy - 1) 2 in
      if at_ (grid s) tx ty =? -1 then
        prefill (mkSt (set_at (grid s) tx ty (int8 i))
                      (filledCount s + 1)
                      (Z.lxor (hash s) (zobrist_table (ty * pz_w p + tx) i)))
                (i + 1) rest
      else None
    else prefill s (i + 1) rest
  end.

(** The block that follows "Check symmetry" (it occurs three times in
    [solve]): build the successor of [s] that gives [(tx, ty)] and its mirror
    image to [d], and enqueue it unless its hash was visited. *)
Definition try_pair (s : State) (d tx ty : Z) (acc : list State * gset Z)
  : list State * gset Z :=
  let dx := dot_x (dot_of p d) in
  let dy := dot_y (dot_of p d) in
  let '(sym_x, sym_y) := getSymmetricTile dx dy tx ty in
  if is_valid_tile s (pz_w p) (pz_h p) sym_x sym_y
     || ((tx =? sym_x) && (ty =? sym_y)) then
    let next := mkSt (set_at (grid s) tx ty (int8 d))
                     (filledCount s + 1)
                     (Z.lxor (hash s) (zobrist_table (ty * pz_w p + tx) d)) in
    let next' :=
      if negb (tx =? sym_x) || negb (ty =? sym_y) then
        if at_ (grid next) sym_x sym_y =? -1 then
          Some (mkSt (set_at (grid next) sym_x sym_y (int8 d))
                     (filledCount next + 1)
                     (Z.lxor (hash next) (zobrist_table (sym_y * pz_w p + sym_x) d)))
        else None
      else Some next in
    bfs_push acc next'
  else acc.

(** Check neighbors of existing tiles *)
Definition expand_neighbors (s : State) (d : Z) (acc : list State * gset Z)
  : list State * gset Z :=
  foldl (fun acc '(x, y) =>
           if at_ (grid s) x y =? d then
             foldl (fun acc '(nx, ny) =>
                      if is_valid_tile s (pz_w p) (pz_h p) nx ny
                      then try_pair s d nx ny acc else acc)
                   acc [(x + 1, y); (x - 1, y); (x, y + 1); (x, y - 1)]
           else acc)
        acc (tiles p).

Definition has_tiles (s : State) (d : Z) : bool :=
  existsb (fun '(x, y) => at_ (grid s) x y =? d) (tiles p).

(** Check tiles touching the dot *)
Definition expand_touching (s : State) (d : Z) (acc : list State * gset Z)
  : list State * gset Z :=
  let dx := dot_x (dot_of p d) in
  let dy := dot_y (dot_of p d) in
  let ctx := Z.quot (dx - 1) 2 in
  let cty := Z.quot (dy - 1) 2 in
  foldl (fun acc ty =>
           foldl (fun acc tx =>
                    if is_valid_tile s (pz_w p) (pz_h p) tx ty && touchesDot dx dy tx ty
                    then try_pair s d tx ty acc else acc)
                 acc (seqZ (ctx - 1) 3))
        acc (seqZ (cty - 1) 3).

(** Try to expand each dot *)
Definition expand_dot (s : State) (acc : list State * gset Z) (d : Z)
  : list State * gset Z :=
  let acc := expand_neighbors s d acc in
  if negb (has_tiles s d) then expand_touching s d acc
  else expand_touching s d acc.

Definition all_dots_used (s : State) : bool :=
  forallb (fun i => existsb (fun '(x, y) => at_ (grid s) x y =? i) (tiles p))
          (seqZ 0 (Z.of_nat (length (pz_dots p)))).

Fixpoint c_loop (fuel : nat) (q : list State) (visited : gset Z) : outcome State :=
  match fuel with
  | O => OutOfFuel
  | S fuel' =>
    match q with
    | [] => NoSolution
    | s :: q' =>
      if filledCount s =? pz_w p * pz_h p then
        if all_dots_used s then Found s else c_loop fuel' q' visited
      else
        let '(q'', visited') :=
          foldl (expand_dot s) (q', visited) (seqZ 0 (Z.of_nat (length (pz_dots p)))) in
        c_loop fuel' q'' visited'
    end
  end.

(** [solve]: [Found (Some s)] prints the solution [s], [Found None] is the
    return after "Error: Overlapping dots?", [NoSolution] prints
    "No solution found.". *)
Definition solve (fuel : nat) : outcome (option State) :=
  match prefill c_initial 0 (pz_dots p) with
  | None => Found None
  | Some initial =>
    match c_loop fuel [initial] {[hash initial]} with
    | Found s => Found (Some s)
    | NoSolution => NoSolution
    | OutOfFuel => OutOfFuel
    end
  end.

End CSolver.

End Solver.


(* ===================================================================== *)
(** * Part II: the vocabulary of the properties *)
(* ===================================================================== *)

Import Generator Solver.

(** ** Generator boards *)

(** Pointers into the grid. *)
Definition valid (s : game_state) (p : ptr) : Prop :=
  0 <= p < Z.of_nat (length (gs_grid s)).

(** The dimensions, the size of the grid and the constant fields of its
    cells, as [blank_game] sets them. *)
Record shape (s : game_state) : Prop := {
  shape_sx : 0 < gs_sx s;
  shape_sy : 0 < gs_sy s;
  shape_len : Z.of_nat (length (gs_grid s)) = gs_sx s * gs_sy s;
  shape_cell : forall x y, INGRID s x y = true ->
    sp_x (deref s (SPACE s x y)) = x /\
    sp_y (deref s (SPACE s x y)) = y /\
    sp_type (deref s (SPACE s x y)) = sp_type (init_space x y)
}.

(** An update of a cell that keeps its coordinates and its type. *)
Definition keeps_cell (f : space -> space) : Prop :=
  forall c, sp_x (f c) = sp_x c /\ sp_y (f c) = sp_y c /\ sp_type (f c) = sp_type c.

(** A loop of stores, one per cell of [cs]. *)
Definition store_all (g : Z * Z -> space -> space) (s : game_state)
    (cs : list (Z * Z)) : game_state :=
  foldl (fun st c => store st (SPACE st c.1 c.2) (g c)) s cs.

Definition on_border (sx sy x y : Z) : bool :=
  (x =? 0) || (y =? 0) || (x =? sx - 1) || (y =? sy - 1).

Definition is_tile (s : game_state) (t : ptr) : Prop :=
  valid s t /\ sp_type (deref s t) = s_tile.

Definition is_assoc (s : game_state) (t : ptr) : Prop :=
  has_flag (sp_flags (deref s t)) F_TILE_ASSOC = true.

Definition is_dot (s : game_state) (d : ptr) : Prop :=
  valid s d /\ has_flag (sp_flags (deref s d)) F_DOT = true.

(** The tiles whose recorded owning-dot coordinates are [(dx, dy)]. *)
Definition owned_tiles (s : game_state) (dx dy : Z) : list ptr :=
  filter (fun t => sp_type (deref s t) = s_tile /\
                   sp_dotx (deref s t) = dx /\ sp_doty (deref s t) = dy)
         (seqZ 0 (gs_sx s * gs_sy s)).

(** Every dot's [nassoc] is the number of tiles recorded for it. *)
Definition nassoc_ok (s : game_state) : Prop :=
  forall d, is_dot s d ->
    sp_nassoc (deref s d)
    = Z.of_nat (length (owned_tiles s (sp_x (deref s d)) (sp_y (deref s d)))).

(** The elementary step of the generator: give the tile [t] to [dot] and
    count it ([tile->flags |= F_TILE_ASSOC; tile->dotx = dot->x;
    tile->doty = dot->y; dot->nassoc++]). *)
Definition assoc_to (dot t : ptr) (s : game_state) : game_state :=
  store (store s t (associate (sp_x (deref s dot)) (sp_y (deref s dot))))
        dot incr_nassoc.

(** What the generator keeps true of its board besides [nassoc_ok]:
    - a tile that is not associated records [(-1,-1)] (after [clear_game])
      or [(0,0)] (after [blank_game]);
    - an associated tile records the coordinates of a dot;
    - the cells of the frame are edge-set and the corner cell [(0,0)] is
      not a dot;
    - every tile that touches a dot is associated. *)
Definition free_record (s : game_state) : Prop :=
  forall t, is_tile s t -> ~ is_assoc s t ->
    (sp_dotx (deref s t) = -1 /\ sp_doty (deref s t) = -1) \/
    (sp_dotx (deref s t) = 0 /\ sp_doty (deref s t) = 0).

Definition assoc_record (s : game_state) : Prop :=
  forall t, is_tile s t -> is_assoc s t ->
    exists d, is_dot s d /\
      sp_dotx (deref s t) = sp_x (deref s d) /\ sp_doty (deref s t) = sp_y (deref s d).

Definition framed (s : game_state) : Prop :=
  (forall x y, INGRID s x y = true -> on_border (gs_sx s) (gs_sy s) x y = true ->
     has_flag (sp_flags (deref s (SPACE s x y))) F_EDGE_SET = true) /\
  has_flag (sp_flags (deref s 0)) F_DOT = false.

Definition touching (s : game_state) (d t : ptr) : Prop :=
  Z.abs (sp_x (deref s t) - sp_x (deref s d)) <= 1 /\
  Z.abs (sp_y (deref s t) - sp_y (deref s d)) <= 1.

Definition dots_surrounded (s : game_state) : Prop :=
  forall d t, is_dot s d -> is_tile s t -> touching s d t -> is_assoc s t.

Record gen_inv (s : game_state) : Prop := {
  inv_shape : shape s;
  inv_nassoc : nassoc_ok s;
  inv_free : free_record s;
  inv_assoc : assoc_record s;
  inv_framed : framed s;
  inv_surrounded : dots_surrounded s
}.

(** A property of boards that holds as long as tiles are only given to
    [dot], one free tile at a time. *)
Definition step_closed (dot : ptr) (P : game_state -> Prop) : Prop :=
  (forall s, P s -> shape s /\ is_dot s dot) /\
  (forall s t, P s -> is_tile s t -> ~ is_assoc s t -> P (assoc_to dot t s)).

(** The blocks [generate_try_block] passes to [dot_expand_or_move]:
    distinct tiles, none of them associated, none the mirror image of
    another about [dot]. *)
Definition block_ok (s : game_state) (dot : ptr) (toadd : list ptr) : Prop :=
  NoDup toadd /\
  (forall t, t ∈ toadd -> is_tile s t /\ ~ is_assoc s t) /\
  (forall t t', t ∈ toadd -> t' ∈ toadd ->
     space_opposite_dot s t dot = Some t' -> t = t').

#[global] Instance is_tile_dec s t : Decision (is_tile s t).
Proof. unfold is_tile, valid. apply _. Defined.

#[global] Instance is_assoc_dec s t : Decision (is_assoc s t).
Proof. unfold is_assoc. apply _. Defined.

(** The tiles associated in [s'] that were not in [s]. *)
Definition newly_assoc (s s' : game_state) : list ptr :=
  filter (fun q => is_tile s' q /\ is_assoc s' q /\ ~ is_assoc s q)
         (seqZ 0 (gs_sx s * gs_sy s)).

(** The tile [q] is associated to the dot at [d]. *)
Definition assoc_with (s : game_state) (d q : ptr) : Prop :=
  is_assoc s q /\
  sp_dotx (deref s q) = sp_x (deref s d) /\ sp_doty (deref s q) = sp_y (deref s d).

(** The mirror image of the tile [t] about [dot], in coordinates. *)
Definition mirror_x (s : game_state) (dot t : ptr) : Z :=
  2 * sp_x (deref s dot) - sp_x (deref s t).
Definition mirror_y (s : game_state) (dot t : ptr) : Z :=
  2 * sp_y (deref s dot) - sp_y (deref s t).

(** The tile [t] cannot join [dot]: its mirror image is out of bounds or
    associated to another dot. *)
Definition rejects (s : game_state) (dot t : ptr) : Prop :=
  INGRID s (mirror_x s dot t) (mirror_y s dot t) = false \/
  (is_assoc s (SPACE s (mirror_x s dot t) (mirror_y s dot t)) /\
   ~ assoc_with s dot (SPACE s (mirror_x s dot t) (mirror_y s dot t))).

(** What the growth of a region keeps: tiles stay associated, and the
    [nassoc] of [dot] grows with the number of newly associated tiles. *)
Definition counted (s0 : game_state) (dot : ptr) (s : game_state) : Prop :=
  shape s /\ is_dot s dot /\
  gs_sx s = gs_sx s0 /\ gs_sy s = gs_sy s0 /\
  (forall q, 0 <= q -> is_assoc s0 q -> is_assoc s q) /\
  sp_nassoc (deref s dot)
  = sp_nassoc (deref s0 dot) + Z.of_nat (length (newly_assoc s0 s)).

Definition centre_dot_board : game_state := add_dot (clear_game (blank_game 2 1)) 6.

(** What the pass keeps: the shape of the board and a dot count of zero
    ([ndots] is written by [blank_game], [clear_game] and
    [game_update_dots] only). *)
Definition pass_inv (s0 s : game_state) : Prop :=
  shape s /\ gs_ndots s = 0 /\ gs_sx s = gs_sx s0 /\ gs_sy s = gs_sy s0.

(** ** Solver states *)

(** A grid of [h] rows of [w] tiles. *)
Definition grid_dims (w h : Z) (g : list (list Z)) : Prop :=
  length g = Z.to_nat h /\ Forall (fun row => length row = Z.to_nat w) g.

(** What the parsers produce and the solvers rely on: a board that is not
    negative, dots at non-negative coordinates, and dot indices that fit
    the [int16_t] cells of the grid. *)
Record puzzle_ok (p : Puzzle) : Prop := {
  ok_w : 0 <= pz_w p;
  ok_h : 0 <= pz_h p;
  ok_ndots : Z.of_nat (length (pz_dots p)) <= 32767;
  ok_dots : Forall (fun d => 0 <= dot_x d /\ 0 <= dot_y d) (pz_dots p)
}.

(** The tile [(tx, ty)] touches the dot of index [d]. *)
Definition touches (p : Puzzle) (d : Z) (tx ty : Z) : Prop :=
  touchesDot (dot_x (dot_of p d)) (dot_y (dot_of p d)) tx ty = true.

(** The XOR of the Zobrist entries of the assigned tiles. *)
Definition zobrist_sum (p : Puzzle) (zobrist : Z -> Z -> Z) (g : list (list Z)) : Z :=
  foldl (fun acc '(x, y) =>
           if at_ g x y =? -1 then acc
           else Z.lxor acc (zobrist (y * pz_w p + x) (at_ g x y)))
        0 (tiles p).

(** The Zobrist entry of a tile, or 0 when it is unassigned. *)
Definition zobrist_term (p : Puzzle) (zobrist : Z -> Z -> Z) (g : list (list Z))
    (c : Z * Z) : Z :=
  if at_ g c.1 c.2 =? -1 then 0 else zobrist (c.2 * pz_w p + c.1) (at_ g c.1 c.2).

(** The number of assigned tiles. *)
Definition filled (p : Puzzle) (g : list (list Z)) : Z :=
  Z.of_nat (length (filter (fun '(x, y) => at_ g x y <> -1) (tiles p))).

(** The mirror image of an assigned tile about its dot is the tile itself,
    out of bounds, or assigned to the same dot. *)
Definition symmetric (p : Puzzle) (g : list (list Z)) : Prop :=
  forall x y, inTileBounds p x y = true -> at_ g x y <> -1 ->
    let d := at_ g x y in
    let '(sx, sy) := getSymmetricTile (dot_x (dot_of p d)) (dot_y (dot_of p d)) x y in
    inTileBounds p sx sy = true -> at_ g sx sy = d.

(** Every cell holds [-1] or the index of a dot. *)
Definition cells_ok (p : Puzzle) (g : list (list Z)) : Prop :=
  forall x y, inTileBounds p x y = true ->
    at_ g x y = -1 \/ 0 <= at_ g x y < Z.of_nat (length (pz_dots p)).

(** The invariant of the search states. *)
Record state_ok (p : Puzzle) (zobrist : Z -> Z -> Z) (s : State) : Prop := {
  st_dims : grid_dims (pz_w p) (pz_h p) (grid s);
  st_cells : cells_ok p (grid s);
  st_sym : symmetric p (grid s);
  st_hash : hash s = zobrist_sum p zobrist (grid s);
  st_filled : filledCount s = filled p (grid s)
}.

(** The invariant of the seeding loop while the dots up to index [k] are
    processed: every assigned tile belongs to a dot of index at most [k]
    that touches it. *)
Record seed_inv (p : Puzzle) (zobrist : Z -> Z -> Z) (k : Z) (s : State) : Prop := {
  sd_dims : grid_dims (pz_w p) (pz_h p) (grid s);
  sd_hash : hash s = zobrist_sum p zobrist (grid s);
  sd_filled : filledCount s = filled p (grid s);
  sd_sound : forall x y, inTileBounds p x y = true -> at_ (grid s) x y <> -1 ->
             0 <= at_ (grid s) x y <= k /\ touches p (at_ (grid s) x y) x y
}.

(** Every in-bounds tile that touches a dot of index below [k] is assigned
    to it. *)
Definition seed_done (p : Puzzle) (k : Z) (s : State) : Prop :=
  forall d x y, 0 <= d < k -> inTileBounds p x y = true -> touches p d x y ->
    at_ (grid s) x y = d.

(** [s'] is [s] with some unassigned tiles given to [k]. *)
Definition grows (p : Puzzle) (k : Z) (s s' : State) : Prop :=
  forall x y, inTileBounds p x y = true ->
    at_ (grid s') x y = at_ (grid s) x y \/ (at_ (grid s) x y = -1 /\ at_ (grid s') x y = k).

(** Two distinct dots touch a common tile of the board. *)
Definition seed_conflict (p : Puzzle) (d1 d2 : Z) : Prop :=
  exists x y, inTileBounds p x y = true /\ touches p d1 x y /\ touches p d2 x y.

(** The tiles [seedForcedTiles] passes to [tryFill] for the dot of index [d]. *)
Definition forced (p : Puzzle) (d : Z) : list (Z * Z) :=
  forced_tiles (dot_x (dot_of p d)) (dot_y (dot_of p d)).

(** The number of forced tiles of a cell class: one for the centre of a
    tile, two for an edge, four for a vertex. *)
Definition class_size (dx dy : Z) : nat :=
  if Z.odd dx && Z.odd dy then 1%nat
  else if Z.even dx && Z.even dy then 4%nat
  else 2%nat.

(** The text of a Game ID as the parsers read it. *)
Definition text (s : string) : list ascii := list_ascii_of_string s.

(** ** Moves *)

(** The mirror image of the tile [(x, y)] about the dot [d]: the tile
    whose centre is the point reflection of the centre [(2x+1, 2y+1)] about
    the dot. *)
Definition mirror_tile (p : Puzzle) (d x y : Z) : Z * Z :=
  (dot_x (dot_of p d) - x - 1, dot_y (dot_of p d) - y - 1).

(** Two tiles that share an edge. *)
Definition adjacent4 (x y nx ny : Z) : Prop :=
  Z.abs (nx - x) + Z.abs (ny - y) = 1.

(** The conditions under which the unassigned tile [(x, y)] may be given
    to the dot [d]: it is 4-adjacent to a tile of [d], and its mirror image
    about [d] is on the board and unassigned, the tile itself, or a tile of
    [d]. *)
Definition proposable (p : Puzzle) (s : State) (x y d : Z) : Prop :=
  inTileBounds p x y = true /\ at_ (grid s) x y = -1 /\ d <> -1 /\
  (exists nx ny, adjacent4 x y nx ny /\ inTileBounds p nx ny = true /\
                 at_ (grid s) nx ny = d) /\
  let '(sx, sy) := mirror_tile p d x y in
  inTileBounds p sx sy = true /\
  (at_ (grid s) sx sy = -1 \/ (sx = x /\ sy = y) \/ at_ (grid s) sx sy = d).

(** The same conditions as the loops of the solvers test them: a
    neighbour in a direction of the table [dirs], and the mirror image
    [getSymmetricTile] computes. *)
Definition enumerable (p : Puzzle) (s : State) (x y d : Z) : Prop :=
  inTileBounds p x y = true /\ at_ (grid s) x y = -1 /\ d <> -1 /\
  (exists dir, dir ∈ dirs /\ inTileBounds p (x + dir.1) (y + dir.2) = true /\
               at_ (grid s) (x + dir.1) (y + dir.2) = d) /\
  let '(sx, sy) := getSymmetricTile (dot_x (dot_of p d)) (dot_y (dot_of p d)) x y in
  inTileBounds p sx sy = true /\
  (at_ (grid s) sx sy = -1 \/ (sx = x /\ sy = y) \/ at_ (grid s) sx sy = d).

(** The move [m] gives the tile [(x, y)] to the dot [d]. *)
Definition gives (m : Move) (x y d : Z) : Prop :=
  mv_tx m = x /\ mv_ty m = y /\ mv_d m = d.

(** A move as the enumerations build it in the state [s]. *)
Record move_ok (p : Puzzle) (s : State) (m : Move) : Prop := {
  mo_bounds : inTileBounds p (mv_tx m) (mv_ty m) = true;
  mo_empty : at_ (grid s) (mv_tx m) (mv_ty m) = -1;
  mo_dot : mv_d m <> -1;
  mo_adj : exists dir, dir ∈ dirs /\
             inTileBounds p (mv_tx m + dir.1) (mv_ty m + dir.2) = true /\
             at_ (grid s) (mv_tx m + dir.1) (mv_ty m + dir.2) = mv_d m;
  mo_sym : (mv_sx m, mv_sy m)
           = getSymmetricTile (dot_x (dot_of p (mv_d m))) (dot_y (dot_of p (mv_d m)))
                              (mv_tx m) (mv_ty m);
  mo_sym_bounds : inTileBounds p (mv_sx m) (mv_sy m) = true;
  mo_was_empty : symmetric_was_empty m = (at_ (grid s) (mv_sx m) (mv_sy m) =? -1);
  mo_same : symmetric_was_empty m = false -> at_ (grid s) (mv_sx m) (mv_sy m) = mv_d m
}.

(** The pairs of a tile and a direction in the order of the loops of the
    depth-first enumerations. *)
Definition tile_dirs (p : Puzzle) : list (Z * Z * (Z * Z)) :=
  c ← tiles p; (fun dir => (c, dir)) <$> dirs.

(** The move the body of the loops of [Solver::dfs] builds for a tile and
    a direction, before the test for duplicates. *)
Definition dfs_gen (p : Puzzle) (s : State) (c : Z * Z * (Z * Z)) : option Move :=
  let '(x, y, dir) := c in
  if at_ (grid s) x y =? -1 then
    let nx := x + dir.1 in
    let ny := y + dir.2 in
    if inTileBounds p nx ny && negb (at_ (grid s) nx ny =? -1) then
      let d := at_ (grid s) nx ny in
      let '(sx, sy) := getSymmetricTile (dot_x (dot_of p d)) (dot_y (dot_of p d)) x y in
      if isValidTile p s sx sy || ((sx =? x) && (sy =? y)) then
        let sym_empty := at_ (grid s) sx sy =? -1 in
        if negb sym_empty && negb (at_ (grid s) sx sy =? d) then None
        else Some (mkMove x y d sx sy sym_empty)
      else None
    else None
  else None.

(** The same for [Solver::generateMoves]. *)
Definition omp_gen (p : Puzzle) (s : State) (c : Z * Z * (Z * Z)) : option Move :=
  let '(x, y, dir) := c in
  if at_ (grid s) x y =? -1 then
    let nx := x + dir.1 in
    let ny := y + dir.2 in
    if negb (inTileBounds p nx ny) then None
    else
      let d := at_ (grid s) nx ny in
      if d =? -1 then None
      else
        let '(sx, sy) := getSymmetricTile (dot_x (dot_of p d)) (dot_y (dot_of p d)) x y in
        if negb (inTileBounds p sx sy) then None
        else
          let sym_empty := at_ (grid s) sx sy =? -1 in
          if negb sym_empty && negb (at_ (grid s) sx sy =? d) then None
          else Some (mkMove x y d sx sy sym_empty)
  else None.

(** One turn of the loops: the move is appended unless a move for the same
    tile and dot is in the list. *)
Definition scan {B} (gen : B -> option Move) (moves : list Move) (c : B) : list Move :=
  match gen c with
  | None => moves
  | Some m =>
    if already_added moves (mv_tx m) (mv_ty m) (mv_d m) then moves else moves ++ [m]
  end.

(** ** Reachable states *)

(** The states the searches reach, with the moves the depth-first searches
    have applied and not undone.  A breadth-first successor is built from a
    candidate of [solve]; a move is applied when [dfs] or [generateMoves]
    has enumerated it in the state; the move undone is the last one
    applied. *)
Inductive reach (p : Puzzle) (zobrist : Z -> Z -> Z) : list Move -> State -> Prop :=
| reach_seed s :
    seedForcedTiles p zobrist (initial_state (pz_w p) (pz_h p)) = (s, true) ->
    reach p zobrist [] s
| reach_bfs s c s' :
    reach p zobrist [] s -> c ∈ bfs_candidates p s ->
    bfs_successor p zobrist s c = Some s' -> reach p zobrist [] s'
| reach_dfs stk s m :
    reach p zobrist stk s -> m ∈ dfs_moves p s ->
    reach p zobrist (m :: stk) (applyMove p zobrist m s)
| reach_omp stk s m :
    reach p zobrist stk s -> m ∈ generateMoves p s ->
    reach p zobrist (m :: stk) (applyMove p zobrist m s)
| reach_undo stk s m :
    reach p zobrist (m :: stk) s -> reach p zobrist stk (undoMove p zobrist m s).

(** The states below the top of the stack of applied moves. *)
Fixpoint chain (p : Puzzle) (zobrist : Z -> Z -> Z) (stk : list Move) (s : State) : Prop :=
  match stk with
  | [] => state_ok p zobrist s
  | m :: stk' =>
    exists s0, chain p zobrist stk' s0 /\ state_ok p zobrist s0 /\ move_ok p s0 m /\
               s = applyMove p zobrist m s0
  end.

(** The move that gives the tile [(x, y)] to the dot [d] in the state [s]. *)
Definition move_of (p : Puzzle) (s : State) (x y d : Z) : Move :=
  let '(sx, sy) := getSymmetricTile (dot_x (dot_of p d)) (dot_y (dot_of p d)) x y in
  mkMove x y d sx sy (at_ (grid s) sx sy =? -1).

(** A board of three tiles in a row with a dot in the centre of the middle
    tile, and its seeded state. *)
Definition row3 : Puzzle := mkPuzzle 3 1 7 3 [mkDot 3 1 false].
Definition row3_table : Z -> Z -> Z := fun cell d => 2 ^ cell + d.
Definition row3_seeded : State := mkSt [[-1; 0; -1]] 1 (Z.lxor 0 2).

(** ** The outline pass *)

(** The edge-set flag of the edge cell next to the tile [t] in the
    direction [d]. *)
Definition edge_flag (s : game_state) (t : ptr) (d : Z * Z) : bool :=
  has_flag (sp_flags (deref s (SPACE s (sp_x (deref s t) + d.1) (sp_y (deref s t) + d.2))))
           F_EDGE_SET.

(** [same] of [outline_tile_fordot] for the tile [t] and the tile across
    its edge in the direction [d]. *)
Definition across (s : game_state) (t : ptr) (d : Z * Z) : bool :=
  outline_same s t (sp_x (deref s t) + d.1 + d.1) (sp_y (deref s t) + d.2 + d.2).

(** [st] is [s] with other flags on cells that are not tiles. *)
Definition tiles_kept (s st : game_state) : Prop :=
  gs_sx st = gs_sx s /\ gs_sy st = gs_sy s /\ shape st /\
  forall q, is_tile s q -> deref st q = deref s q.

(** The edges of the tile [t] are outlined in [st]. *)
Definition outlined (s st : game_state) (t : ptr) : Prop :=
  forall d, d ∈ outline_dirs ->
    INGRID s (sp_x (deref s t) + d.1) (sp_y (deref s t) + d.2) = true ->
    edge_flag st t d = negb (across s t d).

(** The two tiles on the sides of an edge belong to different regions:
    the tile across the edge does not exist, exactly one of the two is
    associated, or they are associated to different dots. *)
Definition separates (s : game_state) (t : ptr) (d : Z * Z) : Prop :=
  let tx := sp_x (deref s t) + d.1 + d.1 in
  let ty := sp_y (deref s t) + d.2 + d.2 in
  INGRID s tx ty = false \/
  (is_assoc s t /\ ~ is_assoc s (SPACE s tx ty)) \/
  (~ is_assoc s t /\ is_assoc s (SPACE s tx ty)) \/
  (is_assoc s t /\ is_assoc s (SPACE s tx ty) /\
   ~ (sp_dotx (deref s t) = sp_dotx (deref s (SPACE s tx ty)) /\
      sp_doty (deref s t) = sp_doty (deref s (SPACE s tx ty)))).

(** ** Placing a dot *)

(** The part of the invariant that does not speak of the tiles around the
    dots. *)
Record core_inv (s : game_state) : Prop := {
  core_shape : shape s;
  core_nassoc : nassoc_ok s;
  core_free : free_record s;
  core_assoc : assoc_record s;
  core_framed : framed s
}.

(** Every tile that touches a dot other than [sp] is associated. *)
Definition surrounded_but (sp : ptr) (s : game_state) : Prop :=
  forall d t, is_dot s d -> d <> sp -> is_tile s t -> touching s d t -> is_assoc s t.

(** The mirror image about [sp] of a tile that touches [sp] is in the grid,
    and such a tile is associated to no other dot. *)
Definition near_free (sp : ptr) (s : game_state) : Prop :=
  forall t, is_tile s t -> touching s sp t ->
    INGRID s (mirror_x s sp t) (mirror_y s sp t) = true /\
    (is_assoc s t -> assoc_with s sp t).

(** The invariant between [add_dot] and the end of [solver_obvious_dot]. *)
Record place_inv (sp : ptr) (s : game_state) : Prop := {
  pl_core : core_inv s;
  pl_dot : is_dot s sp;
  pl_others : surrounded_but sp s;
  pl_near : near_free sp s
}.

(** [solver_obvious_dot] passed the tile [t] by in the state [s]: its
    mirror image about [dot] is out of the grid or belongs to another
    dot. *)
Definition blocked (s : game_state) (dot t : ptr) : Prop :=
  ~ is_assoc s t /\
  (space_opposite_dot s t dot = None \/
   exists o, space_opposite_dot s t dot = Some o /\ owned_by_other s o dot = true).

(** ** The boards of the generator *)

(** The boards built by the operations of the generator as
    [generate_new_game] and [generate_pass] use them: [clear_game] on any
    board; [add_dot] on a cell [dot_is_possible] accepts, followed by
    [solver_obvious_dot] on the new dot; [solver_obvious_dot] on a dot of
    the board; [dot_expand_or_move] on a dot of the board with the block
    [generate_try_block] collects in the rectangle of a candidate cell. *)
Inductive gen_reach : game_state -> Prop :=
| reach_blank w h : 0 <= w -> 0 <= h -> gen_reach (blank_game w h)
| reach_clear s : gen_reach s -> gen_reach (clear_game s)
| reach_place s sp s' r :
    gen_reach s -> valid s sp -> dot_is_possible s sp false = true ->
    solver_obvious_dot (add_dot s sp) sp = Ok (s', r) -> gen_reach s'
| reach_obvious s dot s' r :
    gen_reach s -> is_dot s dot -> solver_obvious_dot s dot = Ok (s', r) -> gen_reach s'
| reach_expand s sp x1 y1 x2 y2 toadd dot s' r :
    gen_reach s -> valid s sp -> sp_type (deref s sp) <> s_vertex ->
    candidate_rect (deref s sp) = (x1, y1, x2, y2) ->
    (x1 <? 0) || (y1 <? 0) || (gs_sx s <=? x2) || (gs_sy s <=? y2) = false ->
    collect_toadd s (block_cells x1 y1 x2 y2) [] = Ok (Some toadd) ->
    is_dot s dot -> dot_expand_or_move s dot toadd = Ok (s', r) -> gen_reach s'.

(** ** The Game ID *)

(** What the scan of [encode_game] sees in a cell: nothing, or a dot and
    whether it is black. *)
Definition kind_of (c : space) : option bool :=
  if has_flag (sp_flags c) F_DOT then Some (has_flag (sp_flags c) F_DOT_BLACK) else None.

(** The cells of the board in the order of the scan. *)
Definition kinds (s : game_state) : list (option bool) :=
  (fun i => kind_of (deref s i)) <$> seqZ 0 (gs_sx s * gs_sy s).

(** The dots the board holds, in the order of the scan, with their internal
    coordinates and colours. *)
Definition board_dots (s : game_state) : list Dot :=
  omap (fun i => (fun b => mkDot (sp_x (deref s i)) (sp_y (deref s i)) b)
                   <$> kind_of (deref s i))
       (seqZ 0 (gs_sx s * gs_sy s)).

(** The run-length encoder of [encode_game] on a list of cells. *)
Definition enc_step (acc : Z * list ascii) (k : option bool) : Z * list ascii :=
  let '(run, out) := acc in
  match k with
  | Some b =>
    (0, (if negb (run =? 0) then out ++ emit_run run else out)
        ++ [if b then "B"%char else "M"%char])
  | None => (run + 1, out)
  end.

Definition enc_finish (acc : Z * list ascii) : list ascii :=
  let '(run, out) := acc in
  if negb (run =? 0) then out ++ emit_run run else out.

Definition enc (l : list (option bool)) : list ascii :=
  enc_finish (foldl enc_step (0, []) l).

(** The cells a character of the data stands for. *)
Definition cells_of_char (c : ascii) : list (option bool) :=
  if bool_decide (c = "M"%char) then [Some false]
  else if bool_decide (c = "B"%char) then [Some true]
  else if (97 <=? ord c) && (ord c <=? 122) then replicate (Z.to_nat (ord c - 96)) None
  else [].

Definition cells_of (data : list ascii) : list (option bool) :=
  data ≫= cells_of_char.

(** The dots of a list of cells that starts at the position [pos]. *)
Fixpoint dots_at (sx : Z) (pos : Z) (l : list (option bool)) : list Dot :=
  match l with
  | [] => []
  | None :: l' => dots_at sx (pos + 1) l'
  | Some b :: l' => mkDot (Z.rem pos sx) (Z.quot pos sx) b :: dots_at sx (pos + 1) l'
  end.

(** The number of cells the data covers: the position the decoder
    reaches. *)
Definition span (data : list ascii) : Z := (foldl (decode_char 1) (0, []) data).1.

Definition is_dot_char (c : ascii) : Prop := c = "M"%char \/ c = "B"%char.
Definition is_run_char (c : ascii) : Prop := 97 <= ord c <= 122.

(** Data as [encode_game] writes it: dots and runs only, and every run
    written with as many ['z'] as possible, so that a letter before ['z']
    ends its run. *)
Fixpoint well_formed (data : list ascii) : Prop :=
  match data with
  | [] => True
  | c :: rest =>
    (is_dot_char c \/ is_run_char c) /\
    (is_run_char c -> ord c <> 122 ->
     match rest with [] => True | c' :: _ => is_dot_char c' end) /\
    well_formed rest
  end.

(** ** Solutions *)

(** Every tile of the board is assigned to a dot, the regions are
    symmetric about their dots, every dot owns a tile, and every tile that
    touches a dot belongs to it. *)
Definition complete_assignment (p : Puzzle) (g : list (list Z)) : Prop :=
  (forall x y, inTileBounds p x y = true ->
     0 <= at_ g x y < Z.of_nat (length (pz_dots p))) /\
  symmetric p g /\
  (forall d, 0 <= d < Z.of_nat (length (pz_dots p)) ->
     exists x y, inTileBounds p x y = true /\ at_ g x y = d) /\
  (forall d x y, 0 <= d < Z.of_nat (length (pz_dots p)) ->
     inTileBounds p x y = true -> touches p d x y -> at_ g x y = d).

(** The states of the searches as they are built: from the seeded state
    by moves only.  Every state the searches reach is of this kind, since
    a move undone is the move applied last. *)
Inductive grown (p : Puzzle) (zobrist : Z -> Z -> Z) : State -> Prop :=
| grown_seed s :
    seedForcedTiles p zobrist (initial_state (pz_w p) (pz_h p)) = (s, true) ->
    grown p zobrist s
| grown_move s m :
    grown p zobrist s -> state_ok p zobrist s -> move_ok p s m ->
    grown p zobrist (applyMove p zobrist m s).

(** The states below the moves the depth-first searches have applied and
    not undone, down to a state built by moves only. *)
Fixpoint history (p : Puzzle) (zobrist : Z -> Z -> Z) (stk : list Move) (s : State)
  : Prop :=
  match stk with
  | [] => grown p zobrist s
  | m :: stk' =>
    exists s0, history p zobrist stk' s0 /\ state_ok p zobrist s0 /\ move_ok p s0 m /\
               s = applyMove p zobrist m s0
  end.

(** The body of the loops of [allDotsUsed]: the dot of a tile is marked. *)
Definition mark_used (nd : Z) (g : list (list Z)) (used : list bool) (c : Z * Z)
  : list bool :=
  let v := at_ g c.1 c.2 in
  if (0 <=? v) && (v <? nd) then <[Z.to_nat v := true]> used else used.

(** ** The length of the breadth-first search *)

(** A bound on the number of states taken from the queue below a state
    with [k] unassigned tiles, when a state has at most [c] successors. *)
Fixpoint pops (c : nat) (k : nat) : nat :=
  match k with
  | O => 1
  | S k' => pops c k' + c * pops c k'
  end.

(** The bound for the states of a queue. *)
Fixpoint queue_cost (p : Puzzle) (q : list State) : nat :=
  match q with
  | [] => 0
  | s :: q' =>
    pops (4 * length (tiles p)) (Z.to_nat (pz_w p * pz_h p - filledCount s))
    + queue_cost p q'
  end.

(** ** The regions of the generator *)

(** A property of boards that holds as long as tiles are given to [dot]
    the way [solver_obvious_dot] and [dot_expand_or_move] do it: a free tile
    whose mirror image about [dot] is the tile itself or belongs to [dot],
    or a free tile together with its free mirror image. *)
Definition pair_closed (dot : ptr) (P : game_state -> Prop) : Prop :=
  (forall s, P s -> shape s /\ is_dot s dot) /\
  (forall s t o, P s -> is_tile s t -> ~ is_assoc s t ->
     space_opposite_dot s t dot = Some o -> o = t \/ assoc_with s dot o ->
     P (assoc_to dot t s)) /\
  (forall s t o, P s -> is_tile s t -> ~ is_assoc s t ->
     space_opposite_dot s t dot = Some o -> o <> t -> is_tile s o -> ~ is_assoc s o ->
     P (assoc_to dot o (assoc_to dot t s))).

(** The mirror image of an associated tile about the dot it records is a
    tile of the grid associated to the same dot. *)
Definition region_sym (s : game_state) : Prop :=
  forall t, is_tile s t -> is_assoc s t ->
    INGRID s (2 * sp_dotx (deref s t) - sp_x (deref s t))
             (2 * sp_doty (deref s t) - sp_y (deref s t)) = true /\
    is_assoc s (SPACE s (2 * sp_dotx (deref s t) - sp_x (deref s t))
                        (2 * sp_doty (deref s t) - sp_y (deref s t))) /\
    sp_dotx (deref s (SPACE s (2 * sp_dotx (deref s t) - sp_x (deref s t))
                              (2 * sp_doty (deref s t) - sp_y (deref s t))))
    = sp_dotx (deref s t) /\
    sp_doty (deref s (SPACE s (2 * sp_dotx (deref s t) - sp_x (deref s t))
                              (2 * sp_doty (deref s t) - sp_y (deref s t))))
    = sp_doty (deref s t).

(** Every tile that touches a dot other than [sp] is associated to that
    dot. *)
Definition owned_near_but (sp : ptr) (s : game_state) : Prop :=
  forall d t, is_dot s d -> d <> sp -> is_tile s t -> touching s d t -> assoc_with s d t.

(** Every tile that touches a dot is associated to that dot. *)
Definition owned_near (s : game_state) : Prop :=
  forall d t, is_dot s d -> is_tile s t -> touching s d t -> assoc_with s d t.

(** The regions of a board of the generator. *)
Record region_inv (s : game_state) : Prop := {
  ri_gen : gen_inv s;
  ri_near : owned_near s;
  ri_sym : region_sym s
}.

(** ** What the outline pass leaves alone *)

(** [st] is [s] up to the edge-set flags of its cells. *)
Definition same_but_edges (s st : game_state) : Prop :=
  gs_w st = gs_w s /\ gs_h st = gs_h s /\ gs_sx st = gs_sx s /\ gs_sy st = gs_sy s /\
  gs_ndots st = gs_ndots s /\ gs_dots st = gs_dots s /\
  length (gs_grid st) = length (gs_grid s) /\
  forall q,
    sp_x (deref st q) = sp_x (deref s q) /\ sp_y (deref st q) = sp_y (deref s q) /\
    sp_type (deref st q) = sp_type (deref s q) /\
    sp_dotx (deref st q) = sp_dotx (deref s q) /\
    sp_doty (deref st q) = sp_doty (deref s q) /\
    sp_nassoc (deref st q) = sp_nassoc (deref s q) /\
    forall m, m ∈ [F_DOT; F_TILE_ASSOC; F_DOT_BLACK; F_MARK] ->
      has_flag (sp_flags (deref st q)) m = has_flag (sp_flags (deref s q)) m.

(** ** The text of the numbers *)




(** ** Example boards of the generator *)

(** The cleared board of two tiles, and the board after a dot has been
    placed at the centre of its left tile (cell 6, at [(1,1)]). *)
Definition cleared_board : game_state := clear_game (blank_game 2 1).
Definition placed_board : game_state :=
  match solver_obvious_dot (add_dot cleared_board 6) 6 with
  | Ok (s, _) => s
  | Fault _ => cleared_board
  end.

(** ** The random source *)

(** The four words of the state are [unsigned long] values. *)
Definition words_ok (rs : Random.random_state) : Prop :=
  0 <= Random.st0 rs < 2 ^ 64 /\ 0 <= Random.st1 rs < 2 ^ 64 /\
  0 <= Random.st2 rs < 2 ^ 64 /\ 0 <= Random.st3 rs < 2 ^ 64.

(** ** The generation pass *)

(** Two boards of the same size with the same dot count. *)
Definition same_dims (s0 s : game_state) : Prop :=
  gs_w s = gs_w s0 /\ gs_h s = gs_h s0 /\ gs_sx s = gs_sx s0 /\ gs_sy s = gs_sy s0 /\
  gs_ndots s = gs_ndots s0.

(** ** The C solver *)

(** What the C solver relies on: a board that fits its fixed arrays, dot
    indices that fit the [int8_t] cells, and dots inside the internal
    grid. *)
Record c_puzzle_ok (p : Puzzle) : Prop := {
  cok_w : 0 <= pz_w p <= MAX_W;
  cok_h : 0 <= pz_h p <= MAX_H;
  cok_ndots : Z.of_nat (length (pz_dots p)) <= MAX_DOTS;
  cok_dots : Forall (fun d => 0 <= dot_x d < 2 * pz_w p + 1 /\
                              0 <= dot_y d < 2 * pz_h p + 1) (pz_dots p)
}.

(** The invariant of the states of the C solver. *)
Record c_state_ok (p : Puzzle) (s : State) : Prop := {
  cs_dims : grid_dims MAX_W MAX_H (grid s);
  cs_cells : cells_ok p (grid s);
  cs_sym : symmetric p (grid s);
  cs_filled : filledCount s = filled p (grid s)
}.

(** A state the C solver builds from [s]: it satisfies the invariant and
    has more tiles assigned. *)
Definition c_grown (p : Puzzle) (s s' : State) : Prop :=
  c_state_ok p s' /\ filledCount s + 1 <= filledCount s'.

(** The number of successors a state of the C solver has at most. *)
Definition c_branching (p : Puzzle) : nat :=
  (4 * length (tiles p) + 9) * length (pz_dots p).

(** The bound for the states of a queue of the C solver. *)
Fixpoint c_queue_cost (p : Puzzle) (q : list State) : nat :=
  match q with
  | [] => 0
  | s :: q' =>
    pops (c_branching p) (Z.to_nat (pz_w p * pz_h p - filledCount s))
    + c_queue_cost p q'
  end.

(** The dot [d] lies at the centre of the tile [(x, y)]. *)
Definition centred (p : Puzzle) (d x y : Z) : Prop :=
  dot_x (dot_of p d) = 2 * x + 1 /\ dot_y (dot_of p d) = 2 * y + 1.

(** What the pre-fill loop of the C solvers has done after the dots
    below [i]: a tile holds the dot at its centre, the only one, or it is
    unassigned and no dot lies at its centre. *)
Definition prefilled (p : Puzzle) (i : Z) (s : State) : Prop :=
  forall x y, inTileBounds p x y = true ->
    (at_ (grid s) x y = -1 /\ forall d, 0 <= d < i -> ~ centred p d x y) \/
    (0 <= at_ (grid s) x y < i /\ centred p (at_ (grid s) x y) x y /\
     forall d, 0 <= d < i -> centred p d x y -> d = at_ (grid s) x y).

(** ** Saturated boards *)

(** No dot other than [sp] can take a free tile: the mirror image of the
    tile about the dot is out of the grid or belongs to another dot. *)
Definition saturated_but (sp : ptr) (s : game_state) : Prop :=
  forall d t, is_dot s d -> d <> sp -> is_tile s t -> ~ is_assoc s t -> blocked s d t.

(** No dot can take a free tile. *)
Definition saturated (s : game_state) : Prop :=
  forall d t, is_dot s d -> is_tile s t -> ~ is_assoc s t -> blocked s d t.

(** The board of two tiles with a dot at the centre of each, after
    [solver_obvious_dot] on both. *)
Definition two_dot_board : game_state :=
  match solver_obvious_dot (add_dot placed_board 8) 8 with
  | Ok r => r.1
  | Fault _ => placed_board
  end.

(** ** The numbers written in a Game ID *)



(** A board of two tiles with a dot at the centre of the left tile and a
    dot on the edge between the tiles: the left tile touches both. *)
Definition edge_conflict : Puzzle := mkPuzzle 2 1 5 3 [mkDot 1 1 false; mkDot 2 1 false].

(** The board of two tiles with a dot on the edge between them, after
    [solver_obvious_dot]: both tiles belong to the dot. *)
Definition edge_region_board : game_state :=
  match solver_obvious_dot (add_dot cleared_board 7) 7 with
  | Ok r => r.1
  | Fault _ => cleared_board
  end.



(* ===================================================================== *)
(** * Part III: properties *)
(* ===================================================================== *)

(** ** Loops *)

Lemma fold_res_app {A B} (f : A -> B -> result A) l1 l2 a :
  fold_res f (l1 ++ l2) a = do a' <- fold_res f l1 a; fold_res f l2 a'.
Proof.
  revert a. induction l1 as [|b l1 IH]; intros a; simpl; [done|].
  destruct (f a b); simpl; auto.
Qed.

(** A loop whose body keeps an invariant and never faults returns a state
    that satisfies the invariant. *)
Lemma fold_res_inv {A B} (P : A -> Prop) (f : A -> B -> result A) l a :
  P a ->
  (forall a b, b ∈ l -> P a -> exists a', f a b = Ok a' /\ P a') ->
  exists a', fold_res f l a = Ok a' /\ P a'.
Proof.
  revert a. induction l as [|b l IH]; intros a Ha Hstep; simpl.
  - eauto.
  - destruct (Hstep a b) as (a1 & -> & Ha1); [left|done|]. simpl.
    apply IH; [done|]. intros a2 b2 Hb2. apply Hstep. by right.
Qed.

Lemma foldl_inv {A B} (P : A -> Prop) (f : A -> B -> A) l a :
  P a -> (forall a b, b ∈ l -> P a -> P (f a b)) -> P (foldl f a l).
Proof.
  revert a. induction l as [|b l IH]; intros a Ha Hstep; simpl; [done|].
  apply IH; [apply Hstep; [left|done]|]. intros a2 b2 Hb2. apply Hstep. by right.
Qed.

Lemma elem_of_range2 lo hi v :
  v ∈ range2 lo hi <-> exists k, 0 <= k /\ v = lo + 2 * k /\ v < hi.
Proof.
  unfold range2. rewrite list_elem_of_fmap. split.
  - intros (k & -> & Hk). apply elem_of_seqZ in Hk. exists k. split; [lia|]. split; [done|].
    pose proof (Z.div_mod (hi - lo + 1) 2 ltac:(lia)).
    pose proof (Z.mod_pos_bound (hi - lo + 1) 2 ltac:(lia)). lia.
  - intros (k & Hk & -> & Hlt). exists k. split; [done|]. apply elem_of_seqZ.
    pose proof (Z.div_mod (hi - lo + 1) 2 ltac:(lia)).
    pose proof (Z.mod_pos_bound (hi - lo + 1) 2 ltac:(lia)). lia.
Qed.

Lemma NoDup_range2 lo hi : NoDup (range2 lo hi).
Proof.
  unfold range2. apply NoDup_fmap_2; [|apply NoDup_seqZ]. intros a b; lia.
Qed.

(** ** Bit flags *)


Lemma has_flag_lor_same fl m : 0 < m -> has_flag (Z.lor fl m) m = true.
Proof.
  intros Hm. unfold has_flag. rewrite Z.land_lor_distr_l, Z.land_diag.
  apply negb_true_iff, Z.eqb_neq. intros H. apply Z.lor_eq_0_iff in H. lia.
Qed.

Lemma has_flag_lor_other fl m m' :
  Z.land m m' = 0 -> has_flag (Z.lor fl m) m' = has_flag fl m'.
Proof.
  intros H. unfold has_flag. by rewrite Z.land_lor_distr_l, H, Z.lor_0_r.
Qed.

Lemma has_flag_0 m : has_flag 0 m = false.
Proof. unfold has_flag. by rewrite Z.land_0_l. Qed.

Lemma has_flag_clear_same fl : has_flag (clear_bits fl F_EDGE_SET) F_EDGE_SET = false.
Proof.
  unfold has_flag, clear_bits. rewrite <- Z.land_assoc.
  replace (Z.land (4294967295 - F_EDGE_SET) F_EDGE_SET) with 0 by reflexivity.
  by rewrite Z.land_0_r.
Qed.

Lemma has_flag_clear_other fl m :
  Z.land (4294967295 - F_EDGE_SET) m = m ->
  has_flag (clear_bits fl F_EDGE_SET) m = has_flag fl m.
Proof.
  intros H. unfold has_flag, clear_bits. by rewrite <- Z.land_assoc, H.
Qed.


(** ** The grid of the generator *)


Lemma INGRID_spec s x y :
  INGRID s x y = true <-> 0 <= x < gs_sx s /\ 0 <= y < gs_sy s.
Proof. unfold INGRID. rewrite !andb_true_iff. lia. Qed.

Lemma INGRID_false s x y :
  INGRID s x y = false <-> ~ (0 <= x < gs_sx s /\ 0 <= y < gs_sy s).
Proof. rewrite <- INGRID_spec. by destruct (INGRID s x y). Qed.

Lemma SPACE_valid s x y :
  Z.of_nat (length (gs_grid s)) = gs_sx s * gs_sy s ->
  INGRID s x y = true -> valid s (SPACE s x y).
Proof.
  intros Hlen [? ?]%INGRID_spec. unfold valid, SPACE. rewrite Hlen.
  assert (y * gs_sx s + gs_sx s <= gs_sy s * gs_sx s) by nia. nia.
Qed.

Lemma SPACE_nonneg s x y : INGRID s x y = true -> 0 <= SPACE s x y.
Proof. intros [? ?]%INGRID_spec. unfold SPACE. nia. Qed.

Lemma SPACE_inj s x y x' y' :
  INGRID s x y = true -> INGRID s x' y' = true ->
  SPACE s x y = SPACE s x' y' -> x = x' /\ y = y'.
Proof.
  intros [? ?]%INGRID_spec [? ?]%INGRID_spec. unfold SPACE. intros Heq.
  assert (y = y') as ->; [|lia].
  destruct (Z.lt_trichotomy y y') as [Hlt|[->|Hlt]]; [|done|]; exfalso; nia.
Qed.

(** Every valid pointer is the [SPACE] of its coordinates. *)
Lemma valid_coords s p :
  shape s -> valid s p ->
  INGRID s (p `mod` gs_sx s) (p `div` gs_sx s) = true /\
  SPACE s (p `mod` gs_sx s) (p `div` gs_sx s) = p.
Proof.
  intros Hs Hp. destruct Hs as [Hsx Hsy Hlen _]. unfold valid in Hp.
  pose proof (Z.div_mod p (gs_sx s) ltac:(lia)).
  pose proof (Z.mod_pos_bound p (gs_sx s) ltac:(lia)).
  split.
  - apply INGRID_spec. split; [lia|]. split; [apply Z.div_pos; lia|].
    apply Z.div_lt_upper_bound; lia.
  - unfold SPACE. lia.
Qed.

Lemma valid_xy s p :
  shape s -> valid s p ->
  INGRID s (sp_x (deref s p)) (sp_y (deref s p)) = true /\
  SPACE s (sp_x (deref s p)) (sp_y (deref s p)) = p.
Proof.
  intros Hs Hp. destruct (valid_coords s p Hs Hp) as [Hin Heq].
  destruct (shape_cell s Hs _ _ Hin) as (Hx & Hy & _). rewrite Heq in Hx, Hy.
  by rewrite Hx, Hy.
Qed.

(** Reading after a store. *)
Lemma deref_store s p f q :
  valid s p -> 0 <= q ->
  deref (store s p f) q = if decide (p = q) then f (deref s p) else deref s q.
Proof.
  intros [Hp0 Hp] Hq. unfold deref, store; simpl.
  destruct (decide (p = q)) as [->|Hne].
  - rewrite list_lookup_alter_eq.
    destruct (gs_grid s !! Z.to_nat q) eqn:E; [done|].
    apply lookup_ge_None in E. lia.
  - rewrite list_lookup_alter_ne; [done|]. lia.
Qed.

Lemma deref_store_eq s p f : valid s p -> deref (store s p f) p = f (deref s p).
Proof. intros Hp. rewrite deref_store; [|done|apply Hp]. by rewrite decide_True. Qed.

Lemma deref_store_ne s p f q :
  valid s p -> 0 <= q -> p <> q -> deref (store s p f) q = deref s q.
Proof. intros Hp Hq Hne. rewrite deref_store by done. by rewrite decide_False. Qed.

Lemma store_length s p f : length (gs_grid (store s p f)) = length (gs_grid s).
Proof. unfold store; simpl. apply length_alter. Qed.

Lemma valid_store s p f q : valid (store s p f) q <-> valid s q.
Proof. unfold valid. by rewrite store_length. Qed.

Lemma INGRID_store s p f x y : INGRID (store s p f) x y = INGRID s x y.
Proof. done. Qed.

Lemma SPACE_store s p f x y : SPACE (store s p f) x y = SPACE s x y.
Proof. done. Qed.

Lemma deref_store_keeps {T} s p f q (g : space -> T) :
  (forall c, g (f c) = g c) -> g (deref (store s p f) q) = g (deref s q).
Proof.
  intros Hg. unfold deref, store; simpl. rewrite list_lookup_alter.
  case_decide as E; [|done]. rewrite <- E.
  destruct (gs_grid s !! Z.to_nat p); simpl; [apply Hg|done].
Qed.

Lemma deref_store_type s p f q :
  keeps_cell f -> sp_type (deref (store s p f) q) = sp_type (deref s q).
Proof.
  intros Hf. unfold deref, store; simpl. rewrite list_lookup_alter.
  case_decide as E; [|done]. rewrite <- E.
  destruct (gs_grid s !! Z.to_nat p); simpl; [apply Hf|done].
Qed.

Lemma shape_store s p f : shape s -> keeps_cell f -> shape (store s p f).
Proof.
  intros [Hsx Hsy Hlen Hcell] Hf. split; try done.
  - by rewrite store_length.
  - intros x y Hin. rewrite SPACE_store. rewrite INGRID_store in Hin.
    rewrite !(deref_store_keeps s p f _ sp_x), !(deref_store_keeps s p f _ sp_y)
      by (intros c; apply Hf).
    rewrite deref_store_type by done. by apply Hcell.
Qed.



(** ** The random source *)

Lemma lxor_bound n a b :
  0 <= n -> 0 <= a < 2 ^ n -> 0 <= b < 2 ^ n -> 0 <= Z.lxor a b < 2 ^ n.
Proof.
  intros Hn Ha Hb. split; [apply Z.lxor_nonneg; lia|].
  destruct (Z.eq_dec (Z.lxor a b) 0) as [->|Hne]; [lia|].
  assert (0 <= Z.lxor a b) by (apply Z.lxor_nonneg; lia).
  apply Z.log2_lt_pow2; [lia|].
  pose proof (Z.log2_lxor a b ltac:(lia) ltac:(lia)) as Hl.
  assert (Ha' : Z.log2 a < n).
  { destruct (Z.eq_dec a 0) as [->|?].
    - destruct (Z.eq_dec n 0) as [->|?]; [|simpl; lia].
      assert (b = 0) as -> by (simpl in Hb; lia). by rewrite Z.lxor_0_l in Hne.
    - apply Z.log2_lt_pow2; lia. }
  assert (Hb' : Z.log2 b < n).
  { destruct (Z.eq_dec b 0) as [->|?].
    - destruct (Z.eq_dec n 0) as [->|?]; [|simpl; lia].
      assert (a = 0) as -> by (simpl in Ha; lia). by rewrite Z.lxor_0_l in Hne.
    - apply Z.log2_lt_pow2; lia. }
  lia.
Qed.

Lemma shiftr_bound n a k :
  0 <= k -> 0 <= a < 2 ^ n -> 0 <= Z.shiftr a k < 2 ^ n.
Proof.
  intros Hk Ha. split; [apply Z.shiftr_nonneg; lia|].
  rewrite Z.shiftr_div_pow2 by done.
  assert (0 < 2 ^ k) by (apply Z.pow_pos_nonneg; lia).
  assert (a `div` 2 ^ k <= a); [|lia].
  apply Z.div_le_upper_bound; [done|]. nia.
Qed.

Lemma ulong_bound v : 0 <= Random.ulong v < 2 ^ 64.
Proof. unfold Random.ulong. apply Z.mod_pos_bound. lia. Qed.

Lemma mask_ones bits :
  0 <= bits < 64 -> Random.ulong (Random.ulong (Z.shiftl 1 bits) - 1) = Z.ones bits.
Proof.
  intros Hb. unfold Random.ulong. rewrite Z.shiftl_1_l, Z.ones_equiv.
  assert (0 < 2 ^ bits < 2 ^ 64).
  { split; [apply Z.pow_pos_nonneg; lia|]. apply Z.pow_lt_mono_r; lia. }
  rewrite (Z.mod_small (2 ^ bits)) by lia. rewrite Z.mod_small by lia. lia.
Qed.

Lemma random_bits_spec rs bits :
  words_ok rs -> 0 <= bits ->
  words_ok (Random.random_bits rs bits).2 /\
  0 <= (Random.random_bits rs bits).1 < 2 ^ 64 /\
  (bits < 32 -> (Random.random_bits rs bits).1 < 2 ^ bits).
Proof.
  intros (H0 & H1 & H2 & H3) Hb. unfold Random.random_bits. cbv zeta. cbn [fst snd].
  set (ret := Z.lxor (Random.st0 rs) (Random.ulong (Z.shiftl (Random.st0 rs) 11))).
  assert (Hret : 0 <= ret < 2 ^ 64).
  { apply lxor_bound; [lia|done|apply ulong_bound]. }
  set (s3 := Z.lxor (Z.lxor (Random.st3 rs) (Z.shiftr (Random.st3 rs) 19))
                    (Z.lxor ret (Z.shiftr ret 8))).
  assert (Hs3 : 0 <= s3 < 2 ^ 64).
  { apply lxor_bound; [lia| |]; (apply lxor_bound; [lia|done|apply shiftr_bound; [lia|done]]). }
  split; [unfold words_ok; cbn [Random.st0 Random.st1 Random.st2 Random.st3]; tauto|].
  destruct (Z.ltb_spec bits 32) as [Hlt|Hge].
  - rewrite mask_ones by lia. rewrite Z.land_ones by done.
    pose proof (Z.mod_pos_bound s3 (2 ^ bits) ltac:(apply Z.pow_pos_nonneg; lia)).
    assert (2 ^ bits < 2 ^ 64) by (apply Z.pow_lt_mono_r; lia).
    split; [lia|]. intros _. lia.
  - split; [done|]. lia.
Qed.

Lemma draw_spec fuel : forall rs bits limit r rs',
  words_ok rs -> 0 <= bits ->
  Random.draw fuel rs bits limit = Some (r, rs') ->
  0 <= r < limit /\ words_ok rs'.
Proof.
  induction fuel as [|fuel IH]; intros rs bits limit r rs' Hrs Hb; [done|].
  cbn [Random.draw].
  destruct (random_bits_spec rs bits Hrs Hb) as (Hw & Hr & _).
  destruct (Random.random_bits rs bits) as [ret rs1]. cbn [fst snd] in *.
  destruct (Z.ltb_spec ret limit).
  - intros [= <- <-]. split; [lia|done].
  - by apply IH.
Qed.

Lemma count_bits_nonneg fuel : forall bits max, 0 <= bits -> 0 <= Random.count_bits fuel bits max.
Proof.
  induction fuel as [|fuel IH]; intros bits max Hb; [done|]. cbn [Random.count_bits].
  destruct (0 <? max); [apply IH; lia|done].
Qed.

(** The loop counts the bits of [max]. *)
Lemma count_bits_spec fuel : forall bits max,
  0 <= max < 2 ^ Z.of_nat fuel ->
  max < 2 ^ (Random.count_bits fuel bits max - bits) /\
  (0 < max -> 2 ^ (Random.count_bits fuel bits max - bits - 1) <= max) /\
  bits <= Random.count_bits fuel bits max <= bits + Z.of_nat fuel.
Proof.
  induction fuel as [|fuel IH]; intros bits max Hm.
  - cbn [Random.count_bits]. rewrite Z.sub_diag. simpl in Hm. split; [simpl; lia|]. lia.
  - cbn [Random.count_bits]. destruct (Z.ltb_spec 0 max) as [Hpos|Hz].
    + assert (Hh : 0 <= Z.shiftr max 1 < 2 ^ Z.of_nat fuel).
      { rewrite Z.shiftr_div_pow2 by lia. change (2 ^ 1) with 2.
        replace (2 ^ Z.of_nat (S fuel)) with (2 * 2 ^ Z.of_nat fuel) in Hm
          by (rewrite Nat2Z.inj_succ, Z.pow_succ_r; lia).
        split; [apply Z.div_pos; lia|]. apply Z.div_lt_upper_bound; lia. }
      destruct (IH (bits + 1) (Z.shiftr max 1) Hh) as (Hu & Hl & Hr).
      assert (Hc0 : max `div` 2 = 0 ->
                    Random.count_bits fuel (bits + 1) (Z.shiftr max 1) = bits + 1).
      { intros E0. destruct fuel; cbn [Random.count_bits]; [done|].
        rewrite Z.shiftr_div_pow2 by lia. change (2 ^ 1) with 2. by rewrite E0. }
      revert Hu Hl Hr Hc0.
      generalize (Random.count_bits fuel (bits + 1) (Z.shiftr max 1)). intros c.
      rewrite Z.shiftr_div_pow2 by lia. change (2 ^ 1) with 2.
      intros Hu Hl Hr Hc0.
      pose proof (Z.div_mod max 2 ltac:(lia)). pose proof (Z.mod_pos_bound max 2 ltac:(lia)).
      replace (c - bits) with (Z.succ (c - (bits + 1))) by lia.
      rewrite Z.pow_succ_r by lia.
      split; [lia|]. split; [|lia]. intros _.
      replace (Z.succ (c - (bits + 1)) - 1) with (c - (bits + 1)) by lia.
      destruct (Z.eq_dec (max `div` 2) 0) as [E0|Hne].
      * rewrite (Hc0 E0). replace (bits + 1 - (bits + 1)) with 0 by lia. simpl. lia.
      * assert (0 < max `div` 2) by (pose proof (Z.div_pos max 2); lia).
        specialize (Hl ltac:(lia)).
        assert (c - (bits + 1) <> 0).
        { intros E. rewrite E in Hu. simpl in Hu. lia. }
        replace (c - (bits + 1)) with (Z.succ (c - (bits + 1) - 1)) by lia.
        rewrite Z.pow_succ_r by lia. lia.
    + assert (max = 0) as -> by lia. rewrite Z.sub_diag. split; [simpl; lia|]. lia.
Qed.

Lemma random_upto_spec fuel rs limit r rs' :
  words_ok rs -> 0 <= limit ->
  Random.random_upto fuel rs limit = Some (r, rs') ->
  words_ok rs' /\ (if limit =? 0 then r = 0 /\ rs' = rs else 0 <= r < limit).
Proof.
  intros Hrs Hl. unfold Random.random_upto.
  destruct (Z.eqb_spec limit 0) as [->|Hne].
  - intros [= <- <-]. done.
  - intros Hd. apply draw_spec in Hd as [Hr Hw]; [done|done|].
    apply count_bits_nonneg. lia.
Qed.

(** *** [shuffle] *)

Lemma swap_perm {A} (l : list A) i j : Random.swap l i j ≡ₚ l.
Proof.
  unfold Random.swap. destruct (l !! i) as [a|] eqn:Ei; [|done].
  destruct (l !! j) as [b|] eqn:Ej; [|done]. by apply Permutation_insert_swap.
Qed.

Lemma shuffle_from_spec {A} fuel i : forall (l : list A) rs l' rs',
  words_ok rs ->
  Random.shuffle_from fuel i l rs = Some (l', rs') ->
  l' ≡ₚ l /\ words_ok rs' /\ drop (S i) l' = drop (S i) l.
Proof.
  induction i as [|i IH]; intros l rs l' rs' Hrs.
  - intros [= <- <-]. done.
  - cbn [Random.shuffle_from].
    destruct (Random.random_upto fuel rs (Z.of_nat (S i) + 1)) as [[j rs1]|] eqn:E; [|done].
    apply random_upto_spec in E as [Hw Hj]; [|done|lia].
    rewrite (proj2 (Z.eqb_neq _ 0)) in Hj by lia.
    intros Hrec. apply IH in Hrec as (Hp & Hw' & Hd); [|done].
    split; [|split; [done|]].
    + rewrite Hp. destruct (j =? Z.of_nat (S i)); [done|apply swap_perm].
    + assert (Hd' : drop (S (S i)) l' = drop (S (S i))
                      (if j =? Z.of_nat (S i) then l else Random.swap l (S i) (Z.to_nat j))).
      { replace (S (S i)) with (S i + 1)%nat by lia. rewrite <- !drop_drop. by rewrite Hd. }
      rewrite Hd'. destruct (j =? Z.of_nat (S i)); [done|].
      unfold Random.swap. destruct (l !! S i) as [a|]; [|done].
      destruct (l !! Z.to_nat j) as [b|]; [|done].
      rewrite !drop_insert_lt by lia. done.
Qed.

Lemma shuffle_from_none {A} fuel i : forall (l : list A) rs,
  words_ok rs ->
  Random.shuffle_from fuel i l rs = None ->
  exists rs1 k, words_ok rs1 /\ (1 <= k <= i)%nat /\
                Random.random_upto fuel rs1 (Z.of_nat k + 1) = None.
Proof.
  induction i as [|i IH]; intros l rs Hrs; [done|].
  cbn [Random.shuffle_from].
  destruct (Random.random_upto fuel rs (Z.of_nat (S i) + 1)) as [[j rs1]|] eqn:E.
  - apply random_upto_spec in E as [Hw _]; [|done|lia].
    intros Hrec. apply IH in Hrec as (rs2 & k & Hw2 & Hk & Hn); [|done].
    exists rs2, k. split; [done|]. split; [lia|done].
  - intros _. exists rs, (S i). split; [done|]. split; [lia|done].
Qed.



(** ** blank_game and clear_game *)

Lemma foldl_nested {A B C} (f : A -> B * C -> A) (xs : list B) (ys : list C) a :
  foldl (fun a y => foldl (fun a x => f a (x, y)) a xs) a ys
  = foldl f a (y ← ys; (fun x => (x, y)) <$> xs).
Proof.
  revert a. induction ys as [|y ys IH]; intros a; simpl; [done|].
  rewrite foldl_app, <- IH. f_equal.
  clear IH. revert a. induction xs as [|x xs IHx]; intros a; simpl; [done|]. apply IHx.
Qed.

Lemma foldl_bind {A B C} (f : A -> C -> A) (F : A -> B -> A) (k : B -> list C) l a :
  (forall a b, F a b = foldl f a (k b)) ->
  foldl F a l = foldl f a (l ≫= k).
Proof.
  intros HF. revert a. induction l as [|b l IH]; intros a; simpl; [done|].
  by rewrite foldl_app, <- HF, IH.
Qed.

(** A loop of stores at cells of the grid: the dimensions stay, and each
    cell receives, in order, the updates addressed to it. *)
Lemma store_all_dims g s cs :
  gs_w (store_all g s cs) = gs_w s /\ gs_h (store_all g s cs) = gs_h s /\
  gs_sx (store_all g s cs) = gs_sx s /\ gs_sy (store_all g s cs) = gs_sy s /\
  gs_ndots (store_all g s cs) = gs_ndots s /\
  length (gs_grid (store_all g s cs)) = length (gs_grid s).
Proof.
  unfold store_all. revert s. induction cs as [|c cs IH]; intros s; simpl; [done|].
  destruct (IH (store s (SPACE s c.1 c.2) (g c))) as (?&?&?&?&?&Hl).
  rewrite store_length in Hl. by repeat split.
Qed.

Lemma store_all_cell g cs s x y :
  Z.of_nat (length (gs_grid s)) = gs_sx s * gs_sy s ->
  Forall (fun c => INGRID s c.1 c.2 = true) cs ->
  INGRID s x y = true ->
  deref (store_all g s cs) (y * gs_sx s + x)
  = foldl (fun sp c => if decide (c = (x, y)) then g c sp else sp)
          (deref s (y * gs_sx s + x)) cs.
Proof.
  unfold store_all. revert s.
  induction cs as [|c cs IH]; intros s Hlen Hcs Hin; simpl; [done|].
  inversion Hcs as [|? ? Hc Hcs']; subst.
  set (s1 := store s (SPACE s c.1 c.2) (g c)).
  change (gs_sx s) with (gs_sx s1). rewrite IH; try done.
  - f_equal. unfold s1. change (gs_sx (store _ _ _)) with (gs_sx s).
    change (y * gs_sx s + x) with (SPACE s x y). rewrite deref_store.
    + destruct c as [cx cy]; simpl in *.
      destruct (decide (SPACE s cx cy = SPACE s x y)) as [E|E].
      * apply SPACE_inj in E as [-> ->]; try done. by rewrite decide_True.
      * rewrite decide_False; [done|]. congruence.
    + by apply SPACE_valid.
    + apply (SPACE_valid s x y Hlen Hin).
  - unfold s1. by rewrite store_length.
Qed.

Lemma foldl_cond_init cs x y sp :
  foldl (fun sp (c : Z * Z) => if decide (c = (x, y)) then init_space c.1 c.2 else sp) sp cs
  = if decide ((x, y) ∈ cs) then init_space x y else sp.
Proof.
  revert sp. induction cs as [|c cs IH]; intros sp; cbn [foldl].
  - rewrite decide_False; [done|]. apply not_elem_of_nil.
  - rewrite IH. destruct (decide (c = (x, y))) as [->|Hne]; simpl.
    + rewrite (decide_True (P := (x, y) ∈ (x, y) :: cs)) by left.
      by destruct (decide ((x, y) ∈ cs)).
    + destruct (decide ((x, y) ∈ cs)) as [Hin|Hin].
      * rewrite decide_True; [done|by right].
      * rewrite decide_False; [done|]. rewrite elem_of_cons. intros [?|?]; [congruence|done].
Qed.

Lemma foldl_cond_idem (g : space -> space) cs (c0 : Z * Z) sp :
  (forall c, g (g c) = g c) ->
  foldl (fun sp c => if decide (c = c0) then g sp else sp) sp cs
  = if decide (c0 ∈ cs) then g sp else sp.
Proof.
  intros Hg. revert sp. induction cs as [|c cs IH]; intros sp; cbn [foldl].
  - rewrite decide_False; [done|]. apply not_elem_of_nil.
  - rewrite IH. destruct (decide (c = c0)) as [->|Hne].
    + rewrite (decide_True (P := c0 ∈ c0 :: cs)) by left.
      destruct (decide (c0 ∈ cs)); [apply Hg|done].
    + destruct (decide (c0 ∈ cs)) as [Hin|Hin].
      * rewrite decide_True; [done|by right].
      * rewrite decide_False; [done|]. rewrite elem_of_cons. intros [?|?]; [congruence|done].
Qed.

Lemma or_flags_idem m c : or_flags m (or_flags m c) = or_flags m c.
Proof.
  unfold or_flags, set_flags; simpl. f_equal.
  by rewrite <- Z.lor_assoc, Z.lor_diag.
Qed.

(** The three loops of [blank_game] as loops over lists of cells. *)
Lemma blank_game_unfold w h :
  blank_game w h =
  store_all (fun _ => or_flags F_EDGE_SET)
    (store_all (fun _ => or_flags F_EDGE_SET)
       (store_all (fun c _ => init_space c.1 c.2)
          (mkState w h (2 * w + 1) (2 * h + 1)
             (replicate (Z.to_nat ((2 * w + 1) * (2 * h + 1))) zero_space) 0 [])
          (y ← seqZ 0 (2 * h + 1); (fun x => (x, y)) <$> seqZ 0 (2 * w + 1)))
       (x ← seqZ 0 (2 * w + 1); [(x, 0); (x, 2 * h + 1 - 1)]))
    (y ← seqZ 0 (2 * h + 1); [(0, y); (2 * w + 1 - 1, y)]).
Proof.
  unfold blank_game, store_all. cbv zeta.
  rewrite <- (foldl_nested (fun st c => store st (SPACE st c.1 c.2)
                                          (fun _ => init_space c.1 c.2))).
  simpl.
  rewrite <- (foldl_bind _
                (fun st y => store (store st (SPACE st 0 y) (or_flags F_EDGE_SET))
                                   (SPACE st (2 * w + 1 - 1) y) (or_flags F_EDGE_SET))
                (fun y => [(0, y); (2 * w + 1 - 1, y)])) by done.
  rewrite <- (foldl_bind _
                (fun st x => store (store st (SPACE st x 0) (or_flags F_EDGE_SET))
                                   (SPACE st x (2 * h + 1 - 1)) (or_flags F_EDGE_SET))
                (fun x => [(x, 0); (x, 2 * h + 1 - 1)])) by done.
  done.
Qed.

Lemma blank_game_dims w h :
  gs_w (blank_game w h) = w /\ gs_h (blank_game w h) = h /\
  gs_sx (blank_game w h) = 2 * w + 1 /\ gs_sy (blank_game w h) = 2 * h + 1 /\
  gs_ndots (blank_game w h) = 0 /\
  length (gs_grid (blank_game w h)) = Z.to_nat ((2 * w + 1) * (2 * h + 1)).
Proof.
  rewrite blank_game_unfold.
  set (s0 := mkState _ _ _ _ _ _ _).
  set (s1 := store_all _ s0 _). set (s2 := store_all _ s1 _).
  destruct (store_all_dims (fun _ => or_flags F_EDGE_SET) s2
              (y ← seqZ 0 (2 * h + 1); [(0, y); (2 * w + 1 - 1, y)]))
    as (-> & -> & -> & -> & -> & ->).
  unfold s2.
  destruct (store_all_dims (fun _ => or_flags F_EDGE_SET) s1
              (x ← seqZ 0 (2 * w + 1); [(x, 0); (x, 2 * h + 1 - 1)]))
    as (-> & -> & -> & -> & -> & ->).
  unfold s1.
  destruct (store_all_dims (fun c _ => init_space c.1 c.2) s0
              (y ← seqZ 0 (2 * h + 1); (fun x => (x, y)) <$> seqZ 0 (2 * w + 1)))
    as (-> & -> & -> & -> & -> & ->).
  simpl. by rewrite length_replicate.
Qed.

(** The cell of a blank board at [(x, y)]. *)
Lemma blank_game_cell w h x y :
  0 <= w -> 0 <= h ->
  0 <= x < 2 * w + 1 -> 0 <= y < 2 * h + 1 ->
  deref (blank_game w h) (y * (2 * w + 1) + x)
  = mkSpace x y (sp_type (init_space x y))
            (if on_border (2 * w + 1) (2 * h + 1) x y then F_EDGE_SET else 0) 0 0 0.
Proof.
  intros Hw Hh Hx Hy.
  rewrite blank_game_unfold.
  set (sx := 2 * w + 1) in *. set (sy := 2 * h + 1) in *.
  set (s0 := mkState w h sx sy (replicate (Z.to_nat (sx * sy)) zero_space) 0 []).
  set (cs1 := y ← seqZ 0 sy; (fun x => (x, y)) <$> seqZ 0 sx).
  set (cs2 := x ← seqZ 0 sx; [(x, 0); (x, sy - 1)]).
  set (cs3 := y ← seqZ 0 sy; [(0, y); (sx - 1, y)]).
  set (g1 := fun (c : Z * Z) (_ : space) => init_space c.1 c.2).
  set (g2 := fun (_ : Z * Z) => or_flags F_EDGE_SET).
  set (s1 := store_all g1 s0 cs1).
  set (s2 := store_all g2 s1 cs2).
  destruct (store_all_dims g1 s0 cs1) as (_ & _ & Hsx1 & Hsy1 & _ & Hl1).
  destruct (store_all_dims g2 s1 cs2) as (_ & _ & Hsx2 & Hsy2 & _ & Hl2).
  fold s1 in Hsx1, Hsy1, Hl1. fold s2 in Hsx2, Hsy2, Hl2.
  assert (Hs0x : gs_sx s0 = sx) by done. assert (Hs0y : gs_sy s0 = sy) by done.
  assert (Hlen0 : Z.of_nat (length (gs_grid s0)) = gs_sx s0 * gs_sy s0).
  { simpl. rewrite length_replicate. subst sx sy. nia. }
  assert (Hin0 : forall s, gs_sx s = sx -> gs_sy s = sy -> INGRID s x y = true).
  { intros s E1 E2. apply INGRID_spec. rewrite E1, E2. lia. }
  assert (Hall : forall s cs, gs_sx s = sx -> gs_sy s = sy ->
             (forall c, c ∈ cs -> 0 <= c.1 < sx /\ 0 <= c.2 < sy) ->
             Forall (fun c => INGRID s c.1 c.2 = true) cs).
  { intros s cs E1 E2 H. apply Forall_forall. intros c Hc. apply INGRID_spec.
    rewrite E1, E2. by apply H. }
  assert (Hcs1 : forall c, c ∈ cs1 <-> 0 <= c.1 < sx /\ 0 <= c.2 < sy).
  { intros [cx cy]. unfold cs1. rewrite list_elem_of_bind. split.
    - intros (y' & Hc & Hy'). apply list_elem_of_fmap in Hc as (x' & [= -> ->] & Hx').
      apply elem_of_seqZ in Hy', Hx'. simpl; lia.
    - intros [? ?]; simpl in *. exists cy. split; [|apply elem_of_seqZ; lia].
      apply list_elem_of_fmap. exists cx. split; [done|apply elem_of_seqZ; lia]. }
  assert (Hcs2 : forall c, c ∈ cs2 <-> 0 <= c.1 < sx /\ (c.2 = 0 \/ c.2 = sy - 1)).
  { intros [cx cy]. unfold cs2. rewrite list_elem_of_bind. split.
    - intros (x' & Hc & Hx'). apply elem_of_seqZ in Hx'.
      rewrite !elem_of_cons, elem_of_nil in Hc. simpl.
      destruct Hc as [[= -> ->]|[[= -> ->]|[]]]; lia.
    - intros [? Hc]; simpl in *. exists cx. split; [|apply elem_of_seqZ; lia].
      rewrite !elem_of_cons. destruct Hc as [->| ->]; auto. }
  assert (Hcs3 : forall c, c ∈ cs3 <-> 0 <= c.2 < sy /\ (c.1 = 0 \/ c.1 = sx - 1)).
  { intros [cx cy]. unfold cs3. rewrite list_elem_of_bind. split.
    - intros (y' & Hc & Hy'). apply elem_of_seqZ in Hy'.
      rewrite !elem_of_cons, elem_of_nil in Hc. simpl.
      destruct Hc as [[= -> ->]|[[= -> ->]|[]]]; lia.
    - intros [? Hc]; simpl in *. exists cy. split; [|apply elem_of_seqZ; lia].
      rewrite !elem_of_cons. destruct Hc as [->| ->]; auto. }
  change (y * sx + x) with (y * gs_sx s0 + x).
  rewrite <- Hsx1, <- Hsx2.
  rewrite store_all_cell.
  2:{ rewrite Hl2, Hl1, Hsx2, Hsy2, Hsx1, Hsy1. apply Hlen0. }
  2:{ apply Hall; [congruence|congruence|]. intros c Hc%Hcs3. subst sx sy. lia. }
  2:{ apply Hin0; congruence. }
  rewrite Hsx2. unfold s2 at 1.
  rewrite store_all_cell.
  2:{ rewrite Hl1, Hsx1, Hsy1. apply Hlen0. }
  2:{ apply Hall; [congruence|congruence|]. intros c Hc%Hcs2. subst sx sy. lia. }
  2:{ apply Hin0; congruence. }
  rewrite Hsx1. unfold s1 at 1.
  rewrite store_all_cell; [|done| |by apply Hin0].
  2:{ apply Hall; [done|done|]. intros c Hc%Hcs1. lia. }
  unfold g2, g1.
  rewrite (foldl_cond_idem (or_flags F_EDGE_SET) cs3) by apply or_flags_idem.
  rewrite (foldl_cond_idem (or_flags F_EDGE_SET) cs2) by apply or_flags_idem.
  rewrite foldl_cond_init.
  rewrite (decide_True (P := (x, y) ∈ cs1)) by (apply Hcs1; simpl; lia).
  unfold on_border.
  destruct (Hcs2 (x, y)) as [E2a E2b]. destruct (Hcs3 (x, y)) as [E3a E3b].
  simpl in E2a, E2b, E3a, E3b.
  destruct (decide ((x, y) ∈ cs2)) as [H2|H2]; destruct (decide ((x, y) ∈ cs3)) as [H3|H3].
  all: try apply E2a in H2; try apply E3a in H3.
  all: try (assert (~ (0 <= x < sx /\ (y = 0 \/ y = sy - 1)))
              by (intros H; apply H2, E2b, H)).
  all: try (assert (~ (0 <= y < sy /\ (x = 0 \/ x = sx - 1)))
              by (intros H'; apply H3, E3b, H')).
  all: clear E2a E2b E3a E3b.
  all: unfold or_flags, set_flags, init_space; simpl; f_equal.
  all: repeat match goal with
       | |- context [?a =? ?b] => destruct (Z.eqb_spec a b)
       end; simpl; try reflexivity; try lia.
Qed.



Lemma blank_game_shape w h : 0 <= w -> 0 <= h -> shape (blank_game w h).
Proof.
  intros Hw Hh. destruct (blank_game_dims w h) as (_ & _ & Hsx & Hsy & _ & Hlen).
  split.
  - lia.
  - lia.
  - rewrite Hlen, Hsx, Hsy. nia.
  - intros x y [Hx Hy]%INGRID_spec. unfold SPACE. rewrite Hsx, Hsy in *.
    by rewrite blank_game_cell.
Qed.

Lemma deref_clear_game s p :
  valid s p -> deref (clear_game s) p = clear_space (gs_sx s) (gs_sy s) (deref s p).
Proof.
  intros [Hp0 Hp]. unfold deref, clear_game; simpl. rewrite list_lookup_fmap.
  destruct (gs_grid s !! Z.to_nat p) eqn:E; [done|].
  apply lookup_ge_None in E. lia.
Qed.

Lemma valid_clear_game s p : valid (clear_game s) p <-> valid s p.
Proof. unfold valid, clear_game; simpl. by rewrite length_fmap. Qed.

Lemma clear_game_shape s : shape s -> shape (clear_game s).
Proof.
  intros [Hsx Hsy Hlen Hcell]. split; try done.
  - simpl. by rewrite length_fmap.
  - intros x y Hin. change (SPACE (clear_game s) x y) with (SPACE s x y).
    change (INGRID (clear_game s) x y) with (INGRID s x y) in Hin.
    rewrite deref_clear_game by (by apply SPACE_valid). simpl. by apply Hcell.
Qed.

(** ** The elementary step [assoc_to] *)

Lemma associate_keeps dx dy : keeps_cell (associate dx dy).
Proof. by intros c. Qed.

Lemma incr_nassoc_keeps : keeps_cell incr_nassoc.
Proof. by intros c. Qed.

Lemma or_flags_keeps m : keeps_cell (or_flags m).
Proof. by intros c. Qed.

Lemma assoc_to_shape dot t s : shape s -> shape (assoc_to dot t s).
Proof.
  intros Hs. unfold assoc_to.
  apply shape_store; [|apply incr_nassoc_keeps].
  apply shape_store; [done|apply associate_keeps].
Qed.

Lemma valid_assoc_to dot t s q : valid (assoc_to dot t s) q <-> valid s q.
Proof. unfold assoc_to. by rewrite !valid_store. Qed.

Lemma assoc_to_dims dot t s :
  gs_sx (assoc_to dot t s) = gs_sx s /\ gs_sy (assoc_to dot t s) = gs_sy s /\
  gs_w (assoc_to dot t s) = gs_w s /\ gs_h (assoc_to dot t s) = gs_h s /\
  gs_ndots (assoc_to dot t s) = gs_ndots s.
Proof. done. Qed.

Lemma deref_assoc_to dot t s q :
  valid s t -> valid s dot -> 0 <= q ->
  deref (assoc_to dot t s) q =
  let c := if decide (t = q)
           then associate (sp_x (deref s dot)) (sp_y (deref s dot)) (deref s q)
           else deref s q in
  if decide (dot = q) then incr_nassoc c else c.
Proof.
  intros Ht Hd Hq. unfold assoc_to.
  rewrite deref_store; [|by apply valid_store|done].
  destruct (decide (dot = q)) as [->|Hne].
  - rewrite deref_store by (done || apply Hd).
    by destruct (decide (t = q)) as [->|].
  - rewrite deref_store by done. by destruct (decide (t = q)) as [->|].
Qed.

Lemma xy_assoc_to dot t s q :
  sp_x (deref (assoc_to dot t s) q) = sp_x (deref s q) /\
  sp_y (deref (assoc_to dot t s) q) = sp_y (deref s q) /\
  sp_type (deref (assoc_to dot t s) q) = sp_type (deref s q).
Proof.
  unfold assoc_to.
  rewrite !(deref_store_keeps _ dot incr_nassoc _ sp_x),
          !(deref_store_keeps _ dot incr_nassoc _ sp_y) by done.
  rewrite !(deref_store_keeps _ t _ _ sp_x), !(deref_store_keeps _ t _ _ sp_y) by done.
  rewrite deref_store_type by apply incr_nassoc_keeps.
  by rewrite deref_store_type by apply associate_keeps.
Qed.

Lemma flags_assoc_to dot t s q :
  valid s t -> valid s dot -> 0 <= q ->
  sp_flags (deref (assoc_to dot t s) q)
  = if decide (t = q) then Z.lor (sp_flags (deref s q)) F_TILE_ASSOC
    else sp_flags (deref s q).
Proof.
  intros Ht Hd Hq. rewrite deref_assoc_to by done. cbv zeta.
  destruct (decide (dot = q)), (decide (t = q)); done.
Qed.

Lemma record_assoc_to dot t s q :
  valid s t -> valid s dot -> 0 <= q ->
  (sp_dotx (deref (assoc_to dot t s) q), sp_doty (deref (assoc_to dot t s) q))
  = if decide (t = q) then (sp_x (deref s dot), sp_y (deref s dot))
    else (sp_dotx (deref s q), sp_doty (deref s q)).
Proof.
  intros Ht Hd Hq. rewrite deref_assoc_to by done. cbv zeta.
  destruct (decide (dot = q)), (decide (t = q)); done.
Qed.

Lemma nassoc_assoc_to dot t s q :
  valid s t -> valid s dot -> 0 <= q ->
  sp_nassoc (deref (assoc_to dot t s) q)
  = if decide (dot = q) then sp_nassoc (deref s q) + 1 else sp_nassoc (deref s q).
Proof.
  intros Ht Hd Hq. rewrite deref_assoc_to by done. cbv zeta.
  destruct (decide (dot = q)), (decide (t = q)); done.
Qed.

Lemma is_dot_assoc_to dot t s q :
  valid s t -> valid s dot -> is_dot (assoc_to dot t s) q <-> is_dot s q.
Proof.
  intros Ht Hd. unfold is_dot. rewrite valid_assoc_to.
  split; intros [Hq H]; (split; [done|]); revert H;
    rewrite flags_assoc_to by (done || apply Hq);
    destruct (decide (t = q)); try done.
  all: by rewrite has_flag_lor_other.
Qed.

Lemma is_tile_assoc_to dot t s q : is_tile (assoc_to dot t s) q <-> is_tile s q.
Proof.
  unfold is_tile. rewrite valid_assoc_to.
  destruct (xy_assoc_to dot t s q) as (_ & _ & ->). done.
Qed.

Lemma is_assoc_assoc_to dot t s q :
  valid s t -> valid s dot -> 0 <= q ->
  is_assoc (assoc_to dot t s) q <-> t = q \/ is_assoc s q.
Proof.
  intros Ht Hd Hq. unfold is_assoc. rewrite flags_assoc_to by done.
  destruct (decide (t = q)) as [->|Hne].
  - rewrite has_flag_lor_same by done. split; auto.
  - split; [auto|]. by intros [?|?].
Qed.

(** *** Counting recorded tiles *)

Lemma filter_ext_elem {A} (P Q : A -> Prop) `{!forall x, Decision (P x)}
    `{!forall x, Decision (Q x)} (l : list A) :
  (forall x, x ∈ l -> P x <-> Q x) -> filter P l = filter Q l.
Proof.
  induction l as [|a l IH]; intros Hext; [done|].
  rewrite !filter_cons.
  destruct (decide (P a)) as [Hp|Hp], (decide (Q a)) as [Hq|Hq].
  - f_equal. apply IH. intros x Hx. apply Hext. by right.
  - exfalso. apply Hq, (Hext a); [left|done].
  - exfalso. apply Hp, (Hext a); [left|done].
  - apply IH. intros x Hx. apply Hext. by right.
Qed.

Lemma filter_length_add {A} `{!EqDecision A} (P Q : A -> Prop)
    `{!forall x, Decision (P x)}
    `{!forall x, Decision (Q x)} (l : list A) (t : A) :
  NoDup l -> t ∈ l -> ~ P t -> Q t ->
  (forall x, x ∈ l -> x <> t -> P x <-> Q x) ->
  length (filter Q l) = S (length (filter P l)).
Proof.
  induction l as [|a l IH]; intros Hnd Hin Hp Hq Hext.
  - by apply elem_of_nil in Hin.
  - apply NoDup_cons in Hnd as [Ha Hnd]. rewrite !filter_cons.
    destruct (decide (a = t)) as [->|Hne].
    + rewrite decide_True by done. rewrite decide_False by done. simpl. f_equal.
      f_equal. symmetry. apply filter_ext_elem. intros x Hx. apply Hext; [by right|].
      intros ->. done.
    + apply elem_of_cons in Hin as [->|Hin]; [done|].
      assert (Hl : length (filter Q l) = S (length (filter P l))).
      { apply IH; try done. intros x Hx. apply Hext. by right. }
      destruct (decide (P a)) as [Hpa|Hpa], (decide (Q a)) as [Hqa|Hqa]; simpl.
      * by rewrite Hl.
      * exfalso. apply Hqa, (Hext a); [left|done|done].
      * exfalso. apply Hpa, (Hext a); [left|done|done].
      * done.
Qed.

Lemma valid_seq s t : shape s -> valid s t <-> t ∈ seqZ 0 (gs_sx s * gs_sy s).
Proof.
  intros Hs. unfold valid. rewrite (shape_len s Hs), elem_of_seqZ. lia.
Qed.

Lemma elem_of_owned_tiles s dx dy t :
  shape s ->
  t ∈ owned_tiles s dx dy <->
  is_tile s t /\ sp_dotx (deref s t) = dx /\ sp_doty (deref s t) = dy.
Proof.
  intros Hs. unfold owned_tiles, is_tile. rewrite list_elem_of_filter, <- valid_seq by done.
  tauto.
Qed.

(** Giving a tile to [dot] does not change what is recorded for other
    coordinates, unless the tile was recorded for them. *)
Lemma owned_tiles_assoc_to_other dot t s dx dy :
  shape s -> valid s t -> valid s dot ->
  (sp_dotx (deref s t), sp_doty (deref s t)) <> (dx, dy) ->
  (sp_x (deref s dot), sp_y (deref s dot)) <> (dx, dy) ->
  owned_tiles (assoc_to dot t s) dx dy = owned_tiles s dx dy.
Proof.
  intros Hs Ht Hd Hold Hnew. unfold owned_tiles.
  change (gs_sx (assoc_to dot t s)) with (gs_sx s).
  change (gs_sy (assoc_to dot t s)) with (gs_sy s).
  apply filter_ext_elem. intros q Hq%valid_seq; [|done].
  destruct (xy_assoc_to dot t s q) as (_ & _ & ->).
  pose proof (record_assoc_to dot t s q Ht Hd (proj1 Hq)) as Hr.
  destruct (decide (t = q)) as [->|Hne].
  - injection Hr as -> ->. split; intros (? & ? & ?); exfalso; [apply Hnew|apply Hold]; congruence.
  - injection Hr as -> ->. done.
Qed.

(** It adds the tile to what is recorded for [dot]. *)
Lemma owned_tiles_assoc_to_self dot t s :
  shape s -> is_tile s t -> valid s dot ->
  (sp_dotx (deref s t), sp_doty (deref s t)) <> (sp_x (deref s dot), sp_y (deref s dot)) ->
  length (owned_tiles (assoc_to dot t s) (sp_x (deref s dot)) (sp_y (deref s dot)))
  = S (length (owned_tiles s (sp_x (deref s dot)) (sp_y (deref s dot)))).
Proof.
  intros Hs [Ht Htile] Hd Hold. unfold owned_tiles.
  change (gs_sx (assoc_to dot t s)) with (gs_sx s).
  change (gs_sy (assoc_to dot t s)) with (gs_sy s).
  apply (filter_length_add _ _ _ t).
  - apply NoDup_seqZ.
  - by apply valid_seq.
  - intros (_ & ? & ?). apply Hold. congruence.
  - destruct (xy_assoc_to dot t s t) as (_ & _ & ->).
    pose proof (record_assoc_to dot t s t Ht Hd (proj1 Ht)) as Hr.
    rewrite decide_True in Hr by done. injection Hr as -> ->. done.
  - intros q Hq%valid_seq Hne; [|done].
    destruct (xy_assoc_to dot t s q) as (_ & _ & ->).
    pose proof (record_assoc_to dot t s q Ht Hd (proj1 Hq)) as Hr.
    rewrite decide_False in Hr by done. injection Hr as -> ->. done.
Qed.



(** *** The invariant is kept by the elementary step *)

Lemma coords_inj s p q :
  shape s -> valid s p -> valid s q ->
  sp_x (deref s p) = sp_x (deref s q) -> sp_y (deref s p) = sp_y (deref s q) -> p = q.
Proof.
  intros Hs Hp Hq Hx Hy.
  destruct (valid_xy s p Hs Hp) as [_ <-]. destruct (valid_xy s q Hs Hq) as [_ <-].
  by rewrite Hx, Hy.
Qed.

Lemma valid_0 s : shape s -> valid s 0.
Proof. intros [? ? Hlen _]. unfold valid. rewrite Hlen. nia. Qed.

Lemma deref_0 s : shape s -> sp_x (deref s 0) = 0 /\ sp_y (deref s 0) = 0.
Proof.
  intros Hs. assert (Hin : INGRID s 0 0 = true).
  { apply INGRID_spec. destruct Hs. lia. }
  destruct (shape_cell s Hs 0 0 Hin) as (Hx & Hy & _).
  unfold SPACE in Hx, Hy. by rewrite Z.mul_0_l, Z.add_0_r in Hx, Hy.
Qed.

(** A tile that is not associated is recorded for no dot. *)
Lemma free_tile_no_dot s t d :
  shape s -> free_record s -> framed s ->
  is_tile s t -> ~ is_assoc s t -> is_dot s d ->
  (sp_dotx (deref s t), sp_doty (deref s t)) <> (sp_x (deref s d), sp_y (deref s d)).
Proof.
  intros Hs Hfree [_ H0] Ht Hna [Hd Hdot] Heq.
  destruct (valid_xy s d Hs Hd) as [[Hx Hy]%INGRID_spec Hsp].
  destruct (Hfree t Ht Hna) as [[E1 E2]|[E1 E2]]; rewrite E1, E2 in Heq.
  - injection Heq as ? ?. lia.
  - injection Heq as E3 E4. destruct (deref_0 s Hs) as [E5 E6].
    assert (d = 0) as ->.
    { apply (coords_inj s); try done; [by apply valid_0|congruence|congruence]. }
    congruence.
Qed.

Lemma assoc_to_core dot t s :
  core_inv s -> is_dot s dot -> is_tile s t -> ~ is_assoc s t ->
  core_inv (assoc_to dot t s).
Proof.
  intros [Hs Hn Hfree Hassoc Hframed] Hdot Ht Hna.
  pose proof Hdot as [Hvd Hfd]. pose proof Ht as [Hvt Htt].
  assert (Hxy : forall q, sp_x (deref (assoc_to dot t s) q) = sp_x (deref s q) /\
                          sp_y (deref (assoc_to dot t s) q) = sp_y (deref s q)).
  { intros q. destruct (xy_assoc_to dot t s q) as (? & ? & _). done. }
  split.
  - by apply assoc_to_shape.
  - intros d Hd. rewrite is_dot_assoc_to in Hd by done.
    destruct (Hxy d) as [-> ->].
    assert (Hd0 : 0 <= d) by apply Hd.
    rewrite nassoc_assoc_to by done.
    destruct (decide (dot = d)) as [<-|Hne].
    + rewrite owned_tiles_assoc_to_self; try done.
      * rewrite Hn by done. lia.
      * by apply free_tile_no_dot.
    + rewrite owned_tiles_assoc_to_other; try done.
      * by apply Hn.
      * by apply free_tile_no_dot.
      * intros [= E1 E2]. apply Hne. apply (coords_inj s); try done. apply Hd.
  - intros q Hq Hnq. rewrite is_tile_assoc_to in Hq.
    assert (Hq0 : 0 <= q) by apply Hq.
    rewrite is_assoc_assoc_to in Hnq by done.
    pose proof (record_assoc_to dot t s q Hvt Hvd Hq0) as Hr.
    destruct (decide (t = q)) as [->|Hne]; [exfalso; tauto|].
    injection Hr as -> ->. apply Hfree; [done|tauto].
  - intros q Hq Haq. rewrite is_tile_assoc_to in Hq.
    assert (Hq0 : 0 <= q) by apply Hq.
    rewrite is_assoc_assoc_to in Haq by done.
    pose proof (record_assoc_to dot t s q Hvt Hvd Hq0) as Hr.
    destruct (decide (t = q)) as [->|Hne].
    + injection Hr as -> ->. exists dot. split; [by apply is_dot_assoc_to|].
      destruct (Hxy dot) as [-> ->]. done.
    + injection Hr as -> ->. destruct Haq as [?|Haq]; [done|].
      destruct (Hassoc q Hq Haq) as (d & Hd & E1 & E2).
      exists d. split; [by apply is_dot_assoc_to|].
      destruct (Hxy d) as [-> ->]. done.
  - destruct Hframed as [Hb H0]. split.
    + intros x y Hin Hbd.
      rewrite flags_assoc_to; [|done|done|].
      2:{ by apply SPACE_nonneg. }
      change (SPACE (assoc_to dot t s) x y) with (SPACE s x y).
      destruct (decide (t = SPACE s x y)); [rewrite has_flag_lor_other by done|];
        by apply Hb.
    + rewrite flags_assoc_to by done.
      destruct (decide (t = 0)); [rewrite has_flag_lor_other by done|]; done.
Qed.

Lemma touching_assoc_to dot t s d q :
  touching (assoc_to dot t s) d q <-> touching s d q.
Proof.
  unfold touching.
  destruct (xy_assoc_to dot t s d) as (-> & -> & _).
  destruct (xy_assoc_to dot t s q) as (-> & -> & _). done.
Qed.

Lemma gen_inv_core s : gen_inv s <-> core_inv s /\ dots_surrounded s.
Proof.
  split.
  - intros [? ? ? ? ? ?]. split; [split|]; done.
  - intros [[? ? ? ? ?] ?]. split; done.
Qed.

Lemma assoc_to_inv dot t s :
  gen_inv s -> is_dot s dot -> is_tile s t -> ~ is_assoc s t ->
  gen_inv (assoc_to dot t s).
Proof.
  rewrite !gen_inv_core. intros [Hc Hsur] Hdot Ht Hna.
  split; [by apply assoc_to_core|].
  pose proof Hdot as [Hvd Hfd]. pose proof Ht as [Hvt Htt].
  intros d q Hd Hq Htouch. rewrite is_dot_assoc_to in Hd by done.
  rewrite is_tile_assoc_to in Hq. apply is_assoc_assoc_to; [done|done|apply Hq|].
  right. apply (Hsur d q); try done. by apply touching_assoc_to in Htouch.
Qed.



(** ** solver_obvious_dot *)

Lemma odd_rem x : 0 <= x -> (exists k, x = 1 + 2 * k) -> (Z.rem x 2 =? 0) = false.
Proof.
  intros Hx (k & ->). apply Z.eqb_neq. rewrite Z.rem_mod_nonneg by lia.
  pose proof (Z.div_mod (1 + 2 * k) 2 ltac:(lia)).
  pose proof (Z.mod_pos_bound (1 + 2 * k) 2 ltac:(lia)). lia.
Qed.

Lemma tile_cell s x y :
  shape s -> INGRID s x y = true ->
  (exists k, x = 1 + 2 * k) -> (exists k, y = 1 + 2 * k) ->
  is_tile s (SPACE s x y).
Proof.
  intros Hs Hin Hx Hy. split; [by apply SPACE_valid; [apply Hs|]|].
  destruct (shape_cell s Hs x y Hin) as (_ & _ & ->).
  destruct (proj1 (INGRID_spec _ _ _) Hin) as [? ?].
  unfold init_space; simpl. by rewrite !odd_rem by (lia || done).
Qed.

(** The coordinates of a tile are odd. *)
Lemma tile_odd s t :
  shape s -> is_tile s t ->
  (exists k, sp_x (deref s t) = 1 + 2 * k) /\ (exists k, sp_y (deref s t) = 1 + 2 * k).
Proof.
  intros Hs [Hv Ht]. destruct (valid_xy s t Hs Hv) as [Hin Hsp].
  destruct (shape_cell s Hs _ _ Hin) as (_ & _ & Hty). rewrite Hsp, Ht in Hty.
  destruct (proj1 (INGRID_spec _ _ _) Hin) as [? ?].
  unfold init_space in Hty; simpl in Hty.
  destruct (Z.eqb_spec (Z.rem (sp_x (deref s t)) 2) 0) as [E1|E1];
    destruct (Z.eqb_spec (Z.rem (sp_y (deref s t)) 2) 0) as [E2|E2];
    simpl in Hty; try done.
  rewrite Z.rem_mod_nonneg in E1, E2 by lia.
  split.
  - exists (sp_x (deref s t) `div` 2).
    pose proof (Z.div_mod (sp_x (deref s t)) 2 ltac:(lia)).
    pose proof (Z.mod_pos_bound (sp_x (deref s t)) 2 ltac:(lia)). lia.
  - exists (sp_y (deref s t) `div` 2).
    pose proof (Z.div_mod (sp_y (deref s t)) 2 ltac:(lia)).
    pose proof (Z.mod_pos_bound (sp_y (deref s t)) 2 ltac:(lia)). lia.
Qed.

(** The mirror image of a tile about any cell is a tile. *)
Lemma space_opposite_dot_Some s t dot o :
  shape s -> is_tile s t -> valid s dot ->
  space_opposite_dot s t dot = Some o ->
  is_tile s o /\
  sp_x (deref s o) = 2 * sp_x (deref s dot) - sp_x (deref s t) /\
  sp_y (deref s o) = 2 * sp_y (deref s dot) - sp_y (deref s t).
Proof.
  intros Hs Ht Hd. unfold space_opposite_dot.
  destruct (INGRID s _ _) eqn:Hin; simpl; [|done]. intros [= <-].
  destruct (tile_odd s t Hs Ht) as [[kx Hx] [ky Hy]].
  destruct (shape_cell s Hs _ _ Hin) as (Ex & Ey & _).
  split; [|split; [rewrite Ex; lia|rewrite Ey; lia]].
  apply tile_cell; [done|done| |].
  - exists (sp_x (deref s dot) - kx - 1). lia.
  - exists (sp_y (deref s dot) - ky - 1). lia.
Qed.

(** The body of the loops of [solver_obvious_dot], case by case. *)
Lemma obvious_step_cases s ret dot x y :
  shape s -> valid s dot -> is_tile s (SPACE s x y) ->
  let t := SPACE s x y in
  (obvious_step dot (s, ret) x y = Ok (s, ret) /\
   (is_assoc s t \/ space_opposite_dot s t dot = None \/
    exists o, space_opposite_dot s t dot = Some o /\ owned_by_other s o dot = true))
  \/ (~ is_assoc s t /\
      exists o, space_opposite_dot s t dot = Some o /\
        owned_by_other s o dot = false /\ (o = t \/ is_assoc s o) /\
        obvious_step dot (s, ret) x y = Ok (assoc_to dot t s, 1))
  \/ (~ is_assoc s t /\
      exists o, space_opposite_dot s t dot = Some o /\ o <> t /\
        is_tile s o /\ ~ is_assoc s o /\
        obvious_step dot (s, ret) x y = Ok (assoc_to dot o (assoc_to dot t s), 1)).
Proof.
  intros Hs Hd Ht t. unfold obvious_step. fold t.
  destruct (has_flag (sp_flags (deref s t)) F_TILE_ASSOC) eqn:Hat.
  { left. split; [done|by left]. }
  assert (Hna : ~ is_assoc s t) by (unfold is_assoc; congruence).
  destruct (space_opposite_dot s t dot) as [o|] eqn:Hopp.
  2:{ left. split; [done|]. right. by left. }
  destruct (owned_by_other s o dot) eqn:Hother.
  { left. split; [done|]. right. right. by exists o. }
  right.
  destruct (space_opposite_dot_Some s t dot o Hs Ht Hd Hopp) as (Ho & _ & _).
  change (store (store s t (associate (sp_x (deref s dot)) (sp_y (deref s dot))))
                dot incr_nassoc) with (assoc_to dot t s).
  set (s2 := assoc_to dot t s).
  assert (Hflag : has_flag (sp_flags (deref s2 o)) F_TILE_ASSOC = true
                  <-> o = t \/ is_assoc s o).
  { unfold s2. pose proof (is_assoc_assoc_to dot t s o (proj1 Ht) Hd (proj1 (proj1 Ho))) as H.
    unfold is_assoc in H at 1. rewrite H. split; intros [?|?]; auto. }
  destruct (has_flag (sp_flags (deref s2 o)) F_TILE_ASSOC) eqn:Hao.
  - left. split; [done|]. exists o. split; [done|]. split; [done|].
    split; [by apply Hflag|].
    assert (Hrec : (sp_dotx (deref s2 o) =? sp_x (deref s2 dot))
                   && (sp_doty (deref s2 o) =? sp_y (deref s2 dot)) = true).
    { destruct (xy_assoc_to dot t s dot) as (Ex & Ey & _). fold s2 in Ex, Ey.
      rewrite Ex, Ey.
      pose proof (record_assoc_to dot t s o (proj1 Ht) Hd (proj1 (proj1 Ho))) as Hr.
      fold s2 in Hr. destruct (decide (t = o)) as [->|Hne].
      - injection Hr as -> ->. by rewrite !Z.eqb_refl.
      - injection Hr as -> ->.
        destruct (proj1 Hflag eq_refl) as [->|Hos]; [done|].
        unfold owned_by_other in Hother. unfold is_assoc in Hos. rewrite Hos in Hother.
        simpl in Hother. apply orb_false_iff in Hother as [E1 E2].
        apply negb_false_iff in E1, E2. by rewrite E1, E2. }
    rewrite Hrec. done.
  - right. split; [done|]. exists o.
    assert (Hno : ~ (o = t \/ is_assoc s o)) by (rewrite <- Hflag; congruence).
    split; [done|]. split; [tauto|]. split; [done|]. split; [tauto|]. done.
Qed.

(** Every property that the elementary step keeps is kept by
    [solver_obvious_dot], which does not fault. *)
Lemma solver_obvious_dot_inv (P : game_state -> Prop) s dot :
  (forall s, P s -> shape s /\ is_dot s dot) ->
  (forall s t, P s -> is_tile s t -> ~ is_assoc s t -> P (assoc_to dot t s)) ->
  P s ->
  exists s' r, solver_obvious_dot s dot = Ok (s', r) /\ P s' /\
               gs_sx s' = gs_sx s /\ gs_sy s' = gs_sy s /\
               gs_w s' = gs_w s /\ gs_h s' = gs_h s /\ gs_ndots s' = gs_ndots s /\
               (r = 0 \/ r = 1).
Proof.
  intros Hbase Hstep HP. unfold solver_obvious_dot.
  destruct (Hbase s HP) as [Hs [Hvd Hfd]]. rewrite Hfd. simpl.
  set (I := fun acc : game_state * Z =>
              P acc.1 /\ gs_sx acc.1 = gs_sx s /\ gs_sy acc.1 = gs_sy s /\
              gs_w acc.1 = gs_w s /\ gs_h acc.1 = gs_h s /\ gs_ndots acc.1 = gs_ndots s /\
              (acc.2 = 0 \/ acc.2 = 1)).
  destruct (fold_res_inv I
              (fun acc x => fold_res (fun acc y => obvious_step dot acc x y)
                                     (range2 1 (gs_sy s)) acc)
              (range2 1 (gs_sx s)) (s, 0)) as ([s' r] & Hres & HI).
  - unfold I; simpl. repeat split; auto.
  - intros acc x Hx Hacc. apply fold_res_inv; [done|].
    clear acc Hacc. intros [s1 r1] y Hy HI1. unfold I in HI1. cbn [fst snd] in HI1.
    destruct HI1 as (HP1 & Esx & Esy & Ew & Eh & End & Hr1).
    destruct (Hbase s1 HP1) as [Hs1 [Hvd1 _]].
    apply elem_of_range2 in Hx as (kx & ? & -> & ?).
    apply elem_of_range2 in Hy as (ky & ? & -> & ?).
    assert (Hin : INGRID s1 (1 + 2 * kx) (1 + 2 * ky) = true).
    { apply INGRID_spec. lia. }
    assert (Ht : is_tile s1 (SPACE s1 (1 + 2 * kx) (1 + 2 * ky))).
    { apply tile_cell; eauto. }
    cbv beta.
    destruct (obvious_step_cases s1 r1 dot _ _ Hs1 Hvd1 Ht)
      as [[-> _]|[(Hna & o & _ & _ & _ & ->)|(Hna & o & _ & Hne & Ho & Hno & ->)]].
    + eexists. split; [done|]. unfold I. simpl. by repeat split.
    + eexists. split; [done|]. unfold I. simpl. repeat split; try done; auto.
    + eexists. split; [done|]. unfold I. simpl. repeat split; try done; auto.
      apply Hstep; [by apply Hstep| |].
      * by apply is_tile_assoc_to.
      * rewrite is_assoc_assoc_to; [|apply Ht|done|apply Ho].
        intros [E|E]; [by apply Hne|done].
  - exists s', r. split; [done|]. apply HI.
Qed.



(** ** The generation pass and the dot count *)

(** A loop stops with the fault [e] when some iteration faults with [e]
    whatever state it starts from and the iterations before it can only
    succeed or fault with [e]. *)
Lemma fold_res_fault {A B} (P : A -> Prop) (e : fault) (f : A -> B -> result A) l a :
  P a ->
  (forall a b, b ∈ l -> P a -> (exists a', f a b = Ok a' /\ P a') \/ f a b = Fault e) ->
  (exists b, b ∈ l /\ forall a, P a -> f a b = Fault e) ->
  fold_res f l a = Fault e.
Proof.
  revert a. induction l as [|b l IH]; intros a Ha Hstep (b0 & Hb0 & Hf).
  - by apply elem_of_nil in Hb0.
  - simpl. apply elem_of_cons in Hb0 as [->|Hb0].
    + by rewrite Hf.
    + destruct (Hstep a b) as [(a1 & -> & Ha1)| ->]; [left|done| |done]. simpl.
      apply IH; [done| |].
      * intros a2 b2 Hb2. apply Hstep. by right.
      * by exists b0.
Qed.

Section Pass.

Variable random_state : Type.
Variable shuffle : forall A : Type, list A -> random_state -> list A * random_state.

(** With a dot count of zero, [generate_try_block] divides by zero as soon
    as the block lies in the grid. *)
Lemma generate_try_block_no_dots s rs x1 y1 x2 y2 :
  gs_ndots s = 0 ->
  generate_try_block random_state shuffle s rs x1 y1 x2 y2 =
  if (x1 <? 0) || (y1 <? 0) || (gs_sx s <=? x2) || (gs_sy s <=? y2)
  then Ok (s, rs, false) else Fault DivideByZero.
Proof.
  intros Hn. unfold generate_try_block. rewrite Hn. simpl.
  by destruct ((x1 <? 0) || (y1 <? 0) || (gs_sx s <=? x2) || (gs_sy s <=? y2)).
Qed.

Lemma add_dot_shape s sp : shape s -> shape (add_dot s sp).
Proof. intros Hs. apply shape_store; [done|]. by intros c. Qed.

Lemma add_dot_is_dot s sp : valid s sp -> is_dot (add_dot s sp) sp.
Proof.
  intros Hv. split; [by apply valid_store|]. unfold add_dot.
  rewrite deref_store_eq by done. simpl. by apply has_flag_lor_same.
Qed.

Lemma place_dot_pass s0 s sp :
  pass_inv s0 s -> valid s sp ->
  exists s' r, solver_obvious_dot (add_dot s sp) sp = Ok (s', r) /\ pass_inv s0 s'.
Proof.
  intros (Hs & Hn & Hsx & Hsy) Hv.
  destruct (solver_obvious_dot_inv (fun s' => shape s' /\ is_dot s' sp) (add_dot s sp) sp)
    as (s' & r & Hres & [Hs' _] & Esx & Esy & _ & _ & End & _).
  - done.
  - intros s1 t [Hs1 Hd1] Ht Hna. split; [by apply assoc_to_shape|].
    apply is_dot_assoc_to; [apply Ht|apply Hd1|done].
  - split; [by apply add_dot_shape|by apply add_dot_is_dot].
  - exists s', r. split; [done|]. split; [done|]. simpl in *. split; [congruence|].
    split; congruence.
Qed.

Lemma generate_step_pass s0 (scratch : list Z) s rs i (sp : Z) :
  pass_inv s0 s -> scratch !! Z.to_nat i = Some sp -> valid s sp ->
  (exists s' rs', generate_step random_state shuffle scratch GP_DOTS (s, rs) i
                  = Ok (s', rs') /\ pass_inv s0 s')
  \/ generate_step random_state shuffle scratch GP_DOTS (s, rs) i = Fault DivideByZero.
Proof.
  intros Hinv Hsp Hv. pose proof Hinv as (Hs & Hn & Hsx & Hsy).
  unfold generate_step. rewrite Hsp. change (default 0 (Some sp)) with sp.
  set (c := deref s sp).
  destruct (candidate_rect c) as [[[x1 y1] x2] y2].
  assert (Htry : (if bool_decide (sp_type c ≠ s_vertex)
                  then generate_try_block random_state shuffle s rs x1 y1 x2 y2
                  else Ok (s, rs, false)) = Ok (s, rs, false)
                 \/ (if bool_decide (sp_type c ≠ s_vertex)
                  then generate_try_block random_state shuffle s rs x1 y1 x2 y2
                  else Ok (s, rs, false)) = Fault DivideByZero).
  { destruct (bool_decide (sp_type c ≠ s_vertex)); [|by left].
    rewrite generate_try_block_no_dots by done.
    destruct (_ || _); [by left|by right]. }
  destruct Htry as [-> | ->]; [|by right]. left. cbn [bind].
  replace (has_flag GP_DOTS GP_DOTS) with true by reflexivity. cbn [negb].
  destruct (bool_decide (sp_type (deref s sp) = s_edge) && negb (Z.rem i 2 =? 0)).
  { by exists s, rs. }
  destruct (dot_is_possible s sp false).
  2:{ by exists s, rs. }
  destruct (place_dot_pass s0 s sp Hinv Hv) as (s' & r & -> & Hinv').
  by exists s', rs.
Qed.

Lemma generate_step_tile s0 (scratch : list Z) s rs i (sp : Z) :
  pass_inv s0 s -> scratch !! Z.to_nat i = Some sp -> is_tile s sp ->
  generate_step random_state shuffle scratch GP_DOTS (s, rs) i = Fault DivideByZero.
Proof.
  intros (Hs & Hn & Hsx & Hsy) Hsp [Hv Ht].
  unfold generate_step, candidate_rect. rewrite Hsp. change (default 0 (Some sp)) with sp.
  rewrite Ht.
  rewrite (bool_decide_eq_false_2 (s_tile = s_edge)) by done.
  rewrite (bool_decide_eq_true_2 (s_tile ≠ s_vertex)) by done.
  rewrite generate_try_block_no_dots by done.
  destruct (valid_xy s sp Hs Hv) as [[Hx Hy]%INGRID_spec _].
  replace ((sp_x (deref s sp) <? 0) || (sp_y (deref s sp) <? 0)
           || (gs_sx s <=? sp_x (deref s sp)) || (gs_sy s <=? sp_y (deref s sp)))
    with false; [done|].
  symmetry. rewrite !orb_false_iff. lia.
Qed.

(** The board on which the pass starts. *)
Lemma start_pass_inv w h :
  0 <= w -> 0 <= h ->
  pass_inv (clear_game (blank_game w h)) (clear_game (blank_game w h)).
Proof.
  intros Hw Hh. split; [|done]. apply clear_game_shape. by apply blank_game_shape.
Qed.

End Pass.



(** ** dot_expand_or_move *)

Lemma space_opposite_dot_assoc_to dot t s q d :
  space_opposite_dot (assoc_to dot t s) q d = space_opposite_dot s q d.
Proof.
  unfold space_opposite_dot.
  destruct (xy_assoc_to dot t s q) as (-> & -> & _).
  destruct (xy_assoc_to dot t s d) as (-> & -> & _). done.
Qed.

Lemma owned_by_other_assoc_to dot t s q :
  valid s t -> valid s dot -> 0 <= q ->
  owned_by_other (assoc_to dot t s) q dot
  = if decide (t = q) then false else owned_by_other s q dot.
Proof.
  intros Ht Hd Hq. unfold owned_by_other.
  destruct (xy_assoc_to dot t s dot) as (-> & -> & _).
  rewrite flags_assoc_to by done.
  pose proof (record_assoc_to dot t s q Ht Hd Hq) as Hr.
  destruct (decide (t = q)) as [->|Hne]; injection Hr as -> ->; [|done].
  by rewrite !Z.eqb_refl, andb_false_r.
Qed.

Lemma assoc_with_assoc_to dot t s q :
  valid s t -> valid s dot -> 0 <= q ->
  assoc_with s dot q \/ t = q -> assoc_with (assoc_to dot t s) dot q.
Proof.
  intros Ht Hd Hq H. unfold assoc_with.
  destruct (xy_assoc_to dot t s dot) as (-> & -> & _).
  rewrite is_assoc_assoc_to by done.
  pose proof (record_assoc_to dot t s q Ht Hd Hq) as Hr.
  destruct (decide (t = q)) as [->|Hne]; injection Hr as -> ->.
  - auto.
  - destruct H as [(? & ? & ?)|?]; [auto|done].
Qed.

(** The body of the second loop of [dot_expand_or_move] on a free tile. *)
Lemma expand_step_cases s dot t o :
  shape s -> valid s dot -> is_tile s t -> ~ is_assoc s t ->
  space_opposite_dot s t dot = Some o ->
  ((o = t \/ is_assoc s o) /\ expand_step dot s t = assoc_to dot t s)
  \/ (o <> t /\ is_tile s o /\ ~ is_assoc s o /\
      expand_step dot s t = assoc_to dot o (assoc_to dot t s)).
Proof.
  intros Hs Hd Ht Hna Hopp. unfold expand_step. rewrite Hopp. cbn [default from_option id].
  destruct (space_opposite_dot_Some s t dot o Hs Ht Hd Hopp) as (Ho & _ & _).
  change (store (store s t (associate (sp_x (deref s dot)) (sp_y (deref s dot))))
                dot incr_nassoc) with (assoc_to dot t s).
  pose proof (is_assoc_assoc_to dot t s o (proj1 Ht) Hd (proj1 (proj1 Ho))) as H.
  unfold is_assoc in H at 1.
  destruct (has_flag (sp_flags (deref (assoc_to dot t s) o)) F_TILE_ASSOC) eqn:E; simpl.
  - left. split; [|done]. destruct (proj1 H eq_refl) as [?|?]; auto.
  - right. assert (Hn : ~ (t = o \/ is_assoc s o)) by (rewrite <- H; congruence).
    split; [intros ->; tauto|]. split; [done|]. split; [tauto|]. done.
Qed.

(** The second loop on a block of free tiles: it is a sequence of
    elementary steps, and it leaves every tile of the block and every
    mirror image associated to [dot]. *)
Lemma expand_loop (P : game_state -> Prop) dot toadd s :
  step_closed dot P -> P s -> block_ok s dot toadd ->
  expand_check s dot toadd = true ->
  P (foldl (expand_step dot) s toadd) /\
  (forall q, 0 <= q -> assoc_with s dot q -> assoc_with (foldl (expand_step dot) s toadd) dot q) /\
  (forall t, t ∈ toadd ->
     assoc_with (foldl (expand_step dot) s toadd) dot t /\
     forall o, space_opposite_dot s t dot = Some o ->
               assoc_with (foldl (expand_step dot) s toadd) dot o).
Proof.
  intros [Hbase Hstep]. revert s.
  induction toadd as [|t rest IH]; intros s HP (Hnd & Hfree & Hmir) Hchk.
  { simpl. split; [done|]. split; [done|]. intros t Ht. by apply elem_of_nil in Ht. }
  destruct (Hbase s HP) as [Hs [Hvd Hfd]].
  apply NoDup_cons in Hnd as [Hnt Hnd].
  destruct (Hfree t ltac:(left)) as [Ht Hna].
  simpl in Hchk. apply andb_true_iff in Hchk as [Hc1 Hchk].
  destruct (space_opposite_dot s t dot) as [o|] eqn:Hopp; [|done].
  apply negb_true_iff in Hc1.
  destruct (space_opposite_dot_Some s t dot o Hs Ht Hvd Hopp) as (Ho & _ & _).
  assert (Hvt : valid s t) by apply Ht. assert (Hvo : valid s o) by apply Ho.
  set (s1 := expand_step dot s t).
  (* the state after the first tile *)
  assert (H1 : P s1 /\
               (forall q, 0 <= q -> assoc_with s dot q \/ q = t \/ q = o -> assoc_with s1 dot q) /\
               (forall q, 0 <= q -> is_assoc s1 q -> is_assoc s q \/ q = t \/ q = o) /\
               (forall q, valid s1 q <-> valid s q) /\
               (forall q, is_tile s1 q <-> is_tile s q) /\
               (forall q d, space_opposite_dot s1 q d = space_opposite_dot s q d) /\
               (forall q, 0 <= q -> owned_by_other s q dot = false ->
                          owned_by_other s1 q dot = false)).
  { destruct (expand_step_cases s dot t o Hs Hvd Ht Hna Hopp)
      as [[Hcase E]|(Hne & _ & Hno & E)]; unfold s1; rewrite E.
    - split; [by apply Hstep|]. split; [|split; [|split; [|split; [|split]]]].
      + intros q Hq [Hq1|[->| ->]].
        * apply assoc_with_assoc_to; auto.
        * apply assoc_with_assoc_to; auto.
        * apply assoc_with_assoc_to; try done. destruct Hcase as [->|Hao]; [by right|].
          left. split; [done|]. unfold owned_by_other in Hc1.
          unfold is_assoc in Hao. rewrite Hao in Hc1. simpl in Hc1.
          apply orb_false_iff in Hc1 as [E1 E2]. apply negb_false_iff in E1, E2. lia.
      + intros q Hq Haq. rewrite is_assoc_assoc_to in Haq by done.
        destruct Haq as [<-|?]; auto.
      + intros q. apply valid_assoc_to.
      + intros q. apply is_tile_assoc_to.
      + intros q d. apply space_opposite_dot_assoc_to.
      + intros q Hq Hoq. rewrite owned_by_other_assoc_to by done. by destruct (decide (t = q)).
    - assert (Ht1 : is_tile (assoc_to dot t s) o) by (by apply is_tile_assoc_to).
      assert (Hno1 : ~ is_assoc (assoc_to dot t s) o).
      { rewrite is_assoc_assoc_to by (done || apply Hvo). intros [?|?]; [by apply Hne|done]. }
      assert (Hv1 : forall q, valid (assoc_to dot t s) q <-> valid s q)
        by (intros q; apply valid_assoc_to).
      split; [apply Hstep; [by apply Hstep|done|done]|].
      split; [|split; [|split; [|split; [|split]]]].
      + intros q Hq H. apply assoc_with_assoc_to; [by apply Hv1|by apply Hv1|done|].
        destruct (decide (o = q)) as [->|Hoq]; [by right|]. left.
        apply assoc_with_assoc_to; try done.
        destruct H as [?|[->|?]]; auto. by subst.
      + intros q Hq Haq.
        rewrite is_assoc_assoc_to in Haq; [|by apply Hv1|by apply Hv1|done].
        destruct Haq as [<-|Haq]; [auto|].
        rewrite is_assoc_assoc_to in Haq by done. destruct Haq as [<-|?]; auto.
      + intros q. by rewrite valid_assoc_to, Hv1.
      + intros q. by rewrite !is_tile_assoc_to.
      + intros q d. by rewrite !space_opposite_dot_assoc_to.
      + intros q Hq Hoq. rewrite owned_by_other_assoc_to; [|by apply Hv1|by apply Hv1|done].
        destruct (decide (o = q)); [done|].
        rewrite owned_by_other_assoc_to by done. by destruct (decide (t = q)). }
  destruct H1 as (HP1 & Hw1 & Ha1 & Hv1 & Ht1 & Hopp1 & Hoo1).
  (* the rest of the block is a block for the new state *)
  assert (Hblock : block_ok s1 dot rest).
  { split; [done|]. split.
    - intros t' Ht'. destruct (Hfree t' ltac:(by right)) as [Htt' Hna'].
      split; [by apply Ht1|]. intros Ha'.
      destruct (Ha1 t' (proj1 (proj1 Htt')) Ha') as [?|[->| ->]]; [done|done|].
      assert (t = o) as <- by (apply (Hmir t o); [left|by right|done]). done.
    - intros t1 t2 H1 H2. rewrite Hopp1. apply Hmir; by right. }
  assert (Hchk1 : expand_check s1 dot rest = true).
  { unfold expand_check in *. apply forallb_forall. intros t' Ht'.
    rewrite forallb_forall in Hchk. specialize (Hchk t' Ht'). rewrite Hopp1.
    destruct (space_opposite_dot s t' dot) as [o'|] eqn:Ho'; [|done].
    apply negb_true_iff in Hchk. apply negb_true_iff. apply Hoo1; [|done].
    apply list_elem_of_In in Ht'.
    destruct (Hfree t' ltac:(by right)) as [Htt' _].
    destruct (space_opposite_dot_Some s t' dot o' Hs Htt' Hvd Ho') as (Ho2 & _ & _).
    apply Ho2. }
  destruct (IH s1 HP1 Hblock Hchk1) as (HPm & Hmono & Hpost).
  simpl. fold s1. split; [done|]. split.
  - intros q Hq Hq1. apply Hmono; [done|]. apply Hw1; auto.
  - intros t' Ht'. apply elem_of_cons in Ht' as [->|Ht'].
    + split.
      * apply Hmono; [apply Hvt|]. apply Hw1; [apply Hvt|auto].
      * intros o' Ho'. assert (o' = o) as -> by congruence.
        apply Hmono; [apply Hvo|]. apply Hw1; [apply Hvo|auto].
    + destruct (Hpost t' Ht') as [Hp1 Hp2]. split; [done|].
      intros o' Ho'. apply Hp2. by rewrite Hopp1.
Qed.



Lemma space_opposite_dot_mirror s dot t :
  space_opposite_dot s t dot =
  if INGRID s (mirror_x s dot t) (mirror_y s dot t)
  then Some (SPACE s (mirror_x s dot t) (mirror_y s dot t)) else None.
Proof.
  unfold space_opposite_dot, mirror_x, mirror_y.
  replace (sp_x (deref s dot) + (sp_x (deref s dot) - sp_x (deref s t)))
    with (2 * sp_x (deref s dot) - sp_x (deref s t)) by lia.
  replace (sp_y (deref s dot) + (sp_y (deref s dot) - sp_y (deref s t)))
    with (2 * sp_y (deref s dot) - sp_y (deref s t)) by lia.
  by destruct (INGRID s _ _).
Qed.

Lemma owned_by_other_spec s o dot :
  owned_by_other s o dot = true <-> is_assoc s o /\ ~ assoc_with s dot o.
Proof.
  unfold owned_by_other, assoc_with, is_assoc.
  destruct (has_flag (sp_flags (deref s o)) F_TILE_ASSOC); simpl.
  - rewrite orb_true_iff, !negb_true_iff, !Z.eqb_neq. split.
    + intros H. split; [done|]. intros (_ & ? & ?). lia.
    + intros [_ H]. destruct (decide (sp_dotx (deref s o) = sp_x (deref s dot))); [|auto].
      right. intros ?. apply H. auto.
  - split; [done|]. by intros [? _].
Qed.

Lemma expand_check_tile s dot t :
  match space_opposite_dot s t dot with
  | Some tile_opp => negb (owned_by_other s tile_opp dot)
  | None => false
  end = false <-> rejects s dot t.
Proof.
  rewrite space_opposite_dot_mirror. unfold rejects.
  destruct (INGRID s _ _); [|tauto].
  rewrite negb_false_iff, owned_by_other_spec. split; [auto|]. by intros [?|?].
Qed.

(** The first loop of [dot_expand_or_move] fails exactly when some tile of
    the block is rejected. *)
Lemma expand_check_false s dot toadd :
  expand_check s dot toadd = false <-> Exists (rejects s dot) toadd.
Proof.
  unfold expand_check. induction toadd as [|t rest IH]; simpl.
  - split; [done|]. intros H. inversion H.
  - rewrite Exists_cons, andb_false_iff, IH, expand_check_tile. done.
Qed.

(** *** Counting the growth of a region *)

Lemma filter_False {A} (l : list A) : filter (fun _ => False) l = [].
Proof.
  induction l as [|a l IH]; [done|]. rewrite filter_cons.
  rewrite decide_False by tauto. exact IH.
Qed.

Lemma counted_refl s dot : shape s -> is_dot s dot -> counted s dot s.
Proof.
  intros Hs Hd. unfold counted.
  refine (conj Hs (conj Hd (conj eq_refl (conj eq_refl (conj (fun _ _ H => H) _))))).
  unfold newly_assoc. rewrite (filter_ext_elem _ (fun _ => False)).
  - rewrite filter_False. simpl. lia.
  - intros q _. tauto.
Qed.

Lemma counted_step s0 dot : shape s0 -> step_closed dot (counted s0 dot).
Proof.
  intros Hs0. split.
  - intros s (Hs & Hd & _). done.
  - intros s t (Hs & Hd & Esx & Esy & Hmono & Hn) Ht Hna.
    pose proof Hd as [Hvd _]. pose proof Ht as [Hvt _].
    assert (Hval : forall q, valid s0 q <-> valid s q).
    { intros q. unfold valid. by rewrite (shape_len s Hs), (shape_len s0 Hs0), Esx, Esy. }
    split; [by apply assoc_to_shape|]. split; [by apply is_dot_assoc_to|].
    split; [done|]. split; [done|]. split.
    { intros q Hq0 Hq. apply is_assoc_assoc_to; [done..|]. right. by apply Hmono. }
    rewrite nassoc_assoc_to by (done || apply Hvd). rewrite decide_True by done.
    assert (E : length (newly_assoc s0 (assoc_to dot t s)) = S (length (newly_assoc s0 s))).
    2:{ rewrite E, Hn. lia. }
    unfold newly_assoc. apply (filter_length_add _ _ _ t).
    + apply NoDup_seqZ.
    + apply valid_seq; [done|]. by apply Hval.
    + tauto.
    + split; [by apply is_tile_assoc_to|]. split.
      * apply is_assoc_assoc_to; [done|done|apply Hvt|by left].
      * intros Ha. apply Hna, Hmono; [apply Hvt|done].
    + intros q Hq Hne. rewrite is_tile_assoc_to.
      apply valid_seq in Hq; [|done].
      rewrite is_assoc_assoc_to by (done || apply Hq).
      split; [tauto|]. intros (? & [?|?] & ?); [done|tauto].
Qed.



(** ** The outline pass *)

Lemma elem_of_outline_dirs d :
  d ∈ outline_dirs <-> d = (-1, 0) \/ d = (1, 0) \/ d = (0, -1) \/ d = (0, 1).
Proof. unfold outline_dirs. rewrite !elem_of_cons, elem_of_nil. tauto. Qed.

Lemma tiles_kept_refl s : shape s -> tiles_kept s s.
Proof. intros Hs. split; [done|]. split; [done|]. split; done. Qed.

Lemma tiles_kept_INGRID s st x y : tiles_kept s st -> INGRID st x y = INGRID s x y.
Proof. intros (Hx & Hy & _). unfold INGRID. by rewrite Hx, Hy. Qed.

Lemma tiles_kept_SPACE s st x y : tiles_kept s st -> SPACE st x y = SPACE s x y.
Proof. intros (Hx & Hy & _). unfold SPACE. by rewrite Hx. Qed.

Lemma tiles_kept_valid s st q : shape s -> tiles_kept s st -> valid st q <-> valid s q.
Proof.
  intros Hs (Hx & Hy & Hst & _). unfold valid.
  rewrite (shape_len _ Hs), (shape_len _ Hst), Hx, Hy. done.
Qed.

(** The tile across an edge of a tile is a tile. *)
Lemma across_tile s t d :
  shape s -> is_tile s t -> d ∈ outline_dirs ->
  INGRID s (sp_x (deref s t) + d.1 + d.1) (sp_y (deref s t) + d.2 + d.2) = true ->
  is_tile s (SPACE s (sp_x (deref s t) + d.1 + d.1) (sp_y (deref s t) + d.2 + d.2)).
Proof.
  intros Hs Ht Hd Hin. destruct (tile_odd s t Hs Ht) as [[kx Hx] [ky Hy]].
  apply tile_cell; [done|done| |].
  - apply elem_of_outline_dirs in Hd as [-> | [-> | [-> | ->]]]; simpl;
      [exists (kx - 1)|exists (kx + 1)|exists kx|exists kx]; lia.
  - apply elem_of_outline_dirs in Hd as [-> | [-> | [-> | ->]]]; simpl;
      [exists ky|exists ky|exists (ky - 1)|exists (ky + 1)]; lia.
Qed.

Lemma across_kept s st t d :
  shape s -> tiles_kept s st -> is_tile s t -> d ∈ outline_dirs ->
  across st t d = across s t d.
Proof.
  intros Hs Hk Ht Hd. pose proof Hk as (Hx & Hy & Hst & Hq).
  unfold across, outline_same. rewrite (Hq t Ht).
  rewrite (tiles_kept_INGRID s st) by done.
  destruct (INGRID s _ _) eqn:Hin; [|done].
  rewrite (tiles_kept_SPACE s st) by done.
  rewrite (Hq _ (across_tile s t d Hs Ht Hd Hin)). done.
Qed.

Lemma edge_flag_kept s st t d :
  tiles_kept s st -> is_tile s t ->
  edge_flag st t d
  = has_flag (sp_flags (deref st (SPACE s (sp_x (deref s t) + d.1) (sp_y (deref s t) + d.2))))
             F_EDGE_SET.
Proof.
  intros Hk Ht. pose proof Hk as (_ & _ & _ & Hq). unfold edge_flag.
  rewrite (Hq t Ht). by rewrite (tiles_kept_SPACE s st).
Qed.

(** The cell next to a tile is not a tile. *)
Lemma edge_not_tile s t d :
  shape s -> is_tile s t -> d ∈ outline_dirs ->
  INGRID s (sp_x (deref s t) + d.1) (sp_y (deref s t) + d.2) = true ->
  ~ is_tile s (SPACE s (sp_x (deref s t) + d.1) (sp_y (deref s t) + d.2)).
Proof.
  intros Hs Ht Hd Hin He. destruct (tile_odd s t Hs Ht) as [[kx Hx] [ky Hy]].
  destruct (tile_odd s _ Hs He) as [[kx' Hx'] [ky' Hy']].
  destruct (shape_cell s Hs _ _ Hin) as (Ex & Ey & _). rewrite Ex in Hx'. rewrite Ey in Hy'.
  apply elem_of_outline_dirs in Hd as [-> | [-> | [-> | ->]]]; simpl in *; lia.
Qed.

(** [same] does not depend on the side of the edge it is computed from. *)
Lemma outline_same_sym s a b :
  shape s -> valid s a -> valid s b ->
  outline_same s a (sp_x (deref s b)) (sp_y (deref s b))
  = outline_same s b (sp_x (deref s a)) (sp_y (deref s a)).
Proof.
  intros Hs Ha Hb. destruct (valid_xy s a Hs Ha) as [Ia Sa].
  destruct (valid_xy s b Hs Hb) as [Ib Sb]. unfold outline_same.
  rewrite Ia, Ib, Sa, Sb.
  destruct (has_flag (sp_flags (deref s a)) F_TILE_ASSOC),
           (has_flag (sp_flags (deref s b)) F_TILE_ASSOC); simpl; try done.
  by rewrite (Z.eqb_sym (sp_dotx (deref s a))), (Z.eqb_sym (sp_doty (deref s a))).
Qed.

(** Two tiles that share an edge cell see the same [same]. *)
Lemma across_shared s t d t' d' :
  shape s -> is_tile s t -> is_tile s t' -> d ∈ outline_dirs -> d' ∈ outline_dirs ->
  INGRID s (sp_x (deref s t) + d.1) (sp_y (deref s t) + d.2) = true ->
  INGRID s (sp_x (deref s t') + d'.1) (sp_y (deref s t') + d'.2) = true ->
  SPACE s (sp_x (deref s t) + d.1) (sp_y (deref s t) + d.2)
  = SPACE s (sp_x (deref s t') + d'.1) (sp_y (deref s t') + d'.2) ->
  across s t d = across s t' d'.
Proof.
  intros Hs Ht Ht' Hd Hd' Hin Hin' He.
  destruct (SPACE_inj s _ _ _ _ Hin Hin' He) as [Ex Ey].
  destruct (tile_odd s t Hs Ht) as [[kx Hx] [ky Hy]].
  destruct (tile_odd s t' Hs Ht') as [[kx' Hx'] [ky' Hy']].
  destruct (valid_xy s t Hs (proj1 Ht)) as [It St].
  destruct (valid_xy s t' Hs (proj1 Ht')) as [It' St'].
  assert (Hcases : (sp_x (deref s t') = sp_x (deref s t) /\
                    sp_y (deref s t') = sp_y (deref s t) /\ d' = d) \/
                   (sp_x (deref s t') = sp_x (deref s t) + d.1 + d.1 /\
                    sp_y (deref s t') = sp_y (deref s t) + d.2 + d.2 /\
                    sp_x (deref s t) = sp_x (deref s t') + d'.1 + d'.1 /\
                    sp_y (deref s t) = sp_y (deref s t') + d'.2 + d'.2)).
  { apply elem_of_outline_dirs in Hd as [-> | [-> | [-> | ->]]];
      apply elem_of_outline_dirs in Hd' as [-> | [-> | [-> | ->]]]; simpl in *;
      first [left; split; [lia|split; [lia|done]] | right; lia | exfalso; lia]. }
  destruct Hcases as [(E1 & E2 & ->)|(E1 & E2 & E3 & E4)].
  - assert (t' = t) as -> by (rewrite <- St, <- St'; by rewrite E1, E2). done.
  - unfold across. rewrite <- E1, <- E2, <- E3, <- E4.
    apply outline_same_sym; [done|apply Ht|apply Ht'].
Qed.

Lemma has_flag_or_edge fl : has_flag (Z.lor fl F_EDGE_SET) F_EDGE_SET = true.
Proof. by apply has_flag_lor_same. Qed.

(** One turn of the loop of [outline_tile_fordot] with [mark] set. *)
Lemma outline_step_spec s st t b d :
  shape s -> tiles_kept s st -> is_tile s t -> d ∈ outline_dirs ->
  let e := SPACE s (sp_x (deref s t) + d.1) (sp_y (deref s t) + d.2) in
  let r := (outline_step t true (st, b) d).1 in
  tiles_kept s r /\
  (INGRID s (sp_x (deref s t) + d.1) (sp_y (deref s t) + d.2) = true ->
   has_flag (sp_flags (deref r e)) F_EDGE_SET = negb (across s t d)) /\
  (forall q, 0 <= q ->
     (INGRID s (sp_x (deref s t) + d.1) (sp_y (deref s t) + d.2) = true -> q <> e) ->
     deref r q = deref st q).
Proof.
  intros Hs Hk Ht Hd e r. pose proof Hk as (Hx & Hy & Hst & Hq).
  subst r. unfold outline_step. rewrite (Hq t Ht).
  rewrite (tiles_kept_INGRID s st) by done.
  destruct (INGRID s (sp_x (deref s t) + d.1) (sp_y (deref s t) + d.2)) eqn:Hin;
    cbn [negb].
  2:{ cbn [fst]. split; [done|]. split; [done|]. done. }
  rewrite (tiles_kept_SPACE s st) by done. fold e.
  assert (Hsame : outline_same st t (sp_x (deref s t) + d.1 + d.1)
                    (sp_y (deref s t) + d.2 + d.2) = across s t d).
  { rewrite <- (across_kept s st t d) by done. unfold across. by rewrite (Hq t Ht). }
  rewrite Hsame.
  assert (Hev : valid st e).
  { apply (tiles_kept_valid s st); [done|done|]. apply SPACE_valid; [apply Hs|done]. }
  assert (Hne : forall q, is_tile s q -> e <> q).
  { intros q Hqt Heq. apply (edge_not_tile s t d Hs Ht Hd Hin). fold e. by rewrite Heq. }
  assert (Hstore : forall f, keeps_cell f -> tiles_kept s (store st e f)).
  { intros f Hf. split; [done|]. split; [done|]. split; [by apply shape_store|].
    intros q Hqt. rewrite deref_store_ne; [by apply Hq|done|apply Hqt|by apply Hne]. }
  destruct (has_flag (sp_flags (deref st e)) F_EDGE_SET) eqn:Hhas;
    destruct (across s t d) eqn:Hacr; cbn [negb andb fst].
  - split; [apply Hstore; intros c; repeat split|]. split.
    + intros _. rewrite deref_store_eq by done. simpl. apply has_flag_clear_same.
    + intros q Hq0 Hqe. rewrite deref_store_ne; [done|done|done|].
      intros Heq. by apply Hqe.
  - split; [done|]. split; [done|]. done.
  - split; [done|]. split; [done|]. done.
  - split; [apply Hstore; intros c; repeat split|]. split.
    + intros _. rewrite deref_store_eq by done. simpl. apply has_flag_or_edge.
    + intros q Hq0 Hqe. rewrite deref_store_ne; [done|done|done|].
      intros Heq. by apply Hqe.
Qed.

(** An outlined edge stays outlined. *)
Lemma outline_step_stable s st t b d t' d' :
  shape s -> tiles_kept s st -> is_tile s t -> d ∈ outline_dirs ->
  is_tile s t' -> d' ∈ outline_dirs ->
  INGRID s (sp_x (deref s t') + d'.1) (sp_y (deref s t') + d'.2) = true ->
  edge_flag st t' d' = negb (across s t' d') ->
  edge_flag (outline_step t true (st, b) d).1 t' d' = negb (across s t' d').
Proof.
  intros Hs Hk Ht Hd Ht' Hd' Hin' Hflag.
  destruct (outline_step_spec s st t b d Hs Hk Ht Hd) as (Hk' & Hset & Hother).
  rewrite (edge_flag_kept s) by done. rewrite (edge_flag_kept s) in Hflag by done.
  destruct (decide (SPACE s (sp_x (deref s t') + d'.1) (sp_y (deref s t') + d'.2)
                    = SPACE s (sp_x (deref s t) + d.1) (sp_y (deref s t) + d.2))) as [E|E].
  - destruct (INGRID s (sp_x (deref s t) + d.1) (sp_y (deref s t) + d.2)) eqn:Hin.
    + rewrite E. rewrite (Hset eq_refl). f_equal. symmetry. by apply across_shared.
    + rewrite Hother; [done| |done]. by apply SPACE_nonneg.
  - rewrite Hother; [done| |done]. by apply SPACE_nonneg.
Qed.

(** [outline_tile_fordot] with [mark] set outlines the edges of its tile and
    keeps the outlined edges of the other tiles. *)
Lemma outline_tile_spec s st t :
  shape s -> tiles_kept s st -> is_tile s t ->
  let r := (outline_tile_fordot st t true).1 in
  tiles_kept s r /\ outlined s r t /\
  (forall t', is_tile s t' -> outlined s st t' -> outlined s r t').
Proof.
  intros Hs Hk Ht r. subst r. unfold outline_tile_fordot.
  set (P := fun (pre : list (Z * Z)) (acc : game_state * bool) =>
              tiles_kept s acc.1 /\
              (forall d, d ∈ pre -> d ∈ outline_dirs ->
                 INGRID s (sp_x (deref s t) + d.1) (sp_y (deref s t) + d.2) = true ->
                 edge_flag acc.1 t d = negb (across s t d)) /\
              (forall t', is_tile s t' -> outlined s st t' -> outlined s acc.1 t')).
  assert (HP : P outline_dirs (foldl (outline_step t true) (st, false) outline_dirs)).
  { assert (G : forall l, (forall d, d ∈ l -> d ∈ outline_dirs) ->
                  P l (foldl (outline_step t true) (st, false) l)).
    2:{ apply G. done. }
    intros l. induction l as [|d l IH] using rev_ind; intros Hl.
    - split; [done|]. split; [intros d []%elem_of_nil|done].
    - rewrite foldl_app. cbn [foldl].
      destruct IH as (K1 & K2 & K3).
      { intros d' Hd'. apply Hl, elem_of_app. by left. }
      assert (Hd : d ∈ outline_dirs) by (apply Hl, elem_of_app; right; left).
      destruct (foldl (outline_step t true) (st, false) l) as [st1 b1]. cbn [fst] in *.
      destruct (outline_step_spec s st1 t b1 d Hs K1 Ht Hd) as (Hk' & Hset & Hother).
      split; [done|]. split.
      + intros d' Hd' Hdd' Hin'. apply elem_of_app in Hd' as [Hd'|Hd'].
        * apply outline_step_stable; try done. by apply K2.
        * apply list_elem_of_singleton in Hd' as ->.
          rewrite (edge_flag_kept s) by done. by apply Hset.
      + intros t' Ht' Ho d' Hd' Hin'. apply outline_step_stable; try done.
        by apply K3. }
  destruct HP as (K1 & K2 & K3). split; [done|]. split; [|done].
  intros d Hd Hin. by apply K2.
Qed.

(** The pass over the whole board. *)
Lemma outline_all_spec s :
  shape s ->
  tiles_kept s (outline_all s) /\ forall t, is_tile s t -> outlined s (outline_all s) t.
Proof.
  intros Hs. unfold outline_all.
  set (P := fun (pre : list Z) (st : game_state) =>
              tiles_kept s st /\ forall t, t ∈ pre -> is_tile s t -> outlined s st t).
  assert (HP : P (seqZ 0 (gs_sx s * gs_sy s))
                 (foldl (fun st i => if bool_decide (sp_type (deref st i) = s_tile)
                                     then (outline_tile_fordot st i true).1 else st)
                        s (seqZ 0 (gs_sx s * gs_sy s)))).
  { assert (G : forall l, (forall i, i ∈ l -> valid s i) ->
                  P l (foldl (fun st i => if bool_decide (sp_type (deref st i) = s_tile)
                                          then (outline_tile_fordot st i true).1 else st)
                             s l)).
    2:{ apply G. intros i Hi. apply elem_of_seqZ in Hi. unfold valid.
        rewrite (shape_len _ Hs). lia. }
    intros l. induction l as [|i l IH] using rev_ind; intros Hl.
    - split; [by apply tiles_kept_refl|]. intros t []%elem_of_nil.
    - rewrite foldl_app. cbn [foldl].
      destruct IH as (K1 & K2).
      { intros i' Hi'. apply Hl, elem_of_app. by left. }
      assert (Hi : valid s i) by (apply Hl, elem_of_app; right; left).
      match goal with |- context [foldl ?f s l] => set (st1 := foldl f s l) in * end.
      destruct (bool_decide_reflect (sp_type (deref st1 i) = s_tile)) as [Hty|Hty].
      + assert (Hit : is_tile s i).
        { split; [done|]. rewrite <- Hty. symmetry.
          destruct K1 as (Ex & Ey & Hst1 & _).
          destruct (valid_coords s i Hs Hi) as [Hin Hsp].
          destruct (shape_cell s Hs _ _ Hin) as (_ & _ & T1).
          assert (Hin1 : INGRID st1 (i `mod` gs_sx s) (i `div` gs_sx s) = true).
          { unfold INGRID. rewrite Ex, Ey. exact Hin. }
          destruct (shape_cell st1 Hst1 _ _ Hin1) as (_ & _ & T2).
          assert (Hsp1 : SPACE st1 (i `mod` gs_sx s) (i `div` gs_sx s) = i).
          { unfold SPACE. rewrite Ex. exact Hsp. }
          rewrite Hsp in T1. rewrite Hsp1 in T2. congruence. }
        destruct (outline_tile_spec s st1 i Hs K1 Hit) as (Hk' & Ho & Hkeep).
        split; [done|]. intros t Hin Ht. apply elem_of_app in Hin as [Hin|Hin].
        * apply Hkeep; [done|]. by apply K2.
        * apply list_elem_of_singleton in Hin as ->. done.
      + split; [done|]. intros t Hin Ht. apply elem_of_app in Hin as [Hin|Hin].
        * by apply K2.
        * apply list_elem_of_singleton in Hin as ->. exfalso. apply Hty.
          destruct K1 as (_ & _ & _ & Hq). rewrite (Hq i Ht). apply Ht. }
  destruct HP as (K1 & K2). split; [done|]. intros t Ht. apply K2; [|done].
  apply elem_of_seqZ. destruct Ht as [Hv _]. unfold valid in Hv.
  rewrite (shape_len _ Hs) in Hv. lia.
Qed.



(** ** What [solver_obvious_dot] reaches *)

(** A loop that keeps [I], establishes [R b] at the turn of [b], and keeps
    every [R b'] and every [S c] once it holds. *)
Lemma fold_res_each {A B C} (I : A -> Prop) (R : B -> A -> Prop) (S : C -> A -> Prop)
    (f : A -> B -> result A) l a :
  I a ->
  (forall a b, b ∈ l -> I a ->
     exists a', f a b = Ok a' /\ I a' /\ R b a' /\
                (forall b', R b' a -> R b' a') /\ (forall c, S c a -> S c a')) ->
  exists a', fold_res f l a = Ok a' /\ I a' /\ (forall b, b ∈ l -> R b a') /\
             (forall b', R b' a -> R b' a') /\ (forall c, S c a -> S c a').
Proof.
  revert a. induction l as [|b l IH]; intros a Ha Hstep; simpl.
  - exists a. split; [done|]. split; [done|]. split; [|done]. intros b []%elem_of_nil.
  - destruct (Hstep a b) as (a1 & -> & Ha1 & HR & Hkeep & HkeepS); [left|done|]. simpl.
    destruct (IH a1 Ha1) as (a' & Hres & Ha' & HRl & Hkeep' & HkeepS').
    { intros a2 b2 Hb2. apply Hstep. by right. }
    exists a'. split; [done|]. split; [done|]. split; [|split].
    + intros b0 Hb0. apply elem_of_cons in Hb0 as [->|Hb0]; [by apply Hkeep'|by apply HRl].
    + intros b' Hb'. by apply Hkeep', Hkeep.
    + intros c Hc. by apply HkeepS', HkeepS.
Qed.

(** [solver_obvious_dot] keeps every property the elementary step keeps,
    and at its end every tile is associated or was passed by. *)
Lemma solver_obvious_dot_post (P : game_state -> Prop) s dot :
  step_closed dot P -> P s ->
  exists s' r, solver_obvious_dot s dot = Ok (s', r) /\ P s' /\
    gs_sx s' = gs_sx s /\ gs_sy s' = gs_sy s /\
    forall t, is_tile s t ->
      is_assoc s' t \/ exists s1, P s1 /\ gs_sx s1 = gs_sx s /\ gs_sy s1 = gs_sy s /\
                                  blocked s1 dot t.
Proof.
  intros [Hbase Hstep] HP. unfold solver_obvious_dot.
  destruct (Hbase s HP) as [Hs [Hvd Hfd]]. rewrite Hfd. simpl.
  set (I := fun acc : game_state * Z =>
              P acc.1 /\ gs_sx acc.1 = gs_sx s /\ gs_sy acc.1 = gs_sy s).
  set (R := fun (c : Z * Z) (acc : game_state * Z) =>
              INGRID s c.1 c.2 = true ->
              is_assoc acc.1 (SPACE s c.1 c.2) \/
              exists s1, P s1 /\ gs_sx s1 = gs_sx s /\ gs_sy s1 = gs_sy s /\
                         blocked s1 dot (SPACE s c.1 c.2)).
  assert (Hinner : forall x acc, x ∈ range2 1 (gs_sx s) -> I acc ->
            exists acc', fold_res (fun acc y => obvious_step dot acc x y)
                                  (range2 1 (gs_sy s)) acc = Ok acc' /\ I acc' /\
              (forall y, y ∈ range2 1 (gs_sy s) -> R (x, y) acc') /\
              forall c, R c acc -> R c acc').
  { intros x acc Hx Hacc.
    destruct (fold_res_each I (fun y => R (x, y)) R
                (fun acc y => obvious_step dot acc x y)
                (range2 1 (gs_sy s)) acc Hacc) as (acc' & E & HI' & HR' & _ & HS').
    2:{ exists acc'. done. }
    clear acc Hacc. intros [s1 r1] y Hy (HP1 & Esx & Esy). cbn [fst snd] in *.
    destruct (Hbase s1 HP1) as [Hs1 [Hvd1 _]].
    apply elem_of_range2 in Hx as (kx & ? & -> & ?).
    apply elem_of_range2 in Hy as (ky & ? & -> & ?).
    assert (Hin : INGRID s1 (1 + 2 * kx) (1 + 2 * ky) = true).
    { apply INGRID_spec. lia. }
    assert (Ht : is_tile s1 (SPACE s1 (1 + 2 * kx) (1 + 2 * ky))).
    { apply tile_cell; eauto. }
    assert (Esp : forall a b, SPACE s a b = SPACE s1 a b).
    { intros a b. unfold SPACE. by rewrite Esx. }
    assert (Hmono : forall t (c : Z * Z) (st : game_state),
              valid st t -> valid st dot -> gs_sx st = gs_sx s -> gs_sy st = gs_sy s ->
              R c (st, r1) -> R c (assoc_to dot t st, 1)).
    { intros t c st Hvt Hvdt E1 E2 HR Hc. destruct (HR Hc) as [Ha|Hb]; [|by right].
      left. cbn [fst] in *. apply is_assoc_assoc_to; [done|done| |by right].
      by apply SPACE_nonneg. }
    destruct (obvious_step_cases s1 r1 dot _ _ Hs1 Hvd1 Ht)
      as [[-> Hblk]|[(Hna & o & _ & _ & _ & ->)|(Hna & o & _ & Hne & Ho & Hno & ->)]].
    - eexists. split; [done|]. split; [done|]. split; [|done].
      intros _. cbn [fst snd]. rewrite Esp.
      destruct Hblk as [Ha|Hb]; [by left|].
      destruct (decide (is_assoc s1 (SPACE s1 (1 + 2 * kx) (1 + 2 * ky)))) as [Ha|Hna];
        [by left|].
      right. exists s1. split; [done|]. split; [done|]. split; [done|]. split; done.
    - eexists. split; [done|]. unfold I. cbn [fst snd].
      destruct (assoc_to_dims dot (SPACE s1 (1 + 2 * kx) (1 + 2 * ky)) s1)
        as (E1 & E2 & _).
      split; [split; [by apply Hstep|split; congruence]|]. split.
      + intros _. left. cbn [fst snd]. rewrite Esp.
        apply is_assoc_assoc_to; [apply Ht|done| |by left]. by apply SPACE_nonneg.
      + assert (Hk : forall c, R c (s1, r1) ->
                       R c (assoc_to dot (SPACE s1 (1 + 2 * kx) (1 + 2 * ky)) s1, 1)).
        { intros c HR. apply Hmono; [apply Ht|done|done|done|done]. }
        split; [intros y'; apply Hk|apply Hk].
    - eexists. split; [done|]. unfold I. cbn [fst snd].
      set (t := SPACE s1 (1 + 2 * kx) (1 + 2 * ky)) in *.
      destruct (assoc_to_dims dot t s1) as (E1 & E2 & _).
      destruct (assoc_to_dims dot o (assoc_to dot t s1)) as (E3 & E4 & _).
      assert (Hvo : valid (assoc_to dot t s1) o) by (apply valid_assoc_to; apply Ho).
      assert (Hvd2 : valid (assoc_to dot t s1) dot) by by apply valid_assoc_to.
      split; [split; [|split; congruence]|]. 2: split.
      + apply Hstep; [by apply Hstep| |].
        * by apply is_tile_assoc_to.
        * rewrite is_assoc_assoc_to; [|apply Ht|done|apply Ho].
          intros [E|E]; [by apply Hne|done].
      + intros _. left. cbn [fst snd]. rewrite Esp. fold t.
        apply is_assoc_assoc_to; [done|done|apply Ht|]. right.
        apply is_assoc_assoc_to; [apply Ht|done|apply Ht|by left].
      + assert (Hk : forall c, R c (s1, r1) ->
                       R c (assoc_to dot o (assoc_to dot t s1), 1)).
        { intros c HR.
          assert (HR1 : R c (assoc_to dot t s1, r1)).
          { intros Hc. destruct (HR Hc) as [Ha|?]; [|by right]. left. cbn [fst] in *.
            apply is_assoc_assoc_to; [apply Ht|done| |by right]. by apply SPACE_nonneg. }
          apply Hmono; [done|done|congruence|congruence|done]. }
        split; [intros y'; apply Hk|apply Hk]. }
  destruct (fold_res_each I (fun x acc => forall y, y ∈ range2 1 (gs_sy s) -> R (x, y) acc)
              R
              (fun acc x => fold_res (fun acc y => obvious_step dot acc x y)
                                     (range2 1 (gs_sy s)) acc)
              (range2 1 (gs_sx s)) (s, 0)) as ([s' r] & Hres & HI & HR & _).
  - unfold I. done.
  - intros acc x Hx Hacc. destruct (Hinner x acc Hx Hacc) as (acc' & E & HI' & HR' & Hkeep).
    exists acc'. split; [done|]. split; [done|]. split; [done|]. split; [|done].
    intros x' Hx' y Hy. by apply Hkeep, Hx'.
  - exists s', r. split; [done|]. destruct HI as (HP' & Esx & Esy). cbn [fst] in *.
    split; [done|]. split; [done|]. split; [done|].
    intros t Ht. destruct (tile_odd s t Hs Ht) as [[kx Hx] [ky Hy]].
    destruct (valid_xy s t Hs (proj1 Ht)) as [Hin Hsp].
    pose proof Hin as Hin'. apply INGRID_spec in Hin'.
    specialize (HR (sp_x (deref s t))). rewrite elem_of_range2 in HR.
    specialize (HR ltac:(exists kx; lia) (sp_y (deref s t))). rewrite elem_of_range2 in HR.
    specialize (HR ltac:(exists ky; lia) Hin). cbn [fst snd] in HR.
    by rewrite Hsp in HR.
Qed.



(** ** Placing a dot *)

Lemma mirror_touching s sp t :
  touching s sp t ->
  Z.abs (mirror_x s sp t - sp_x (deref s sp)) <= 1 /\
  Z.abs (mirror_y s sp t - sp_y (deref s sp)) <= 1.
Proof. unfold touching, mirror_x, mirror_y. lia. Qed.

Lemma place_inv_closed sp : step_closed sp (place_inv sp).
Proof.
  split.
  - intros s [Hc Hd _ _]. split; [apply Hc|done].
  - intros s t [Hc Hd Hoth Hnear] Ht Hna.
    pose proof Hd as [Hvd _]. pose proof Ht as [Hvt _].
    split.
    + by apply assoc_to_core.
    + by apply is_dot_assoc_to.
    + intros d q Hdq Hne Hq Htouch. rewrite is_dot_assoc_to in Hdq by done.
      rewrite is_tile_assoc_to in Hq. apply touching_assoc_to in Htouch.
      apply is_assoc_assoc_to; [done|done|apply Hq|]. right. by apply (Hoth d q).
    + intros q Hq Htouch. rewrite is_tile_assoc_to in Hq.
      apply touching_assoc_to in Htouch.
      destruct (Hnear q Hq Htouch) as [Hin Has].
      split.
      * unfold mirror_x, mirror_y.
        destruct (xy_assoc_to sp t s sp) as (-> & -> & _).
        destruct (xy_assoc_to sp t s q) as (-> & -> & _). exact Hin.
      * intros Ha. apply is_assoc_assoc_to in Ha; [|done|done|apply Hq].
        apply assoc_with_assoc_to; [done|done|apply Hq|].
        destruct Ha as [->|Ha]; [by right|left; by apply Has].
Qed.

(** Two boards of the same dimensions have the same tiles at the same
    coordinates. *)
Lemma coords_dims s s' q :
  shape s -> shape s' -> gs_sx s' = gs_sx s -> gs_sy s' = gs_sy s -> valid s q ->
  sp_x (deref s' q) = sp_x (deref s q) /\ sp_y (deref s' q) = sp_y (deref s q) /\
  sp_type (deref s' q) = sp_type (deref s q).
Proof.
  intros Hs Hs' Ex Ey Hv.
  destruct (valid_coords s q Hs Hv) as [Hin Hsp].
  destruct (shape_cell s Hs _ _ Hin) as (X1 & Y1 & T1).
  assert (Hin' : INGRID s' (q `mod` gs_sx s) (q `div` gs_sx s) = true).
  { unfold INGRID. rewrite Ex, Ey. exact Hin. }
  destruct (shape_cell s' Hs' _ _ Hin') as (X2 & Y2 & T2).
  assert (Hsp' : SPACE s' (q `mod` gs_sx s) (q `div` gs_sx s) = q).
  { unfold SPACE. rewrite Ex. exact Hsp. }
  rewrite Hsp in X1, Y1, T1. rewrite Hsp' in X2, Y2, T2.
  split; [congruence|]. split; congruence.
Qed.

Lemma valid_dims s s' q :
  shape s -> shape s' -> gs_sx s' = gs_sx s -> gs_sy s' = gs_sy s ->
  valid s' q <-> valid s q.
Proof.
  intros Hs Hs' Ex Ey. unfold valid.
  by rewrite (shape_len _ Hs), (shape_len _ Hs'), Ex, Ey.
Qed.

Lemma is_tile_dims s s' q :
  shape s -> shape s' -> gs_sx s' = gs_sx s -> gs_sy s' = gs_sy s ->
  is_tile s' q <-> is_tile s q.
Proof.
  intros Hs Hs' Ex Ey. unfold is_tile. rewrite (valid_dims s s') by done.
  split; intros [Hv Ht]; (split; [done|]);
    destruct (coords_dims s s' q Hs Hs' Ex Ey Hv) as (_ & _ & E); congruence.
Qed.

(** A tile that touches the new dot is not passed by. *)
Lemma near_free_not_blocked sp s t :
  place_inv sp s -> is_tile s t -> touching s sp t -> ~ blocked s sp t.
Proof.
  intros [Hc Hd Hoth Hnear] Ht Htouch [Hna Hb].
  pose proof (core_shape _ Hc) as Hs.
  destruct (Hnear t Ht Htouch) as [Hin _].
  rewrite space_opposite_dot_mirror, Hin in Hb.
  destruct Hb as [?|(o & [= <-] & Hown)]; [done|].
  apply owned_by_other_spec in Hown as [Ha Hnw].
  assert (Hopp : space_opposite_dot s t sp
                 = Some (SPACE s (mirror_x s sp t) (mirror_y s sp t))).
  { by rewrite space_opposite_dot_mirror, Hin. }
  destruct (space_opposite_dot_Some s t sp _ Hs Ht (proj1 Hd) Hopp) as (Ho & Ox & Oy).
  apply Hnw. apply (Hnear _ Ho); [|done].
  unfold touching in *. rewrite Ox, Oy. lia.
Qed.

(** After [solver_obvious_dot] on the new dot the whole invariant holds. *)
Lemma place_inv_finish sp s :
  place_inv sp s ->
  exists s' r, solver_obvious_dot s sp = Ok (s', r) /\ gen_inv s'.
Proof.
  intros Hp. pose proof (core_shape _ (pl_core _ _ Hp)) as Hs.
  destruct (solver_obvious_dot_post (place_inv sp) s sp (place_inv_closed sp) Hp)
    as (s' & r & Hres & Hp' & Ex & Ey & Hall).
  exists s', r. split; [done|]. apply gen_inv_core.
  destruct Hp' as [Hc' Hd' Hoth' Hnear']. split; [done|].
  pose proof (core_shape _ Hc') as Hs'.
  intros d t Hd Ht Htouch. destruct (decide (d = sp)) as [->|Hne].
  2:{ by apply (Hoth' d t). }
  assert (Ht0 : is_tile s t) by by apply (is_tile_dims s s').
  destruct (Hall t Ht0) as [Ha|(s1 & Hp1 & Ex1 & Ey1 & Hb)]; [done|].
  exfalso. pose proof (core_shape _ (pl_core _ _ Hp1)) as Hs1.
  apply (near_free_not_blocked sp s1 t Hp1); [| |done].
  - by apply (is_tile_dims s s1).
  - unfold touching in *.
    destruct (coords_dims s s' t Hs Hs' Ex Ey (proj1 Ht0)) as (-> & -> & _) in Htouch.
    destruct (coords_dims s s' sp Hs Hs' Ex Ey (proj1 (pl_dot _ _ Hp))) as (-> & -> & _)
      in Htouch.
    destruct (coords_dims s s1 t Hs Hs1 Ex1 Ey1 (proj1 Ht0)) as (-> & -> & _).
    destruct (coords_dims s s1 sp Hs Hs1 Ex1 Ey1 (proj1 (pl_dot _ _ Hp))) as (-> & -> & _).
    done.
Qed.



(** ** What [dot_is_possible] checks *)

Lemma forallb_seqZ (f : Z -> bool) lo len v :
  forallb f (seqZ lo len) = true -> lo <= v < lo + len -> f v = true.
Proof.
  intros H Hv. rewrite forallb_forall in H. apply H.
  apply list_elem_of_In, elem_of_seqZ. lia.
Qed.

(** A cell [dot_is_possible] accepts is not edge-set, and no cell around it
    is an associated tile. *)
Lemma dot_is_possible_true s sp :
  shape s -> valid s sp -> dot_is_possible s sp false = true ->
  has_flag (sp_flags (deref s sp)) F_EDGE_SET = false /\
  forall dx dy, -1 <= dx <= 1 -> -1 <= dy <= 1 ->
    INGRID s (sp_x (deref s sp) + dx) (sp_y (deref s sp) + dy) = true ->
    has_flag (sp_flags (deref s (SPACE s (sp_x (deref s sp) + dx) (sp_y (deref s sp) + dy))))
             F_TILE_ASSOC = false.
Proof.
  intros Hs Hv. unfold dot_is_possible.
  destruct (valid_xy s sp Hs Hv) as [Hin Hsp].
  set (c := deref s sp) in *.
  assert (G : forall bx by_, 1 <= bx -> 1 <= by_ ->
    forallb (fun dx =>
      forallb (fun dy =>
        if negb (INGRID s (sp_x c + dx) (sp_y c + dy)) then true
        else
          let adj := deref s (SPACE s (sp_x c + dx) (sp_y c + dy)) in
          if negb false && has_flag (sp_flags adj) F_TILE_ASSOC then false
          else if (negb (dx =? 0) || negb (dy =? 0)) && has_flag (sp_flags adj) F_DOT
          then false
          else if (Z.abs dx <? bx) && (Z.abs dy <? by_)
                  && has_flag (sp_flags adj) F_EDGE_SET
          then false
          else true)
        (seqZ (- by_) (2 * by_ + 1)))
      (seqZ (- bx) (2 * bx + 1)) = true ->
    has_flag (sp_flags c) F_EDGE_SET = false /\
    forall dx dy, -1 <= dx <= 1 -> -1 <= dy <= 1 ->
      INGRID s (sp_x c + dx) (sp_y c + dy) = true ->
      has_flag (sp_flags (deref s (SPACE s (sp_x c + dx) (sp_y c + dy)))) F_TILE_ASSOC
      = false).
  { intros bx by_ Hbx Hby H.
    assert (Hcell : forall dx dy, - bx <= dx <= bx -> - by_ <= dy <= by_ -> _)
      by (intros dx dy Hdx Hdy;
          exact (forallb_seqZ _ _ _ dy (forallb_seqZ _ _ _ dx H ltac:(lia)) ltac:(lia))).
    split.
    - specialize (Hcell 0 0 ltac:(lia) ltac:(lia)). cbv beta in Hcell.
      rewrite !Z.add_0_r, Hin in Hcell. cbn [negb] in Hcell. cbv zeta in Hcell.
      rewrite Hsp in Hcell. fold c in Hcell.
      destruct (has_flag (sp_flags c) F_TILE_ASSOC); [done|]. cbn [andb] in Hcell.
      rewrite Z.eqb_refl in Hcell. cbn [negb orb andb] in Hcell.
      destruct (has_flag (sp_flags c) F_EDGE_SET); [|done].
      replace (Z.abs 0 <? bx) with true in Hcell by (symmetry; apply Z.ltb_lt; lia).
      replace (Z.abs 0 <? by_) with true in Hcell by (symmetry; apply Z.ltb_lt; lia).
      done.
    - intros dx dy Hdx Hdy Hi. specialize (Hcell dx dy ltac:(lia) ltac:(lia)).
      cbv beta in Hcell. rewrite Hi in Hcell. cbn [negb] in Hcell. cbv zeta in Hcell.
      by destruct (has_flag _ F_TILE_ASSOC). }
  destruct (sp_type c).
  - apply G; lia.
  - destruct (IS_VERTICAL_EDGE (sp_x c)); apply G; lia.
  - apply G; lia.
Qed.

Lemma add_dot_flags s sp q m :
  Z.land F_DOT m = 0 ->
  has_flag (sp_flags (deref (add_dot s sp) q)) m = has_flag (sp_flags (deref s q)) m.
Proof.
  intros Hm. unfold add_dot.
  apply (deref_store_keeps s sp _ q (fun c => has_flag (sp_flags c) m)).
  intros c. simpl. by apply has_flag_lor_other.
Qed.

Lemma add_dot_fields s sp q :
  sp_x (deref (add_dot s sp) q) = sp_x (deref s q) /\
  sp_y (deref (add_dot s sp) q) = sp_y (deref s q) /\
  sp_type (deref (add_dot s sp) q) = sp_type (deref s q) /\
  sp_dotx (deref (add_dot s sp) q) = sp_dotx (deref s q) /\
  sp_doty (deref (add_dot s sp) q) = sp_doty (deref s q).
Proof.
  unfold add_dot.
  rewrite (deref_store_keeps s sp _ q sp_x), (deref_store_keeps s sp _ q sp_y),
    (deref_store_keeps s sp _ q sp_type), (deref_store_keeps s sp _ q sp_dotx),
    (deref_store_keeps s sp _ q sp_doty) by done. done.
Qed.

Lemma is_tile_add_dot s sp q : is_tile (add_dot s sp) q <-> is_tile s q.
Proof.
  unfold is_tile. destruct (add_dot_fields s sp q) as (_ & _ & -> & _).
  unfold add_dot. by rewrite valid_store.
Qed.

Lemma is_assoc_add_dot s sp q : is_assoc (add_dot s sp) q <-> is_assoc s q.
Proof. unfold is_assoc. by rewrite add_dot_flags. Qed.

Lemma is_dot_add_dot s sp q :
  valid s sp -> is_dot (add_dot s sp) q <-> q = sp \/ is_dot s q.
Proof.
  intros Hv. unfold is_dot. unfold add_dot at 1. rewrite valid_store. split.
  - intros [Hq Hf]. destruct (decide (q = sp)) as [->|Hne]; [by left|]. right.
    split; [done|]. unfold add_dot in Hf. rewrite deref_store_ne in Hf; [done|done| |done].
    apply Hq.
  - intros [->|[Hq Hf]].
    + split; [done|]. apply add_dot_is_dot. done.
    + split; [done|]. unfold add_dot. rewrite deref_store by (done || apply Hq).
      destruct (decide (sp = q)) as [->|]; [|done]. simpl. by apply has_flag_lor_same.
Qed.

Lemma owned_tiles_add_dot s sp dx dy :
  owned_tiles (add_dot s sp) dx dy = owned_tiles s dx dy.
Proof.
  unfold owned_tiles. apply filter_ext_elem. intros t _.
  destruct (add_dot_fields s sp t) as (_ & _ & -> & -> & ->). done.
Qed.

(** The board between [add_dot] and [solver_obvious_dot]. *)
Lemma place_inv_start s sp :
  gen_inv s -> valid s sp -> dot_is_possible s sp false = true ->
  place_inv sp (add_dot s sp).
Proof.
  intros Hg Hv Hpos. apply gen_inv_core in Hg as [[Hs Hn Hfree Hassoc Hframed] Hsur].
  destruct (dot_is_possible_true s sp Hs Hv Hpos) as [Hedge Hnear].
  destruct (valid_xy s sp Hs Hv) as [Hin Hsp].
  pose proof Hin as Hin'. apply INGRID_spec in Hin'.
  (* the cell is not on the border *)
  assert (Hint : 0 < sp_x (deref s sp) < gs_sx s - 1 /\ 0 < sp_y (deref s sp) < gs_sy s - 1).
  { destruct Hframed as [Hb _].
    destruct (on_border (gs_sx s) (gs_sy s) (sp_x (deref s sp)) (sp_y (deref s sp))) eqn:Eb.
    - specialize (Hb _ _ Hin Eb). rewrite Hsp in Hb. congruence.
    - unfold on_border in Eb. rewrite !orb_false_iff, !Z.eqb_neq in Eb. lia. }
  (* a tile that touches the cell is free *)
  assert (Htf : forall t, is_tile s t -> touching s sp t -> ~ is_assoc s t).
  { intros t Ht [Tx Ty] Ha. destruct (valid_xy s t Hs (proj1 Ht)) as [Hti Hts].
    specialize (Hnear (sp_x (deref s t) - sp_x (deref s sp))
                      (sp_y (deref s t) - sp_y (deref s sp)) ltac:(lia) ltac:(lia)).
    replace (sp_x (deref s sp) + (sp_x (deref s t) - sp_x (deref s sp)))
      with (sp_x (deref s t)) in Hnear by lia.
    replace (sp_y (deref s sp) + (sp_y (deref s t) - sp_y (deref s sp)))
      with (sp_y (deref s t)) in Hnear by lia.
    rewrite Hts in Hnear. specialize (Hnear Hti). unfold is_assoc in Ha. congruence. }
  (* some tile touches the cell *)
  assert (Hex : exists t, is_tile s t /\ touching s sp t).
  { set (x := sp_x (deref s sp)) in *. set (y := sp_y (deref s sp)) in *.
    set (tx := if Z.odd x then x else x + 1).
    set (ty := if Z.odd y then y else y + 1).
    assert (Hodd : forall v, exists k, (if Z.odd v then v else v + 1) = 1 + 2 * k).
    { intros v. destruct (Z.odd v) eqn:E.
      - apply Z.odd_spec in E as [m ->]. exists m. lia.
      - rewrite <- Z.negb_even in E. apply negb_false_iff, Z.even_spec in E as [m ->].
        exists m. lia. }
    assert (Hox : exists k, tx = 1 + 2 * k) by apply Hodd.
    assert (Hoy : exists k, ty = 1 + 2 * k) by apply Hodd.
    assert (Hti : INGRID s tx ty = true).
    { apply INGRID_spec. unfold tx, ty. destruct (Z.odd x), (Z.odd y); lia. }
    exists (SPACE s tx ty). split; [by apply tile_cell|].
    destruct (shape_cell s Hs _ _ Hti) as (Ex & Ey & _).
    unfold touching. rewrite Ex, Ey. fold x y. unfold tx, ty.
    destruct (Z.odd x), (Z.odd y); lia. }
  (* the cell is not yet a dot *)
  assert (Hnd : ~ is_dot s sp).
  { intros Hd. destruct Hex as (t & Ht & Htouch).
    apply (Htf t Ht Htouch). by apply (Hsur sp t). }
  (* no tile records the coordinates of the cell *)
  assert (Hrec : forall t, is_tile s t ->
            ~ (sp_dotx (deref s t) = sp_x (deref s sp) /\
               sp_doty (deref s t) = sp_y (deref s sp))).
  { intros t Ht [E1 E2]. destruct (decide (is_assoc s t)) as [Ha|Hna].
    - destruct (Hassoc t Ht Ha) as (d & Hd & E3 & E4). apply Hnd.
      assert (d = sp) as <-; [|done].
      apply (coords_inj s); [done|apply Hd|done|congruence|congruence].
    - destruct (Hfree t Ht Hna) as [[E3 E4]|[E3 E4]]; lia. }
  assert (Hs' : shape (add_dot s sp)) by by apply add_dot_shape.
  split; [split|..].
  - done.
  - intros d Hd. apply is_dot_add_dot in Hd; [|done].
    destruct (add_dot_fields s sp d) as (-> & -> & _). rewrite owned_tiles_add_dot.
    destruct (decide (d = sp)) as [->|Hne].
    + unfold add_dot. rewrite deref_store_eq by done. simpl. unfold owned_tiles.
      rewrite (filter_ext_elem _ (fun _ => False)).
      * by rewrite filter_False.
      * intros t Hin0. split; [|done]. intros (Hty & E1 & E2).
        apply (Hrec t); [|done]. split; [|done]. apply elem_of_seqZ in Hin0.
        unfold valid. rewrite (shape_len _ Hs). lia.
    + destruct Hd as [?|Hd]; [done|].
      unfold add_dot. rewrite deref_store_ne; [by apply Hn|done|apply Hd|done].
  - intros t Ht Hna. rewrite is_tile_add_dot in Ht. rewrite is_assoc_add_dot in Hna.
    destruct (add_dot_fields s sp t) as (_ & _ & _ & -> & ->). by apply Hfree.
  - intros t Ht Ha. rewrite is_tile_add_dot in Ht. rewrite is_assoc_add_dot in Ha.
    destruct (Hassoc t Ht Ha) as (d & Hd & E1 & E2). exists d.
    split; [apply is_dot_add_dot; [done|by right]|].
    destruct (add_dot_fields s sp t) as (_ & _ & _ & -> & ->).
    destruct (add_dot_fields s sp d) as (-> & -> & _). done.
  - destruct Hframed as [Hb H0]. split.
    + intros x y Hi Hbd. rewrite add_dot_flags by done. by apply Hb.
    + unfold add_dot. rewrite deref_store by (done || lia).
      destruct (decide (sp = 0)) as [->|]; [|done]. exfalso.
      destruct (deref_0 s Hs) as [E1 E2]. lia.
  - by apply add_dot_is_dot.
  - intros d t Hd Hne Ht Htouch. apply is_dot_add_dot in Hd; [|done].
    destruct Hd as [?|Hd]; [done|]. rewrite is_tile_add_dot in Ht.
    rewrite is_assoc_add_dot. apply (Hsur d t); [done|done|].
    unfold touching in *.
    destruct (add_dot_fields s sp d) as (E1 & E2 & _).
    destruct (add_dot_fields s sp t) as (E3 & E4 & _).
    by rewrite E1, E2, E3, E4 in Htouch.
  - intros t Ht Htouch. rewrite is_tile_add_dot in Ht.
    assert (Htouch' : touching s sp t).
    { unfold touching in *.
      destruct (add_dot_fields s sp sp) as (E1 & E2 & _).
      destruct (add_dot_fields s sp t) as (E3 & E4 & _).
      by rewrite E1, E2, E3, E4 in Htouch. }
    split.
    + unfold mirror_x, mirror_y.
      destruct (add_dot_fields s sp sp) as (-> & -> & _).
      destruct (add_dot_fields s sp t) as (-> & -> & _).
      unfold add_dot. rewrite INGRID_store.
      apply INGRID_spec. unfold touching in Htouch'. lia.
    + intros Ha. rewrite is_assoc_add_dot in Ha. exfalso. by apply (Htf t).
Qed.

(** [add_dot] on an accepted cell followed by [solver_obvious_dot]. *)
Lemma place_gen_inv s sp :
  gen_inv s -> valid s sp -> dot_is_possible s sp false = true ->
  exists s' r, solver_obvious_dot (add_dot s sp) sp = Ok (s', r) /\ gen_inv s'.
Proof. intros Hg Hv Hp. by apply place_inv_finish, place_inv_start. Qed.



(** ** The invariant on the boards of the generator *)

(** A board without dots and without associated tiles, framed, whose tiles
    all record [(-1,-1)] or all record [(0,0)]. *)
Lemma empty_board_inv s :
  shape s ->
  (forall q, valid s q ->
     has_flag (sp_flags (deref s q)) F_DOT = false /\
     has_flag (sp_flags (deref s q)) F_TILE_ASSOC = false /\
     ((sp_dotx (deref s q) = -1 /\ sp_doty (deref s q) = -1) \/
      (sp_dotx (deref s q) = 0 /\ sp_doty (deref s q) = 0))) ->
  (forall x y, INGRID s x y = true -> on_border (gs_sx s) (gs_sy s) x y = true ->
     has_flag (sp_flags (deref s (SPACE s x y))) F_EDGE_SET = true) ->
  gen_inv s.
Proof.
  intros Hs Hcell Hborder.
  assert (Hnd : forall d, ~ is_dot s d).
  { intros d [Hv Hf]. destruct (Hcell d Hv) as (E & _). congruence. }
  assert (Hna : forall t, is_tile s t -> ~ is_assoc s t).
  { intros t [Hv _] Ha. destruct (Hcell t Hv) as (_ & E & _). unfold is_assoc in Ha.
    congruence. }
  split.
  - done.
  - intros d Hd. by apply Hnd in Hd.
  - intros t Ht _. destruct (Hcell t (proj1 Ht)) as (_ & _ & H). done.
  - intros t Ht Ha. by apply Hna in Ha.
  - split; [done|]. destruct (Hcell 0 (valid_0 s Hs)) as (E & _). done.
  - intros d t Hd. by apply Hnd in Hd.
Qed.

Lemma blank_gen_inv w h : 0 <= w -> 0 <= h -> gen_inv (blank_game w h).
Proof.
  intros Hw Hh. pose proof (blank_game_shape w h Hw Hh) as Hs.
  destruct (blank_game_dims w h) as (_ & _ & Esx & Esy & _ & _).
  assert (Hc : forall x y, INGRID (blank_game w h) x y = true ->
            deref (blank_game w h) (SPACE (blank_game w h) x y)
            = mkSpace x y (sp_type (init_space x y))
                (if on_border (2 * w + 1) (2 * h + 1) x y then F_EDGE_SET else 0) 0 0 0).
  { intros x y Hin. apply INGRID_spec in Hin. rewrite Esx, Esy in Hin.
    unfold SPACE. rewrite Esx. apply blank_game_cell; lia. }
  apply empty_board_inv; [done| |].
  - intros q Hq. destruct (valid_coords _ q Hs Hq) as [Hin Hsp].
    specialize (Hc _ _ Hin). rewrite Hsp in Hc. rewrite Hc. simpl.
    destruct (on_border _ _ _ _); (split; [done|]); (split; [done|]); by right.
  - intros x y Hin Hb. rewrite (Hc x y Hin). simpl. rewrite Esx, Esy in Hb.
    by rewrite Hb.
Qed.

Lemma clear_gen_inv s : shape s -> gen_inv (clear_game s).
Proof.
  intros Hs. pose proof (clear_game_shape s Hs) as Hs'.
  apply empty_board_inv; [done| |].
  - intros q Hq. rewrite valid_clear_game in Hq. rewrite deref_clear_game by done.
    unfold clear_space. cbn [sp_flags sp_dotx sp_doty].
    destruct ((sp_x (deref s q) =? 0) || _ || _ || _);
      (split; [done|]); (split; [done|]); by left.
  - intros x y Hin Hb.
    change (INGRID (clear_game s) x y) with (INGRID s x y) in Hin.
    change (SPACE (clear_game s) x y) with (SPACE s x y).
    change (gs_sx (clear_game s)) with (gs_sx s) in Hb.
    change (gs_sy (clear_game s)) with (gs_sy s) in Hb.
    rewrite deref_clear_game by (apply SPACE_valid; [apply Hs|done]).
    destruct (shape_cell s Hs x y Hin) as (Ex & Ey & _).
    unfold clear_space. simpl. rewrite Ex, Ey. unfold on_border in Hb. by rewrite Hb.
Qed.

Lemma gen_inv_closed dot : step_closed dot (fun s => gen_inv s /\ is_dot s dot).
Proof.
  split.
  - intros s [Hg Hd]. split; [apply Hg|done].
  - intros s t [Hg Hd] Ht Hna. split; [by apply assoc_to_inv|].
    apply is_dot_assoc_to; [apply Ht|apply Hd|done].
Qed.

(** [solver_obvious_dot] on a dot of the board. *)
Lemma obvious_gen_inv s dot s' r :
  gen_inv s -> is_dot s dot -> solver_obvious_dot s dot = Ok (s', r) -> gen_inv s'.
Proof.
  intros Hg Hd Hres. destruct (gen_inv_closed dot) as [Hb Hst].
  destruct (solver_obvious_dot_inv (fun s => gen_inv s /\ is_dot s dot) s dot Hb Hst)
    as (s1 & r1 & E & [Hg1 _] & _); [done|].
  rewrite E in Hres. by injection Hres as <- _.
Qed.

(** [dot_expand_or_move] with a block of distinct free tiles none of which
    is the mirror image of another. *)
Lemma expand_gen_inv s dot toadd s' r :
  gen_inv s -> is_dot s dot -> block_ok s dot toadd ->
  dot_expand_or_move s dot toadd = Ok (s', r) -> gen_inv s'.
Proof.
  intros Hg Hd Hblk. pose proof Hd as [Hvd Hfd].
  unfold dot_expand_or_move. rewrite Hfd. cbn [assert bind].
  destruct (expand_check s dot toadd) eqn:Hchk; cbn [negb].
  2:{ by intros [= <- _]. }
  destruct (expand_loop (fun s => gen_inv s /\ is_dot s dot) dot toadd s
              (gen_inv_closed dot) (conj Hg Hd) Hblk Hchk) as (Hmid & _).
  destruct (gen_inv_closed dot) as [Hb Hst].
  destruct (solver_obvious_dot_inv (fun s => gen_inv s /\ is_dot s dot) _ dot Hb Hst Hmid)
    as (s1 & r1 & E & [Hg1 _] & _ & _ & _ & _ & _ & Hr).
  rewrite E. cbn [bind snd fst].
  assert (Hr' : negb (r1 =? -1) = true) by (destruct Hr as [-> | ->]; done).
  rewrite Hr'. cbn [assert bind]. by intros [= <- _].
Qed.

(** *** The blocks of [generate_try_block] *)

Lemma range2_one a : range2 a (a + 1) = [a].
Proof.
  unfold range2. replace (a + 1 - a + 1) with 2 by lia.
  change (seqZ 0 (2 `div` 2)) with [0]. simpl. f_equal. lia.
Qed.

Lemma range2_two a : range2 (a - 1) (a + 1 + 1) = [a - 1; a + 1].
Proof.
  unfold range2. replace (a + 1 + 1 - (a - 1) + 1) with 4 by lia.
  change (seqZ 0 (4 `div` 2)) with [0; 1]. simpl. f_equal; [lia|]. f_equal. lia.
Qed.

Lemma collect_toadd_Some s cells acc toadd :
  collect_toadd s cells acc = Ok (Some toadd) ->
  toadd = acc ++ ((fun c => SPACE s c.1 c.2) <$> cells) /\
  forall c, c ∈ cells ->
    sp_type (deref s (SPACE s c.1 c.2)) = s_tile /\ ~ is_assoc s (SPACE s c.1 c.2).
Proof.
  revert acc. induction cells as [|[x y] cells IH]; intros acc; simpl.
  - intros [= <-]. split; [by rewrite app_nil_r|]. intros c []%elem_of_nil.
  - destruct (bool_decide_reflect (sp_type (deref s (SPACE s x y)) = s_tile)) as [Hty|];
      [|done]. cbn [assert bind].
    destruct (has_flag (sp_flags (deref s (SPACE s x y))) F_TILE_ASSOC) eqn:Hf; [done|].
    destruct (MAX_TOADD <=? _); [done|].
    intros Hres. destruct (IH _ Hres) as [-> Hall]. split; [by rewrite <- app_assoc|].
    intros c Hc. apply elem_of_cons in Hc as [->|Hc]; [|by apply Hall].
    split; [done|]. unfold is_assoc. simpl. by rewrite Hf.
Qed.

(** The cells of the rectangle of a candidate: the candidate itself when it
    is a tile, the two tiles beside it when it is an edge. *)
Lemma candidate_cells s sp x1 y1 x2 y2 :
  sp_type (deref s sp) <> s_vertex ->
  candidate_rect (deref s sp) = (x1, y1, x2, y2) ->
  let x := sp_x (deref s sp) in
  let y := sp_y (deref s sp) in
  (x1 = x /\ y1 = y /\ x2 = x /\ y2 = y /\ block_cells x1 y1 x2 y2 = [(x, y)]) \/
  (x1 = x - 1 /\ y1 = y /\ x2 = x + 1 /\ y2 = y /\
   block_cells x1 y1 x2 y2 = [(x - 1, y); (x + 1, y)]) \/
  (x1 = x /\ y1 = y - 1 /\ x2 = x /\ y2 = y + 1 /\
   block_cells x1 y1 x2 y2 = [(x, y - 1); (x, y + 1)]).
Proof.
  intros Hnv. unfold candidate_rect, block_cells.
  destruct (bool_decide (sp_type (deref s sp) = s_edge)).
  - destruct (IS_VERTICAL_EDGE _); intros [= <- <- <- <-]; cbv zeta.
    + right. left. repeat (split; [done|]). by rewrite range2_one, range2_two.
    + right. right. repeat (split; [done|]). by rewrite range2_one, range2_two.
  - intros [= <- <- <- <-]. cbv zeta. left. repeat (split; [done|]).
    by rewrite !range2_one.
Qed.

Lemma candidate_block_ok s sp x1 y1 x2 y2 toadd dot :
  gen_inv s -> valid s sp -> sp_type (deref s sp) <> s_vertex ->
  candidate_rect (deref s sp) = (x1, y1, x2, y2) ->
  (x1 <? 0) || (y1 <? 0) || (gs_sx s <=? x2) || (gs_sy s <=? y2) = false ->
  collect_toadd s (block_cells x1 y1 x2 y2) [] = Ok (Some toadd) ->
  is_dot s dot -> block_ok s dot toadd.
Proof.
  intros Hg Hv Hnv Hrect Hguard Hcol Hd.
  pose proof (inv_shape _ Hg) as Hs. pose proof (inv_surrounded _ Hg) as Hsur.
  rewrite !orb_false_iff, !Z.ltb_ge, !Z.leb_gt in Hguard.
  destruct (collect_toadd_Some s _ _ _ Hcol) as [-> Hall]. rewrite app_nil_l.
  destruct (valid_xy s sp Hs Hv) as [Hin Hsp].
  assert (Htile : forall c, c ∈ block_cells x1 y1 x2 y2 -> INGRID s c.1 c.2 = true ->
            is_tile s (SPACE s c.1 c.2) /\ ~ is_assoc s (SPACE s c.1 c.2)).
  { intros c Hc Hi. destruct (Hall c Hc) as [Hty Hna]. split; [|done].
    split; [|done]. apply SPACE_valid; [apply Hs|done]. }
  destruct (candidate_cells s sp x1 y1 x2 y2 Hnv Hrect)
    as [(-> & -> & -> & -> & Hcells)|[(-> & -> & -> & -> & Hcells)
       |(-> & -> & -> & -> & Hcells)]]; rewrite Hcells in *; cbn [fmap list_fmap fst snd].
  - split; [|split].
    + apply NoDup_singleton.
    + intros t Ht. apply list_elem_of_singleton in Ht as ->.
      apply (Htile (_, _)); [left|done].
    + intros t t' Ht Ht' _. apply list_elem_of_singleton in Ht, Ht'. congruence.
  - assert (I1 : INGRID s (sp_x (deref s sp) - 1) (sp_y (deref s sp)) = true)
      by (apply INGRID_spec; lia).
    assert (I2 : INGRID s (sp_x (deref s sp) + 1) (sp_y (deref s sp)) = true)
      by (apply INGRID_spec; lia).
    destruct (Htile (_, _) ltac:(left) I1) as [T1 F1].
    destruct (Htile (_, _) ltac:(right; left) I2) as [T2 F2]. cbn [fst snd] in *.
    destruct (shape_cell s Hs _ _ I1) as (X1 & Y1 & _).
    destruct (shape_cell s Hs _ _ I2) as (X2 & Y2 & _).
    assert (Hne : SPACE s (sp_x (deref s sp) - 1) (sp_y (deref s sp))
                  <> SPACE s (sp_x (deref s sp) + 1) (sp_y (deref s sp))).
    { intros E. apply SPACE_inj in E; [lia|done|done]. }
    assert (Hmid : forall a b, space_opposite_dot s a dot = Some b ->
              is_tile s a -> touching s sp a -> ~ is_assoc s a ->
              sp_x (deref s a) + sp_x (deref s b) = 2 * sp_x (deref s sp) ->
              sp_y (deref s a) + sp_y (deref s b) = 2 * sp_y (deref s sp) -> False).
    { intros a b Hopp Ta Htouch Fa Ex Ey.
      destruct (space_opposite_dot_Some s a dot b Hs Ta (proj1 Hd) Hopp) as (_ & Ox & Oy).
      assert (dot = sp) as ->.
      { apply (coords_inj s); [done|apply Hd|done|lia|lia]. }
      apply Fa. by apply (Hsur sp a). }
    split; [|split].
    + apply NoDup_cons. split; [by intros E%list_elem_of_singleton|apply NoDup_singleton].
    + intros t Ht. apply elem_of_cons in Ht as [->|Ht]; [done|].
      apply list_elem_of_singleton in Ht as ->. done.
    + intros t t' Ht Ht' Hopp.
      apply elem_of_cons in Ht as [->|Ht]; [|apply list_elem_of_singleton in Ht as ->];
        (apply elem_of_cons in Ht' as [->|Ht'];
         [|apply list_elem_of_singleton in Ht' as ->]); try done; exfalso.
      * apply (Hmid _ _ Hopp T1); [|done|lia|lia]. unfold touching. lia.
      * apply (Hmid _ _ Hopp T2); [|done|lia|lia]. unfold touching. lia.
  - assert (I1 : INGRID s (sp_x (deref s sp)) (sp_y (deref s sp) - 1) = true)
      by (apply INGRID_spec; lia).
    assert (I2 : INGRID s (sp_x (deref s sp)) (sp_y (deref s sp) + 1) = true)
      by (apply INGRID_spec; lia).
    destruct (Htile (_, _) ltac:(left) I1) as [T1 F1].
    destruct (Htile (_, _) ltac:(right; left) I2) as [T2 F2]. cbn [fst snd] in *.
    destruct (shape_cell s Hs _ _ I1) as (X1 & Y1 & _).
    destruct (shape_cell s Hs _ _ I2) as (X2 & Y2 & _).
    assert (Hne : SPACE s (sp_x (deref s sp)) (sp_y (deref s sp) - 1)
                  <> SPACE s (sp_x (deref s sp)) (sp_y (deref s sp) + 1)).
    { intros E. apply SPACE_inj in E; [lia|done|done]. }
    assert (Hmid : forall a b, space_opposite_dot s a dot = Some b ->
              is_tile s a -> touching s sp a -> ~ is_assoc s a ->
              sp_x (deref s a) + sp_x (deref s b) = 2 * sp_x (deref s sp) ->
              sp_y (deref s a) + sp_y (deref s b) = 2 * sp_y (deref s sp) -> False).
    { intros a b Hopp Ta Htouch Fa Ex Ey.
      destruct (space_opposite_dot_Some s a dot b Hs Ta (proj1 Hd) Hopp) as (_ & Ox & Oy).
      assert (dot = sp) as ->.
      { apply (coords_inj s); [done|apply Hd|done|lia|lia]. }
      apply Fa. by apply (Hsur sp a). }
    split; [|split].
    + apply NoDup_cons. split; [by intros E%list_elem_of_singleton|apply NoDup_singleton].
    + intros t Ht. apply elem_of_cons in Ht as [->|Ht]; [done|].
      apply list_elem_of_singleton in Ht as ->. done.
    + intros t t' Ht Ht' Hopp.
      apply elem_of_cons in Ht as [->|Ht]; [|apply list_elem_of_singleton in Ht as ->];
        (apply elem_of_cons in Ht' as [->|Ht'];
         [|apply list_elem_of_singleton in Ht' as ->]); try done; exfalso.
      * apply (Hmid _ _ Hopp T1); [|done|lia|lia]. unfold touching. lia.
      * apply (Hmid _ _ Hopp T2); [|done|lia|lia]. unfold touching. lia.
Qed.

(** Every board of the generator satisfies the invariant. *)
Lemma gen_reach_inv s : gen_reach s -> gen_inv s.
Proof.
  induction 1 as [w h Hw Hh|s _ IH|s sp s' r _ IH Hv Hp Hres|s dot s' r _ IH Hd Hres
                  |s sp x1 y1 x2 y2 toadd dot s' r _ IH Hv Hnv Hrect Hguard Hcol Hd Hres].
  - by apply blank_gen_inv.
  - apply clear_gen_inv, IH.
  - destruct (place_gen_inv s sp IH Hv Hp) as (s1 & r1 & E & Hg).
    rewrite E in Hres. by injection Hres as <- _.
  - by eapply obvious_gen_inv.
  - eapply expand_gen_inv; [exact IH|exact Hd| |exact Hres].
    by eapply candidate_block_ok.
Qed.



(** ** Pairs of steps *)

Lemma step_closed_pair dot P : step_closed dot P -> pair_closed dot P.
Proof.
  intros [Hb Hst]. split; [done|]. split.
  - intros s t o HP Ht Hna _ _. by apply Hst.
  - intros s t o HP Ht Hna Hopp Hne Ho Hno. destruct (Hb s HP) as [Hs [Hvd _]].
    apply Hst; [by apply Hst|by apply is_tile_assoc_to|].
    rewrite is_assoc_assoc_to; [|apply Ht|done|apply Ho].
    intros [E|E]; [by apply Hne|done].
Qed.

Lemma not_owned_by_other s o dot :
  owned_by_other s o dot = false -> is_assoc s o -> assoc_with s dot o.
Proof.
  intros Hf Ha. unfold owned_by_other in Hf. unfold is_assoc in Ha. rewrite Ha in Hf.
  simpl in Hf. apply orb_false_iff in Hf as [E1 E2]. apply negb_false_iff in E1, E2.
  split; [done|]. lia.
Qed.

(** [solver_obvious_dot] is a sequence of such steps. *)
Lemma solver_obvious_dot_pair (P : game_state -> Prop) s dot :
  pair_closed dot P -> P s ->
  exists s' r, solver_obvious_dot s dot = Ok (s', r) /\ P s' /\ (r = 0 \/ r = 1).
Proof.
  intros (Hbase & Hone & Htwo) HP. unfold solver_obvious_dot.
  destruct (Hbase s HP) as [Hs [Hvd Hfd]]. rewrite Hfd. simpl.
  set (I := fun acc : game_state * Z =>
              P acc.1 /\ gs_sx acc.1 = gs_sx s /\ gs_sy acc.1 = gs_sy s /\
              (acc.2 = 0 \/ acc.2 = 1)).
  destruct (fold_res_inv I
              (fun acc x => fold_res (fun acc y => obvious_step dot acc x y)
                                     (range2 1 (gs_sy s)) acc)
              (range2 1 (gs_sx s)) (s, 0)) as ([s' r] & Hres & HI).
  - unfold I; simpl. repeat split; auto.
  - intros acc x Hx Hacc. apply fold_res_inv; [done|].
    clear acc Hacc. intros [s1 r1] y Hy HI1. unfold I in HI1. cbn [fst snd] in HI1.
    destruct HI1 as (HP1 & Esx & Esy & Hr1).
    destruct (Hbase s1 HP1) as [Hs1 [Hvd1 _]].
    apply elem_of_range2 in Hx as (kx & ? & -> & ?).
    apply elem_of_range2 in Hy as (ky & ? & -> & ?).
    assert (Hin : INGRID s1 (1 + 2 * kx) (1 + 2 * ky) = true).
    { apply INGRID_spec. lia. }
    assert (Ht : is_tile s1 (SPACE s1 (1 + 2 * kx) (1 + 2 * ky))).
    { apply tile_cell; eauto. }
    cbv beta.
    destruct (obvious_step_cases s1 r1 dot _ _ Hs1 Hvd1 Ht)
      as [[-> _]|[(Hna & o & Hopp & Hown & Hcase & ->)|(Hna & o & Hopp & Hne & Ho & Hno & ->)]].
    + eexists. split; [done|]. unfold I. simpl. by repeat split.
    + eexists. split; [done|]. unfold I. cbn [fst snd].
      split; [|split; [done|split; [done|by right]]].
      apply (Hone s1 _ o); [done|done|done|done|].
      destruct Hcase as [?|Ha]; [by left|right]. by apply not_owned_by_other.
    + eexists. split; [done|]. unfold I. cbn [fst snd].
      split; [|split; [done|split; [done|by right]]].
      by apply (Htwo s1 _ o).
  - exists s', r. split; [done|]. split; apply HI.
Qed.

(** The second loop of [dot_expand_or_move] is a sequence of such steps. *)
Lemma expand_loop_pair (P : game_state -> Prop) dot toadd : forall s,
  pair_closed dot P -> P s -> block_ok s dot toadd ->
  expand_check s dot toadd = true ->
  P (foldl (expand_step dot) s toadd).
Proof.
  induction toadd as [|t rest IH]; intros s Hpc HP (Hnd & Hfree & Hmir) Hchk; [done|].
  pose proof Hpc as (Hbase & Hone & Htwo).
  destruct (Hbase s HP) as [Hs [Hvd Hfd]].
  apply NoDup_cons in Hnd as [Hnt Hnd].
  destruct (Hfree t ltac:(left)) as [Ht Hna].
  simpl in Hchk. apply andb_true_iff in Hchk as [Hc1 Hchk].
  destruct (space_opposite_dot s t dot) as [o|] eqn:Hopp; [|done].
  apply negb_true_iff in Hc1.
  destruct (space_opposite_dot_Some s t dot o Hs Ht Hvd Hopp) as (Ho & _ & _).
  assert (Hvt : valid s t) by apply Ht. assert (Hvo : valid s o) by apply Ho.
  set (s1 := expand_step dot s t).
  assert (H1 : P s1 /\
               (forall q, 0 <= q -> is_assoc s1 q -> is_assoc s q \/ q = t \/ q = o) /\
               (forall q, is_tile s1 q <-> is_tile s q) /\
               (forall q d, space_opposite_dot s1 q d = space_opposite_dot s q d) /\
               (forall q, 0 <= q -> owned_by_other s q dot = false ->
                          owned_by_other s1 q dot = false)).
  { destruct (expand_step_cases s dot t o Hs Hvd Ht Hna Hopp)
      as [[Hcase E]|(Hne & _ & Hno & E)]; unfold s1; rewrite E.
    - split.
      { apply (Hone s t o); [done|done|done|done|].
        destruct Hcase as [?|Ha]; [by left|right]. by apply not_owned_by_other. }
      split; [|split; [|split]].
      + intros q Hq Haq. rewrite is_assoc_assoc_to in Haq by done.
        destruct Haq as [<-|?]; auto.
      + intros q. apply is_tile_assoc_to.
      + intros q d. apply space_opposite_dot_assoc_to.
      + intros q Hq Hoq. rewrite owned_by_other_assoc_to by done. by destruct (decide (t = q)).
    - assert (Hv1 : forall q, valid (assoc_to dot t s) q <-> valid s q)
        by (intros q; apply valid_assoc_to).
      split; [by apply (Htwo s t o)|].
      split; [|split; [|split]].
      + intros q Hq Haq.
        rewrite is_assoc_assoc_to in Haq; [|by apply Hv1|by apply Hv1|done].
        destruct Haq as [<-|Haq]; [auto|].
        rewrite is_assoc_assoc_to in Haq by done. destruct Haq as [<-|?]; auto.
      + intros q. by rewrite !is_tile_assoc_to.
      + intros q d. by rewrite !space_opposite_dot_assoc_to.
      + intros q Hq Hoq. rewrite owned_by_other_assoc_to; [|by apply Hv1|by apply Hv1|done].
        destruct (decide (o = q)); [done|].
        rewrite owned_by_other_assoc_to by done. by destruct (decide (t = q)). }
  destruct H1 as (HP1 & Ha1 & Ht1 & Hopp1 & Hoo1).
  assert (Hblock : block_ok s1 dot rest).
  { split; [done|]. split.
    - intros t' Ht'. destruct (Hfree t' ltac:(by right)) as [Htt' Hna'].
      split; [by apply Ht1|]. intros Ha'.
      destruct (Ha1 t' (proj1 (proj1 Htt')) Ha') as [?|[->| ->]]; [done|done|].
      assert (t = o) as <- by (apply (Hmir t o); [left|by right|done]). done.
    - intros t1 t2 H1 H2. rewrite Hopp1. apply Hmir; by right. }
  assert (Hchk1 : expand_check s1 dot rest = true).
  { unfold expand_check in *. apply forallb_forall. intros t' Ht'.
    rewrite forallb_forall in Hchk. specialize (Hchk t' Ht'). rewrite Hopp1.
    destruct (space_opposite_dot s t' dot) as [o'|] eqn:Ho'; [|done].
    apply negb_true_iff in Hchk. apply negb_true_iff. apply Hoo1; [|done].
    apply list_elem_of_In in Ht'.
    destruct (Hfree t' ltac:(by right)) as [Htt' _].
    destruct (space_opposite_dot_Some s t' dot o' Hs Htt' Hvd Ho') as (Ho2 & _ & _).
    apply Ho2. }
  simpl. fold s1. by apply IH.
Qed.



(** ** The regions of the generator *)

Lemma is_tile_coords s s' q :
  (forall q, valid s' q <-> valid s q) ->
  (forall q, sp_x (deref s' q) = sp_x (deref s q) /\ sp_y (deref s' q) = sp_y (deref s q) /\
             sp_type (deref s' q) = sp_type (deref s q)) ->
  is_tile s' q <-> is_tile s q.
Proof.
  intros Hv Hc. unfold is_tile. rewrite Hv. destruct (Hc q) as (_ & _ & ->). done.
Qed.

(** Giving a free tile and its mirror image to a dot keeps the regions
    symmetric. *)
Lemma region_sym_add s s' dot t o :
  shape s -> valid s dot -> is_tile s t -> ~ is_assoc s t ->
  space_opposite_dot s t dot = Some o ->
  (is_assoc s o -> assoc_with s dot o) ->
  region_sym s ->
  gs_sx s' = gs_sx s -> gs_sy s' = gs_sy s ->
  (forall q, valid s' q <-> valid s q) ->
  (forall q, sp_x (deref s' q) = sp_x (deref s q) /\ sp_y (deref s' q) = sp_y (deref s q) /\
             sp_type (deref s' q) = sp_type (deref s q)) ->
  (forall q, 0 <= q -> is_assoc s' q <-> q = t \/ q = o \/ is_assoc s q) ->
  (forall q, 0 <= q ->
     (sp_dotx (deref s' q), sp_doty (deref s' q))
     = if decide (q = t \/ q = o) then (sp_x (deref s dot), sp_y (deref s dot))
       else (sp_dotx (deref s q), sp_doty (deref s q))) ->
  region_sym s'.
Proof.
  intros Hs Hvd Ht Hna Hopp Hown Hsym Esx Esy Hv Hc Has Hrec.
  destruct (space_opposite_dot_Some s t dot o Hs Ht Hvd Hopp) as (Ho & Ox & Oy).
  pose proof Hopp as Hm. rewrite space_opposite_dot_mirror in Hm.
  unfold mirror_x, mirror_y in Hm.
  destruct (INGRID s (2 * sp_x (deref s dot) - sp_x (deref s t))
                     (2 * sp_y (deref s dot) - sp_y (deref s t))) eqn:Hin; [|done].
  injection Hm as Hm.
  assert (HI : forall x y, INGRID s' x y = INGRID s x y).
  { intros x y. unfold INGRID. by rewrite Esx, Esy. }
  assert (HS : forall x y, SPACE s' x y = SPACE s x y).
  { intros x y. unfold SPACE. by rewrite Esx. }
  destruct (valid_xy s t Hs (proj1 Ht)) as [Hint Hspt].
  intros q Hq Haq. apply (is_tile_coords s s' q Hv Hc) in Hq.
  assert (Hq0 : 0 <= q) by apply Hq.
  destruct (Hc q) as (-> & -> & _). rewrite HI, HS.
  pose proof (Hrec q Hq0) as Rq.
  assert (R' : forall m, 0 <= m -> is_assoc s m ->
             (sp_dotx (deref s' m), sp_doty (deref s' m))
             = (sp_dotx (deref s m), sp_doty (deref s m))).
  { intros m Hm0 Hma. rewrite (Hrec m Hm0).
    destruct (decide (m = t \/ m = o)) as [[E|E]|_]; [| |done].
    - exfalso. apply Hna. by rewrite <- E.
    - rewrite E in Hma |- *. destruct (Hown Hma) as (_ & -> & ->). done. }
  destruct (decide (q = t)) as [->|Hqt].
  { rewrite decide_True in Rq by (by left). injection Rq as -> ->.
    rewrite Hin, Hm. split; [done|]. split; [apply Has; [apply Ho|]; auto|].
    pose proof (Hrec o ltac:(apply Ho)) as Ro. rewrite decide_True in Ro by (by right).
    by injection Ro as -> ->. }
  destruct (decide (q = o)) as [->|Hqo].
  { rewrite decide_True in Rq by (by right). injection Rq as -> ->.
    replace (2 * sp_x (deref s dot) - sp_x (deref s o)) with (sp_x (deref s t)) by lia.
    replace (2 * sp_y (deref s dot) - sp_y (deref s o)) with (sp_y (deref s t)) by lia.
    rewrite Hint, Hspt. split; [done|]. split; [apply Has; [apply Ht|]; auto|].
    pose proof (Hrec t ltac:(apply Ht)) as Rt. rewrite decide_True in Rt by (by left).
    by injection Rt as -> ->. }
  rewrite decide_False in Rq by tauto. injection Rq as -> ->.
  apply Has in Haq; [|done]. destruct Haq as [?|[?|Haq]]; [done|done|].
  destruct (Hsym q Hq Haq) as (Hi & Ha & Ex & Ey).
  set (m := SPACE s (2 * sp_dotx (deref s q) - sp_x (deref s q))
                    (2 * sp_doty (deref s q) - sp_y (deref s q))) in *.
  assert (Hm0 : 0 <= m) by by apply SPACE_nonneg.
  split; [done|]. split; [apply Has; auto|].
  pose proof (R' m Hm0 Ha) as Rm. injection Rm as -> ->. done.
Qed.

Lemma region_sym_one dot t o s :
  shape s -> is_dot s dot -> region_sym s ->
  is_tile s t -> ~ is_assoc s t -> space_opposite_dot s t dot = Some o ->
  o = t \/ assoc_with s dot o -> region_sym (assoc_to dot t s).
Proof.
  intros Hs [Hvd _] Hsym Ht Hna Hopp Hcase.
  destruct (space_opposite_dot_Some s t dot o Hs Ht Hvd Hopp) as (Ho & _ & _).
  apply (region_sym_add s _ dot t o); try done.
  - intros Ha. destruct Hcase as [->|?]; done.
  - intros q. apply valid_assoc_to.
  - intros q. apply xy_assoc_to.
  - intros q Hq. rewrite is_assoc_assoc_to by (done || apply Ht).
    split; [intros [<-|?]; auto|]. intros [->|[->|?]]; auto.
    destruct Hcase as [->|[? _]]; auto.
  - intros q Hq. rewrite (record_assoc_to dot t s q (proj1 Ht) Hvd Hq).
    destruct (decide (t = q)) as [<-|Hne].
    + rewrite decide_True by (by left). done.
    + destruct (decide (q = t \/ q = o)) as [[->| ->]|_]; [done| |done].
      destruct Hcase as [->|(_ & -> & ->)]; done.
Qed.

Lemma region_sym_two dot t o s :
  shape s -> is_dot s dot -> region_sym s ->
  is_tile s t -> ~ is_assoc s t -> space_opposite_dot s t dot = Some o ->
  o <> t -> is_tile s o -> ~ is_assoc s o ->
  region_sym (assoc_to dot o (assoc_to dot t s)).
Proof.
  intros Hs [Hvd _] Hsym Ht Hna Hopp Hne Ho Hno.
  assert (Hv1 : forall q, valid (assoc_to dot t s) q <-> valid s q)
    by (intros q; apply valid_assoc_to).
  apply (region_sym_add s _ dot t o); try done.
  - intros q. by rewrite valid_assoc_to, Hv1.
  - intros q. destruct (xy_assoc_to dot o (assoc_to dot t s) q) as (-> & -> & ->).
    apply xy_assoc_to.
  - intros q Hq. rewrite is_assoc_assoc_to; [|by apply Hv1; apply Ho|by apply Hv1|done].
    rewrite is_assoc_assoc_to by (done || apply Ht).
    split; [intros [<-|[<-|?]]; auto|]. intros [->|[->|?]]; auto.
  - intros q Hq.
    rewrite (record_assoc_to dot o (assoc_to dot t s) q); [|by apply Hv1; apply Ho
                                                           |by apply Hv1|done].
    destruct (xy_assoc_to dot t s dot) as (-> & -> & _).
    rewrite (record_assoc_to dot t s q (proj1 Ht) Hvd Hq).
    destruct (decide (o = q)) as [<-|Hoq].
    + rewrite decide_True by (by right). done.
    + destruct (decide (t = q)) as [<-|Htq].
      * rewrite decide_True by (by left). done.
      * rewrite decide_False; [done|]. intros [->| ->]; done.
Qed.

(** A step keeps the tiles around the other dots. *)
Lemma assoc_with_other dot t s d q :
  valid s t -> valid s dot -> 0 <= q -> ~ is_assoc s t ->
  assoc_with s d q -> assoc_with (assoc_to dot t s) d q.
Proof.
  intros Ht Hd Hq Hna (Ha & Ex & Ey). unfold assoc_with.
  destruct (xy_assoc_to dot t s d) as (-> & -> & _).
  rewrite is_assoc_assoc_to by done.
  pose proof (record_assoc_to dot t s q Ht Hd Hq) as Hr.
  destruct (decide (t = q)) as [->|Hne]; [done|].
  injection Hr as -> ->. auto.
Qed.

Lemma owned_near_but_step sp dot t s :
  valid s t -> is_dot s dot -> is_tile s t -> ~ is_assoc s t ->
  owned_near_but sp s -> owned_near_but sp (assoc_to dot t s).
Proof.
  intros Hvt Hd Ht Hna Hown d q Hdq Hne Hq Htouch.
  rewrite is_dot_assoc_to in Hdq by (done || apply Hd).
  rewrite is_tile_assoc_to in Hq. apply touching_assoc_to in Htouch.
  apply assoc_with_other; [done|apply Hd|apply Hq|done|]. by apply Hown.
Qed.

Lemma owned_near_all s : owned_near s <-> forall sp, owned_near_but sp s.
Proof.
  split.
  - intros H sp d t Hd _. by apply H.
  - intros H d t Hd. apply (H (d + 1)); [done|lia].
Qed.

Lemma owned_near_step dot t s :
  valid s t -> is_dot s dot -> is_tile s t -> ~ is_assoc s t ->
  owned_near s -> owned_near (assoc_to dot t s).
Proof.
  intros Hvt Hd Ht Hna Hown. apply owned_near_all. intros sp.
  apply owned_near_but_step; try done. by apply owned_near_all.
Qed.

(** The invariant of the regions is kept by the pairs of steps. *)
Lemma region_inv_closed dot : pair_closed dot (fun s => region_inv s /\ is_dot s dot).
Proof.
  split; [|split].
  - intros s [[Hg _ _] Hd]. split; [apply Hg|done].
  - intros s t o [[Hg Hn Hsym] Hd] Ht Hna Hopp Hcase.
    pose proof (inv_shape _ Hg) as Hs.
    split; [split|].
    + by apply assoc_to_inv.
    + apply owned_near_step; try done. apply Ht.
    + by apply (region_sym_one dot t o).
    + apply is_dot_assoc_to; [apply Ht|apply Hd|done].
  - intros s t o [[Hg Hn Hsym] Hd] Ht Hna Hopp Hne Ho Hno.
    pose proof (inv_shape _ Hg) as Hs.
    assert (Hd1 : is_dot (assoc_to dot t s) dot).
    { apply is_dot_assoc_to; [apply Ht|apply Hd|done]. }
    assert (Ho1 : is_tile (assoc_to dot t s) o) by by apply is_tile_assoc_to.
    assert (Hno1 : ~ is_assoc (assoc_to dot t s) o).
    { rewrite is_assoc_assoc_to; [|apply Ht|apply Hd|apply Ho].
      intros [E|E]; [by apply Hne|done]. }
    split; [split|].
    + apply assoc_to_inv; [by apply assoc_to_inv|done|done|done].
    + apply owned_near_step; try done; [apply Ho1|].
      apply owned_near_step; try done. apply Ht.
    + by apply (region_sym_two dot t o).
    + apply is_dot_assoc_to; [apply Ho1|apply Hd1|done].
Qed.

(** The same while a dot is being placed. *)
Lemma placing_closed sp :
  pair_closed sp (fun s => place_inv sp s /\ owned_near_but sp s /\ region_sym s).
Proof.
  destruct (step_closed_pair sp _ (place_inv_closed sp)) as (Hb & H1 & H2).
  split; [|split].
  - intros s (Hp & _). by apply Hb.
  - intros s t o (Hp & Hn & Hsym) Ht Hna Hopp Hcase.
    destruct (Hb s Hp) as [Hs Hd].
    split; [by apply (H1 s t o)|]. split.
    + apply owned_near_but_step; try done. apply Ht.
    + by apply (region_sym_one sp t o).
  - intros s t o (Hp & Hn & Hsym) Ht Hna Hopp Hne Ho Hno.
    destruct (Hb s Hp) as [Hs Hd].
    assert (Hd1 : is_dot (assoc_to sp t s) sp).
    { apply is_dot_assoc_to; [apply Ht|apply Hd|done]. }
    assert (Ho1 : is_tile (assoc_to sp t s) o) by by apply is_tile_assoc_to.
    assert (Hno1 : ~ is_assoc (assoc_to sp t s) o).
    { rewrite is_assoc_assoc_to; [|apply Ht|apply Hd|apply Ho].
      intros [E|E]; [by apply Hne|done]. }
    split; [by apply (H2 s t o)|]. split.
    + apply owned_near_but_step; try done; [apply Ho1|].
      apply owned_near_but_step; try done. apply Ht.
    + by apply (region_sym_two sp t o).
Qed.

(** *** The boards of the generator *)

Lemma empty_board_regions s :
  shape s ->
  (forall q, valid s q ->
     has_flag (sp_flags (deref s q)) F_DOT = false /\
     has_flag (sp_flags (deref s q)) F_TILE_ASSOC = false /\
     ((sp_dotx (deref s q) = -1 /\ sp_doty (deref s q) = -1) \/
      (sp_dotx (deref s q) = 0 /\ sp_doty (deref s q) = 0))) ->
  (forall x y, INGRID s x y = true -> on_border (gs_sx s) (gs_sy s) x y = true ->
     has_flag (sp_flags (deref s (SPACE s x y))) F_EDGE_SET = true) ->
  region_inv s.
Proof.
  intros Hs Hcell Hborder. split.
  - by apply empty_board_inv.
  - intros d t [Hv Hf]. destruct (Hcell d Hv) as (E & _). congruence.
  - intros t [Hv _] Ha. destruct (Hcell t Hv) as (_ & E & _). unfold is_assoc in Ha.
    congruence.
Qed.

Lemma blank_regions w h : 0 <= w -> 0 <= h -> region_inv (blank_game w h).
Proof.
  intros Hw Hh. pose proof (blank_game_shape w h Hw Hh) as Hs.
  destruct (blank_game_dims w h) as (_ & _ & Esx & Esy & _ & _).
  assert (Hc : forall x y, INGRID (blank_game w h) x y = true ->
            deref (blank_game w h) (SPACE (blank_game w h) x y)
            = mkSpace x y (sp_type (init_space x y))
                (if on_border (2 * w + 1) (2 * h + 1) x y then F_EDGE_SET else 0) 0 0 0).
  { intros x y Hin. apply INGRID_spec in Hin. rewrite Esx, Esy in Hin.
    unfold SPACE. rewrite Esx. apply blank_game_cell; lia. }
  apply empty_board_regions; [done| |].
  - intros q Hq. destruct (valid_coords _ q Hs Hq) as [Hin Hsp].
    specialize (Hc _ _ Hin). rewrite Hsp in Hc. rewrite Hc. simpl.
    destruct (on_border _ _ _ _); (split; [done|]); (split; [done|]); by right.
  - intros x y Hin Hb. rewrite (Hc x y Hin). simpl. rewrite Esx, Esy in Hb.
    by rewrite Hb.
Qed.

Lemma clear_regions s : shape s -> region_inv (clear_game s).
Proof.
  intros Hs. pose proof (clear_game_shape s Hs) as Hs'.
  apply empty_board_regions; [done| |].
  - intros q Hq. rewrite valid_clear_game in Hq. rewrite deref_clear_game by done.
    unfold clear_space. cbn [sp_flags sp_dotx sp_doty].
    destruct ((sp_x (deref s q) =? 0) || _ || _ || _);
      (split; [done|]); (split; [done|]); by left.
  - intros x y Hin Hb.
    change (INGRID (clear_game s) x y) with (INGRID s x y) in Hin.
    change (SPACE (clear_game s) x y) with (SPACE s x y).
    change (gs_sx (clear_game s)) with (gs_sx s) in Hb.
    change (gs_sy (clear_game s)) with (gs_sy s) in Hb.
    rewrite deref_clear_game by (apply SPACE_valid; [apply Hs|done]).
    destruct (shape_cell s Hs x y Hin) as (Ex & Ey & _).
    unfold clear_space. simpl. rewrite Ex, Ey. unfold on_border in Hb. by rewrite Hb.
Qed.

Lemma assoc_with_add_dot s sp d q :
  assoc_with (add_dot s sp) d q <-> assoc_with s d q.
Proof.
  unfold assoc_with. rewrite is_assoc_add_dot.
  destruct (add_dot_fields s sp q) as (_ & _ & _ & -> & ->).
  destruct (add_dot_fields s sp d) as (-> & -> & _). done.
Qed.

Lemma region_sym_add_dot s sp : region_sym s -> region_sym (add_dot s sp).
Proof.
  intros Hsym t Ht Ha. rewrite is_tile_add_dot in Ht. rewrite is_assoc_add_dot in Ha.
  destruct (add_dot_fields s sp t) as (-> & -> & _ & -> & ->).
  change (INGRID (add_dot s sp)) with (INGRID s).
  change (SPACE (add_dot s sp)) with (SPACE s).
  rewrite is_assoc_add_dot.
  destruct (add_dot_fields s sp (SPACE s (2 * sp_dotx (deref s t) - sp_x (deref s t))
                                         (2 * sp_doty (deref s t) - sp_y (deref s t))))
    as (_ & _ & _ & -> & ->).
  by apply Hsym.
Qed.

(** Placing a dot where [dot_is_possible] allows it. *)
Lemma place_regions s sp :
  region_inv s -> valid s sp -> dot_is_possible s sp false = true ->
  exists s' r, solver_obvious_dot (add_dot s sp) sp = Ok (s', r) /\
               region_inv s' /\ is_dot s' sp /\ (r = 0 \/ r = 1).
Proof.
  intros [Hg Hn Hsym] Hv Hp.
  pose proof (place_inv_start s sp Hg Hv Hp) as Hpl.
  assert (Hnb : owned_near_but sp (add_dot s sp)).
  { intros d t Hd Hne Ht Htouch. rewrite is_dot_add_dot in Hd by done.
    destruct Hd as [?|Hd]; [done|]. rewrite is_tile_add_dot in Ht.
    apply assoc_with_add_dot. apply Hn; [done|done|].
    unfold touching in *.
    destruct (add_dot_fields s sp t) as (Ex & Ey & _). rewrite Ex, Ey in Htouch.
    destruct (add_dot_fields s sp d) as (Dx & Dy & _). by rewrite Dx, Dy in Htouch. }
  destruct (solver_obvious_dot_pair _ (add_dot s sp) sp (placing_closed sp)
              (conj Hpl (conj Hnb (region_sym_add_dot s sp Hsym))))
    as (s' & r & Hres & (Hpl' & Hnb' & Hsym') & Hr).
  destruct (place_inv_finish sp _ Hpl) as (s2 & r2 & Hres2 & Hg').
  rewrite Hres in Hres2. injection Hres2 as <- <-.
  exists s', r. split; [done|]. split; [|split; [apply Hpl'|done]].
  split; [done| |done].
  intros d t Hd Ht Htouch. destruct (decide (d = sp)) as [->|Hne].
  - apply (pl_near _ _ Hpl' t Ht Htouch). by apply (inv_surrounded _ Hg' sp t).
  - by apply Hnb'.
Qed.

Lemma obvious_regions s dot s' r :
  region_inv s -> is_dot s dot -> solver_obvious_dot s dot = Ok (s', r) -> region_inv s'.
Proof.
  intros Hi Hd Hres.
  destruct (solver_obvious_dot_pair _ s dot (region_inv_closed dot) (conj Hi Hd))
    as (s1 & r1 & E & [Hi1 _] & _).
  rewrite E in Hres. by injection Hres as <- _.
Qed.

Lemma expand_regions s dot toadd s' r :
  region_inv s -> is_dot s dot -> block_ok s dot toadd ->
  dot_expand_or_move s dot toadd = Ok (s', r) -> region_inv s'.
Proof.
  intros Hi Hd Hblk. pose proof Hd as [Hvd Hfd].
  unfold dot_expand_or_move. rewrite Hfd. cbn [assert bind].
  destruct (expand_check s dot toadd) eqn:Hchk; cbn [negb].
  2:{ by intros [= <- _]. }
  pose proof (expand_loop_pair _ dot toadd s (region_inv_closed dot) (conj Hi Hd) Hblk Hchk)
    as Hmid.
  destruct (solver_obvious_dot_pair _ _ dot (region_inv_closed dot) Hmid)
    as (s1 & r1 & E & [Hi1 _] & Hr).
  rewrite E. cbn [bind snd fst].
  assert (Hr' : negb (r1 =? -1) = true) by (destruct Hr as [-> | ->]; done).
  rewrite Hr'. cbn [assert bind]. by intros [= <- _].
Qed.

(** Every board of the generator has symmetric regions, and every tile
    that touches a dot belongs to it. *)
Lemma gen_reach_regions s : gen_reach s -> region_inv s.
Proof.
  induction 1 as [w h Hw Hh|s Hr IH|s sp s' r _ IH Hv Hp Hres|s dot s' r _ IH Hd Hres
                  |s sp x1 y1 x2 y2 toadd dot s' r _ IH Hv Hnv Hrect Hguard Hcol Hd Hres].
  - by apply blank_regions.
  - apply clear_regions, IH.
  - destruct (place_regions s sp IH Hv Hp) as (s1 & r1 & E & Hi & _).
    rewrite E in Hres. by injection Hres as <- _.
  - by eapply obvious_regions.
  - eapply expand_regions; [exact IH|exact Hd| |exact Hres].
    eapply candidate_block_ok; [apply IH|done..].
Qed.

(** [game_update_dots] does not touch the grid. *)
Lemma region_inv_update s : region_inv s -> region_inv (game_update_dots s).
Proof.
  intros [[[H1 H2 H3 H4] Hn Hf Ha Hfr Hsu] Hnear Hsym].
  split; [split; [split|..]|..].
  - exact H1.
  - exact H2.
  - exact H3.
  - exact H4.
  - exact Hn.
  - exact Hf.
  - exact Ha.
  - exact Hfr.
  - exact Hsu.
  - exact Hnear.
  - exact Hsym.
Qed.



(** ** What the outline pass leaves alone *)

Lemma same_but_edges_refl s : same_but_edges s s.
Proof. by repeat split. Qed.

Lemma same_but_edges_trans s1 s2 s3 :
  same_but_edges s1 s2 -> same_but_edges s2 s3 -> same_but_edges s1 s3.
Proof.
  intros (A1 & A2 & A3 & A4 & A5 & A6 & A7 & A8) (B1 & B2 & B3 & B4 & B5 & B6 & B7 & B8).
  repeat (split; [congruence|]). intros q.
  destruct (A8 q) as (C1 & C2 & C3 & C4 & C5 & C6 & C7).
  destruct (B8 q) as (D1 & D2 & D3 & D4 & D5 & D6 & D7).
  repeat (split; [congruence|]). intros m Hm. by rewrite D7, C7.
Qed.

Lemma same_but_edges_store s q (f : space -> space) :
  (forall c, sp_x (f c) = sp_x c /\ sp_y (f c) = sp_y c /\ sp_type (f c) = sp_type c /\
             sp_dotx (f c) = sp_dotx c /\ sp_doty (f c) = sp_doty c /\
             sp_nassoc (f c) = sp_nassoc c /\
             forall m, m ∈ [F_DOT; F_TILE_ASSOC; F_DOT_BLACK; F_MARK] ->
               has_flag (sp_flags (f c)) m = has_flag (sp_flags c) m) ->
  same_but_edges s (store s q f).
Proof.
  intros Hf. repeat (split; [done|]). split; [apply store_length|]. intros p.
  rewrite (deref_store_keeps s q f p sp_x), (deref_store_keeps s q f p sp_y),
    (deref_store_keeps s q f p sp_type), (deref_store_keeps s q f p sp_dotx),
    (deref_store_keeps s q f p sp_doty), (deref_store_keeps s q f p sp_nassoc)
    by (intros c; apply Hf).
  repeat (split; [done|]). intros m Hm.
  apply (deref_store_keeps s q f p (fun c => has_flag (sp_flags c) m)).
  intros c. by apply Hf.
Qed.

Lemma other_flags m :
  m ∈ [F_DOT; F_TILE_ASSOC; F_DOT_BLACK; F_MARK] ->
  Z.land F_EDGE_SET m = 0 /\ Z.land (4294967295 - F_EDGE_SET) m = m.
Proof.
  rewrite !elem_of_cons, elem_of_nil. intros [->|[->|[->|[->|[]]]]]; by vm_compute.
Qed.

Lemma outline_step_edges t mark s b d :
  same_but_edges s (outline_step t mark (s, b) d).1.
Proof.
  unfold outline_step. cbv zeta.
  destruct (negb (INGRID s _ _)); [apply same_but_edges_refl|].
  destruct (negb _ && negb _).
  { cbn [fst]. destruct mark; [|apply same_but_edges_refl].
    apply same_but_edges_store. intros c. repeat (split; [done|]). intros m Hm.
    apply has_flag_lor_other. by apply other_flags. }
  destruct (_ && _); [|apply same_but_edges_refl].
  cbn [fst]. destruct mark; [|apply same_but_edges_refl].
  apply same_but_edges_store. intros c. repeat (split; [done|]). intros m Hm.
  apply has_flag_clear_other. by apply other_flags.
Qed.

Lemma outline_tile_edges s t mark :
  same_but_edges s (outline_tile_fordot s t mark).1.
Proof.
  unfold outline_tile_fordot.
  apply (foldl_inv (fun acc : game_state * bool => same_but_edges s acc.1)).
  - apply same_but_edges_refl.
  - intros [st b] d _ Hacc. eapply same_but_edges_trans; [exact Hacc|].
    apply outline_step_edges.
Qed.

Lemma outline_all_edges s : same_but_edges s (outline_all s).
Proof.
  unfold outline_all.
  apply (foldl_inv (fun st => same_but_edges s st)).
  - apply same_but_edges_refl.
  - intros st i _ Hacc. destruct (bool_decide _); [|done].
    eapply same_but_edges_trans; [exact Hacc|]. apply outline_tile_edges.
Qed.

(** Without [mark] the board is only read. *)
Lemma outline_step_unmarked t s b d : (outline_step t false (s, b) d).1 = s.
Proof.
  unfold outline_step. cbv zeta.
  destruct (negb (INGRID s _ _)); [done|].
  destruct (negb _ && negb _); [done|]. by destruct (_ && _).
Qed.

Lemma outline_tile_unmarked s t : (outline_tile_fordot s t false).1 = s.
Proof.
  unfold outline_tile_fordot.
  apply (foldl_inv (fun acc : game_state * bool => acc.1 = s)); [done|].
  intros [st b] d _ Hacc. cbn [fst] in Hacc. subst st. apply outline_step_unmarked.
Qed.

Lemma same_but_edges_kinds s st : same_but_edges s st -> kinds st = kinds s.
Proof.
  intros (_ & _ & Esx & Esy & _ & _ & _ & Hq). unfold kinds. rewrite Esx, Esy.
  apply list_fmap_ext. intros _ i _. unfold kind_of.
  destruct (Hq i) as (_ & _ & _ & _ & _ & _ & Hf).
  rewrite (Hf F_DOT), (Hf F_DOT_BLACK); [done| |].
  - rewrite !elem_of_cons. auto.
  - rewrite !elem_of_cons. auto.
Qed.



(** ** The generation pass on a board with dots *)

Lemma same_dims_refl s : same_dims s s.
Proof. by repeat split. Qed.

Lemma same_dims_trans s0 s1 s2 : same_dims s0 s1 -> same_dims s1 s2 -> same_dims s0 s2.
Proof.
  intros (A1 & A2 & A3 & A4 & A5) (B1 & B2 & B3 & B4 & B5). repeat split; congruence.
Qed.

Lemma same_dims_valid s0 s q : shape s0 -> shape s -> same_dims s0 s -> valid s q <-> valid s0 q.
Proof.
  intros H0 H1 (_ & _ & Ex & Ey & _). unfold valid.
  by rewrite (shape_len _ H0), (shape_len _ H1), Ex, Ey.
Qed.

Lemma pair_closed_dims s0 dot P :
  pair_closed dot P -> pair_closed dot (fun s => P s /\ same_dims s0 s).
Proof.
  intros (Hb & H1 & H2). split; [|split].
  - intros s [HP _]. by apply Hb.
  - intros s t o [HP Hd] Ht Hna Hopp Hc. split; [by apply (H1 s t o)|exact Hd].
  - intros s t o [HP Hd] Ht Hna Hopp Hne Ho Hno. split; [by apply (H2 s t o)|exact Hd].
Qed.

Lemma expand_step_dims dot s t : same_dims s (expand_step dot s t).
Proof. unfold expand_step. cbv zeta. destruct (negb _); by repeat split. Qed.

(** [dot_expand_or_move] with a block of the generator fails no
    assertion. *)
Lemma expand_safe s dot toadd :
  region_inv s -> is_dot s dot -> block_ok s dot toadd ->
  exists s' r, dot_expand_or_move s dot toadd = Ok (s', r) /\
               region_inv s' /\ same_dims s s' /\ (r = false -> s' = s).
Proof.
  intros Hi Hd Hblk. pose proof Hd as [Hvd Hfd].
  unfold dot_expand_or_move. rewrite Hfd. cbn [assert bind].
  destruct (expand_check s dot toadd) eqn:Hchk; cbn [negb].
  2:{ exists s, false. split; [done|]. split; [done|]. split; [apply same_dims_refl|done]. }
  pose proof (expand_loop_pair _ dot toadd s
                (pair_closed_dims s dot _ (region_inv_closed dot))
                (conj (conj Hi Hd) (same_dims_refl s)) Hblk Hchk) as Hmid.
  destruct (solver_obvious_dot_pair _ _ dot
              (pair_closed_dims s dot _ (region_inv_closed dot)) Hmid)
    as (s1 & r1 & E & [[Hi1 _] Hd1] & Hr).
  rewrite E. cbn [bind snd fst].
  assert (Hr' : negb (r1 =? -1) = true) by (destruct Hr as [-> | ->]; done).
  rewrite Hr'. cbn [assert bind]. exists s1, true.
  split; [done|]. split; [done|]. split; [done|]. done.
Qed.

(** Placing a dot keeps the size of the board and the dot count. *)
Lemma place_safe s sp :
  region_inv s -> valid s sp -> dot_is_possible s sp false = true ->
  exists s' r, solver_obvious_dot (add_dot s sp) sp = Ok (s', r) /\
               region_inv s' /\ same_dims s s'.
Proof.
  intros Hi Hv Hp. pose proof (inv_shape _ (ri_gen _ Hi)) as Hs.
  destruct (place_regions s sp Hi Hv Hp) as (s' & r & E & Hi' & _).
  destruct (solver_obvious_dot_inv (fun s' => shape s' /\ is_dot s' sp) (add_dot s sp) sp)
    as (s2 & r2 & E2 & _ & Esx & Esy & Ew & Eh & End & _).
  - done.
  - intros s1 t [Hs1 Hd1] Ht Hna. split; [by apply assoc_to_shape|].
    apply is_dot_assoc_to; [apply Ht|apply Hd1|done].
  - split; [by apply add_dot_shape|by apply add_dot_is_dot].
  - rewrite E in E2. injection E2 as <- <-.
    exists s', r. split; [done|]. split; [done|]. unfold same_dims.
    change (gs_w (add_dot s sp)) with (gs_w s) in Ew.
    change (gs_h (add_dot s sp)) with (gs_h s) in Eh.
    change (gs_sx (add_dot s sp)) with (gs_sx s) in Esx.
    change (gs_sy (add_dot s sp)) with (gs_sy s) in Esy.
    change (gs_ndots (add_dot s sp)) with (gs_ndots s) in End. tauto.
Qed.

(** *** The rectangle of a candidate *)

Lemma rem_even x : 0 <= x -> (Z.rem x 2 =? 0) = true -> exists k, 0 <= k /\ x = 2 * k.
Proof.
  intros Hx H. apply Z.eqb_eq in H. rewrite Z.rem_mod_nonneg in H by lia.
  exists (x `div` 2). pose proof (Z.div_mod x 2 ltac:(lia)).
  split; [apply Z.div_pos; lia|lia].
Qed.

Lemma rem_odd x : 0 <= x -> (Z.rem x 2 =? 0) = false -> exists k, 0 <= k /\ x = 1 + 2 * k.
Proof.
  intros Hx H. apply Z.eqb_neq in H. rewrite Z.rem_mod_nonneg in H by lia.
  exists (x `div` 2). pose proof (Z.div_mod x 2 ltac:(lia)).
  pose proof (Z.mod_pos_bound x 2 ltac:(lia)).
  split; [apply Z.div_pos; lia|lia].
Qed.

(** The rectangle of a candidate that is no vertex has odd corners: it is
    a rectangle of tiles. *)
Lemma candidate_rect_odd s sp x1 y1 x2 y2 :
  shape s -> valid s sp -> sp_type (deref s sp) <> s_vertex ->
  candidate_rect (deref s sp) = (x1, y1, x2, y2) ->
  (exists k, x1 = 1 + 2 * k) /\ (exists k, y1 = 1 + 2 * k) /\ x1 <= x2 /\ y1 <= y2.
Proof.
  intros Hs Hv Hnv. destruct (valid_xy s sp Hs Hv) as [Hin Hsp].
  destruct (shape_cell s Hs _ _ Hin) as (_ & _ & Hty). rewrite Hsp in Hty.
  apply INGRID_spec in Hin as [Hx Hy].
  unfold candidate_rect, IS_VERTICAL_EDGE.
  revert Hty Hnv. unfold init_space. cbn [sp_type].
  destruct (Z.rem (sp_x (deref s sp)) 2 =? 0) eqn:Ex,
           (Z.rem (sp_y (deref s sp)) 2 =? 0) eqn:Ey; cbn [negb andb];
    intros Hty Hnv; rewrite Hty; try done.
  - rewrite bool_decide_eq_true_2 by done. intros [= <- <- <- <-].
    apply rem_even in Ex as (kx & ? & Ex); [|lia]. apply rem_odd in Ey as (ky & ? & Ey); [|lia].
    split; [exists (kx - 1); lia|]. split; [by exists ky|]. lia.
  - rewrite bool_decide_eq_true_2 by done. intros [= <- <- <- <-].
    apply rem_odd in Ex as (kx & ? & Ex); [|lia]. apply rem_even in Ey as (ky & ? & Ey); [|lia].
    split; [by exists kx|]. split; [exists (ky - 1); lia|]. lia.
  - rewrite bool_decide_eq_false_2 by done. intros [= <- <- <- <-].
    apply rem_odd in Ex as (kx & ? & Ex); [|lia]. apply rem_odd in Ey as (ky & ? & Ey); [|lia].
    split; [by exists kx|]. split; [by exists ky|]. lia.
Qed.

Lemma range2_odd lo hi v :
  (exists k, lo = 1 + 2 * k) -> v ∈ range2 lo hi -> (exists k, v = 1 + 2 * k) /\ lo <= v < hi.
Proof.
  intros (k & ->) Hv. apply elem_of_range2 in Hv as (j & Hj & -> & Hlt).
  split; [exists (k + j); lia|lia].
Qed.

Lemma block_cells_tiles s x1 y1 x2 y2 c :
  shape s -> (exists k, x1 = 1 + 2 * k) -> (exists k, y1 = 1 + 2 * k) ->
  0 <= x1 -> 0 <= y1 -> x2 < gs_sx s -> y2 < gs_sy s ->
  c ∈ block_cells x1 y1 x2 y2 -> is_tile s (SPACE s c.1 c.2).
Proof.
  intros Hs Ox Oy Hx1 Hy1 Hx2 Hy2 Hc. unfold block_cells in Hc.
  apply list_elem_of_bind in Hc as (y & Hc & Hy).
  apply list_elem_of_fmap in Hc as (x & -> & Hx). cbn [fst snd].
  apply (range2_odd _ _ _ Ox) in Hx as [Hxo Hxr].
  apply (range2_odd _ _ _ Oy) in Hy as [Hyo Hyr].
  apply tile_cell; [done| |done|done]. apply INGRID_spec. lia.
Qed.

Lemma collect_toadd_ok s cells : forall acc,
  (forall c, c ∈ cells -> is_tile s (SPACE s c.1 c.2)) ->
  exists r, collect_toadd s cells acc = Ok r.
Proof.
  induction cells as [|[x y] cells IH]; intros acc Hc; simpl; [by eauto|].
  destruct (Hc (x, y) ltac:(left)) as [_ Hty]. cbn [fst snd] in Hty.
  rewrite bool_decide_eq_true_2 by done. cbn [assert bind].
  destruct (has_flag _ F_TILE_ASSOC); [by eauto|].
  destruct (MAX_TOADD <=? _); [by eauto|].
  apply IH. intros c Hin. apply Hc. by right.
Qed.

Lemma push_outside_tiles s cond p out :
  (cond = true -> is_tile s p) -> Forall (is_tile s) out ->
  Forall (is_tile s) (push_outside cond p out).
Proof.
  intros Hp Hout. unfold push_outside. destruct cond; cbn [andb]; [|done].
  destruct (_ <? _); [|done]. apply Forall_app. split; [done|].
  constructor; [by apply Hp|done].
Qed.

Lemma collect_outside_tiles s x1 y1 x2 y2 :
  shape s -> (exists k, x1 = 1 + 2 * k) -> (exists k, y1 = 1 + 2 * k) ->
  0 <= x1 -> 0 <= y1 -> x2 < gs_sx s -> y2 < gs_sy s -> x1 <= x2 -> y1 <= y2 ->
  (exists k, x2 = 1 + 2 * k) -> (exists k, y2 = 1 + 2 * k) ->
  Forall (is_tile s) (collect_outside s x1 y1 x2 y2).
Proof.
  intros Hs Ox Oy Hx1 Hy1 Hx2 Hy2 Hxx Hyy Ox2 Oy2. unfold collect_outside.
  destruct Oy as (ky & Ey). destruct Ox as (kx & Ex).
  destruct Oy2 as (ky2 & Ey2). destruct Ox2 as (kx2 & Ex2).
  apply (foldl_inv (Forall (is_tile s))).
  - apply (foldl_inv (Forall (is_tile s))); [done|].
    intros out x Hx Hout.
    apply (range2_odd x1 _ _ ltac:(by exists kx)) in Hx as [Hxo Hxr].
    apply push_outside_tiles.
    + intros Hc%Z.leb_le. apply tile_cell; [done| |done|exists (ky2 + 1); lia].
      apply INGRID_spec. lia.
    + apply push_outside_tiles; [|done].
      intros Hc%Z.leb_le. apply tile_cell; [done| |done|exists (ky - 1); lia].
      apply INGRID_spec. lia.
  - intros out y Hy Hout.
    apply (range2_odd y1 _ _ ltac:(by exists ky)) in Hy as [Hyo Hyr].
    apply push_outside_tiles.
    + intros Hc%Z.leb_le. apply tile_cell; [done| |exists (kx2 + 1); lia|done].
      apply INGRID_spec. lia.
    + apply push_outside_tiles; [|done].
      intros Hc%Z.leb_le. apply tile_cell; [done| |exists (kx - 1); lia|done].
      apply INGRID_spec. lia.
Qed.

(** The loop over the outside tiles. *)
Lemma try_outside_safe s maxsz toadd outside :
  region_inv s -> (forall dot, is_dot s dot -> block_ok s dot toadd) ->
  Forall (is_tile s) outside ->
  exists s' r, try_outside s maxsz toadd outside = Ok (s', r) /\
               region_inv s' /\ same_dims s s'.
Proof.
  intros Hi Hblk. pose proof (inv_shape _ (ri_gen _ Hi)) as Hs.
  induction 1 as [|o rest Ho _ IH]; cbn [try_outside].
  { exists s, false. split; [done|]. split; [done|apply same_dims_refl]. }
  destruct (has_flag (sp_flags (deref s o)) F_TILE_ASSOC) eqn:Ha; cbn [negb]; [|exact IH].
  destruct (inv_assoc _ (ri_gen _ Hi) o Ho Ha) as (d & Hd & Ex & Ey).
  destruct (valid_xy s d Hs (proj1 Hd)) as [_ Hsp].
  rewrite Ex, Ey, Hsp.
  destruct (maxsz <=? sp_nassoc (deref s d)); [exact IH|].
  destruct (expand_safe s d toadd Hi Hd (Hblk d Hd)) as (s' & r & -> & Hi' & Hdm & Hr).
  cbn [bind fst snd]. destruct r.
  - exists s', true. done.
  - rewrite (Hr eq_refl). exact IH.
Qed.

Section SafePass.

Variable random_state : Type.
Variable shuffle : forall A : Type, list A -> random_state -> list A * random_state.
Hypothesis shuffle_perm : forall A (l : list A) rs, (shuffle A l rs).1 ≡ₚ l.

(** With a dot count that is not zero, [generate_try_block] fails no
    assertion. *)
Lemma generate_try_block_safe s rs sp x1 y1 x2 y2 :
  region_inv s -> gs_ndots s <> 0 -> valid s sp -> sp_type (deref s sp) <> s_vertex ->
  candidate_rect (deref s sp) = (x1, y1, x2, y2) ->
  exists s' rs' r, generate_try_block random_state shuffle s rs x1 y1 x2 y2
                   = Ok (s', rs', r) /\ region_inv s' /\ same_dims s s'.
Proof.
  intros Hi Hn Hv Hnv Hrect. pose proof (inv_shape _ (ri_gen _ Hi)) as Hs.
  unfold generate_try_block.
  destruct ((x1 <? 0) || (y1 <? 0) || (gs_sx s <=? x2) || (gs_sy s <=? y2)) eqn:Hguard.
  { exists s, rs, false. split; [done|]. split; [done|apply same_dims_refl]. }
  rewrite (proj2 (Z.eqb_neq _ 0) Hn). cbv zeta.
  pose proof Hguard as Hg. rewrite !orb_false_iff, !Z.ltb_ge, !Z.leb_gt in Hg.
  destruct (candidate_rect_odd s sp x1 y1 x2 y2 Hs Hv Hnv Hrect) as (Ox & Oy & Hxx & Hyy).
  assert (Ox2 : exists k, x2 = 1 + 2 * k).
  { destruct (candidate_cells s sp x1 y1 x2 y2 Hnv Hrect)
      as [(E1 & _ & E2 & _)|[(E1 & _ & E2 & _)|(E1 & _ & E2 & _)]];
      destruct Ox as (k & Ek); [exists k|exists (k + 1)|exists k]; lia. }
  assert (Oy2 : exists k, y2 = 1 + 2 * k).
  { destruct (candidate_cells s sp x1 y1 x2 y2 Hnv Hrect)
      as [(_ & E1 & _ & E2 & _)|[(_ & E1 & _ & E2 & _)|(_ & E1 & _ & E2 & _)]];
      destruct Oy as (k & Ek); [exists k|exists k|exists (k + 1)]; lia. }
  destruct (collect_toadd_ok s (block_cells x1 y1 x2 y2) []) as (r & Hcol).
  { intros c Hc. apply (block_cells_tiles s x1 y1 x2 y2); try done; lia. }
  rewrite Hcol. cbn [bind]. destruct r as [toadd|].
  2:{ exists s, rs, false. split; [done|]. split; [done|apply same_dims_refl]. }
  destruct (shuffle ptr (collect_outside s x1 y1 x2 y2) rs) as [outside rs'] eqn:Esh.
  assert (Hout : Forall (is_tile s) outside).
  { pose proof (shuffle_perm ptr (collect_outside s x1 y1 x2 y2) rs) as Hp.
    rewrite Esh in Hp. cbn [fst] in Hp. rewrite Hp.
    apply collect_outside_tiles; try done; lia. }
  destruct (try_outside_safe s (if Z.quot (gs_w s * gs_h s) (gs_ndots s) <? 4 then 4
                                else Z.quot (gs_w s * gs_h s) (gs_ndots s))
              toadd outside Hi) as (s' & r & -> & Hi' & Hd); [|done|].
  { intros dot Hd. apply (candidate_block_ok s sp x1 y1 x2 y2); try done. apply Hi. }
  cbn [bind fst snd]. by exists s', rs', r.
Qed.

Lemma generate_step_safe s0 (scratch : list Z) flags s rs i :
  shape s0 -> region_inv s -> same_dims s0 s -> gs_ndots s0 <> 0 ->
  Forall (valid s0) scratch -> 0 <= i < Z.of_nat (length scratch) ->
  exists s' rs', generate_step random_state shuffle scratch flags (s, rs) i = Ok (s', rs') /\
                 region_inv s' /\ same_dims s0 s'.
Proof.
  intros Hs0 Hi Hd Hn Hscr Hir. pose proof (inv_shape _ (ri_gen _ Hi)) as Hs.
  destruct (lookup_lt_is_Some_2 scratch (Z.to_nat i) ltac:(lia)) as [sp Hsp].
  assert (Hv : valid s sp).
  { apply (same_dims_valid s0 s); [done|done|done|].
    rewrite Forall_forall in Hscr. apply Hscr. by apply list_elem_of_lookup_2 in Hsp. }
  assert (Hn' : gs_ndots s <> 0) by (destruct Hd as (_ & _ & _ & _ & ->); done).
  unfold generate_step. rewrite Hsp. change (default 0 (Some sp)) with sp.
  destruct (candidate_rect (deref s sp)) as [[[x1 y1] x2] y2] eqn:Hrect.
  assert (Htry : exists s1 rs1 r1,
            (if bool_decide (sp_type (deref s sp) ≠ s_vertex)
             then generate_try_block random_state shuffle s rs x1 y1 x2 y2
             else Ok (s, rs, false)) = Ok (s1, rs1, r1) /\
            region_inv s1 /\ same_dims s s1 /\ (r1 = false -> s1 = s)).
  { case_bool_decide as Hnv.
    - destruct (generate_try_block_safe s rs sp x1 y1 x2 y2 Hi Hn' Hv Hnv Hrect)
        as (s1 & rs1 & r1 & E & Hi1 & Hd1).
      exists s1, rs1, r1. split; [done|]. split; [done|]. split; [done|].
      intros ->. revert E. unfold generate_try_block.
      destruct (_ || _); [by intros [= <- _]|].
      rewrite (proj2 (Z.eqb_neq _ 0) Hn'). cbv zeta.
      destruct (collect_toadd _ _ _) as [[toadd|]|]; cbn [bind]; [|by intros [= <- _]|done].
      destruct (shuffle ptr _ rs) as [outside rs2].
      generalize (if Z.quot (gs_w s * gs_h s) (gs_ndots s) <? 4 then 4
                  else Z.quot (gs_w s * gs_h s) (gs_ndots s)). intros maxsz.
      assert (G : forall s2 r2, try_outside s maxsz toadd outside = Ok (s2, r2) ->
                                r2 = false -> s2 = s).
      { clear. induction outside as [|o rest IH]; cbn [try_outside]; intros s2 r2.
        - by intros [= <- _].
        - destruct (negb _); [apply IH|]. destruct (_ <=? _); [apply IH|].
          destruct (dot_expand_or_move s _ toadd) as [[s3 r3]|] eqn:E; [|done].
          cbn [bind fst snd]. destruct r3; [by intros [= _ <-]|].
          assert (s3 = s) as ->; [|apply IH].
          revert E. unfold dot_expand_or_move.
          destruct (assert _); [|done]. cbn [bind].
          destruct (negb _); [intros Heq; by injection Heq|].
          destruct (solver_obvious_dot _ _) as [[s4 r4]|]; [|done]. cbn [bind].
          destruct (assert _); [|done]. cbn [bind]. intros Heq. discriminate Heq. }
      destruct (try_outside s maxsz toadd outside) as [[s2 r2]|] eqn:Eo; [|done].
      cbn [bind fst snd]. intros Heq. injection Heq as E1 E2 E3. subst s1.
      by apply (G s2 r2).
    - exists s, rs, false. split; [done|]. split; [done|]. split; [apply same_dims_refl|done]. }
  destruct Htry as (s1 & rs1 & r1 & -> & Hi1 & Hd1 & Hr1). cbn [bind].
  assert (Hd01 : same_dims s0 s1) by by eapply same_dims_trans.
  destruct r1.
  { by exists s1, rs1. }
  rewrite (Hr1 eq_refl) in *.
  destruct (negb (has_flag flags GP_DOTS)); [by exists s, rs1|].
  destruct (bool_decide (sp_type (deref s sp) = s_edge) && negb (Z.rem i 2 =? 0));
    [by exists s, rs1|].
  destruct (dot_is_possible s sp false) eqn:Hp; [|by exists s, rs1].
  destruct (place_safe s sp Hi Hv Hp) as (s' & r & -> & Hi' & Hd').
  cbn [bind fst]. exists s', rs1. split; [done|]. split; [done|].
  by eapply same_dims_trans.
Qed.

(** With a dot count that is not zero the pass fails no assertion and
    keeps the regions. *)
Lemma generate_pass_safe s rs (scratch : list Z) perc flags :
  region_inv s -> gs_ndots s <> 0 -> Forall (valid s) scratch ->
  Z.quot (perc * (gs_sx s * gs_sy s)) 100 <= Z.of_nat (length scratch) ->
  exists s' rs', generate_pass random_state shuffle s rs scratch perc flags = Ok (s', rs') /\
                 region_inv s' /\ same_dims s s'.
Proof.
  intros Hi Hn Hscr Hperc. pose proof (inv_shape _ (ri_gen _ Hi)) as Hs.
  unfold generate_pass. cbv zeta.
  destruct (shuffle Z scratch rs) as [scratch' rs'] eqn:Esh.
  pose proof (shuffle_perm Z scratch rs) as Hp. rewrite Esh in Hp. cbn [fst] in Hp.
  assert (Hscr' : Forall (valid s) scratch') by by rewrite Hp.
  assert (Hlen : length scratch' = length scratch) by by rewrite Hp.
  destruct (fold_res_inv (fun acc : game_state * random_state =>
                            region_inv acc.1 /\ same_dims s acc.1)
              (generate_step random_state shuffle scratch' flags)
              (seqZ 0 (Z.quot (perc * (gs_sx s * gs_sy s)) 100)) (s, rs'))
    as ([s' rs''] & E & Hi' & Hd').
  - split; [done|apply same_dims_refl].
  - intros [s1 rs1] i Hin [Hi1 Hd1]. apply elem_of_seqZ in Hin.
    destruct (generate_step_safe s scratch' flags s1 rs1 i Hs Hi1 Hd1 Hn Hscr'
                ltac:(lia)) as (s2 & rs2 & E2 & Hi2 & Hd2).
    by exists (s2, rs2).
  - by exists s', rs''.
Qed.

End SafePass.



(** ** Boards without tiles *)

(** No dot can be placed on an edge-set cell. *)
Lemma dot_is_possible_edge_set s sp allow :
  shape s -> valid s sp -> has_flag (sp_flags (deref s sp)) F_EDGE_SET = true ->
  dot_is_possible s sp allow = false.
Proof.
  intros Hs Hv He. destruct (valid_xy s sp Hs Hv) as [Hin Hsp].
  destruct (dot_is_possible s sp allow) eqn:E; [|done]. exfalso.
  revert E. unfold dot_is_possible.
  set (bb := match sp_type (deref s sp) with
             | s_tile => (1, 1)
             | s_edge => if IS_VERTICAL_EDGE (sp_x (deref s sp)) then (2, 1) else (1, 2)
             | s_vertex => (2, 2)
             end).
  assert (Hbb : 1 <= bb.1 /\ 1 <= bb.2).
  { unfold bb. destruct (sp_type _); [done| |done]. by destruct (IS_VERTICAL_EDGE _). }
  destruct bb as [bx by_]. cbn [fst snd] in Hbb. intros E.
  apply (forallb_seqZ _ _ _ 0) in E; [|lia].
  apply (forallb_seqZ _ _ _ 0) in E; [|lia].
  rewrite !Z.add_0_r, Hin, Hsp, He in E. cbn [negb] in E.
  destruct (negb allow && has_flag (sp_flags (deref s sp)) F_TILE_ASSOC); [done|].
  change ((negb (0 =? 0) || negb (0 =? 0))) with false in E. cbn [andb] in E.
  change (Z.abs 0) with 0 in E.
  destruct (Z.ltb_spec 0 bx); [|lia]. destruct (Z.ltb_spec 0 by_); [|lia]. done.
Qed.

Lemma fold_res_fixed {A B} (f : A -> B -> result A) l a :
  (forall b, b ∈ l -> f a b = Ok a) -> fold_res f l a = Ok a.
Proof.
  induction l as [|b l IH]; intros H; simpl; [done|].
  rewrite (H b) by left. cbn [bind]. apply IH. intros b' Hb'. apply H. by right.
Qed.

(** The cells of a cleared board without tiles: every cell lies on the
    border. *)
Lemma thin_board_cell w h q :
  0 <= w -> 0 <= h -> w = 0 \/ h = 0 -> valid (clear_game (blank_game w h)) q ->
  let c := deref (clear_game (blank_game w h)) q in
  sp_flags c = F_EDGE_SET /\ sp_dotx c = -1 /\
  0 <= sp_x c < 2 * w + 1 /\ 0 <= sp_y c < 2 * h + 1 /\
  (w = 0 -> sp_x c = 0) /\ (h = 0 -> sp_y c = 0) /\
  sp_type c = sp_type (init_space (sp_x c) (sp_y c)).
Proof.
  intros Hw Hh Hthin Hv c.
  pose proof (blank_game_shape w h Hw Hh) as Hs.
  pose proof (clear_game_shape _ Hs) as Hs'.
  destruct (blank_game_dims w h) as (_ & _ & Esx & Esy & _ & _).
  destruct (valid_xy _ q Hs' Hv) as [Hin Hsp]. fold c in Hin, Hsp.
  pose proof Hin as Hin2. apply INGRID_spec in Hin2.
  change (gs_sx (clear_game (blank_game w h))) with (gs_sx (blank_game w h)) in Hin2.
  change (gs_sy (clear_game (blank_game w h))) with (gs_sy (blank_game w h)) in Hin2.
  rewrite Esx, Esy in Hin2.
  destruct (shape_cell _ Hs' _ _ Hin) as (_ & _ & Hty). rewrite Hsp in Hty. fold c in Hty.
  assert (Hc : c = clear_space (gs_sx (blank_game w h)) (gs_sy (blank_game w h))
                     (deref (blank_game w h) q)).
  { unfold c. apply deref_clear_game. by apply (proj1 (valid_clear_game _ _)). }
  assert (Hfl : sp_flags c = F_EDGE_SET /\ sp_dotx c = -1).
  { assert (Hx : sp_x (deref (blank_game w h) q) = sp_x c) by (rewrite Hc; reflexivity).
    assert (Hy : sp_y (deref (blank_game w h) q) = sp_y c) by (rewrite Hc; reflexivity).
    rewrite Hc. unfold clear_space. cbn [sp_flags sp_dotx]. rewrite Hx, Hy, Esx, Esy.
    split; [|done].
    destruct Hthin as [-> | ->].
    - assert (sp_x c = 0) as -> by lia. done.
    - assert (sp_y c = 0) as -> by lia. by rewrite orb_true_r. }
  destruct Hfl as [Hf Hd]. repeat split; try done; try lia.
Qed.

Section Thin.

Variable random_state : Type.
Variable shuffle : forall A : Type, list A -> random_state -> list A * random_state.

(** On such a board a turn of the pass changes nothing: the rectangle of
    an edge leaves the grid and no dot can be placed on the border. *)
Lemma thin_step w h (scratch : list Z) flags rs i :
  0 <= w -> 0 <= h -> w = 0 \/ h = 0 ->
  Forall (valid (clear_game (blank_game w h))) scratch ->
  generate_step random_state shuffle scratch flags (clear_game (blank_game w h), rs) i
  = Ok (clear_game (blank_game w h), rs).
Proof.
  intros Hw Hh Hthin Hscr. set (s0 := clear_game (blank_game w h)).
  pose proof (clear_game_shape _ (blank_game_shape w h Hw Hh)) as Hs. fold s0 in Hs.
  unfold generate_step.
  set (sp := default 0 (scratch !! Z.to_nat i)).
  assert (Hv : valid s0 sp).
  { unfold sp. destruct (scratch !! Z.to_nat i) as [q|] eqn:E; [|by apply valid_0].
    rewrite Forall_forall in Hscr. apply Hscr. by apply list_elem_of_lookup_2 in E. }
  destruct (thin_board_cell w h sp Hw Hh Hthin Hv) as (Hf & _ & Hx & Hy & Hx0 & Hy0 & Hty).
  fold s0 in Hf, Hx, Hy, Hx0, Hy0, Hty.
  destruct (blank_game_dims w h) as (_ & _ & Esx & Esy & _ & _).
  assert (Htry : (let '(x1, y1, x2, y2) := candidate_rect (deref s0 sp) in
                  if bool_decide (sp_type (deref s0 sp) ≠ s_vertex)
                  then generate_try_block random_state shuffle s0 rs x1 y1 x2 y2
                  else Ok (s0, rs, false)) = Ok (s0, rs, false)).
  { unfold candidate_rect, IS_VERTICAL_EDGE.
    destruct (sp_type (deref s0 sp)) eqn:Et.
    - exfalso. revert Hty. unfold init_space. cbn [sp_type].
      destruct Hthin as [E|E].
      + rewrite (Hx0 E). simpl. by destruct (Z.rem _ 2 =? 0).
      + rewrite (Hy0 E). simpl. by destruct (Z.rem _ 2 =? 0).
    - rewrite bool_decide_eq_true_2, bool_decide_eq_true_2 by done.
      destruct (Z.rem (sp_x (deref s0 sp)) 2 =? 0) eqn:Ex.
      + rewrite generate_try_block_no_dots by done.
        replace (sp_x (deref s0 sp) - 1 <? 0) with true; [done|].
        symmetry. apply Z.ltb_lt.
        destruct Hthin as [E|E]; [rewrite (Hx0 E); lia|].
        exfalso. revert Hty. unfold init_space. cbn [sp_type].
        rewrite (Hy0 E), Ex. done.
      + rewrite generate_try_block_no_dots by done.
        replace (sp_y (deref s0 sp) - 1 <? 0) with true; [by rewrite orb_true_r|].
        symmetry. apply Z.ltb_lt.
        destruct Hthin as [E|E]; [|rewrite (Hy0 E); lia].
        rewrite (Hx0 E) in Ex. done.
    - rewrite bool_decide_eq_false_2 by done.
      by rewrite bool_decide_eq_false_2 by (intros H; by apply H). }
  destruct (candidate_rect (deref s0 sp)) as [[[x1 y1] x2] y2].
  rewrite Htry. cbn [bind].
  destruct (negb (has_flag flags GP_DOTS)); [done|].
  destruct (_ && _); [done|].
  rewrite dot_is_possible_edge_set; [done|done|done|]. by rewrite Hf.
Qed.

Hypothesis shuffle_perm : forall A (l : list A) rs, (shuffle A l rs).1 ≡ₚ l.

(** [generate_new_game] on a board without tiles returns the cleared
    board. *)
Lemma generate_new_game_thin w h rs :
  0 <= w -> 0 <= h -> w = 0 \/ h = 0 ->
  generate_new_game random_state shuffle w h rs
  = Ok (clear_game (blank_game w h),
        (shuffle Z (seqZ 0 ((2 * w + 1) * (2 * h + 1))) rs).2).
Proof.
  intros Hw Hh Hthin. set (s0 := clear_game (blank_game w h)).
  pose proof (clear_game_shape _ (blank_game_shape w h Hw Hh)) as Hs. fold s0 in Hs.
  destruct (blank_game_dims w h) as (_ & _ & Esx & Esy & _ & _).
  unfold generate_new_game. cbv zeta. fold s0. rewrite Esx, Esy.
  unfold generate_pass. cbv zeta.
  pose proof (shuffle_perm Z (seqZ 0 ((2 * w + 1) * (2 * h + 1))) rs) as Hp.
  destruct (shuffle Z (seqZ 0 ((2 * w + 1) * (2 * h + 1))) rs) as [scratch rs'].
  cbn [fst snd] in *.
  assert (Hscr : Forall (valid s0) scratch).
  { rewrite Hp. apply Forall_forall. intros q Hq. apply valid_seq; [done|].
    change (gs_sx s0) with (gs_sx (blank_game w h)).
    change (gs_sy s0) with (gs_sy (blank_game w h)). by rewrite Esx, Esy. }
  rewrite fold_res_fixed by (intros i _; by apply thin_step).
  cbn [bind fst snd].
  assert (Hnd : game_update_dots s0 = s0).
  { unfold game_update_dots.
    rewrite (filter_ext_elem _ (fun _ => False)).
    - by rewrite filter_False.
    - intros q Hq. apply valid_seq in Hq; [|done].
      destruct (thin_board_cell w h q Hw Hh Hthin Hq) as (Hf & _).
      fold s0 in Hf. rewrite Hf. done. }
  rewrite Hnd. do 2 f_equal. unfold outline_all.
  apply (foldl_inv (fun st => st = s0)); [done|].
  intros st q Hq ->. apply valid_seq in Hq; [|done].
  rewrite bool_decide_eq_false_2; [done|].
  destruct (thin_board_cell w h q Hw Hh Hthin Hq) as (_ & _ & _ & _ & Hx0 & Hy0 & Hty).
  fold s0 in Hx0, Hy0, Hty. rewrite Hty. unfold init_space. cbn [sp_type].
  destruct Hthin as [E|E].
  - rewrite (Hx0 E). simpl. by destruct (Z.rem _ 2 =? 0).
  - rewrite (Hy0 E). simpl. by destruct (Z.rem _ 2 =? 0).
Qed.

End Thin.



(** ** Saturated boards: no dot can take a free tile *)

Lemma owned_by_other_assoc_to_ne dot t s q d :
  valid s t -> valid s dot -> 0 <= q -> t <> q ->
  owned_by_other (assoc_to dot t s) q d = owned_by_other s q d.
Proof.
  intros Ht Hd Hq Hne. unfold owned_by_other.
  destruct (xy_assoc_to dot t s d) as (-> & -> & _).
  rewrite flags_assoc_to by done.
  pose proof (record_assoc_to dot t s q Ht Hd Hq) as Hr.
  destruct (decide (t = q)) as [?|_]; [done|]. by injection Hr as -> ->.
Qed.

Lemma space_opposite_dot_nonneg s q d o : space_opposite_dot s q d = Some o -> 0 <= o.
Proof.
  unfold space_opposite_dot. destruct (INGRID s _ _) eqn:Hin; simpl; [|done].
  intros [= <-]. by apply SPACE_nonneg.
Qed.

(** A tile that was passed by stays passed by when another free tile is
    given to a dot. *)
Lemma blocked_assoc_to dot t s d q :
  valid s dot -> is_tile s t -> ~ is_assoc s t -> 0 <= q -> t <> q ->
  blocked s d q -> blocked (assoc_to dot t s) d q.
Proof.
  intros Hvdot Ht Hna Hq Hne [Hnq Hcase]. split.
  - rewrite is_assoc_assoc_to; [|apply Ht|done|done]. by intros [?|?].
  - rewrite space_opposite_dot_assoc_to. destruct Hcase as [?|(o & Ho & Hown)]; [by left|].
    right. exists o. split; [done|].
    rewrite owned_by_other_assoc_to_ne; [done|apply Ht|done| |].
    + by apply (space_opposite_dot_nonneg s q d).
    + intros ->. apply owned_by_other_spec in Hown as [Ha _]. done.
Qed.

Lemma saturated_but_step sp dot t s :
  shape s -> is_dot s dot -> is_tile s t -> ~ is_assoc s t ->
  saturated_but sp s -> saturated_but sp (assoc_to dot t s).
Proof.
  intros Hs Hd Ht Hna Hsat d q Hdq Hne Hq Hnq.
  rewrite is_dot_assoc_to in Hdq by (apply Ht || apply Hd).
  rewrite is_tile_assoc_to in Hq.
  rewrite is_assoc_assoc_to in Hnq; [|apply Ht|apply Hd|apply Hq].
  apply blocked_assoc_to; [apply Hd|done|done|apply Hq|tauto|].
  apply Hsat; try done. tauto.
Qed.

Lemma saturated_all s : saturated s <-> forall sp, saturated_but sp s.
Proof.
  split.
  - intros H sp d t Hd _. by apply H.
  - intros H d t Hd. apply (H (d + 1)); [done|lia].
Qed.

Lemma saturated_closed sp dot :
  step_closed dot (fun s => shape s /\ is_dot s dot /\ saturated_but sp s).
Proof.
  split.
  - intros s (Hs & Hd & _). done.
  - intros s t (Hs & Hd & Hsat) Ht Hna. split; [by apply assoc_to_shape|]. split.
    + apply is_dot_assoc_to; [apply Ht|apply Hd|done].
    + by apply saturated_but_step.
Qed.

Lemma obvious_saturated_but sp s dot s' r :
  shape s -> is_dot s dot -> saturated_but sp s ->
  solver_obvious_dot s dot = Ok (s', r) -> saturated_but sp s'.
Proof.
  intros Hs Hd Hsat Hres. destruct (saturated_closed sp dot) as [Hb Hst].
  destruct (solver_obvious_dot_inv _ s dot Hb Hst) as (s1 & r1 & E & (_ & _ & H1) & _);
    [done|].
  rewrite E in Hres. by injection Hres as <- _.
Qed.

Lemma expand_saturated_but sp s dot toadd s' r :
  shape s -> is_dot s dot -> saturated_but sp s -> block_ok s dot toadd ->
  dot_expand_or_move s dot toadd = Ok (s', r) -> saturated_but sp s'.
Proof.
  intros Hs Hd Hsat Hblk. pose proof Hd as [Hvd Hfd].
  unfold dot_expand_or_move. rewrite Hfd. cbn [assert bind].
  destruct (expand_check s dot toadd) eqn:Hchk; cbn [negb].
  2:{ by intros [= <- _]. }
  destruct (expand_loop _ dot toadd s (saturated_closed sp dot)
              (conj Hs (conj Hd Hsat)) Hblk Hchk) as (Hmid & _).
  destruct (saturated_closed sp dot) as [Hb Hst].
  destruct (solver_obvious_dot_inv _ _ dot Hb Hst Hmid)
    as (s1 & r1 & E & (_ & _ & H1) & _ & _ & _ & _ & _ & Hr).
  rewrite E. cbn [bind snd fst].
  assert (Hr' : negb (r1 =? -1) = true) by (destruct Hr as [-> | ->]; done).
  rewrite Hr'. cbn [assert bind]. by intros [= <- _].
Qed.

(** At the end of [solver_obvious_dot] every tile is associated or cannot
    join the dot. *)
Lemma solver_obvious_dot_blocks s dot s' r :
  shape s -> is_dot s dot -> solver_obvious_dot s dot = Ok (s', r) ->
  forall t, is_tile s' t -> ~ is_assoc s' t -> blocked s' dot t.
Proof.
  intros Hs Hd. pose proof Hd as [Hvd Hfd]. unfold solver_obvious_dot.
  rewrite Hfd. simpl.
  set (I := fun acc : game_state * Z =>
              shape acc.1 /\ is_dot acc.1 dot /\
              gs_sx acc.1 = gs_sx s /\ gs_sy acc.1 = gs_sy s /\
              forall q, is_tile acc.1 q <-> is_tile s q).
  set (R := fun (c : Z * Z) (acc : game_state * Z) =>
              INGRID s c.1 c.2 = true ->
              is_assoc acc.1 (SPACE s c.1 c.2) \/ blocked acc.1 dot (SPACE s c.1 c.2)).
  assert (Hmono : forall t (c : Z * Z) (st : game_state) r1 r2,
            I (st, r1) -> is_tile st t -> ~ is_assoc st t ->
            R c (st, r1) -> R c (assoc_to dot t st, r2)).
  { intros t c st r1 r2 (Hst & Hdst & E1 & E2 & Htl) Ht Hna HR Hc. cbn [fst] in *.
    destruct (HR Hc) as [Ha|Hb].
    - left. apply is_assoc_assoc_to; [apply Ht|apply Hdst|by apply SPACE_nonneg|by right].
    - destruct (decide (t = SPACE s c.1 c.2)) as [E|Hne].
      + left. apply is_assoc_assoc_to; [apply Ht|apply Hdst|by apply SPACE_nonneg|by left].
      + right. apply blocked_assoc_to; try done; [apply Hdst|by apply SPACE_nonneg]. }
  assert (HI : forall t (st : game_state) r1 r2,
            I (st, r1) -> is_tile st t -> I (assoc_to dot t st, r2)).
  { intros t st r1 r2 (Hst & Hdst & E1 & E2 & Htl) Ht. unfold I. cbn [fst] in *.
    destruct (assoc_to_dims dot t st) as (X1 & X2 & _).
    split; [by apply assoc_to_shape|]. split.
    { apply is_dot_assoc_to; [apply Ht|apply Hdst|done]. }
    split; [congruence|]. split; [congruence|].
    intros q. by rewrite is_tile_assoc_to. }
  assert (Hinner : forall x acc, x ∈ range2 1 (gs_sx s) -> I acc ->
            exists acc', fold_res (fun acc y => obvious_step dot acc x y)
                                  (range2 1 (gs_sy s)) acc = Ok acc' /\ I acc' /\
              (forall y, y ∈ range2 1 (gs_sy s) -> R (x, y) acc') /\
              forall c, R c acc -> R c acc').
  { intros x acc Hx Hacc.
    destruct (fold_res_each I (fun y => R (x, y)) R
                (fun acc y => obvious_step dot acc x y)
                (range2 1 (gs_sy s)) acc Hacc) as (acc' & E & HI' & HR' & _ & HS').
    2:{ exists acc'. done. }
    clear acc Hacc. intros [s1 r1] y Hy HI1.
    pose proof HI1 as (Hs1 & Hd1 & Esx & Esy & Htl). cbn [fst snd] in *.
    pose proof Hd1 as [Hvd1 _].
    apply elem_of_range2 in Hx as (kx & ? & -> & ?).
    apply elem_of_range2 in Hy as (ky & ? & -> & ?).
    assert (Hin : INGRID s1 (1 + 2 * kx) (1 + 2 * ky) = true).
    { apply INGRID_spec. lia. }
    assert (Ht : is_tile s1 (SPACE s1 (1 + 2 * kx) (1 + 2 * ky))).
    { apply tile_cell; eauto. }
    assert (Esp : forall a b, SPACE s a b = SPACE s1 a b).
    { intros a b. unfold SPACE. by rewrite Esx. }
    destruct (obvious_step_cases s1 r1 dot _ _ Hs1 Hvd1 Ht)
      as [[-> Hblk]|[(Hna & o & _ & _ & _ & ->)|(Hna & o & _ & Hne & Ho & Hno & ->)]].
    - eexists. split; [done|]. split; [done|]. split; [|done].
      intros _. cbn [fst snd]. rewrite Esp.
      destruct (decide (is_assoc s1 (SPACE s1 (1 + 2 * kx) (1 + 2 * ky)))) as [Ha|Hna];
        [by left|].
      right. split; [done|]. destruct Hblk as [?|?]; [done|done].
    - eexists. split; [done|]. split; [by apply (HI _ _ r1)|]. split.
      + intros _. left. cbn [fst snd]. rewrite Esp.
        apply is_assoc_assoc_to; [apply Ht|done| |by left]. by apply SPACE_nonneg.
      + assert (Hk : forall c, R c (s1, r1) ->
                       R c (assoc_to dot (SPACE s1 (1 + 2 * kx) (1 + 2 * ky)) s1, 1)).
        { intros c HR. by apply (Hmono _ _ _ r1). }
        split; [intros y'; apply Hk|apply Hk].
    - set (t := SPACE s1 (1 + 2 * kx) (1 + 2 * ky)) in *.
      assert (HI2 : I (assoc_to dot t s1, r1)) by by apply (HI _ _ r1).
      assert (Ho1 : is_tile (assoc_to dot t s1) o) by by apply is_tile_assoc_to.
      assert (Hno1 : ~ is_assoc (assoc_to dot t s1) o).
      { rewrite is_assoc_assoc_to; [|apply Ht|done|apply Ho].
        intros [E|E]; [by apply Hne|done]. }
      eexists. split; [done|]. split; [by apply (HI _ _ r1)|]. split.
      + intros _. left. cbn [fst snd]. rewrite Esp. fold t.
        assert (Hvo : valid (assoc_to dot t s1) o) by apply Ho1.
        assert (Hvd2 : valid (assoc_to dot t s1) dot) by by apply valid_assoc_to.
        apply is_assoc_assoc_to; [done|done|apply Ht|]. right.
        apply is_assoc_assoc_to; [apply Ht|done|apply Ht|by left].
      + assert (Hk : forall c, R c (s1, r1) ->
                       R c (assoc_to dot o (assoc_to dot t s1), 1)).
        { intros c HR. apply (Hmono _ _ _ r1); [done|done|done|].
          by apply (Hmono _ _ _ r1). }
        split; [intros y'; apply Hk|apply Hk]. }
  destruct (fold_res_each I (fun x acc => forall y, y ∈ range2 1 (gs_sy s) -> R (x, y) acc)
              R
              (fun acc x => fold_res (fun acc y => obvious_step dot acc x y)
                                     (range2 1 (gs_sy s)) acc)
              (range2 1 (gs_sx s)) (s, 0)) as ([s1 r1] & Hres & HI1 & HR & _).
  - unfold I. cbn [fst]. done.
  - intros acc x Hx Hacc. destruct (Hinner x acc Hx Hacc) as (acc' & E & HI' & HR' & Hkeep).
    exists acc'. split; [done|]. split; [done|]. split; [done|]. split; [|done].
    intros x' Hx' y Hy. by apply Hkeep, Hx'.
  - rewrite Hres. intros [= <- <-]. destruct HI1 as (Hs1 & Hd1 & Esx & Esy & Htl).
    cbn [fst] in *. intros t Ht Hna. apply Htl in Ht.
    destruct (tile_odd s t Hs Ht) as [[kx Hx] [ky Hy]].
    destruct (valid_xy s t Hs (proj1 Ht)) as [Hin Hsp].
    pose proof Hin as Hin'. apply INGRID_spec in Hin'.
    specialize (HR (sp_x (deref s t))). rewrite elem_of_range2 in HR.
    specialize (HR ltac:(exists kx; lia) (sp_y (deref s t))). rewrite elem_of_range2 in HR.
    specialize (HR ltac:(exists ky; lia) Hin). cbn [fst snd] in HR.
    rewrite Hsp in HR. by destruct HR.
Qed.

(** *** The boards of the generator are saturated *)

Lemma blocked_add_dot s sp d t : blocked (add_dot s sp) d t <-> blocked s d t.
Proof.
  unfold blocked, space_opposite_dot, owned_by_other.
  rewrite is_assoc_add_dot.
  destruct (add_dot_fields s sp t) as (-> & -> & _).
  destruct (add_dot_fields s sp d) as (-> & -> & _).
  change (INGRID (add_dot s sp)) with (INGRID s).
  change (SPACE (add_dot s sp)) with (SPACE s).
  assert (E : forall o,
            has_flag (sp_flags (deref (add_dot s sp) o)) F_TILE_ASSOC
            && (negb (sp_dotx (deref (add_dot s sp) o) =? sp_x (deref s d))
                || negb (sp_doty (deref (add_dot s sp) o) =? sp_y (deref s d)))
            = has_flag (sp_flags (deref s o)) F_TILE_ASSOC
              && (negb (sp_dotx (deref s o) =? sp_x (deref s d))
                  || negb (sp_doty (deref s o) =? sp_y (deref s d)))).
  { intros o. rewrite add_dot_flags by done.
    by destruct (add_dot_fields s sp o) as (_ & _ & _ & -> & ->). }
  split; intros [Hna Hc]; (split; [done|]); (destruct Hc as [?|(o & Ho & Hown)]; [by left|]);
    right; exists o; (split; [done|]); [by rewrite <- E|by rewrite E].
Qed.

Lemma no_dot_saturated s :
  (forall q, valid s q -> has_flag (sp_flags (deref s q)) F_DOT = false) -> saturated s.
Proof. intros Hno d t [Hv Hf]. rewrite (Hno d Hv) in Hf. done. Qed.

Lemma blank_saturated w h : 0 <= w -> 0 <= h -> saturated (blank_game w h).
Proof.
  intros Hw Hh. pose proof (blank_game_shape w h Hw Hh) as Hs.
  destruct (blank_game_dims w h) as (_ & _ & Esx & Esy & _ & _).
  apply no_dot_saturated. intros q Hq.
  destruct (valid_coords _ q Hs Hq) as [Hin Hsp].
  pose proof Hin as Hin'. apply INGRID_spec in Hin'. rewrite Esx, Esy in Hin'.
  assert (Hc : deref (blank_game w h) q
               = mkSpace (q `mod` gs_sx (blank_game w h)) (q `div` gs_sx (blank_game w h))
                   (sp_type (init_space (q `mod` gs_sx (blank_game w h))
                                        (q `div` gs_sx (blank_game w h))))
                   (if on_border (2 * w + 1) (2 * h + 1)
                         (q `mod` gs_sx (blank_game w h)) (q `div` gs_sx (blank_game w h))
                    then F_EDGE_SET else 0) 0 0 0).
  { rewrite <- Hsp at 1. unfold SPACE. rewrite Esx. apply blank_game_cell; lia. }
  rewrite Hc. simpl. by destruct (on_border _ _ _ _).
Qed.

Lemma clear_saturated s : saturated (clear_game s).
Proof.
  apply no_dot_saturated. intros q Hq. rewrite valid_clear_game in Hq.
  rewrite deref_clear_game by done. unfold clear_space. cbn [sp_flags].
  by destruct ((sp_x (deref s q) =? 0) || _ || _ || _).
Qed.

Lemma place_saturated s sp s' r :
  shape s -> saturated s -> valid s sp ->
  solver_obvious_dot (add_dot s sp) sp = Ok (s', r) -> saturated s'.
Proof.
  intros Hs Hsat Hv Hres.
  pose proof (add_dot_shape s sp Hs) as Hs1.
  pose proof (add_dot_is_dot s sp Hv) as Hd1.
  assert (Hsb : saturated_but sp (add_dot s sp)).
  { intros d t Hd Hne Ht Hna. rewrite is_dot_add_dot in Hd by done.
    destruct Hd as [?|Hd]; [done|]. rewrite is_tile_add_dot in Ht.
    rewrite is_assoc_add_dot in Hna. apply blocked_add_dot. by apply Hsat. }
  pose proof (obvious_saturated_but sp _ sp s' r Hs1 Hd1 Hsb Hres) as Hsb'.
  pose proof (solver_obvious_dot_blocks _ sp s' r Hs1 Hd1 Hres) as Hnew.
  intros d t Hd Ht Hna. destruct (decide (d = sp)) as [->|Hne].
  - by apply Hnew.
  - by apply Hsb'.
Qed.

(** On every board of the generator, no dot can take a free tile. *)
Lemma gen_reach_saturated s : gen_reach s -> saturated s.
Proof.
  induction 1 as [w h Hw Hh|s Hr IH|s sp s' r Hr IH Hv Hp Hres|s dot s' r Hr IH Hd Hres
                  |s sp x1 y1 x2 y2 toadd dot s' r Hr IH Hv Hnv Hrect Hguard Hcol Hd Hres].
  - by apply blank_saturated.
  - apply clear_saturated.
  - eapply place_saturated; [|exact IH|exact Hv|exact Hres].
    apply (inv_shape _ (gen_reach_inv _ Hr)).
  - apply saturated_all. intros sp0.
    eapply obvious_saturated_but; [|exact Hd| |exact Hres].
    + apply (inv_shape _ (gen_reach_inv _ Hr)).
    + by apply saturated_all.
  - apply saturated_all. intros sp0.
    eapply expand_saturated_but; [|exact Hd| | |exact Hres].
    + apply (inv_shape _ (gen_reach_inv _ Hr)).
    + by apply saturated_all.
    + eapply candidate_block_ok; [apply (gen_reach_inv _ Hr)|done..].
Qed.

(** A tile that was passed by is rejected by [dot_expand_or_move]. *)
Lemma blocked_rejects s dot t : blocked s dot t -> rejects s dot t.
Proof.
  intros [_ Hc]. apply expand_check_tile.
  destruct Hc as [->|(o & -> & ->)]; done.
Qed.




(** ** The generator never expands a region *)

Lemma saturated_update s : saturated s -> saturated (game_update_dots s).
Proof. intros Hsat d t Hd Ht Hna. exact (Hsat d t Hd Ht Hna). Qed.

(** On a saturated board a block that holds a free tile is rejected. *)
Lemma expand_rejected s dot toadd t :
  saturated s -> is_dot s dot -> t ∈ toadd -> is_tile s t -> ~ is_assoc s t ->
  dot_expand_or_move s dot toadd = Ok (s, false).
Proof.
  intros Hsat Hd Hin Ht Hna. unfold dot_expand_or_move. rewrite (proj2 Hd).
  cbn [assert bind].
  assert (E : expand_check s dot toadd = false).
  { apply expand_check_false. apply Exists_exists. exists t. split; [done|].
    apply blocked_rejects. by apply Hsat. }
  by rewrite E.
Qed.

Lemma try_outside_rejected s maxsz toadd outside t :
  region_inv s -> saturated s -> t ∈ toadd -> is_tile s t -> ~ is_assoc s t ->
  Forall (is_tile s) outside ->
  try_outside s maxsz toadd outside = Ok (s, false).
Proof.
  intros Hi Hsat Hin Ht Hna. pose proof (inv_shape _ (ri_gen _ Hi)) as Hs.
  induction 1 as [|o rest Ho _ IH]; cbn [try_outside]; [done|].
  destruct (has_flag (sp_flags (deref s o)) F_TILE_ASSOC) eqn:Ha; cbn [negb]; [|exact IH].
  destruct (inv_assoc _ (ri_gen _ Hi) o Ho Ha) as (d & Hd & Ex & Ey).
  destruct (valid_xy s d Hs (proj1 Hd)) as [_ Hsp].
  rewrite Ex, Ey, Hsp.
  destruct (maxsz <=? sp_nassoc (deref s d)); [exact IH|].
  rewrite (expand_rejected s d toadd t) by done. cbn [bind fst snd]. exact IH.
Qed.

Section NeverExpands.

Variable random_state : Type.
Variable shuffle : forall A : Type, list A -> random_state -> list A * random_state.
Hypothesis shuffle_perm : forall A (l : list A) rs, (shuffle A l rs).1 ≡ₚ l.

Lemma generate_try_block_rejected s rs sp x1 y1 x2 y2 :
  region_inv s -> saturated s -> gs_ndots s <> 0 -> valid s sp ->
  sp_type (deref s sp) <> s_vertex ->
  candidate_rect (deref s sp) = (x1, y1, x2, y2) ->
  exists rs', generate_try_block random_state shuffle s rs x1 y1 x2 y2 = Ok (s, rs', false).
Proof.
  intros Hi Hsat Hn Hv Hnv Hrect. pose proof (inv_shape _ (ri_gen _ Hi)) as Hs.
  unfold generate_try_block.
  destruct ((x1 <? 0) || (y1 <? 0) || (gs_sx s <=? x2) || (gs_sy s <=? y2)) eqn:Hguard.
  { by exists rs. }
  rewrite (proj2 (Z.eqb_neq _ 0) Hn). cbv zeta.
  pose proof Hguard as Hg. rewrite !orb_false_iff, !Z.ltb_ge, !Z.leb_gt in Hg.
  destruct (candidate_rect_odd s sp x1 y1 x2 y2 Hs Hv Hnv Hrect) as (Ox & Oy & Hxx & Hyy).
  assert (Ox2 : exists k, x2 = 1 + 2 * k).
  { destruct (candidate_cells s sp x1 y1 x2 y2 Hnv Hrect)
      as [(E1 & _ & E2 & _)|[(E1 & _ & E2 & _)|(E1 & _ & E2 & _)]];
      destruct Ox as (k & Ek); [exists k|exists (k + 1)|exists k]; lia. }
  assert (Oy2 : exists k, y2 = 1 + 2 * k).
  { destruct (candidate_cells s sp x1 y1 x2 y2 Hnv Hrect)
      as [(_ & E1 & _ & E2 & _)|[(_ & E1 & _ & E2 & _)|(_ & E1 & _ & E2 & _)]];
      destruct Oy as (k & Ek); [exists k|exists k|exists (k + 1)]; lia. }
  assert (Hcells : forall c, c ∈ block_cells x1 y1 x2 y2 -> is_tile s (SPACE s c.1 c.2)).
  { intros c Hc. apply (block_cells_tiles s x1 y1 x2 y2); try done; lia. }
  destruct (collect_toadd_ok s (block_cells x1 y1 x2 y2) [] Hcells) as (r & Hcol).
  rewrite Hcol. cbn [bind]. destruct r as [toadd|]; [|by exists rs].
  destruct (shuffle ptr (collect_outside s x1 y1 x2 y2) rs) as [outside rs'] eqn:Esh.
  assert (Hout : Forall (is_tile s) outside).
  { pose proof (shuffle_perm ptr (collect_outside s x1 y1 x2 y2) rs) as Hp.
    rewrite Esh in Hp. cbn [fst] in Hp. rewrite Hp.
    apply collect_outside_tiles; try done; lia. }
  destruct (collect_toadd_Some s _ _ _ Hcol) as [-> Hall]. rewrite app_nil_l.
  assert (Hfirst : exists c, c ∈ block_cells x1 y1 x2 y2).
  { destruct (candidate_cells s sp x1 y1 x2 y2 Hnv Hrect)
      as [(_ & _ & _ & _ & ->)|[(_ & _ & _ & _ & ->)|(_ & _ & _ & _ & ->)]];
      eexists; left. }
  destruct Hfirst as (c & Hc).
  rewrite (try_outside_rejected s _ _ outside (SPACE s c.1 c.2)); try done.
  - cbn [bind fst snd]. by exists rs'.
  - apply list_elem_of_fmap. by exists c.
  - by apply Hcells.
  - by destruct (Hall c Hc).
Qed.

End NeverExpands.



(** ** The tile grid of the solvers *)

Lemma inTileBounds_spec p x y :
  inTileBounds p x y = true <-> 0 <= x < pz_w p /\ 0 <= y < pz_h p.
Proof. unfold inTileBounds. rewrite !andb_true_iff. lia. Qed.

Lemma inTileBounds_false p x y :
  inTileBounds p x y = false <-> ~ (0 <= x < pz_w p /\ 0 <= y < pz_h p).
Proof. rewrite <- inTileBounds_spec. by destruct (inTileBounds p x y). Qed.

Lemma int16_id d : -32768 <= d <= 32767 -> int16 d = d.
Proof. intros Hd. unfold int16. rewrite Z.mod_small by lia. lia. Qed.

Lemma set_at_dims w h g x y v : grid_dims w h g -> grid_dims w h (set_at g x y v).
Proof.
  intros [Hl Hrows]. unfold set_at. split; [by rewrite length_alter|].
  apply Forall_forall. intros row Hrow.
  apply list_elem_of_lookup in Hrow as [i Hi].
  rewrite list_lookup_alter in Hi. rewrite Forall_forall in Hrows.
  destruct (decide (Z.to_nat y = i)) as [<-|Hne].
  - destruct (g !! Z.to_nat y) as [r|] eqn:E; simpl in Hi; [|done].
    injection Hi as <-. rewrite length_insert. apply Hrows.
    by apply list_elem_of_lookup_2 in E.
  - apply Hrows. by apply list_elem_of_lookup_2 in Hi.
Qed.

Lemma at_set_at w h g x y v x' y' :
  grid_dims w h g -> 0 <= x < w -> 0 <= y < h -> 0 <= x' -> 0 <= y' ->
  at_ (set_at g x y v) x' y' = if decide (x = x' /\ y = y') then v else at_ g x' y'.
Proof.
  intros [Hl Hrows] Hx Hy Hx' Hy'. unfold at_, set_at.
  rewrite list_lookup_alter.
  destruct (decide (Z.to_nat y = Z.to_nat y')) as [E|E].
  - assert (y = y') as <- by lia.
    destruct (g !! Z.to_nat y) as [row|] eqn:Hrow.
    2:{ apply lookup_ge_None in Hrow. lia. }
    simpl. rewrite Forall_forall in Hrows.
    assert (Hlen : length row = Z.to_nat w).
    { apply Hrows. by apply list_elem_of_lookup_2 in Hrow. }
    destruct (decide (x = x')) as [<-|Hne].
    + rewrite decide_True by done. rewrite list_lookup_insert_eq by lia. done.
    + rewrite decide_False by tauto. rewrite list_lookup_insert_ne by lia. done.
  - rewrite decide_False by lia. done.
Qed.

Lemma initial_state_dims w h : grid_dims w h (grid (initial_state w h)).
Proof.
  split; simpl; [by rewrite length_replicate|].
  apply Forall_forall. intros row Hrow. apply elem_of_replicate in Hrow as [-> _].
  by rewrite length_replicate.
Qed.

Lemma initial_state_at w h x y : 0 <= x < w -> 0 <= y < h ->
  at_ (grid (initial_state w h)) x y = -1.
Proof.
  intros Hx Hy. unfold at_, initial_state; simpl.
  rewrite lookup_replicate_2 by lia. simpl. rewrite lookup_replicate_2 by lia. done.
Qed.

(** ** Membership in the list of tiles *)

Lemma elem_of_tiles p x y :
  (x, y) ∈ tiles p <-> 0 <= x < pz_w p /\ 0 <= y < pz_h p.
Proof.
  unfold tiles. rewrite list_elem_of_bind. split.
  - intros (y' & Hc & Hy'). apply list_elem_of_fmap in Hc as (x' & [= -> ->] & Hx').
    rewrite elem_of_seqZ in Hx', Hy'. lia.
  - intros [? ?]. exists y. split; [|apply elem_of_seqZ; lia].
    apply list_elem_of_fmap. exists x. split; [done|apply elem_of_seqZ; lia].
Qed.

Lemma NoDup_tiles p : NoDup (tiles p).
Proof.
  unfold tiles. apply NoDup_bind.
  - intros y1 y2 c _ _ H1 H2.
    apply list_elem_of_fmap in H1 as (? & -> & _).
    apply list_elem_of_fmap in H2 as (? & [= _ ->] & _). done.
  - intros y _. apply NoDup_fmap_2; [|apply NoDup_seqZ]. intros a b [= ->]. done.
  - apply NoDup_seqZ.
Qed.

(** ** Forced tiles *)

(** The tiles passed to [tryFill] for a dot are the tiles that touch it. *)
Lemma forced_tiles_touch dx dy tx ty :
  0 <= dx -> 0 <= dy ->
  (tx, ty) ∈ forced_tiles dx dy <-> touchesDot dx dy tx ty = true.
Proof.
  intros Hdx Hdy. unfold forced_tiles, touchesDot.
  rewrite andb_true_iff, !Z.leb_le.
  rewrite !Z.rem_mod_nonneg by lia.
  pose proof (Z.div_mod dx 2 ltac:(lia)). pose proof (Z.mod_pos_bound dx 2 ltac:(lia)).
  pose proof (Z.div_mod dy 2 ltac:(lia)). pose proof (Z.mod_pos_bound dy 2 ltac:(lia)).
  destruct (Z.eqb_spec (dx `mod` 2) 0) as [Ex|Ex];
    destruct (Z.eqb_spec (dy `mod` 2) 0) as [Ey|Ey]; cbn [negb andb].
  all: rewrite ?Z.quot_div_nonneg by lia.
  all: rewrite !elem_of_cons, elem_of_nil.
  all: try (pose proof (Z.div_mod (dx - 1) 2 ltac:(lia));
            pose proof (Z.mod_pos_bound (dx - 1) 2 ltac:(lia))).
  all: try (pose proof (Z.div_mod (dy - 1) 2 ltac:(lia));
            pose proof (Z.mod_pos_bound (dy - 1) 2 ltac:(lia))).
  all: split; [intros Hc; repeat destruct Hc as [Hc|Hc]; try done;
               injection Hc as -> ->; lia|].
  all: intros [Hx Hy].
  - assert (tx = dx `div` 2 - 1 \/ tx = dx `div` 2) as [-> | ->] by lia;
      assert (ty = dy `div` 2 - 1 \/ ty = dy `div` 2) as [-> | ->] by lia; auto.
  - assert (tx = dx `div` 2 - 1 \/ tx = dx `div` 2) as [-> | ->] by lia;
      assert (ty = (dy - 1) `div` 2) as -> by lia; auto.
  - assert (ty = dy `div` 2 - 1 \/ ty = dy `div` 2) as [-> | ->] by lia;
      assert (tx = (dx - 1) `div` 2) as -> by lia; auto.
  - assert (tx = (dx - 1) `div` 2) as -> by lia;
      assert (ty = (dy - 1) `div` 2) as -> by lia; auto.
Qed.



(** ** Point symmetry of tiles *)

Lemma getSymmetricTile_eq dx dy tx ty :
  getSymmetricTile dx dy tx ty = (dx - tx - 1, dy - ty - 1).
Proof.
  unfold getSymmetricTile. f_equal.
  - replace (2 * dx - (tx * 2 + 1) - 1) with ((dx - tx - 1) * 2) by lia.
    apply Z.quot_mul. lia.
  - replace (2 * dy - (ty * 2 + 1) - 1) with ((dy - ty - 1) * 2) by lia.
    apply Z.quot_mul. lia.
Qed.

Lemma touchesDot_sym dx dy tx ty :
  touchesDot dx dy (dx - tx - 1) (dy - ty - 1) = touchesDot dx dy tx ty.
Proof.
  unfold touchesDot. f_equal.
  - replace ((dx - tx - 1) * 2 + 1 - dx) with (- (tx * 2 + 1 - dx)) by lia.
    by rewrite Z.abs_opp.
  - replace ((dy - ty - 1) * 2 + 1 - dy) with (- (ty * 2 + 1 - dy)) by lia.
    by rewrite Z.abs_opp.
Qed.

(** ** Equality of grids *)

Lemma grid_ext w h g1 g2 :
  grid_dims w h g1 -> grid_dims w h g2 ->
  (forall x y, 0 <= x < w -> 0 <= y < h -> at_ g1 x y = at_ g2 x y) ->
  g1 = g2.
Proof.
  intros [Hl1 Hr1] [Hl2 Hr2] Hat.
  apply list_eq_same_length with (Z.to_nat h); [done|done|].
  intros i r1 r2 Hi E1 E2.
  rewrite Forall_forall in Hr1, Hr2.
  assert (L1 : length r1 = Z.to_nat w) by (apply Hr1; by apply list_elem_of_lookup_2 in E1).
  assert (L2 : length r2 = Z.to_nat w) by (apply Hr2; by apply list_elem_of_lookup_2 in E2).
  apply list_eq_same_length with (Z.to_nat w); [done|done|].
  intros j a b Hj Ea Eb.
  specialize (Hat (Z.of_nat j) (Z.of_nat i) ltac:(lia) ltac:(lia)).
  unfold at_ in Hat. rewrite !Nat2Z.id in Hat.
  rewrite E1, E2 in Hat. simpl in Hat. rewrite Ea, Eb in Hat. done.
Qed.

(** ** The XOR of the Zobrist entries and the number of assigned tiles *)

Lemma lxor_cancel a b : Z.lxor (Z.lxor a b) b = a.
Proof. by rewrite Z.lxor_assoc, Z.lxor_nilpotent, Z.lxor_0_r. Qed.

Lemma lxor_cancel2 h a b : Z.lxor (Z.lxor (Z.lxor (Z.lxor h a) b) a) b = h.
Proof.
  apply Z.bits_inj'. intros n Hn. rewrite !Z.lxor_spec.
  by destruct (Z.testbit h n), (Z.testbit a n), (Z.testbit b n).
Qed.

Lemma foldl_lxor_init {A} (f : A -> Z) (l : list A) (i : Z) :
  foldl (fun acc a => Z.lxor acc (f a)) i l
  = Z.lxor i (foldl (fun acc a => Z.lxor acc (f a)) 0 l).
Proof.
  revert i. induction l as [|a l IH]; intros i; simpl.
  - by rewrite Z.lxor_0_r.
  - rewrite Z.lxor_0_l. rewrite (IH (Z.lxor i (f a))), (IH (f a)). by rewrite Z.lxor_assoc.
Qed.

Lemma foldl_lxor_ext {A} (f f' : A -> Z) (l : list A) (i : Z) :
  (forall a, a ∈ l -> f' a = f a) ->
  foldl (fun acc a => Z.lxor acc (f' a)) i l = foldl (fun acc a => Z.lxor acc (f a)) i l.
Proof.
  revert i. induction l as [|a l IH]; intros i Hext; simpl; [done|].
  rewrite Hext by left. apply IH. intros b Hb. apply Hext. by right.
Qed.

Lemma foldl_lxor_change {A} `{!EqDecision A} (f f' : A -> Z) (l : list A) (a0 : A) (c : Z) :
  NoDup l -> a0 ∈ l ->
  (forall a, a ∈ l -> a <> a0 -> f' a = f a) -> f' a0 = Z.lxor (f a0) c ->
  foldl (fun acc a => Z.lxor acc (f' a)) 0 l
  = Z.lxor (foldl (fun acc a => Z.lxor acc (f a)) 0 l) c.
Proof.
  induction l as [|a l IH]; intros Hnd Hin Hext H0.
  - by apply elem_of_nil in Hin.
  - apply NoDup_cons in Hnd as [Ha Hnd]. simpl.
    rewrite (foldl_lxor_init f'), (foldl_lxor_init f).
    destruct (decide (a = a0)) as [->|Hne].
    + rewrite H0. rewrite (foldl_lxor_ext f f').
      * rewrite !Z.lxor_0_l. rewrite !Z.lxor_assoc. f_equal. apply Z.lxor_comm.
      * intros b Hb. apply Hext; [by right|]. intros ->. done.
    + apply elem_of_cons in Hin as [->|Hin]; [done|].
      rewrite IH; [|done|done| |done].
      * rewrite (Hext a) by (done || left). by rewrite !Z.lxor_assoc.
      * intros b Hb. apply Hext. by right.
Qed.

Lemma zobrist_sum_terms p z g :
  zobrist_sum p z g = foldl (fun acc c => Z.lxor acc (zobrist_term p z g c)) 0 (tiles p).
Proof.
  unfold zobrist_sum. generalize 0. induction (tiles p) as [|[x y] l IH]; intros i; [done|].
  simpl. rewrite IH. f_equal. unfold zobrist_term. simpl.
  destruct (at_ g x y =? -1); [by rewrite Z.lxor_0_r|done].
Qed.

Lemma zobrist_sum_set p z g x y v :
  grid_dims (pz_w p) (pz_h p) g -> inTileBounds p x y = true ->
  at_ g x y = -1 -> v <> -1 ->
  zobrist_sum p z (set_at g x y v)
  = Z.lxor (zobrist_sum p z g) (z (y * pz_w p + x) v).
Proof.
  intros Hg Hb He Hv. rewrite inTileBounds_spec in Hb.
  rewrite !zobrist_sum_terms.
  apply (foldl_lxor_change _ _ _ (x, y)).
  - apply NoDup_tiles.
  - by apply elem_of_tiles.
  - intros [x' y'] Hin Hne. rewrite elem_of_tiles in Hin. unfold zobrist_term. simpl.
    rewrite (at_set_at (pz_w p) (pz_h p)) by (done || lia).
    rewrite decide_False; [done|]. intros [-> ->]. done.
  - unfold zobrist_term. simpl.
    rewrite (at_set_at (pz_w p) (pz_h p)) by (done || lia).
    rewrite decide_True by done. rewrite He.
    destruct (Z.eqb_spec v (-1)); [done|]. simpl. by rewrite Z.lxor_0_l.
Qed.

Lemma zobrist_sum_unset p z g x y :
  grid_dims (pz_w p) (pz_h p) g -> inTileBounds p x y = true ->
  at_ g x y <> -1 ->
  zobrist_sum p z (set_at g x y (-1))
  = Z.lxor (zobrist_sum p z g) (z (y * pz_w p + x) (at_ g x y)).
Proof.
  intros Hg Hb He. rewrite inTileBounds_spec in Hb.
  rewrite !zobrist_sum_terms.
  apply (foldl_lxor_change _ _ _ (x, y)).
  - apply NoDup_tiles.
  - by apply elem_of_tiles.
  - intros [x' y'] Hin Hne. rewrite elem_of_tiles in Hin. unfold zobrist_term. simpl.
    rewrite (at_set_at (pz_w p) (pz_h p)) by (done || lia).
    rewrite decide_False; [done|]. intros [-> ->]. done.
  - unfold zobrist_term. simpl.
    rewrite (at_set_at (pz_w p) (pz_h p)) by (done || lia).
    rewrite decide_True by done. simpl.
    destruct (Z.eqb_spec (at_ g x y) (-1)); [done|]. by rewrite Z.lxor_nilpotent.
Qed.

Lemma filled_set p g x y v :
  grid_dims (pz_w p) (pz_h p) g -> inTileBounds p x y = true ->
  at_ g x y = -1 -> v <> -1 ->
  filled p (set_at g x y v) = filled p g + 1.
Proof.
  intros Hg Hb He Hv. rewrite inTileBounds_spec in Hb. unfold filled.
  assert (Hlen : length (filter (fun '(x0, y0) => at_ (set_at g x y v) x0 y0 <> -1) (tiles p))
          = S (length (filter (fun '(x0, y0) => at_ g x0 y0 <> -1) (tiles p)))).
  { apply (filter_length_add _ _ _ (x, y)).
    - apply NoDup_tiles.
    - by apply elem_of_tiles.
    - simpl. tauto.
    - simpl. rewrite (at_set_at (pz_w p) (pz_h p)) by (done || lia).
      by rewrite decide_True.
    - intros [x' y'] Hin Hne. rewrite elem_of_tiles in Hin.
      rewrite (at_set_at (pz_w p) (pz_h p)) by (done || lia).
      rewrite decide_False; [done|]. intros [-> ->]. done. }
  rewrite Hlen. lia.
Qed.

Lemma filled_unset p g x y :
  grid_dims (pz_w p) (pz_h p) g -> inTileBounds p x y = true ->
  at_ g x y <> -1 ->
  filled p (set_at g x y (-1)) = filled p g - 1.
Proof.
  intros Hg Hb He. rewrite inTileBounds_spec in Hb. unfold filled.
  assert (Hlen : length (filter (fun '(x0, y0) => at_ g x0 y0 <> -1) (tiles p))
          = S (length (filter (fun '(x0, y0) => at_ (set_at g x y (-1)) x0 y0 <> -1) (tiles p)))).
  { apply (filter_length_add _ _ _ (x, y)).
    - apply NoDup_tiles.
    - by apply elem_of_tiles.
    - simpl. rewrite (at_set_at (pz_w p) (pz_h p)) by (done || lia).
      rewrite decide_True by done. tauto.
    - done.
    - intros [x' y'] Hin Hne. rewrite elem_of_tiles in Hin.
      rewrite (at_set_at (pz_w p) (pz_h p)) by (done || lia).
      rewrite decide_False; [done|]. intros [-> ->]. done. }
  rewrite Hlen. lia.
Qed.

Lemma zobrist_sum_initial p z :
  0 <= pz_w p -> 0 <= pz_h p ->
  zobrist_sum p z (grid (initial_state (pz_w p) (pz_h p))) = 0.
Proof.
  intros Hw Hh. rewrite zobrist_sum_terms.
  rewrite (foldl_lxor_ext (fun _ => 0)).
  - generalize (tiles p). intros l. induction l as [|a l IH]; [done|]. simpl. exact IH.
  - intros [x y] Hin. rewrite elem_of_tiles in Hin. unfold zobrist_term. simpl fst. simpl snd.
    rewrite initial_state_at by lia. done.
Qed.

Lemma filled_initial p :
  filled p (grid (initial_state (pz_w p) (pz_h p))) = 0.
Proof.
  unfold filled. rewrite (filter_ext_elem _ (fun _ => False)).
  - by rewrite filter_False.
  - intros [x y] Hin. rewrite elem_of_tiles in Hin.
    rewrite initial_state_at by lia. tauto.
Qed.



(** ** Seeding *)

Lemma grows_refl p k s : grows p k s s.
Proof. intros x y _. by left. Qed.

Lemma grows_trans p k s1 s2 s3 : grows p k s1 s2 -> grows p k s2 s3 -> grows p k s1 s3.
Proof.
  intros H1 H2 x y Hb. destruct (H1 x y Hb) as [E1|[E1 E1']], (H2 x y Hb) as [E2|[E2 E2']].
  - left. congruence.
  - right. split; congruence.
  - right. split; congruence.
  - right. split; congruence.
Qed.

Lemma grows_conflict p k s s' x y :
  grows p k s s' -> inTileBounds p x y = true ->
  (at_ (grid s') x y <> -1 /\ at_ (grid s') x y <> k)
  <-> (at_ (grid s) x y <> -1 /\ at_ (grid s) x y <> k).
Proof.
  intros Hg Hb. destruct (Hg x y Hb) as [E|[E E']].
  - by rewrite E.
  - rewrite E, E'. tauto.
Qed.

Lemma tryFill_spec p z k s x y s' ok :
  seed_inv p z k s -> 0 <= k <= 32767 -> touches p k x y ->
  tryFill p z s x y k = (s', ok) ->
  seed_inv p z k s' /\ grows p k s s' /\
  (ok = true -> inTileBounds p x y = true -> at_ (grid s') x y = k) /\
  (ok = false <-> inTileBounds p x y = true /\ at_ (grid s) x y <> -1 /\ at_ (grid s) x y <> k).
Proof.
  intros [Hd Hh Hf Hs] Hk Ht. unfold tryFill.
  destruct (inTileBounds p x y) eqn:Hb; simpl.
  2:{ intros [= <- <-]. split; [done|]. split; [apply grows_refl|].
      split; [done|]. split; [done|]. intros [? _]. done. }
  destruct (Z.eqb_spec (at_ (grid s) x y) (-1)) as [He|He].
  - intros [= <- <-]. rewrite int16_id by lia.
    pose proof Hb as Hb'. rewrite inTileBounds_spec in Hb'.
    split; [|split; [|split; [|split]]].
    + split; simpl.
      * by apply set_at_dims.
      * rewrite zobrist_sum_set by (done || lia). by rewrite Hh.
      * rewrite filled_set by (done || lia). by rewrite Hf.
      * intros x' y' Hb2 Hne. pose proof Hb2 as Hb2'. rewrite inTileBounds_spec in Hb2'.
        rewrite (at_set_at (pz_w p) (pz_h p)) in Hne |- * by (done || lia).
        destruct (decide (x = x' /\ y = y')) as [[<- <-]|?].
        -- split; [lia|done].
        -- by apply Hs.
    + intros x' y' Hb2. pose proof Hb2 as Hb2'. rewrite inTileBounds_spec in Hb2'. simpl.
      rewrite (at_set_at (pz_w p) (pz_h p)) by (done || lia).
      destruct (decide (x = x' /\ y = y')) as [[<- <-]|?]; [by right|by left].
    + intros _ _. simpl. rewrite (at_set_at (pz_w p) (pz_h p)) by (done || lia).
      by rewrite decide_True.
    + done.
    + intros (_ & ? & _). done.
  - intros [= <- <-]. split; [done|]. split; [apply grows_refl|].
    split; [by intros ->%Z.eqb_eq|].
    rewrite Z.eqb_neq. tauto.
Qed.

Lemma tryFill_all_spec p z k l s s' ok :
  seed_inv p z k s -> 0 <= k <= 32767 ->
  Forall (fun c => touches p k c.1 c.2) l ->
  tryFill_all p z s l k = (s', ok) ->
  seed_inv p z k s' /\ grows p k s s' /\
  (ok = true -> forall x y, (x, y) ∈ l -> inTileBounds p x y = true ->
                 at_ (grid s') x y = k) /\
  (ok = false <-> exists x y, (x, y) ∈ l /\ inTileBounds p x y = true /\
                    at_ (grid s) x y <> -1 /\ at_ (grid s) x y <> k).
Proof.
  intros Hinv Hk. revert s Hinv. induction l as [|[x y] l IH]; intros s Hinv Hl; simpl.
  - intros [= <- <-]. split; [done|]. split; [apply grows_refl|].
    split; [intros _ ? ? []%elem_of_nil|]. split; [done|].
    intros (? & ? & []%elem_of_nil & _).
  - apply Forall_cons in Hl as [Hxy Hl]. simpl in Hxy.
    destruct (tryFill p z s x y k) as [s1 ok1] eqn:E1.
    destruct (tryFill_spec _ _ _ _ _ _ _ _ Hinv Hk Hxy E1) as (I1 & G1 & T1 & F1).
    destruct ok1.
    + intros E2. destruct (IH s1 I1 Hl E2) as (I2 & G2 & T2 & F2).
      split; [done|]. split; [by eapply grows_trans|]. split.
      * intros -> x' y' Hin Hb. apply elem_of_cons in Hin as [[= -> ->]|Hin].
        -- destruct (G2 x y Hb) as [E|[E _]].
           ++ rewrite E. by apply T1.
           ++ rewrite T1 in E by done. lia.
        -- by apply T2.
      * rewrite F2. split.
        -- intros (x' & y' & Hin & Hb & Hc). exists x', y'. split; [by right|].
           split; [done|]. by apply (grows_conflict p k s s1).
        -- intros (x' & y' & Hin & Hb & Hc).
           apply elem_of_cons in Hin as [[= -> ->]|Hin].
           ++ exfalso. assert (true = false); [|done]. apply F1. done.
           ++ exists x', y'. split; [done|]. split; [done|].
              by apply (grows_conflict p k s s1).
    + intros [= <- <-]. split; [done|]. split; [done|]. split; [done|].
      split; [|done]. intros _. exists x, y. split; [left|]. by apply F1.
Qed.

Lemma dot_of_lookup p pre dot rest :
  pz_dots p = pre ++ dot :: rest -> dot_of p (Z.of_nat (length pre)) = dot.
Proof.
  intros E. unfold dot_of. rewrite Nat2Z.id, E.
  rewrite lookup_app_r by lia. by rewrite Nat.sub_diag.
Qed.

Lemma seed_from_spec p z ds : forall pre s s' ok,
  pz_dots p = pre ++ ds -> puzzle_ok p ->
  seed_inv p z (Z.of_nat (length pre) - 1) s -> seed_done p (Z.of_nat (length pre)) s ->
  seed_from p z s (Z.of_nat (length pre)) ds = (s', ok) ->
  (ok = true -> seed_inv p z (Z.of_nat (length (pz_dots p)) - 1) s' /\
                seed_done p (Z.of_nat (length (pz_dots p))) s') /\
  (ok = false <-> exists d1 d2, 0 <= d1 < d2 /\
                    Z.of_nat (length pre) <= d2 < Z.of_nat (length (pz_dots p)) /\
                    seed_conflict p d1 d2).
Proof.
  induction ds as [|dot rest IH]; intros pre s s' ok Hp Hok Hinv Hdone;
    set (k := Z.of_nat (length pre)) in *; set (n := Z.of_nat (length (pz_dots p))).
  - simpl. intros [= <- <-]. rewrite app_nil_r in Hp.
    assert (n = k) as -> by (unfold n, k; by rewrite Hp).
    split; [done|]. split; [done|]. intros (d1 & d2 & ? & ? & _). lia.
  - cbn [seed_from]. intros Hrun.
    assert (Hn : n = k + 1 + Z.of_nat (length rest)).
    { unfold n, k. rewrite Hp, length_app. simpl. lia. }
    pose proof (ok_ndots p Hok) as Hnd. fold n in Hnd.
    assert (Hdk : dot_of p k = dot) by by apply (dot_of_lookup p pre dot rest).
    assert (Hpos : 0 <= dot_x dot /\ 0 <= dot_y dot).
    { pose proof (ok_dots p Hok) as Hall. rewrite Forall_forall in Hall. apply Hall.
      rewrite Hp. apply elem_of_app. right. left. }
    assert (Hinv' : seed_inv p z k s).
    { destruct Hinv as [? ? ? Hs]. split; try done.
      intros x y Hb Hne. destruct (Hs x y Hb Hne). split; [lia|done]. }
    destruct (tryFill_all p z s (forced_tiles (dot_x dot) (dot_y dot)) k) as [s1 ok1] eqn:E1.
    assert (Hl : Forall (fun c => touches p k c.1 c.2) (forced_tiles (dot_x dot) (dot_y dot))).
    { apply Forall_forall. intros [x y] Hin. simpl. unfold touches. rewrite Hdk.
      apply forced_tiles_touch; [lia|lia|done]. }
    destruct (tryFill_all_spec _ _ _ _ _ _ _ Hinv' ltac:(lia) Hl E1) as (I1 & G1 & T1 & F1).
    assert (Hconf : ok1 = false <-> exists d1, 0 <= d1 < k /\ seed_conflict p d1 k).
    { rewrite F1. split.
      - intros (x & y & Hin & Hb & Hne & Hnk).
        destruct (sd_sound _ _ _ _ Hinv x y Hb Hne) as [Hr Ht].
        exists (at_ (grid s) x y). split; [lia|]. exists x, y. split; [done|].
        split; [done|]. unfold touches. rewrite Hdk.
        apply forced_tiles_touch; [lia|lia|done].
      - intros (d1 & Hd1 & x & y & Hb & Ht1 & Htk).
        exists x, y. split.
        { apply forced_tiles_touch; [lia|lia|]. unfold touches in Htk. by rewrite Hdk in Htk. }
        split; [done|]. rewrite (Hdone d1 x y Hd1 Hb Ht1). lia. }
    destruct ok1.
    + assert (Hdone1 : seed_done p (k + 1) s1).
      { intros d x y Hd Hb Ht. destruct (decide (d = k)) as [->|Hne].
        - apply T1; [done| |done]. apply forced_tiles_touch; [lia|lia|].
          unfold touches in Ht. by rewrite Hdk in Ht.
        - destruct (G1 x y Hb) as [E|[E _]].
          + rewrite E. apply Hdone; [lia|done|done].
          + rewrite (Hdone d x y) in E by (done || lia). lia. }
      assert (Hp' : pz_dots p = (pre ++ [dot]) ++ rest) by by rewrite <- app_assoc.
      assert (Hk1 : Z.of_nat (length (pre ++ [dot])) = k + 1).
      { rewrite length_app. simpl. unfold k. lia. }
      specialize (IH (pre ++ [dot]) s1 s' ok Hp' Hok).
      rewrite Hk1 in IH. replace (k + 1 - 1) with k in IH by lia.
      specialize (IH I1 Hdone1 Hrun). fold n in IH. destruct IH as [IHt IHf].
      split; [done|]. rewrite IHf. split.
      * intros (d1 & d2 & ? & ? & ?). exists d1, d2. split; [done|]. split; [lia|done].
      * intros (d1 & d2 & H12 & Hd2 & Hc). destruct (decide (d2 = k)) as [->|Hne].
        -- exfalso. assert (true = false); [|done]. apply Hconf. by exists d1.
        -- exists d1, d2. split; [done|]. split; [lia|done].
    + injection Hrun as <- <-. split; [done|]. split; [|done]. intros _.
      destruct (proj1 Hconf eq_refl) as (d1 & Hd1 & Hc).
      exists d1, k. split; [lia|]. split; [lia|done].
Qed.

Lemma initial_seed_inv p z :
  puzzle_ok p -> seed_inv p z (-1) (initial_state (pz_w p) (pz_h p)).
Proof.
  intros Hok. split.
  - apply initial_state_dims.
  - rewrite zobrist_sum_initial; [done|apply Hok|apply Hok].
  - by rewrite filled_initial.
  - intros x y Hb Hne. rewrite inTileBounds_spec in Hb.
    rewrite initial_state_at in Hne by lia. done.
Qed.

(** What [seedForcedTiles] does on the initial state. *)
Lemma seedForcedTiles_spec p z s ok :
  puzzle_ok p ->
  seedForcedTiles p z (initial_state (pz_w p) (pz_h p)) = (s, ok) ->
  let n := Z.of_nat (length (pz_dots p)) in
  (ok = true -> seed_inv p z (n - 1) s /\ seed_done p n s) /\
  (ok = false <-> exists d1 d2, 0 <= d1 < d2 /\ d2 < n /\ seed_conflict p d1 d2).
Proof.
  intros Hok Hrun n. unfold seedForcedTiles in Hrun. unfold n.
  pose proof (seed_from_spec p z (pz_dots p) [] _ s ok eq_refl Hok
                (initial_seed_inv p z Hok)) as H.
  simpl length in H. change (Z.of_nat 0) with 0 in H. simpl in H.
  specialize (H ltac:(intros d x y ?; lia) Hrun).
  destruct H as [Ht Hf]. split; [done|]. rewrite Hf. split.
  - intros (d1 & d2 & ? & ? & ?). exists d1, d2. split; [lia|]. split; [lia|done].
  - intros (d1 & d2 & ? & ? & ?). exists d1, d2. split; [lia|]. split; [lia|done].
Qed.

(** A seeded state is a search state. *)
Lemma seeded_state_ok p z s :
  puzzle_ok p ->
  seedForcedTiles p z (initial_state (pz_w p) (pz_h p)) = (s, true) ->
  state_ok p z s.
Proof.
  intros Hok Hrun.
  destruct (seedForcedTiles_spec p z s true Hok Hrun) as [Ht _].
  destruct (Ht eq_refl) as [[Hd Hh Hf Hs] Hdone]. split; try done.
  - intros x y Hb. destruct (decide (at_ (grid s) x y = -1)) as [|Hne]; [by left|].
    right. destruct (Hs x y Hb Hne). lia.
  - intros x y Hb Hne. cbv zeta. rewrite getSymmetricTile_eq. intros Hb'.
    destruct (Hs x y Hb Hne) as [Hr Ht']. apply Hdone; [lia|done|].
    unfold touches in *. by rewrite touchesDot_sym.
Qed.



(** ** Enumeration of the moves *)

Lemma elem_of_dirs dir :
  dir ∈ dirs <-> dir = (1, 0) \/ dir = (-1, 0) \/ dir = (0, 1) \/ dir = (0, -1).
Proof. unfold dirs. rewrite !elem_of_cons, elem_of_nil. tauto. Qed.

Lemma dirs_opp dir : dir ∈ dirs -> (- dir.1, - dir.2) ∈ dirs.
Proof.
  rewrite !elem_of_dirs. intros [-> | [-> | [-> | ->]]]; simpl; auto.
Qed.

Lemma elem_of_tile_dirs p x y dir :
  (x, y, dir) ∈ tile_dirs p <-> (x, y) ∈ tiles p /\ dir ∈ dirs.
Proof.
  unfold tile_dirs. rewrite list_elem_of_bind. split.
  - intros (c & Hin & Hc). apply list_elem_of_fmap in Hin as (dir' & [= -> ->] & Hd). done.
  - intros [Hc Hd]. exists (x, y). split; [|done]. apply list_elem_of_fmap. by exists dir.
Qed.

Lemma already_added_spec moves x y d :
  already_added moves x y d = true <-> exists m, m ∈ moves /\ gives m x y d.
Proof.
  unfold already_added, gives. rewrite existsb_exists. split.
  - intros (m & Hin & Hm). rewrite !andb_true_iff, !Z.eqb_eq in Hm.
    exists m. rewrite list_elem_of_In. tauto.
  - intros (m & Hin & Hm). exists m. rewrite !andb_true_iff, !Z.eqb_eq.
    rewrite <- list_elem_of_In. tauto.
Qed.

(** What a loop of [scan] builds. *)
Lemma scan_spec {B} (gen : B -> option Move) (l : list B) (init : list Move) :
  let r := foldl (scan gen) init l in
  (forall m, m ∈ init -> m ∈ r) /\
  (forall m, m ∈ r -> m ∈ init \/ exists c, c ∈ l /\ gen c = Some m) /\
  (forall c m, c ∈ l -> gen c = Some m ->
     exists m', m' ∈ r /\ gives m' (mv_tx m) (mv_ty m) (mv_d m)).
Proof.
  revert init. induction l as [|c l IH]; intros init; cbn [foldl]; cbv zeta.
  - split; [done|]. split; [by left|]. intros c m []%elem_of_nil.
  - destruct (IH (scan gen init c)) as (I1 & I2 & I3).
    assert (Hmono : forall m, m ∈ init -> m ∈ scan gen init c).
    { intros m Hm. unfold scan. destruct (gen c) as [m0|]; [|done].
      destruct (already_added _ _ _ _); [done|]. apply elem_of_app. by left. }
    split; [|split].
    + intros m Hm. by apply I1, Hmono.
    + intros m Hm. destruct (I2 m Hm) as [Hin|(c' & Hc' & Hg)].
      * unfold scan in Hin. destruct (gen c) as [m0|] eqn:Hg; [|by left].
        destruct (already_added _ _ _ _); [by left|].
        apply elem_of_app in Hin as [Hin|Hin]; [by left|].
        apply list_elem_of_singleton in Hin as ->. right. exists c. split; [left|done].
      * right. exists c'. split; [by right|done].
    + intros c' m Hc' Hg. apply elem_of_cons in Hc' as [->|Hc']; [|by eapply I3].
      assert (Hsc : scan gen init c
                    = if already_added init (mv_tx m) (mv_ty m) (mv_d m)
                      then init else init ++ [m]).
      { unfold scan. by rewrite Hg. }
      destruct (already_added init (mv_tx m) (mv_ty m) (mv_d m)) eqn:Ha;
        rewrite Hsc in I1 |- *.
      * apply already_added_spec in Ha as (m' & Hin & Hm'). exists m'. split; [|done].
        by apply I1.
      * exists m. split; [|done]. apply I1. apply elem_of_app. right. left.
Qed.

Lemma dfs_moves_step_scan p s x y moves dir :
  at_ (grid s) x y = -1 ->
  dfs_moves_step p s x y moves dir = scan (dfs_gen p s) moves (x, y, dir).
Proof.
  intros He. unfold dfs_moves_step, scan, dfs_gen. rewrite He. simpl Z.eqb. cbv iota.
  cbv zeta.
  destruct (inTileBounds p (x + dir.1) (y + dir.2)
            && negb (at_ (grid s) (x + dir.1) (y + dir.2) =? -1)); [|done].
  destruct (getSymmetricTile _ _ x y) as [sx sy].
  destruct (isValidTile p s sx sy || (sx =? x) && (sy =? y)).
  - destruct (negb (at_ (grid s) sx sy =? -1)
              && negb (at_ (grid s) sx sy =? at_ (grid s) (x + dir.1) (y + dir.2))).
    + by destruct (already_added _ _ _ _).
    + done.
  - by destruct (already_added _ _ _ _).
Qed.

Lemma generateMoves_step_scan p s x y moves dir :
  at_ (grid s) x y = -1 ->
  generateMoves_step p s x y moves dir = scan (omp_gen p s) moves (x, y, dir).
Proof.
  intros He. unfold generateMoves_step, scan, omp_gen. rewrite He. simpl Z.eqb. cbv iota.
  cbv zeta.
  destruct (inTileBounds p (x + dir.1) (y + dir.2)); [|done]. simpl negb. cbv iota.
  destruct (at_ (grid s) (x + dir.1) (y + dir.2) =? -1); [done|].
  destruct (getSymmetricTile _ _ x y) as [sx sy].
  destruct (inTileBounds p sx sy); simpl negb; cbv iota.
  - destruct (negb (at_ (grid s) sx sy =? -1)
              && negb (at_ (grid s) sx sy =? at_ (grid s) (x + dir.1) (y + dir.2))).
    + by destruct (already_added _ _ _ _).
    + done.
  - by destruct (already_added _ _ _ _).
Qed.

Lemma scan_none {B} (gen : B -> option Move) (l : list B) moves :
  (forall c, c ∈ l -> gen c = None) -> foldl (scan gen) moves l = moves.
Proof.
  induction l as [|c l IH]; intros Hn; [done|]. cbn [foldl].
  unfold scan at 2. rewrite Hn by left. apply IH. intros c' Hc'. apply Hn. by right.
Qed.

Lemma foldl_fmap {A B C} (f : A -> C -> A) (g : B -> C) (l : list B) a :
  foldl f a (g <$> l) = foldl (fun a b => f a (g b)) a l.
Proof. revert a. induction l as [|b l IH]; intros a; [done|]. simpl. apply IH. Qed.

Lemma foldl_ext_in {A B} (f g : A -> B -> A) (l : list B) a :
  (forall a b, b ∈ l -> f a b = g a b) -> foldl f a l = foldl g a l.
Proof.
  revert a. induction l as [|b l IH]; intros a Hext; [done|]. simpl.
  rewrite Hext by left. apply IH. intros a' b' Hb'. apply Hext. by right.
Qed.

Lemma dfs_moves_scan p s :
  dfs_moves p s = foldl (scan (dfs_gen p s)) [] (tile_dirs p).
Proof.
  unfold dfs_moves, tile_dirs. apply foldl_bind. intros moves [x y].
  rewrite foldl_fmap.
  destruct (Z.eqb_spec (at_ (grid s) x y) (-1)) as [He|He].
  - apply foldl_ext_in. intros a dir _. by apply dfs_moves_step_scan.
  - symmetry. rewrite <- (foldl_fmap (scan (dfs_gen p s)) (fun dir => (x, y, dir))).
    apply scan_none. intros c Hc. apply list_elem_of_fmap in Hc as (dir & -> & _).
    unfold dfs_gen. by destruct (Z.eqb_spec (at_ (grid s) x y) (-1)).
Qed.

Lemma generateMoves_scan p s :
  generateMoves p s = foldl (scan (omp_gen p s)) [] (tile_dirs p).
Proof.
  unfold generateMoves, tile_dirs. apply foldl_bind. intros moves [x y].
  rewrite foldl_fmap.
  destruct (Z.eqb_spec (at_ (grid s) x y) (-1)) as [He|He]; simpl negb; cbv iota.
  - apply foldl_ext_in. intros a dir _. by apply generateMoves_step_scan.
  - symmetry. rewrite <- (foldl_fmap (scan (omp_gen p s)) (fun dir => (x, y, dir))).
    apply scan_none. intros c Hc. apply list_elem_of_fmap in Hc as (dir & -> & _).
    unfold omp_gen. by destruct (Z.eqb_spec (at_ (grid s) x y) (-1)).
Qed.



(** ** The moves of a state *)

Lemma isValidTile_spec p s x y :
  isValidTile p s x y = true <-> inTileBounds p x y = true /\ at_ (grid s) x y = -1.
Proof.
  unfold isValidTile. destruct (inTileBounds p x y); simpl.
  - rewrite Z.eqb_eq. tauto.
  - split; [done|]. intros [? _]. done.
Qed.

(** In a symmetric grid the mirror image of an unassigned tile about a dot
    is not a tile of that dot. *)
Lemma symmetric_empty p g x y d :
  symmetric p g -> inTileBounds p x y = true -> at_ g x y = -1 -> d <> -1 ->
  let '(sx, sy) := getSymmetricTile (dot_x (dot_of p d)) (dot_y (dot_of p d)) x y in
  inTileBounds p sx sy = true -> at_ g sx sy <> d.
Proof.
  intros Hsym Hb He Hd. rewrite getSymmetricTile_eq. intros Hb' E.
  specialize (Hsym _ _ Hb'). rewrite E in Hsym. specialize (Hsym Hd). cbv zeta in Hsym.
  rewrite getSymmetricTile_eq in Hsym.
  replace (dot_x (dot_of p d) - (dot_x (dot_of p d) - x - 1) - 1) with x in Hsym by lia.
  replace (dot_y (dot_of p d) - (dot_y (dot_of p d) - y - 1) - 1) with y in Hsym by lia.
  specialize (Hsym Hb). congruence.
Qed.

Lemma move_ok_enumerable p s m :
  move_ok p s m -> enumerable p s (mv_tx m) (mv_ty m) (mv_d m).
Proof.
  intros [Hb He Hd Hadj Hsym Hsb Hwe Hsame]. unfold enumerable.
  split; [done|]. split; [done|]. split; [done|]. split; [done|].
  rewrite <- Hsym. split; [done|].
  destruct (symmetric_was_empty m).
  - left. symmetry in Hwe. by apply Z.eqb_eq in Hwe.
  - right. right. by apply Hsame.
Qed.

Lemma move_of_gives p s x y d : gives (move_of p s x y d) x y d.
Proof. unfold move_of. by destruct (getSymmetricTile _ _ x y). Qed.

Lemma enumerable_move_ok p s x y d :
  symmetric p (grid s) -> enumerable p s x y d -> move_ok p s (move_of p s x y d).
Proof.
  intros Hsymm (Hb & He & Hd & Hadj & Hs).
  pose proof (symmetric_empty p (grid s) x y d Hsymm Hb He Hd) as Hno.
  unfold move_of. destruct (getSymmetricTile _ _ x y) as [sx sy] eqn:Es.
  destruct Hs as [Hsb Hs]. split; cbn [mv_tx mv_ty mv_d mv_sx mv_sy symmetric_was_empty]; try done.
  intros Hne. apply Z.eqb_neq in Hne. destruct Hs as [?|[[-> ->]|?]]; congruence.
Qed.

Lemma dfs_gen_Some p s x y dir m :
  inTileBounds p x y = true -> dir ∈ dirs ->
  dfs_gen p s (x, y, dir) = Some m ->
  move_ok p s m /\ mv_tx m = x /\ mv_ty m = y.
Proof.
  intros Hb Hdir. unfold dfs_gen.
  destruct (Z.eqb_spec (at_ (grid s) x y) (-1)) as [He|]; [|done]. cbv zeta.
  destruct (inTileBounds p (x + dir.1) (y + dir.2)) eqn:Hnb; [|done]. simpl andb.
  destruct (Z.eqb_spec (at_ (grid s) (x + dir.1) (y + dir.2)) (-1)) as [|Hd]; [done|].
  simpl negb. cbv iota.
  destruct (getSymmetricTile _ _ x y) as [sx sy] eqn:Es.
  destruct (isValidTile p s sx sy || (sx =? x) && (sy =? y)) eqn:Hc; [|done].
  assert (Hsb : inTileBounds p sx sy = true).
  { apply orb_true_iff in Hc as [Hc|Hc].
    - by apply isValidTile_spec in Hc as [? _].
    - apply andb_true_iff in Hc as [->%Z.eqb_eq ->%Z.eqb_eq]. done. }
  destruct (Z.eqb_spec (at_ (grid s) sx sy) (-1)) as [Hse|Hse]; simpl negb; simpl andb;
    cbv iota.
  - intros [= <-]. split; [|done].
    split; cbn [mv_tx mv_ty mv_d mv_sx mv_sy symmetric_was_empty]; try done;
      try (by exists dir); try (symmetry; by apply Z.eqb_eq).
  - destruct (Z.eqb_spec (at_ (grid s) sx sy) (at_ (grid s) (x + dir.1) (y + dir.2)))
      as [Hsd|Hsd]; simpl negb; cbv iota; [|done].
    intros [= <-]. split; [|done].
    split; cbn [mv_tx mv_ty mv_d mv_sx mv_sy symmetric_was_empty]; try done;
      try (by exists dir); try (symmetry; by apply Z.eqb_neq).
Qed.

Lemma omp_gen_Some p s x y dir m :
  inTileBounds p x y = true -> dir ∈ dirs ->
  omp_gen p s (x, y, dir) = Some m ->
  move_ok p s m /\ mv_tx m = x /\ mv_ty m = y.
Proof.
  intros Hb Hdir. unfold omp_gen.
  destruct (Z.eqb_spec (at_ (grid s) x y) (-1)) as [He|]; [|done]. cbv zeta.
  destruct (inTileBounds p (x + dir.1) (y + dir.2)) eqn:Hnb; [|done]. simpl negb. cbv iota.
  destruct (Z.eqb_spec (at_ (grid s) (x + dir.1) (y + dir.2)) (-1)) as [|Hd]; [done|].
  destruct (getSymmetricTile _ _ x y) as [sx sy] eqn:Es.
  destruct (inTileBounds p sx sy) eqn:Hsb; [|done]. simpl negb. cbv iota.
  destruct (Z.eqb_spec (at_ (grid s) sx sy) (-1)) as [Hse|Hse]; simpl negb; simpl andb;
    cbv iota.
  - intros [= <-]. split; [|done].
    split; cbn [mv_tx mv_ty mv_d mv_sx mv_sy symmetric_was_empty]; try done;
      try (by exists dir); try (symmetry; by apply Z.eqb_eq).
  - destruct (Z.eqb_spec (at_ (grid s) sx sy) (at_ (grid s) (x + dir.1) (y + dir.2)))
      as [Hsd|Hsd]; simpl negb; cbv iota; [|done].
    intros [= <-]. split; [|done].
    split; cbn [mv_tx mv_ty mv_d mv_sx mv_sy symmetric_was_empty]; try done;
      try (by exists dir); try (symmetry; by apply Z.eqb_neq).
Qed.

Lemma enumerable_omp_gen p s x y d :
  enumerable p s x y d ->
  exists dir m, dir ∈ dirs /\ omp_gen p s (x, y, dir) = Some m /\ gives m x y d.
Proof.
  intros (Hb & He & Hd & (dir & Hdir & Hnb & Hn) & Hs).
  exists dir. unfold omp_gen. rewrite He. simpl Z.eqb. cbv iota zeta.
  rewrite Hnb. simpl negb. cbv iota. rewrite Hn.
  destruct (Z.eqb_spec d (-1)) as [|_]; [done|].
  destruct (getSymmetricTile _ _ x y) as [sx sy].
  destruct Hs as [Hsb Hs]. rewrite Hsb. simpl negb. cbv iota.
  assert (Hc : negb (at_ (grid s) sx sy =? -1) && negb (at_ (grid s) sx sy =? d) = false).
  { destruct Hs as [E|[[-> ->]|E]].
    - rewrite E. done.
    - rewrite He. done.
    - rewrite E, Z.eqb_refl. by rewrite andb_false_r. }
  rewrite Hc. eexists. split; [done|]. split; [done|]. done.
Qed.

Lemma enumerable_dfs_gen p s x y d :
  symmetric p (grid s) -> enumerable p s x y d ->
  exists dir m, dir ∈ dirs /\ dfs_gen p s (x, y, dir) = Some m /\ gives m x y d.
Proof.
  intros Hsymm (Hb & He & Hd & (dir & Hdir & Hnb & Hn) & Hs).
  pose proof (symmetric_empty p (grid s) x y d Hsymm Hb He Hd) as Hno.
  exists dir. unfold dfs_gen. rewrite He. simpl Z.eqb. cbv iota zeta.
  rewrite Hnb. rewrite Hn.
  destruct (Z.eqb_spec d (-1)) as [|_]; [done|]. simpl negb. simpl andb. cbv iota.
  destruct (getSymmetricTile _ _ x y) as [sx sy].
  destruct Hs as [Hsb Hs]. specialize (Hno Hsb).
  assert (Hse : at_ (grid s) sx sy = -1).
  { destruct Hs as [E|[[-> ->]|E]]; [done|done|done]. }
  assert (Hv : isValidTile p s sx sy = true) by by apply isValidTile_spec.
  rewrite Hv, Hse. simpl. eexists. split; [done|]. split; [done|]. done.
Qed.

(** The candidates of the breadth-first search. *)
Lemma elem_of_bfs_candidates p s nx ny d :
  (nx, ny, d) ∈ bfs_candidates p s <->
  exists x y dir, (x, y) ∈ tiles p /\ at_ (grid s) x y = d /\ d <> -1 /\ dir ∈ dirs /\
    nx = x + dir.1 /\ ny = y + dir.2 /\ isValidTile p s nx ny = true /\
    let '(sx, sy) := getSymmetricTile (dot_x (dot_of p d)) (dot_y (dot_of p d)) nx ny in
    isValidTile p s sx sy || ((nx =? sx) && (ny =? sy)) = true.
Proof.
  unfold bfs_candidates. rewrite list_elem_of_bind. split.
  - intros ([x y] & Hin & Hxy).
    destruct (Z.eqb_spec (at_ (grid s) x y) (-1)) as [|Hd]; cbn [negb] in Hin.
    { by apply elem_of_nil in Hin. }
    apply list_elem_of_bind in Hin as (dir & Hin & Hdir).
    destruct (isValidTile p s (x + dir.1) (y + dir.2)) eqn:Hv; cbn [negb] in Hin.
    2:{ by apply elem_of_nil in Hin. }
    destruct (getSymmetricTile _ _ (x + dir.1) (y + dir.2)) as [sx sy] eqn:Es.
    destruct (isValidTile p s sx sy || (x + dir.1 =? sx) && (y + dir.2 =? sy)) eqn:Hc.
    2:{ by apply elem_of_nil in Hin. }
    apply list_elem_of_singleton in Hin. injection Hin as -> -> ->.
    exists x, y, dir. rewrite Es. done.
  - intros (x & y & dir & Hxy & Hat & Hd & Hdir & -> & -> & Hv & Hc).
    exists (x, y). split; [|done].
    destruct (Z.eqb_spec (at_ (grid s) x y) (-1)) as [|_]; [congruence|]. cbn [negb].
    apply list_elem_of_bind. exists dir. split; [|done].
    rewrite Hv. cbn [negb]. rewrite Hat.
    destruct (getSymmetricTile _ _ (x + dir.1) (y + dir.2)) as [sx sy].
    rewrite Hc. left.
Qed.

Lemma bfs_candidates_enumerable p s nx ny d :
  symmetric p (grid s) ->
  (nx, ny, d) ∈ bfs_candidates p s <-> enumerable p s nx ny d.
Proof.
  intros Hsymm. rewrite elem_of_bfs_candidates. split.
  - intros (x & y & dir & Hxy & Hat & Hd & Hdir & -> & -> & Hv & Hc).
    apply isValidTile_spec in Hv as [Hb He]. rewrite elem_of_tiles in Hxy.
    split; [done|]. split; [done|]. split; [done|]. split.
    + exists (- dir.1, - dir.2). split; [by apply dirs_opp|]. simpl.
      replace (x + dir.1 + - dir.1) with x by lia.
      replace (y + dir.2 + - dir.2) with y by lia.
      split; [by apply inTileBounds_spec|done].
    + destruct (getSymmetricTile _ _ (x + dir.1) (y + dir.2)) as [sx sy].
      apply orb_true_iff in Hc as [Hc|Hc].
      * apply isValidTile_spec in Hc as [? ?]. split; [done|]. by left.
      * apply andb_true_iff in Hc as [<-%Z.eqb_eq <-%Z.eqb_eq]. split; [done|].
        right. by left.
  - intros (Hb & He & Hd & (dir & Hdir & Hnb & Hn) & Hs).
    pose proof (symmetric_empty p (grid s) nx ny d Hsymm Hb He Hd) as Hno.
    exists (nx + dir.1), (ny + dir.2), (- dir.1, - dir.2).
    split; [by apply elem_of_tiles, inTileBounds_spec|]. split; [done|]. split; [done|].
    split; [by apply dirs_opp|]. cbn [fst snd]. split; [lia|]. split; [lia|].
    split; [by apply isValidTile_spec|].
    destruct (getSymmetricTile _ _ nx ny) as [sx sy]. destruct Hs as [Hsb Hs].
    specialize (Hno Hsb). apply orb_true_iff.
    destruct Hs as [E|[[-> ->]|E]]; [|right|done].
    + left. by apply isValidTile_spec.
    + by rewrite !Z.eqb_refl.
Qed.

(** The lists of moves of the depth-first searches. *)
Lemma dfs_moves_enumerable p s x y d :
  symmetric p (grid s) ->
  (exists m, m ∈ dfs_moves p s /\ gives m x y d) <-> enumerable p s x y d.
Proof.
  intros Hsymm. rewrite dfs_moves_scan.
  destruct (scan_spec (dfs_gen p s) (tile_dirs p) []) as (_ & Hsound & Hcomplete).
  split.
  - intros (m & Hin & Hx & Hy & Hd).
    destruct (Hsound m Hin) as [[]%elem_of_nil|([[x' y'] dir] & Hc & Hg)].
    apply elem_of_tile_dirs in Hc as [Ht Hdir]. rewrite elem_of_tiles in Ht.
    apply dfs_gen_Some in Hg as (Hok & _); [|by apply inTileBounds_spec|done].
    apply move_ok_enumerable in Hok. by rewrite Hx, Hy, Hd in Hok.
  - intros Hp. destruct (enumerable_dfs_gen p s x y d Hsymm Hp) as (dir & m & Hdir & Hg & Hm).
    destruct Hp as (Hb & _).
    destruct (Hcomplete (x, y, dir) m) as (m' & Hin & Hm').
    + apply elem_of_tile_dirs. split; [|done]. by apply elem_of_tiles, inTileBounds_spec.
    + done.
    + exists m'. split; [done|]. destruct Hm as (Ex & Ey & Ed).
      by rewrite Ex, Ey, Ed in Hm'.
Qed.

Lemma generateMoves_enumerable p s x y d :
  (exists m, m ∈ generateMoves p s /\ gives m x y d) <-> enumerable p s x y d.
Proof.
  rewrite generateMoves_scan.
  destruct (scan_spec (omp_gen p s) (tile_dirs p) []) as (_ & Hsound & Hcomplete).
  split.
  - intros (m & Hin & Hx & Hy & Hd).
    destruct (Hsound m Hin) as [[]%elem_of_nil|([[x' y'] dir] & Hc & Hg)].
    apply elem_of_tile_dirs in Hc as [Ht Hdir]. rewrite elem_of_tiles in Ht.
    apply omp_gen_Some in Hg as (Hok & _); [|by apply inTileBounds_spec|done].
    apply move_ok_enumerable in Hok. by rewrite Hx, Hy, Hd in Hok.
  - intros Hp. destruct (enumerable_omp_gen p s x y d Hp) as (dir & m & Hdir & Hg & Hm).
    destruct Hp as (Hb & _).
    destruct (Hcomplete (x, y, dir) m) as (m' & Hin & Hm').
    + apply elem_of_tile_dirs. split; [|done]. by apply elem_of_tiles, inTileBounds_spec.
    + done.
    + exists m'. split; [done|]. destruct Hm as (Ex & Ey & Ed).
      by rewrite Ex, Ey, Ed in Hm'.
Qed.

Lemma dfs_moves_ok p s m : m ∈ dfs_moves p s -> move_ok p s m.
Proof.
  rewrite dfs_moves_scan.
  destruct (scan_spec (dfs_gen p s) (tile_dirs p) []) as (_ & Hsound & _).
  intros Hin. destruct (Hsound m Hin) as [[]%elem_of_nil|([[x' y'] dir] & Hc & Hg)].
  apply elem_of_tile_dirs in Hc as [Ht Hdir]. rewrite elem_of_tiles in Ht.
  apply dfs_gen_Some in Hg as (Hok & _); [done|by apply inTileBounds_spec|done].
Qed.

Lemma generateMoves_ok p s m : m ∈ generateMoves p s -> move_ok p s m.
Proof.
  rewrite generateMoves_scan.
  destruct (scan_spec (omp_gen p s) (tile_dirs p) []) as (_ & Hsound & _).
  intros Hin. destruct (Hsound m Hin) as [[]%elem_of_nil|([[x' y'] dir] & Hc & Hg)].
  apply elem_of_tile_dirs in Hc as [Ht Hdir]. rewrite elem_of_tiles in Ht.
  apply omp_gen_Some in Hg as (Hok & _); [done|by apply inTileBounds_spec|done].
Qed.

(** *** The conditions of a move, stated without the tables of the code *)

(** The four neighbours of a tile are the tiles at the offsets of [dirs]. *)
Lemma adjacent4_dirs x y (P : Z -> Z -> Prop) :
  (exists nx ny, adjacent4 x y nx ny /\ P nx ny) <->
  (exists dir, dir ∈ dirs /\ P (x + dir.1) (y + dir.2)).
Proof.
  unfold adjacent4. split.
  - intros (nx & ny & Hadj & HP). exists (nx - x, ny - y). cbn [fst snd].
    replace (x + (nx - x)) with nx by lia. replace (y + (ny - y)) with ny by lia.
    split; [|done]. apply elem_of_dirs.
    assert (Hc : (nx - x = 1 /\ ny - y = 0) \/ (nx - x = -1 /\ ny - y = 0) \/
                 (nx - x = 0 /\ ny - y = 1) \/ (nx - x = 0 /\ ny - y = -1)) by lia.
    destruct Hc as [[-> ->]|[[-> ->]|[[-> ->]| [-> ->]]]]; tauto.
  - intros ([dx dy] & Hd & HP). cbn [fst snd] in HP.
    exists (x + dx), (y + dy). split; [|done].
    apply elem_of_dirs in Hd as [E|[E|[E|E]]]; injection E as -> ->; lia.
Qed.

Lemma proposable_enumerable p s x y d :
  proposable p s x y d <-> enumerable p s x y d.
Proof.
  unfold proposable, enumerable, mirror_tile. rewrite getSymmetricTile_eq.
  rewrite (adjacent4_dirs x y
             (fun nx ny => inTileBounds p nx ny = true /\ at_ (grid s) nx ny = d)).
  done.
Qed.



(** ** Applying and undoing a move *)

Lemma move_dot_range p z s m :
  state_ok p z s -> move_ok p s m -> 0 <= mv_d m < Z.of_nat (length (pz_dots p)).
Proof.
  intros Hs Hm. destruct (mo_adj _ _ _ Hm) as (dir & _ & Hb & Hd).
  pose proof (mo_dot _ _ _ Hm) as Hne.
  destruct (st_cells _ _ _ Hs _ _ Hb) as [E|E]; [congruence|]. by rewrite Hd in E.
Qed.

(** The two shapes of [applyMove] on a move of a search state: the tile is
    its own mirror image, or the mirror image is another, unassigned
    tile. *)
Lemma applyMove_cases p z s m :
  puzzle_ok p -> state_ok p z s -> move_ok p s m ->
  (mv_sx m = mv_tx m /\ mv_sy m = mv_ty m /\
   applyMove p z m s
   = mkSt (set_at (grid s) (mv_tx m) (mv_ty m) (mv_d m)) (filledCount s + 1)
          (Z.lxor (hash s) (z (mv_ty m * pz_w p + mv_tx m) (mv_d m)))) \/
  (~ (mv_sx m = mv_tx m /\ mv_sy m = mv_ty m) /\
   at_ (grid s) (mv_sx m) (mv_sy m) = -1 /\ symmetric_was_empty m = true /\
   applyMove p z m s
   = mkSt (set_at (set_at (grid s) (mv_tx m) (mv_ty m) (mv_d m))
                  (mv_sx m) (mv_sy m) (mv_d m))
          (filledCount s + 1 + 1)
          (Z.lxor (Z.lxor (hash s) (z (mv_ty m * pz_w p + mv_tx m) (mv_d m)))
                  (z (mv_sy m * pz_w p + mv_sx m) (mv_d m)))).
Proof.
  intros Hok Hs Hm. pose proof (move_dot_range p z s m Hs Hm) as Hr.
  pose proof (ok_ndots p Hok) as Hn.
  unfold applyMove. rewrite int16_id by lia. cbn [grid filledCount hash].
  destruct (Z.eqb_spec (mv_tx m) (mv_sx m)) as [Ex|Ex];
    destruct (Z.eqb_spec (mv_ty m) (mv_sy m)) as [Ey|Ey]; cbn [negb orb andb].
  1:{ left. done. }
  all: right; split; [intros [? ?]; congruence|].
  all: pose proof (symmetric_empty p (grid s) (mv_tx m) (mv_ty m) (mv_d m)
                     (st_sym _ _ _ Hs) (mo_bounds _ _ _ Hm) (mo_empty _ _ _ Hm)
                     (mo_dot _ _ _ Hm)) as Hno;
    rewrite <- (mo_sym _ _ _ Hm) in Hno; specialize (Hno (mo_sym_bounds _ _ _ Hm)).
  all: destruct (symmetric_was_empty m) eqn:Hwe;
    [|exfalso; apply Hno; by apply (mo_same _ _ _ Hm)].
  all: pose proof (mo_was_empty _ _ _ Hm) as He; rewrite Hwe in He; symmetry in He;
    apply Z.eqb_eq in He.
  all: done.
Qed.

Lemma move_sym_eq p s m :
  move_ok p s m ->
  mv_sx m = dot_x (dot_of p (mv_d m)) - mv_tx m - 1 /\
  mv_sy m = dot_y (dot_of p (mv_d m)) - mv_ty m - 1.
Proof.
  intros Hm. pose proof (mo_sym _ _ _ Hm) as E. rewrite getSymmetricTile_eq in E.
  by injection E.
Qed.

(** The grid after [applyMove]. *)
Lemma applyMove_at p z s m x y :
  puzzle_ok p -> state_ok p z s -> move_ok p s m -> inTileBounds p x y = true ->
  at_ (grid (applyMove p z m s)) x y
  = if decide ((x = mv_tx m /\ y = mv_ty m) \/ (x = mv_sx m /\ y = mv_sy m))
    then mv_d m else at_ (grid s) x y.
Proof.
  intros Hok Hs Hm Hb. pose proof (st_dims _ _ _ Hs) as Hd.
  pose proof (mo_bounds _ _ _ Hm) as Hbt. pose proof (mo_sym_bounds _ _ _ Hm) as Hbs.
  rewrite inTileBounds_spec in Hb, Hbt, Hbs.
  destruct (applyMove_cases p z s m Hok Hs Hm) as [(Ex & Ey & ->)|(Hne & He & _ & ->)];
    cbn [grid].
  - rewrite (at_set_at (pz_w p) (pz_h p)) by (done || lia).
    destruct (decide (mv_tx m = x /\ mv_ty m = y)) as [[<- <-]|Hn].
    + rewrite decide_True; [done|]. by left.
    + rewrite decide_False; [done|]. rewrite Ex, Ey. intros [[-> ->]|[-> ->]]; tauto.
  - rewrite (at_set_at (pz_w p) (pz_h p)) by (by apply set_at_dims || lia).
    rewrite (at_set_at (pz_w p) (pz_h p)) by (done || lia).
    destruct (decide (mv_sx m = x /\ mv_sy m = y)) as [[<- <-]|Hn1].
    + rewrite decide_True; [done|]. by right.
    + destruct (decide (mv_tx m = x /\ mv_ty m = y)) as [[<- <-]|Hn2].
      * rewrite decide_True; [done|]. by left.
      * rewrite decide_False; [done|]. intros [[-> ->]|[-> ->]]; tauto.
Qed.

Lemma applyMove_dims p z s m :
  grid_dims (pz_w p) (pz_h p) (grid s) ->
  grid_dims (pz_w p) (pz_h p) (grid (applyMove p z m s)).
Proof.
  intros Hd. unfold applyMove.
  destruct ((negb (mv_tx m =? mv_sx m) || negb (mv_ty m =? mv_sy m))
            && symmetric_was_empty m); cbn [grid]; repeat apply set_at_dims; done.
Qed.

(** [applyMove] keeps the invariant of the search states. *)
Lemma applyMove_state_ok p z s m :
  puzzle_ok p -> state_ok p z s -> move_ok p s m -> state_ok p z (applyMove p z m s).
Proof.
  intros Hok Hs Hm. pose proof (move_dot_range p z s m Hs Hm) as Hr.
  pose proof (st_dims _ _ _ Hs) as Hd.
  pose proof (mo_bounds _ _ _ Hm) as Hbt. pose proof (mo_sym_bounds _ _ _ Hm) as Hbs.
  pose proof (mo_empty _ _ _ Hm) as Het. pose proof (mo_dot _ _ _ Hm) as Hdm.
  destruct (move_sym_eq p s m Hm) as [Esx Esy].
  split.
  - by apply applyMove_dims.
  - intros x y Hb. rewrite (applyMove_at p z s m x y) by done.
    destruct (decide _); [right; lia|]. by apply (st_cells _ _ _ Hs).
  - intros x y Hb. rewrite (applyMove_at p z s m x y) by done.
    destruct (decide _) as [Hc|Hc].
    + intros _. cbv zeta. rewrite getSymmetricTile_eq. intros Hb'.
      rewrite (applyMove_at p z s m) by done. rewrite decide_True; [done|].
      destruct Hc as [[-> ->]|[-> ->]]; [right|left]; lia.
    + intros Hne. cbv zeta. rewrite getSymmetricTile_eq. intros Hb'.
      rewrite (applyMove_at p z s m) by done.
      pose proof (st_sym _ _ _ Hs x y Hb Hne) as Hsy. cbv zeta in Hsy.
      rewrite getSymmetricTile_eq in Hsy. specialize (Hsy Hb').
      rewrite decide_False; [done|].
      destruct (applyMove_cases p z s m Hok Hs Hm) as [(Ex & Ey & _)|(_ & He & _ & _)].
      * intros [[E1 E2]|[E1 E2]]; rewrite E1, E2 in Hsy; rewrite ?Ex, ?Ey in Hsy;
          congruence.
      * intros [[E1 E2]|[E1 E2]]; rewrite E1, E2 in Hsy; congruence.
  - destruct (applyMove_cases p z s m Hok Hs Hm) as [(Ex & Ey & ->)|(Hne & He & _ & ->)];
      cbn [grid hash].
    + rewrite zobrist_sum_set by done. by rewrite (st_hash _ _ _ Hs).
    + rewrite inTileBounds_spec in Hbt, Hbs.
      rewrite zobrist_sum_set; [|by apply set_at_dims|by apply inTileBounds_spec| |done].
      * rewrite zobrist_sum_set by (done || by apply inTileBounds_spec).
        by rewrite (st_hash _ _ _ Hs).
      * rewrite (at_set_at (pz_w p) (pz_h p)) by (done || lia).
        rewrite decide_False; [done|]. intros [? ?]. apply Hne. done.
  - destruct (applyMove_cases p z s m Hok Hs Hm) as [(Ex & Ey & ->)|(Hne & He & _ & ->)];
      cbn [grid filledCount].
    + rewrite filled_set by done. by rewrite (st_filled _ _ _ Hs).
    + rewrite inTileBounds_spec in Hbt, Hbs.
      rewrite filled_set; [|by apply set_at_dims|by apply inTileBounds_spec| |done].
      * rewrite filled_set by (done || by apply inTileBounds_spec).
        by rewrite (st_filled _ _ _ Hs).
      * rewrite (at_set_at (pz_w p) (pz_h p)) by (done || lia).
        rewrite decide_False; [done|]. intros [? ?]. apply Hne. done.
Qed.

(** [undoMove] restores the state [applyMove] was called in. *)
Lemma undoMove_applyMove p z s m :
  puzzle_ok p -> state_ok p z s -> move_ok p s m ->
  undoMove p z m (applyMove p z m s) = s.
Proof.
  intros Hok Hs Hm. pose proof (st_dims _ _ _ Hs) as Hd.
  pose proof (mo_bounds _ _ _ Hm) as Hbt. pose proof (mo_sym_bounds _ _ _ Hm) as Hbs.
  pose proof (mo_empty _ _ _ Hm) as Het.
  rewrite inTileBounds_spec in Hbt, Hbs.
  destruct (applyMove_cases p z s m Hok Hs Hm) as [(Ex & Ey & ->)|(Hne & He & Hwe & ->)];
    unfold undoMove; cbn [grid filledCount hash].
  - rewrite Ex, Ey, !Z.eqb_refl. cbn [negb orb andb].
    destruct s as [g fc h]. cbn [grid filledCount hash] in *. f_equal.
    + apply (grid_ext (pz_w p) (pz_h p)); [by repeat apply set_at_dims|done|].
      intros x y Hx Hy.
      rewrite (at_set_at (pz_w p) (pz_h p)) by (by apply set_at_dims || lia).
      rewrite (at_set_at (pz_w p) (pz_h p)) by (done || lia).
      destruct (decide _) as [[<- <-]|?]; done.
    + lia.
    + apply lxor_cancel.
  - rewrite Hwe.
    assert (Hb : negb (mv_tx m =? mv_sx m) || negb (mv_ty m =? mv_sy m) = true).
    { destruct (Z.eqb_spec (mv_tx m) (mv_sx m)); [|done].
      destruct (Z.eqb_spec (mv_ty m) (mv_sy m)); [|done]. exfalso. apply Hne. done. }
    rewrite Hb. cbn [andb grid filledCount hash].
    destruct s as [g fc h]. cbn [grid filledCount hash] in *. f_equal.
    + apply (grid_ext (pz_w p) (pz_h p)); [by repeat apply set_at_dims|done|].
      intros x y Hx Hy.
      rewrite (at_set_at (pz_w p) (pz_h p)) by (by repeat apply set_at_dims || lia).
      rewrite (at_set_at (pz_w p) (pz_h p)) by (by repeat apply set_at_dims || lia).
      rewrite (at_set_at (pz_w p) (pz_h p)) by (by repeat apply set_at_dims || lia).
      rewrite (at_set_at (pz_w p) (pz_h p)) by (done || lia).
      destruct (decide (mv_sx m = x /\ mv_sy m = y)) as [[<- <-]|?]; [done|].
      destruct (decide (mv_tx m = x /\ mv_ty m = y)) as [[<- <-]|?]; done.
    + lia.
    + apply lxor_cancel2.
Qed.

(** The successor the breadth-first search builds for a candidate is the
    state [applyMove] builds for the same tile and dot. *)
Lemma bfs_successor_move p z s m :
  puzzle_ok p -> state_ok p z s -> move_ok p s m ->
  bfs_successor p z s (mv_tx m, mv_ty m, mv_d m) = Some (applyMove p z m s).
Proof.
  intros Hok Hs Hm. pose proof (st_dims _ _ _ Hs) as Hd.
  pose proof (mo_bounds _ _ _ Hm) as Hbt. pose proof (mo_sym_bounds _ _ _ Hm) as Hbs.
  rewrite inTileBounds_spec in Hbt, Hbs.
  pose proof (move_dot_range p z s _ Hs Hm) as Hr. pose proof (ok_ndots p Hok) as Hn.
  unfold bfs_successor. rewrite <- (mo_sym _ _ _ Hm). rewrite !int16_id by lia.
  cbn [grid filledCount hash].
  destruct (applyMove_cases p z s _ Hok Hs Hm) as [(Ex & Ey & ->)|(Hne & He & Hwe & ->)].
  - rewrite Ex, Ey, !Z.eqb_refl. done.
  - assert (Hb : negb (mv_tx m =? mv_sx m) || negb (mv_ty m =? mv_sy m) = true).
    { destruct (Z.eqb_spec (mv_tx m) (mv_sx m)); [|done].
      destruct (Z.eqb_spec (mv_ty m) (mv_sy m)); [|done]. exfalso. apply Hne. done. }
    rewrite Hb. rewrite (at_set_at (pz_w p) (pz_h p)) by (done || lia).
    rewrite decide_False by (intros [? ?]; apply Hne; done).
    rewrite He. done.
Qed.

Lemma bfs_successor_applyMove p z s nx ny d :
  puzzle_ok p -> state_ok p z s -> enumerable p s nx ny d ->
  bfs_successor p z s (nx, ny, d) = Some (applyMove p z (move_of p s nx ny d) s).
Proof.
  intros Hok Hs Hp.
  pose proof (enumerable_move_ok p s nx ny d (st_sym _ _ _ Hs) Hp) as Hm.
  pose proof (bfs_successor_move p z s _ Hok Hs Hm) as H.
  destruct (move_of_gives p s nx ny d) as (E1 & E2 & E3). by rewrite E1, E2, E3 in H.
Qed.

(** ** The reachable states are search states *)

Lemma chain_state_ok p z stk s : puzzle_ok p -> chain p z stk s -> state_ok p z s.
Proof.
  intros Hok. destruct stk as [|m stk]; simpl; [done|].
  intros (s0 & _ & Hs0 & Hm & ->). by apply applyMove_state_ok.
Qed.

Lemma reach_chain p z stk s : puzzle_ok p -> reach p z stk s -> chain p z stk s.
Proof.
  intros Hok. induction 1 as [s Hseed|s [[nx ny] d] s' _ IH Hc Hsucc|stk s m _ IH Hin
                              |stk s m _ IH Hin|stk s m _ IH].
  - simpl. by apply seeded_state_ok.
  - simpl in IH |- *. apply bfs_candidates_enumerable in Hc; [|apply IH].
    rewrite bfs_successor_applyMove in Hsucc by done. injection Hsucc as <-.
    apply applyMove_state_ok; [done|done|]. apply enumerable_move_ok; [apply IH|done].
  - simpl. exists s. split; [done|]. split; [by eapply chain_state_ok|].
    split; [|done]. by apply dfs_moves_ok.
  - simpl. exists s. split; [done|]. split; [by eapply chain_state_ok|].
    split; [|done]. by apply generateMoves_ok.
  - simpl in IH. destruct IH as (s0 & Hch & Hs0 & Hm & ->).
    by rewrite undoMove_applyMove.
Qed.

Lemma reach_state_ok p z stk s : puzzle_ok p -> reach p z stk s -> state_ok p z s.
Proof. intros Hok Hr. eapply chain_state_ok; [done|]. by apply reach_chain. Qed.



(** ** The Game ID codec *)

Lemma ord_chr n : 0 <= n < 256 -> ord (chr n) = n.
Proof.
  intros Hn. unfold ord, chr. rewrite nat_ascii_embedding by lia. lia.
Qed.

Lemma chr_ord c : chr (ord c) = c.
Proof. unfold ord, chr. rewrite Nat2Z.id. apply ascii_nat_embedding. Qed.

Lemma ord_bound c : 0 <= ord c < 256.
Proof. unfold ord. pose proof (nat_ascii_bounded c). lia. Qed.

Lemma run_char_not_dot c : is_run_char c -> ~ is_dot_char c.
Proof.
  intros Hr [-> | ->]; unfold is_run_char in Hr.
  - change (ord "M") with 77 in Hr. lia.
  - change (ord "B") with 66 in Hr. lia.
Qed.

Lemma cells_of_dot c :
  is_dot_char c -> cells_of_char c = [Some (bool_decide (c = "B"%char))].
Proof. intros [-> | ->]; reflexivity. Qed.

Lemma cells_of_run c :
  is_run_char c -> cells_of_char c = replicate (Z.to_nat (ord c - 96)) None.
Proof.
  intros Hr. unfold cells_of_char.
  rewrite !bool_decide_eq_false_2.
  - unfold is_run_char in Hr.
    destruct (Z.leb_spec 97 (ord c)); [|lia]. destruct (Z.leb_spec (ord c) 122); [|lia].
    done.
  - intros ->. apply (run_char_not_dot _ Hr). by right.
  - intros ->. apply (run_char_not_dot _ Hr). by left.
Qed.

(** *** The decoder on cells *)

Lemma decode_char_cells sx c pos dots :
  decode_char sx (pos, dots) c
  = (pos + Z.of_nat (length (cells_of_char c)), dots ++ dots_at sx pos (cells_of_char c)).
Proof.
  unfold decode_char, cells_of_char.
  destruct (bool_decide (c = "M"%char)); [done|].
  destruct (bool_decide (c = "B"%char)); [done|].
  destruct (Z.leb_spec 97 (ord c)); cbn [andb].
  2:{ simpl. by rewrite Z.add_0_r, app_nil_r. }
  destruct (Z.leb_spec (ord c) 122).
  2:{ simpl. by rewrite Z.add_0_r, app_nil_r. }
  rewrite length_replicate.
  assert (Hd : forall n p, dots_at sx p (replicate n None) = []).
  { induction n as [|n IH]; intros p; [done|]. simpl. apply IH. }
  rewrite Hd, app_nil_r. f_equal. lia.
Qed.

Lemma dots_at_app sx pos l1 l2 :
  dots_at sx pos (l1 ++ l2)
  = dots_at sx pos l1 ++ dots_at sx (pos + Z.of_nat (length l1)) l2.
Proof.
  revert pos. induction l1 as [|[b|] l1 IH]; intros pos.
  - simpl. by rewrite Z.add_0_r.
  - simpl. rewrite IH. do 3 f_equal. lia.
  - simpl. rewrite IH. do 2 f_equal. lia.
Qed.

Lemma decode_cells sx data pos dots :
  foldl (decode_char sx) (pos, dots) data
  = (pos + Z.of_nat (length (cells_of data)), dots ++ dots_at sx pos (cells_of data)).
Proof.
  revert pos dots. induction data as [|c data IH]; intros pos dots.
  - simpl. by rewrite Z.add_0_r, app_nil_r.
  - cbn [foldl]. rewrite decode_char_cells, IH.
    unfold cells_of. cbn [mbind list_bind]. fold (cells_of data).
    change (List.app (cells_of_char c) (data ≫= cells_of_char))
      with (cells_of_char c ++ cells_of data).
    rewrite length_app, dots_at_app, app_assoc. f_equal. lia.
Qed.

Lemma decode_data_cells sx data : decode_data sx data = dots_at sx 0 (cells_of data).
Proof. unfold decode_data. by rewrite decode_cells. Qed.

Lemma span_cells data : span data = Z.of_nat (length (cells_of data)).
Proof. unfold span. by rewrite decode_cells. Qed.



(** *** The letters of a run *)

Lemma emit_zs_spec fuel : forall k r,
  1 <= r <= 26 -> 0 <= k <= Z.of_nat fuel ->
  emit_zs fuel (26 * k + r) = (replicate (Z.to_nat k) "z"%char, r).
Proof.
  induction fuel as [|fuel IH]; intros k r Hr Hk.
  - assert (k = 0) as -> by lia. done.
  - cbn [emit_zs]. destruct (Z.ltb_spec 26 (26 * k + r)) as [Hlt|Hge].
    + replace (26 * k + r - 26) with (26 * (k - 1) + r) by lia.
      rewrite IH by lia.
      replace (Z.to_nat k) with (S (Z.to_nat (k - 1))) by lia. done.
    + assert (k = 0) as -> by lia. done.
Qed.

Lemma emit_run_spec k r :
  1 <= r <= 26 -> 0 <= k ->
  emit_run (26 * k + r) = replicate (Z.to_nat k) "z"%char ++ [chr (96 + r)].
Proof.
  intros Hr Hk. unfold emit_run. rewrite emit_zs_spec by lia.
  by replace (97 + r - 1) with (96 + r) by lia.
Qed.

(** A run of a multiple of 26 cells is written with ['z'] only. *)
Lemma emit_run_zs k :
  1 <= k -> emit_run (26 * k) = replicate (Z.to_nat k) "z"%char.
Proof.
  intros Hk. replace (26 * k) with (26 * (k - 1) + 26) by lia.
  rewrite emit_run_spec by lia.
  replace (Z.to_nat k) with (S (Z.to_nat (k - 1))) by lia.
  change (chr (96 + 26)) with "z"%char.
  generalize (Z.to_nat (k - 1)). intros n. induction n as [|n IH]; [done|].
  simpl. by rewrite IH.
Qed.

Lemma run_split run :
  1 <= run -> exists k r, 0 <= k /\ 1 <= r <= 26 /\ run = 26 * k + r.
Proof.
  intros Hr. exists ((run - 1) `div` 26), ((run - 1) `mod` 26 + 1).
  pose proof (Z.div_mod (run - 1) 26 ltac:(lia)).
  pose proof (Z.mod_pos_bound (run - 1) 26 ltac:(lia)).
  split; [apply Z.div_pos; lia|]. lia.
Qed.

Lemma cells_of_app l1 l2 : cells_of (l1 ++ l2) = cells_of l1 ++ cells_of l2.
Proof. unfold cells_of. apply bind_app. Qed.

Lemma cells_of_zs n :
  cells_of (replicate n "z"%char) = replicate (26 * n) None.
Proof.
  induction n as [|n IH]; [done|].
  replace (26 * S n)%nat with (26 + 26 * n)%nat by lia.
  rewrite replicate_add, <- IH. done.
Qed.

Lemma cells_of_emit_run run :
  1 <= run -> cells_of (emit_run run) = replicate (Z.to_nat run) None.
Proof.
  intros Hr. destruct (run_split run Hr) as (k & r & Hk & Hr' & ->).
  rewrite emit_run_spec by done. rewrite cells_of_app, cells_of_zs.
  unfold cells_of at 1. cbn [mbind list_bind]. rewrite app_nil_r.
  rewrite cells_of_run by (unfold is_run_char; rewrite ord_chr; lia).
  rewrite ord_chr by lia. rewrite <- replicate_add. f_equal. lia.
Qed.

(** *** Decoding what the encoder writes *)

Lemma enc_cells l : forall run out,
  0 <= run ->
  cells_of (enc_finish (foldl enc_step (run, out) l))
  = cells_of out ++ replicate (Z.to_nat run) None ++ l.
Proof.
  induction l as [|[b|] l IH]; intros run out Hrun.
  - cbn [foldl enc_finish]. rewrite app_nil_r.
    destruct (Z.eqb_spec run 0) as [->|Hne]; cbn [negb].
    + by rewrite app_nil_r.
    + rewrite cells_of_app, cells_of_emit_run by lia. done.
  - cbn [foldl enc_step]. rewrite IH by lia. cbn [Z.to_nat replicate app].
    rewrite cells_of_app.
    assert (Hch : cells_of [if b then "B"%char else "M"%char] = [Some b])
      by by destruct b.
    rewrite Hch. rewrite <- !app_assoc. cbn [app].
    destruct (Z.eqb_spec run 0) as [->|Hne]; cbn [negb].
    + done.
    + rewrite cells_of_app, cells_of_emit_run by lia. by rewrite <- app_assoc.
  - cbn [foldl enc_step]. rewrite IH by lia. f_equal.
    replace (Z.to_nat (run + 1)) with (Z.to_nat run + 1)%nat by lia.
    rewrite replicate_add. by rewrite <- app_assoc.
Qed.

Lemma cells_of_enc l : cells_of (enc l) = l.
Proof. unfold enc. by rewrite enc_cells. Qed.

(** *** Encoding what the decoder reads *)

Lemma enc_step_run n : forall run out,
  foldl enc_step (run, out) (replicate n None) = (run + Z.of_nat n, out).
Proof.
  induction n as [|n IH]; intros run out.
  - simpl. by rewrite Z.add_0_r.
  - cbn [replicate foldl enc_step]. rewrite IH. f_equal. lia.
Qed.

Lemma enc_well_formed data : forall run out,
  well_formed data -> 0 <= run ->
  (forall c rest, data = c :: rest -> is_run_char c -> exists k, 0 <= k /\ run = 26 * k) ->
  enc_finish (foldl enc_step (run, out) (cells_of data))
  = out ++ (if run =? 0 then [] else emit_run run) ++ data.
Proof.
  induction data as [|c rest IH]; intros run out Hwf Hrun Hz.
  - cbn [cells_of mbind list_bind foldl enc_finish]. rewrite app_nil_r.
    destruct (run =? 0); cbn [negb]; [by rewrite app_nil_r|done].
  - destruct Hwf as (Hc & Hnext & Hwf).
    change (cells_of (c :: rest)) with (cells_of_char c ++ cells_of rest).
    rewrite foldl_app. destruct Hc as [Hdot|Hr].
    + rewrite (cells_of_dot c Hdot). cbn [foldl enc_step].
      rewrite IH; [|done|lia|by exists 0].
      cbn [Z.eqb app].
      assert (Hch : (if bool_decide (c = "B"%char) then "B"%char else "M"%char) = c).
      { destruct Hdot as [-> | ->]; reflexivity. }
      rewrite Hch. destruct (run =? 0); cbn [negb]; by rewrite <- ?app_assoc.
    + rewrite (cells_of_run c Hr), enc_step_run.
      destruct (Hz c rest eq_refl Hr) as (k & Hk & ->).
      unfold is_run_char in Hr.
      rewrite Z2Nat.id by lia.
      rewrite IH; [|done|lia|].
      * f_equal.
        assert (Hpre : (if 26 * k =? 0 then [] else emit_run (26 * k))
                       = replicate (Z.to_nat k) "z"%char).
        { destruct (Z.eqb_spec (26 * k) 0) as [E|E].
          - assert (k = 0) as -> by lia. done.
          - apply emit_run_zs. lia. }
        rewrite Hpre.
        destruct (Z.eqb_spec (26 * k + (ord c - 96)) 0) as [E|E]; [lia|].
        rewrite emit_run_spec by lia.
        replace (96 + (ord c - 96)) with (ord c) by lia. rewrite chr_ord.
        by rewrite <- app_assoc.
      * intros c' rest' -> Hr'.
        destruct (decide (ord c = 122)) as [E|E].
        -- exists (k + 1). split; [lia|]. lia.
        -- exfalso. apply (run_char_not_dot c' Hr'). by apply Hnext.
Qed.

Lemma enc_cells_of data : well_formed data -> enc (cells_of data) = data.
Proof.
  intros Hwf. unfold enc. rewrite enc_well_formed; [done|done|lia|].
  intros c rest _ _. by exists 0.
Qed.

(** *** Dots and positions *)

Lemma dots_at_pos sx pos l d :
  d ∈ dots_at sx pos l ->
  exists p, pos <= p /\ dot_x d = Z.rem p sx /\ dot_y d = Z.quot p sx.
Proof.
  revert pos. induction l as [|[b|] l IH]; intros pos; simpl.
  - intros []%elem_of_nil.
  - intros [->|Hin]%elem_of_cons.
    + exists pos. simpl. split; [lia|done].
    + destruct (IH _ Hin) as (p & ? & ?). exists p. split; [lia|done].
  - intros Hin. destruct (IH _ Hin) as (p & ? & ?). exists p. split; [lia|done].
Qed.

Lemma dots_at_inj sx l1 : forall l2 pos,
  0 < sx -> length l1 = length l2 ->
  dots_at sx pos l1 = dots_at sx pos l2 -> l1 = l2.
Proof.
  assert (Hhead : forall pos b l ds,
            0 < sx -> dots_at sx (pos + 1) l = mkDot (Z.rem pos sx) (Z.quot pos sx) b :: ds ->
            False).
  { intros pos b l ds Hsx E.
    destruct (dots_at_pos sx (pos + 1) l (mkDot (Z.rem pos sx) (Z.quot pos sx) b))
      as (p & Hp & Ex & Ey); [rewrite E; left|]. simpl in Ex, Ey.
    pose proof (Z.quot_rem' p sx). pose proof (Z.quot_rem' pos sx). nia. }
  induction l1 as [|[b1|] l1 IH]; intros [|[b2|] l2] pos Hsx Hlen; try done; simpl.
  - intros [= -> E]. f_equal. apply (IH l2 (pos + 1)); [done|by injection Hlen|done].
  - intros E. exfalso. symmetry in E. by eapply Hhead.
  - intros E. exfalso. by eapply Hhead.
  - intros E. f_equal. apply (IH l2 (pos + 1)); [done|by injection Hlen|done].
Qed.

(** *** The scan of the board *)

Lemma cells_linear sx (n : nat) :
  0 <= sx ->
  (fun c : Z * Z => c.2 * sx + c.1)
    <$> (y ← seqZ 0 (Z.of_nat n); (fun x => (x, y)) <$> seqZ 0 sx)
  = seqZ 0 (sx * Z.of_nat n).
Proof.
  intros Hsx. induction n as [|n IH].
  - by rewrite Z.mul_0_r.
  - replace (Z.of_nat (S n)) with (Z.of_nat n + 1) by lia.
    rewrite seqZ_app by lia. rewrite bind_app, fmap_app, IH.
    replace (sx * (Z.of_nat n + 1)) with (sx * Z.of_nat n + sx) by lia.
    rewrite (seqZ_app 0 (sx * Z.of_nat n) sx) by lia. f_equal.
    assert (E1 : seqZ (0 + Z.of_nat n) 1 = [Z.of_nat n]).
    { rewrite Z.add_0_l, seqZ_cons by lia. by rewrite seqZ_nil by lia. }
    rewrite E1. cbn [mbind list_bind]. rewrite app_nil_r.
    rewrite <- list_fmap_compose.
    replace (seqZ (0 + sx * Z.of_nat n) sx)
      with (Z.add (sx * Z.of_nat n) <$> seqZ 0 sx)
      by (rewrite fmap_add_seqZ; f_equal; lia).
    apply list_fmap_ext. intros _ x _. simpl. lia.
Qed.

Lemma encode_game_enc s : 0 <= gs_sx s -> 0 <= gs_sy s -> encode_game s = enc (kinds s).
Proof.
  intros Hsx Hsy. unfold encode_game, enc, kinds.
  assert (E : foldl (fun acc y => foldl (fun acc x => encode_step s acc x y) acc
                                        (seqZ 0 (gs_sx s)))
                    (0, []) (seqZ 0 (gs_sy s))
              = foldl enc_step (0, [])
                  ((fun i => kind_of (deref s i)) <$> seqZ 0 (gs_sx s * gs_sy s))).
  { rewrite (foldl_nested (fun acc c => encode_step s acc c.1 c.2)).
    rewrite <- (Z2Nat.id (gs_sy s)) at 2 by lia.
    rewrite <- (cells_linear (gs_sx s)) by lia. rewrite Z2Nat.id by lia.
    rewrite <- list_fmap_compose, foldl_fmap.
    apply foldl_ext_in. intros [run out] [x y] _. simpl.
    unfold encode_step, kind_of, SPACE.
    by destruct (has_flag _ F_DOT). }
  rewrite E. unfold enc_finish. by destruct (foldl enc_step _ _).
Qed.

Lemma board_dots_at s : shape s -> board_dots s = dots_at (gs_sx s) 0 (kinds s).
Proof.
  intros Hs. unfold board_dots, kinds.
  assert (G : forall (n : nat) pos, 0 <= pos ->
            pos + Z.of_nat n <= gs_sx s * gs_sy s ->
            omap (fun i => (fun b => mkDot (sp_x (deref s i)) (sp_y (deref s i)) b)
                             <$> kind_of (deref s i)) (seqZ pos (Z.of_nat n))
            = dots_at (gs_sx s) pos
                ((fun i => kind_of (deref s i)) <$> seqZ pos (Z.of_nat n))).
  { induction n as [|n IH]; intros pos Hpos Hle; [done|].
    rewrite seqZ_cons by lia.
    replace (Z.pred (Z.of_nat (S n))) with (Z.of_nat n) by lia.
    replace (Z.succ pos) with (pos + 1) by lia.
    assert (Hv : valid s pos) by (unfold valid; rewrite (shape_len _ Hs); lia).
    destruct (valid_coords s pos Hs Hv) as [Hin Hsp].
    destruct (shape_cell s Hs _ _ Hin) as (Ex & Ey & _). rewrite Hsp in Ex, Ey.
    pose proof (shape_sx _ Hs).
    specialize (IH (pos + 1) ltac:(lia) ltac:(lia)).
    cbn [omap list_omap fmap list_fmap].
    destruct (kind_of (deref s pos)) as [b|]; cbn [dots_at option_fmap option_map].
    - rewrite Ex, Ey, Z.rem_mod_nonneg, Z.quot_div_nonneg by lia. f_equal. exact IH.
    - exact IH. }
  pose proof (shape_sx _ Hs). pose proof (shape_sy _ Hs).
  rewrite <- (Z2Nat.id (gs_sx s * gs_sy s)) by nia. apply G; [lia|].
  rewrite Z2Nat.id by nia. lia.
Qed.

Lemma kinds_length s :
  0 <= gs_sx s * gs_sy s -> Z.of_nat (length (kinds s)) = gs_sx s * gs_sy s.
Proof. intros H. unfold kinds. rewrite length_fmap, length_seqZ. lia. Qed.



(** *** The text the encoder writes *)

Lemma wf_zs n rest : well_formed rest -> well_formed (replicate n "z"%char ++ rest).
Proof.
  intros Hr. induction n as [|n IH]; [done|]. cbn [replicate app well_formed].
  split; [right; unfold is_run_char; by vm_compute|]. split; [|done].
  intros _ H. exfalso. apply H. reflexivity.
Qed.

Lemma wf_emit_run run rest :
  1 <= run -> well_formed rest ->
  match rest with [] => True | c :: _ => is_dot_char c end ->
  well_formed (emit_run run ++ rest).
Proof.
  intros Hrun Hr Hhd. destruct (run_split run Hrun) as (k & r & Hk & Hrr & ->).
  rewrite emit_run_spec by done. rewrite <- app_assoc. apply wf_zs.
  cbn [app well_formed]. split; [|done].
  right. unfold is_run_char. rewrite ord_chr by lia. lia.
Qed.

Lemma wf_dot c rest : is_dot_char c -> well_formed rest -> well_formed (c :: rest).
Proof.
  intros Hc Hr. cbn [well_formed]. split; [by left|]. split; [|done].
  intros Hrun. by apply run_char_not_dot in Hrun.
Qed.

Lemma dot_letter b : is_dot_char (if b : bool then "B"%char else "M"%char).
Proof. destruct b; [by right|by left]. Qed.

(** What the scan appends to the text written so far. *)
Lemma enc_tail l : forall run,
  0 <= run ->
  exists tl, (forall out, enc_finish (foldl enc_step (run, out) l) = out ++ tl) /\
             well_formed tl.
Proof.
  induction l as [|[b|] l IH]; intros run Hrun.
  - cbn [foldl enc_finish]. destruct (Z.eqb_spec run 0) as [->|Hne]; cbn [negb].
    + exists []. split; [intros out; by rewrite app_nil_r|done].
    + exists (emit_run run). split; [done|].
      rewrite <- (app_nil_r (emit_run run)). apply wf_emit_run; [lia|done|done].
  - destruct (IH 0 ltac:(lia)) as (tl & Htl & Hwf). cbn [foldl enc_step].
    destruct (Z.eqb_spec run 0) as [->|Hne]; cbn [negb].
    + exists ((if b then "B"%char else "M"%char) :: tl). split.
      * intros out. rewrite Htl, <- app_assoc. done.
      * apply wf_dot; [apply dot_letter|done].
    + exists (emit_run run ++ (if b then "B"%char else "M"%char) :: tl). split.
      * intros out. rewrite Htl, <- !app_assoc. done.
      * apply wf_emit_run; [lia| |apply dot_letter].
        apply wf_dot; [apply dot_letter|done].
  - destruct (IH (run + 1) ltac:(lia)) as (tl & Htl & Hwf). cbn [foldl enc_step].
    by exists tl.
Qed.

Lemma enc_wf l : well_formed (enc l).
Proof.
  destruct (enc_tail l 0 ltac:(lia)) as (tl & Htl & Hwf).
  unfold enc. by rewrite Htl.
Qed.

Lemma wf_alphabet data :
  well_formed data -> Forall (fun c => is_dot_char c \/ is_run_char c) data.
Proof.
  induction data as [|c data IH]; [done|]. intros (Hc & _ & Hr).
  constructor; [done|by apply IH].
Qed.

(** Every character of the alphabet stands for at least one cell. *)
Lemma alphabet_length data :
  Forall (fun c => is_dot_char c \/ is_run_char c) data ->
  (length data <= length (cells_of data))%nat.
Proof.
  induction 1 as [|c data Hc _ IH]; [done|].
  change (cells_of (c :: data)) with (cells_of_char c ++ cells_of data).
  rewrite length_app. cbn [length].
  assert (1 <= length (cells_of_char c))%nat; [|lia].
  destruct Hc as [Hc|Hc].
  - by rewrite cells_of_dot.
  - rewrite cells_of_run by done. rewrite length_replicate. unfold is_run_char in Hc. lia.
Qed.

(** *** The dots [game_update_dots] collects *)

Lemma omap_length_filter {A B} (f : A -> option B) (P : A -> Prop)
    `{!forall a, Decision (P a)} (l : list A) :
  (forall a, is_Some (f a) <-> P a) -> length (omap f l) = length (filter P l).
Proof.
  intros Hf. induction l as [|a l IH]; [done|].
  cbn [omap list_omap]. rewrite filter_cons.
  destruct (f a) as [b|] eqn:E.
  - rewrite decide_True by (apply Hf; rewrite E; done). simpl. by rewrite IH.
  - rewrite decide_False; [done|]. intros HP. apply Hf in HP. rewrite E in HP.
    by destruct HP.
Qed.

Lemma board_dots_length s :
  length (board_dots s)
  = length (filter (fun i => has_flag (sp_flags (deref s i)) F_DOT = true)
                   (seqZ 0 (gs_sx s * gs_sy s))).
Proof.
  unfold board_dots. apply omap_length_filter. intros i. unfold kind_of.
  destruct (has_flag (sp_flags (deref s i)) F_DOT); simpl.
  - split; [done|]. intros _. by eexists.
  - split; [intros [? ?]; done|done].
Qed.

Lemma decode_encode s :
  shape s -> decode_data (gs_sx s) (encode_game s) = board_dots s.
Proof.
  intros Hs. pose proof (shape_sx _ Hs). pose proof (shape_sy _ Hs).
  rewrite decode_data_cells, encode_game_enc, cells_of_enc by lia.
  symmetry. by apply board_dots_at.
Qed.



(** *** The text of a Game ID *)

Lemma find_char_app c l1 l2 :
  c ∉ l1 -> find_char c (l1 ++ c :: l2) = Some (length l1).
Proof.
  induction l1 as [|a l1 IH]; intros Hn; simpl.
  - by rewrite bool_decide_eq_true_2.
  - rewrite bool_decide_eq_false_2.
    + rewrite IH; [done|]. intros Hin. apply Hn. by right.
    + intros ->. apply Hn. left.
Qed.

Lemma int32_id v : INT_MIN <= v <= INT_MAX -> int32 v = v.
Proof.
  unfold INT_MIN, INT_MAX, int32. intros Hv. rewrite Z.mod_small by lia. lia.
Qed.

(** [fromGameId] on a text made of the texts of two numbers and the data. *)
Lemma fromGameId_layout ws hs data :
  ":"%char ∉ ws -> "x"%char ∉ ws -> ":"%char ∉ hs ->
  fromGameId (ws ++ "x"%char :: hs ++ ":"%char :: data)
  = match stoi ws, stoi hs with
    | Some w, Some h =>
      Some (mkPuzzle w h (int32 (2 * w + 1)) (int32 (2 * h + 1))
                     (decode_data (int32 (2 * w + 1)) data))
    | _, _ => None
    end.
Proof.
  intros Hc1 Hx Hc2. unfold fromGameId.
  assert (E1 : find_char ":"%char (ws ++ "x"%char :: hs ++ ":"%char :: data)
               = Some (length (ws ++ "x"%char :: hs))).
  { replace (ws ++ "x"%char :: hs ++ ":"%char :: data)
      with ((ws ++ "x"%char :: hs) ++ ":"%char :: data) by by rewrite <- app_assoc.
    apply find_char_app. intros Hin. apply elem_of_app in Hin as [?|Hin]; [done|].
    apply elem_of_cons in Hin as [?|?]; done. }
  rewrite E1, (find_char_app _ ws) by done.
  rewrite length_app. cbn [length].
  rewrite bool_decide_eq_false_2 by lia.
  assert (E2 : substr (ws ++ "x"%char :: hs ++ ":"%char :: data) 0 (length ws) = ws).
  { unfold substr. rewrite drop_0. by rewrite take_app_length. }
  assert (E3 : substr (ws ++ "x"%char :: hs ++ ":"%char :: data) (length ws + 1)
                 (length ws + S (length hs) - (length ws + 1)) = hs).
  { unfold substr.
    replace (ws ++ "x"%char :: hs ++ ":"%char :: data)
      with ((ws ++ ["x"%char]) ++ hs ++ ":"%char :: data) by by rewrite <- app_assoc.
    rewrite drop_app_length' by (rewrite length_app; simpl; lia).
    replace (length ws + S (length hs) - (length ws + 1))%nat with (length hs) by lia.
    by rewrite take_app_length. }
  rewrite E2, E3.
  destruct (stoi ws) as [w|]; [|done]. destruct (stoi hs) as [h|]; [|done].
  do 2 f_equal.
  replace (ws ++ "x"%char :: hs ++ ":"%char :: data)
    with ((ws ++ "x"%char :: hs ++ [":"%char]) ++ data).
  - rewrite drop_app_length'; [done|]. rewrite !length_app. simpl.
    rewrite length_app. simpl. lia.
  - rewrite <- !app_assoc. simpl. by rewrite <- app_assoc.
Qed.

(** The same for a width whose internal size [2 * w + 1] fits an [int]. *)
Lemma fromGameId_text ws hs data w h :
  ":"%char ∉ ws -> "x"%char ∉ ws -> ":"%char ∉ hs ->
  stoi ws = Some w -> stoi hs = Some h ->
  INT_MIN <= 2 * w + 1 <= INT_MAX ->
  fromGameId (ws ++ "x"%char :: hs ++ ":"%char :: data)
  = Some (mkPuzzle w h (2 * w + 1) (int32 (2 * h + 1)) (decode_data (2 * w + 1) data)).
Proof.
  intros Hc1 Hx Hc2 Hw Hh Hfit. rewrite fromGameId_layout by done.
  by rewrite Hw, Hh, int32_id.
Qed.


(** *** What the number parsers read *)













(** ** More on the search states *)

Lemma bind_length_const {A B} (f : A -> list B) (l : list A) (n : nat) :
  (forall a, a ∈ l -> length (f a) = n) -> length (l ≫= f) = (length l * n)%nat.
Proof.
  induction l as [|a l IH]; intros Hf; [done|].
  cbn [mbind list_bind]. rewrite length_app.
  change (list_bind A B f l) with (l ≫= f). rewrite IH.
  - rewrite Hf by left. simpl. lia.
  - intros b Hb. apply Hf. by right.
Qed.

Lemma tiles_length p :
  0 <= pz_w p -> 0 <= pz_h p -> Z.of_nat (length (tiles p)) = pz_w p * pz_h p.
Proof.
  intros Hw Hh. unfold tiles. rewrite (bind_length_const _ _ (Z.to_nat (pz_w p))).
  - rewrite length_seqZ. nia.
  - intros y _. by rewrite length_fmap, length_seqZ.
Qed.

Lemma filter_length_full {A} (P : A -> Prop) `{!forall x, Decision (P x)} (l : list A) :
  length (filter P l) = length l <-> Forall P l.
Proof.
  induction l as [|a l IH].
  - split; [constructor|done].
  - rewrite filter_cons. pose proof (length_filter P l) as Hle.
    destruct (decide (P a)) as [Hp|Hp]; simpl.
    + rewrite Forall_cons. split.
      * intros E. split; [done|]. apply IH. lia.
      * intros [_ Hl]. f_equal. by apply IH.
    + split; [lia|]. intros [? _]%Forall_cons. done.
Qed.

(** The count of assigned tiles reaches the number of tiles exactly when
    every tile is assigned. *)
Lemma filled_full p g :
  0 <= pz_w p -> 0 <= pz_h p ->
  filled p g = pz_w p * pz_h p <->
  forall x y, inTileBounds p x y = true -> at_ g x y <> -1.
Proof.
  intros Hw Hh. unfold filled. rewrite <- tiles_length by done.
  rewrite Nat2Z.inj_iff, filter_length_full, Forall_forall. split.
  - intros H x y Hb. apply (H (x, y)). apply elem_of_tiles. by apply inTileBounds_spec.
  - intros H [x y] Hin. apply H. apply inTileBounds_spec. by apply elem_of_tiles.
Qed.

Lemma filled_bounds p g :
  0 <= pz_w p -> 0 <= pz_h p -> 0 <= filled p g <= pz_w p * pz_h p.
Proof.
  intros Hw Hh. unfold filled. rewrite <- tiles_length by done.
  pose proof (length_filter (fun '(x, y) => at_ g x y <> -1) (tiles p)). lia.
Qed.

(** On a symmetric grid the two depth-first enumerations build the same
    move for a tile and a direction. *)
Lemma dfs_gen_omp_gen p s c :
  symmetric p (grid s) -> c ∈ tile_dirs p -> dfs_gen p s c = omp_gen p s c.
Proof.
  intros Hsym Hc. destruct c as [[x y] dir].
  apply elem_of_tile_dirs in Hc as [Ht Hdir]. rewrite elem_of_tiles in Ht.
  assert (Hb : inTileBounds p x y = true) by by apply inTileBounds_spec.
  unfold dfs_gen, omp_gen.
  destruct (Z.eqb_spec (at_ (grid s) x y) (-1)) as [He|]; [|done]. cbv zeta.
  destruct (inTileBounds p (x + dir.1) (y + dir.2)) eqn:Hnb; [|done].
  cbn [andb negb].
  destruct (Z.eqb_spec (at_ (grid s) (x + dir.1) (y + dir.2)) (-1)) as [|Hd]; [done|].
  cbn [negb].
  pose proof (symmetric_empty p (grid s) x y _ Hsym Hb He Hd) as Hno.
  destruct (getSymmetricTile _ _ x y) as [sx sy].
  destruct (inTileBounds p sx sy) eqn:Hsb; cbn [negb].
  - specialize (Hno eq_refl).
    destruct (Z.eqb_spec (at_ (grid s) sx sy) (-1)) as [Hse|Hse].
    + assert (Hv : isValidTile p s sx sy = true) by by apply isValidTile_spec.
      by rewrite Hv.
    + cbn [negb andb].
      destruct (Z.eqb_spec (at_ (grid s) sx sy) (at_ (grid s) (x + dir.1) (y + dir.2)));
        [done|]. cbn [negb].
      assert (Hv : isValidTile p s sx sy = false).
      { destruct (isValidTile p s sx sy) eqn:E; [|done].
        apply isValidTile_spec in E as [_ ?]. done. }
      rewrite Hv. cbn [orb].
      destruct ((sx =? x) && (sy =? y)) eqn:Hsame; [|done].
      apply andb_true_iff in Hsame as [->%Z.eqb_eq ->%Z.eqb_eq]. done.
  - assert (Hv : isValidTile p s sx sy = false).
    { destruct (isValidTile p s sx sy) eqn:E; [|done].
      apply isValidTile_spec in E as [? _]. congruence. }
    rewrite Hv. cbn [orb].
    destruct ((sx =? x) && (sy =? y)) eqn:Hsame; [|done].
    apply andb_true_iff in Hsame as [->%Z.eqb_eq ->%Z.eqb_eq]. congruence.
Qed.

Lemma scan_ext {B} (f g : B -> option Move) (l : list B) moves :
  (forall c, c ∈ l -> f c = g c) -> foldl (scan f) moves l = foldl (scan g) moves l.
Proof.
  intros Hext. apply foldl_ext_in. intros a c Hc. unfold scan. by rewrite Hext.
Qed.

Lemma dfs_moves_generateMoves p s :
  symmetric p (grid s) -> dfs_moves p s = generateMoves p s.
Proof.
  intros Hsym. rewrite dfs_moves_scan, generateMoves_scan.
  apply scan_ext. intros c Hc. by apply dfs_gen_omp_gen.
Qed.

(** *** The dots of the data lie in the part of the grid it covers *)

Lemma dots_at_range sx pos l d :
  d ∈ dots_at sx pos l ->
  exists q, pos <= q < pos + Z.of_nat (length l) /\
            dot_x d = Z.rem q sx /\ dot_y d = Z.quot q sx.
Proof.
  revert pos. induction l as [|[b|] l IH]; intros pos; simpl.
  - intros []%elem_of_nil.
  - intros [->|Hin]%elem_of_cons.
    + exists pos. simpl. split; [lia|done].
    + destruct (IH _ Hin) as (q & ? & ?). exists q. split; [lia|done].
  - intros Hin. destruct (IH _ Hin) as (q & ? & ?). exists q. split; [lia|done].
Qed.

Lemma dots_at_length sx pos l : (length (dots_at sx pos l) <= length l)%nat.
Proof.
  revert pos. induction l as [|[b|] l IH]; intros pos; simpl; [lia| |].
  - specialize (IH (pos + 1)). lia.
  - specialize (IH (pos + 1)). lia.
Qed.

Lemma cells_of_char_length c :
  (length (cells_of_char c) <= 26)%nat.
Proof.
  unfold cells_of_char. destruct (bool_decide _); [simpl; lia|].
  destruct (bool_decide _); [simpl; lia|].
  destruct (Z.leb_spec 97 (ord c)); cbn [andb]; [|simpl; lia].
  destruct (Z.leb_spec (ord c) 122); [|simpl; lia].
  rewrite length_replicate. lia.
Qed.

Lemma decode_data_length sx data :
  (length (decode_data sx data) <= length data)%nat.
Proof.
  unfold decode_data.
  assert (G : forall acc, (length (foldl (decode_char sx) acc data).2
                           <= length acc.2 + length data)%nat).
  { induction data as [|c data IH]; intros [pos dots]; [simpl; lia|].
    cbn [foldl]. etrans; [apply IH|]. cbn [length snd].
    assert (length (decode_char sx (pos, dots) c).2 <= S (length dots))%nat; [|lia].
    unfold decode_char.
    destruct (bool_decide _); [cbn [snd]; rewrite length_app; simpl; lia|].
    destruct (bool_decide _); [cbn [snd]; rewrite length_app; simpl; lia|].
    destruct (_ && _); simpl; lia. }
  specialize (G (0, [])). simpl in G. lia.
Qed.

Lemma decode_data_range sx data :
  0 < sx ->
  Forall (fun d => 0 <= dot_x d < sx /\ 0 <= dot_y d /\
                   dot_y d * sx + dot_x d < span data)
         (decode_data sx data).
Proof.
  intros Hsx. rewrite decode_data_cells, span_cells. apply Forall_forall. intros d Hd.
  destruct (dots_at_range sx 0 _ d Hd) as (q & Hq & -> & ->).
  rewrite Z.rem_mod_nonneg, Z.quot_div_nonneg by lia.
  pose proof (Z.mod_pos_bound q sx Hsx). pose proof (Z.div_mod q sx ltac:(lia)).
  split; [lia|]. split; [apply Z.div_pos; lia|]. nia.
Qed.



(** ** The answers of the searches *)

Lemma mark_used_spec nd g l : forall used,
  let r := foldl (mark_used nd g) used l in
  length r = length used /\
  forall i, r !! i = Some true <->
    used !! i = Some true \/
    ((i < length used)%nat /\ exists c, c ∈ l /\ 0 <= at_ g c.1 c.2 < nd /\
                                        Z.to_nat (at_ g c.1 c.2) = i).
Proof.
  induction l as [|c l IH]; intros used; cbn [foldl]; cbv zeta.
  - split; [done|]. intros i. split; [by left|].
    intros [?|(_ & c & []%elem_of_nil & _)]. done.
  - destruct (IH (mark_used nd g used c)) as [Hlen Hi].
    assert (Hl1 : length (mark_used nd g used c) = length used).
    { unfold mark_used. destruct (_ && _); [apply length_insert|done]. }
    split; [congruence|]. intros i. rewrite Hi, Hl1. clear Hi.
    assert (Hm : mark_used nd g used c !! i = Some true <->
                 used !! i = Some true \/
                 ((i < length used)%nat /\ 0 <= at_ g c.1 c.2 < nd /\
                  Z.to_nat (at_ g c.1 c.2) = i)).
    { unfold mark_used.
      destruct (Z.leb_spec 0 (at_ g c.1 c.2)); cbn [andb].
      2:{ split; [by left|]. intros [?|(_ & ? & _)]; [done|lia]. }
      destruct (Z.ltb_spec (at_ g c.1 c.2) nd).
      2:{ split; [by left|]. intros [?|(_ & ? & _)]; [done|lia]. }
      destruct (decide (Z.to_nat (at_ g c.1 c.2) = i)) as [E|E].
      - rewrite E. split.
        + intros Hlk. right. apply lookup_lt_Some in Hlk. rewrite length_insert in Hlk.
          split; [done|]. split; [lia|done].
        + intros [Hlk|(Hlt & _)].
          * apply lookup_lt_Some in Hlk. by rewrite list_lookup_insert_eq.
          * by rewrite list_lookup_insert_eq.
      - rewrite list_lookup_insert_ne by done. split; [by left|].
        intros [?|(_ & _ & ?)]; done. }
    rewrite Hm. split.
    + intros [[?|(? & ? & ?)]|(? & c' & ? & ?)].
      * by left.
      * right. split; [done|]. exists c. split; [left|done].
      * right. split; [done|]. exists c'. split; [by right|done].
    + intros [?|(? & c' & [->|Hin]%elem_of_cons & ?)].
      * left. by left.
      * left. right. done.
      * right. split; [done|]. by exists c'.
Qed.

Lemma allDotsUsed_mark p s :
  allDotsUsed p s
  = forallb id (foldl (mark_used (Z.of_nat (length (pz_dots p))) (grid s))
                      (replicate (length (pz_dots p)) false) (tiles p)).
Proof.
  unfold allDotsUsed, tiles. cbv zeta. f_equal.
  by rewrite (foldl_nested (mark_used (Z.of_nat (length (pz_dots p))) (grid s))).
Qed.

(** [allDotsUsed] holds exactly when every dot owns a tile of the board. *)
Lemma allDotsUsed_spec p s :
  allDotsUsed p s = true <->
  forall d, 0 <= d < Z.of_nat (length (pz_dots p)) ->
    exists x y, inTileBounds p x y = true /\ at_ (grid s) x y = d.
Proof.
  rewrite allDotsUsed_mark.
  destruct (mark_used_spec (Z.of_nat (length (pz_dots p))) (grid s) (tiles p)
              (replicate (length (pz_dots p)) false)) as [Hlen Hi].
  rewrite length_replicate in Hlen, Hi.
  set (r := foldl _ _ _) in *.
  assert (Hall : forallb id r = true <-> forall i, (i < length r)%nat -> r !! i = Some true).
  { rewrite forallb_forall. split.
    - intros H i Hlt. destruct (lookup_lt_is_Some_2 r i Hlt) as [b Hb].
      rewrite Hb. f_equal. apply (H b). apply list_elem_of_In.
      by apply list_elem_of_lookup_2 in Hb.
    - intros H b Hb. apply list_elem_of_In, list_elem_of_lookup in Hb as [i Hb].
      rewrite (H i) in Hb by (by apply lookup_lt_Some in Hb). by injection Hb as <-. }
  rewrite Hall, Hlen. split.
  - intros H d Hd. specialize (H (Z.to_nat d) ltac:(lia)). apply Hi in H.
    destruct H as [H|(_ & [x y] & Hin & Hr & E)].
    + apply lookup_replicate in H as [? _]. done.
    + exists x, y. cbn [fst snd] in *. split; [|lia].
      apply inTileBounds_spec. by apply elem_of_tiles.
  - intros H i Hlt. apply Hi. right. split; [done|].
    destruct (H (Z.of_nat i) ltac:(lia)) as (x & y & Hb & E).
    exists (x, y). cbn [fst snd]. split; [|rewrite E; lia].
    apply elem_of_tiles. by apply inTileBounds_spec.
Qed.

(** The states the searches reach are built by moves only. *)
Lemma history_grown p z : forall stk s, history p z stk s -> grown p z s.
Proof.
  induction stk as [|m stk IH]; intros s; simpl; [done|].
  intros (s0 & Hh & Hs0 & Hm & ->). apply grown_move; [by apply IH|done|done].
Qed.

Lemma reach_history p z stk s : puzzle_ok p -> reach p z stk s -> history p z stk s.
Proof.
  intros Hok Hr.
  induction Hr as [s Hseed|s [[nx ny] d] s' Hr IH Hc Hsucc|stk s m Hr IH Hin
                   |stk s m Hr IH Hin|stk s m Hr IH].
  - by apply grown_seed.
  - pose proof (reach_state_ok p z [] s Hok Hr) as Hs.
    apply bfs_candidates_enumerable in Hc; [|apply Hs].
    rewrite bfs_successor_applyMove in Hsucc by done. injection Hsucc as <-.
    simpl in *. apply grown_move; [done|done|].
    apply enumerable_move_ok; [apply Hs|done].
  - pose proof (reach_state_ok p z stk s Hok Hr) as Hs.
    simpl. exists s. split; [done|]. split; [done|]. split; [|done].
    by apply dfs_moves_ok.
  - pose proof (reach_state_ok p z stk s Hok Hr) as Hs.
    simpl. exists s. split; [done|]. split; [done|]. split; [|done].
    by apply generateMoves_ok.
  - simpl in IH. destruct IH as (s0 & Hh & Hs0 & Hm & ->).
    by rewrite undoMove_applyMove.
Qed.

Lemma reach_grown p z stk s : puzzle_ok p -> reach p z stk s -> grown p z s.
Proof. intros Hok Hr. eapply history_grown. by apply reach_history. Qed.

(** No move changes an assigned tile: the tiles that touch a dot keep the
    dot [seedForcedTiles] gave them. *)
Lemma grown_seed_done p z s :
  puzzle_ok p -> grown p z s -> seed_done p (Z.of_nat (length (pz_dots p))) s.
Proof.
  intros Hok Hg. induction Hg as [s Hseed|s m Hg IH Hs Hm].
  - by destruct (seedForcedTiles_spec p z s true Hok Hseed) as [[_ H] _].
  - intros d x y Hd Hb Ht. specialize (IH d x y Hd Hb Ht).
    rewrite (applyMove_at p z s m x y Hok Hs Hm Hb).
    destruct (decide _) as [[[-> ->]|[-> ->]]|_]; [| |done].
    + pose proof (mo_empty _ _ _ Hm). lia.
    + destruct (symmetric_was_empty m) eqn:E.
      * pose proof (mo_was_empty _ _ _ Hm) as Hw. rewrite E in Hw.
        symmetry in Hw. apply Z.eqb_eq in Hw. lia.
      * rewrite <- (mo_same _ _ _ Hm E). done.
Qed.

(** The test of the C solver. *)
Lemma all_dots_used_spec p s :
  all_dots_used p s = true <->
  forall d, 0 <= d < Z.of_nat (length (pz_dots p)) ->
    exists x y, inTileBounds p x y = true /\ at_ (grid s) x y = d.
Proof.
  unfold all_dots_used. rewrite forallb_forall. split.
  - intros H d Hd. specialize (H d). rewrite <- list_elem_of_In, elem_of_seqZ in H.
    specialize (H ltac:(lia)). apply existsb_exists in H as ([x y] & Hin & Heq).
    apply list_elem_of_In, elem_of_tiles, inTileBounds_spec in Hin.
    exists x, y. split; [done|]. by apply Z.eqb_eq.
  - intros H d Hd. apply list_elem_of_In, elem_of_seqZ in Hd.
    destruct (H d ltac:(lia)) as (x & y & Hb & Heq).
    apply existsb_exists. exists (x, y). split; [|by apply Z.eqb_eq].
    by apply list_elem_of_In, elem_of_tiles, inTileBounds_spec.
Qed.

(** A complete state of a search on which [allDotsUsed] holds. *)
Lemma reach_complete p z stk s :
  puzzle_ok p -> reach p z stk s ->
  filledCount s = pz_w p * pz_h p -> allDotsUsed p s = true ->
  complete_assignment p (grid s).
Proof.
  intros Hok Hr Hfull Hused. pose proof (reach_state_ok p z stk s Hok Hr) as Hs.
  rewrite (st_filled _ _ _ Hs) in Hfull. rewrite filled_full in Hfull by apply Hok.
  split; [|split; [|split]].
  - intros x y Hb. destruct (st_cells _ _ _ Hs x y Hb) as [E|E]; [|done].
    by apply Hfull in E.
  - apply Hs.
  - by apply allDotsUsed_spec.
  - intros d x y Hd Hb Ht.
    by apply (grown_seed_done p z s Hok (reach_grown p z stk s Hok Hr)).
Qed.

(** *** Breadth-first search *)

Lemma bfs_push_reach p z s acc c :
  Forall (reach p z []) acc.1 -> reach p z [] s -> c ∈ bfs_candidates p s ->
  Forall (reach p z []) (bfs_push acc (bfs_successor p z s c)).1.
Proof.
  intros Hacc Hs Hc. unfold bfs_push.
  destruct (bfs_successor p z s c) as [next|] eqn:E; [|done].
  destruct acc as [q visited]. destruct (bool_decide _); [done|]. cbn [fst] in *.
  apply Forall_app. split; [done|]. constructor; [|constructor].
  by apply (reach_bfs p z s c).
Qed.

Lemma bfs_loop_sound p z fuel : forall q visited s,
  Forall (reach p z []) q -> bfs_loop p z fuel q visited = Found s ->
  reach p z [] s /\ filledCount s = pz_w p * pz_h p /\ allDotsUsed p s = true.
Proof.
  induction fuel as [|fuel IH]; intros q visited s Hq; [done|]. cbn [bfs_loop].
  destruct q as [|s0 q']; [done|]. apply Forall_cons in Hq as [Hs0 Hq'].
  destruct (Z.eqb_spec (filledCount s0) (pz_w p * pz_h p)) as [Hfull|Hnf].
  - destruct (allDotsUsed p s0) eqn:Hused.
    + intros [= <-]. done.
    + by apply IH.
  - destruct (foldl bfs_push (q', visited) (bfs_successor p z s0 <$> bfs_candidates p s0))
      as [q'' visited'] eqn:E.
    apply IH.
    assert (G : forall cs acc, (forall c, c ∈ cs -> c ∈ bfs_candidates p s0) ->
              Forall (reach p z []) acc.1 ->
              Forall (reach p z []) (foldl bfs_push acc (bfs_successor p z s0 <$> cs)).1).
    { induction cs as [|c cs IHc]; intros acc Hcs Hacc; [done|]. cbn [fmap list_fmap foldl].
      apply IHc; [intros c' Hc'; apply Hcs; by right|].
      apply bfs_push_reach; [done|done|]. apply Hcs. left. }
    specialize (G (bfs_candidates p s0) (q', visited) ltac:(done) Hq').
    by rewrite E in G.
Qed.

(** *** Depth-first search *)

Lemma dfs_sound p z fuel : forall stk s visited s2 visited2 r,
  puzzle_ok p -> reach p z stk s ->
  dfs p z fuel s visited = Found (s2, visited2, r) ->
  if r then (exists stk', reach p z stk' s2) /\ filledCount s2 = pz_w p * pz_h p /\
            allDotsUsed p s2 = true
  else s2 = s.
Proof.
  induction fuel as [|fuel IH]; intros stk s visited s2 visited2 r Hok Hr; [done|].
  cbn [dfs].
  destruct (Z.eqb_spec (filledCount s) (pz_w p * pz_h p)) as [Hfull|Hnf].
  { intros [= <- <- <-]. destruct (allDotsUsed p s) eqn:Hused; [|done].
    split; [by exists stk|done]. }
  pose proof (reach_state_ok p z stk s Hok Hr) as Hs.
  assert (G : forall ms visited,
            (forall m, m ∈ ms -> m ∈ dfs_moves p s) ->
            (fix dfs_try (moves : list Move) (s : State) (visited : gset Z)
               : outcome (State * gset Z * bool) :=
               match moves with
               | [] => Found (s, visited, false)
               | m :: rest =>
                 let s1 := applyMove p z m s in
                 if bool_decide (hash s1 ∈ visited)
                 then dfs_try rest (undoMove p z m s1) visited
                 else
                   match dfs p z fuel s1 ({[hash s1]} ∪ visited) with
                   | Found (s2, visited2, true) => Found (s2, visited2, true)
                   | Found (s2, visited2, false) => dfs_try rest (undoMove p z m s2) visited2
                   | NoSolution => NoSolution
                   | OutOfFuel => OutOfFuel
                   end
               end) ms s visited = Found (s2, visited2, r) ->
            if r then (exists stk', reach p z stk' s2) /\
                      filledCount s2 = pz_w p * pz_h p /\ allDotsUsed p s2 = true
            else s2 = s).
  { induction ms as [|m rest IHm]; intros v Hms.
    - intros [= <- <- <-]. done.
    - assert (Hm : m ∈ dfs_moves p s) by (apply Hms; left).
      assert (Hmo : move_ok p s m) by by apply dfs_moves_ok.
      cbv zeta. rewrite (undoMove_applyMove p z s m Hok Hs Hmo).
      destruct (bool_decide (hash (applyMove p z m s) ∈ v)).
      + apply IHm. intros m' Hm'. apply Hms. by right.
      + destruct (dfs p z fuel (applyMove p z m s) _)
          as [[[s3 v3] [|]]| |] eqn:E; [| |done|done].
        * intros [= <- <- <-].
          apply (IH (m :: stk) _ _ _ _ true Hok (reach_dfs p z stk s m Hr Hm) E).
        * pose proof (IH (m :: stk) _ _ _ _ false Hok (reach_dfs p z stk s m Hr Hm) E)
            as ->.
          rewrite (undoMove_applyMove p z s m Hok Hs Hmo).
          apply IHm. intros m' Hm'. apply Hms. by right. }
  apply G. done.
Qed.



(** ** Termination of the searches *)

Lemma applyMove_filledCount p z m s :
  filledCount s + 1 <= filledCount (applyMove p z m s).
Proof. unfold applyMove. destruct (_ && _); cbn [filledCount]; lia. Qed.

Lemma bfs_successor_filledCount p z s c s' :
  bfs_successor p z s c = Some s' -> filledCount s + 1 <= filledCount s'.
Proof.
  destruct c as [[nx ny] d]. unfold bfs_successor.
  destruct (getSymmetricTile _ _ _ _) as [sx sy]. cbv zeta.
  destruct (_ || _).
  - destruct (_ =? _); [|done]. intros [= <-]. cbn [filledCount]. lia.
  - intros [= <-]. cbn [filledCount]. lia.
Qed.

Lemma reach_filled_bounds p z stk s :
  puzzle_ok p -> reach p z stk s -> 0 <= filledCount s <= pz_w p * pz_h p.
Proof.
  intros Hok Hr. rewrite (st_filled _ _ _ (reach_state_ok p z stk s Hok Hr)).
  apply filled_bounds; apply Hok.
Qed.

(** The recursion of [dfs] is at most as deep as the number of unassigned
    tiles. *)
Lemma dfs_returns p z fuel : forall stk s visited,
  puzzle_ok p -> reach p z stk s ->
  pz_w p * pz_h p - filledCount s < Z.of_nat fuel ->
  exists s2 visited2 r, dfs p z fuel s visited = Found (s2, visited2, r).
Proof.
  induction fuel as [|fuel IH]; intros stk s visited Hok Hr Hfuel.
  { pose proof (reach_filled_bounds p z stk s Hok Hr). lia. }
  cbn [dfs].
  destruct (Z.eqb_spec (filledCount s) (pz_w p * pz_h p)) as [Hfull|Hnf]; [by eauto|].
  pose proof (reach_state_ok p z stk s Hok Hr) as Hs.
  generalize (fun m (H : m ∈ dfs_moves p s) => H).
  generalize (dfs_moves p s) at 1 3. intros ms. revert visited.
  induction ms as [|m rest IHm]; intros v Hms; [by eauto|].
  assert (Hm : m ∈ dfs_moves p s) by (apply Hms; left).
  assert (Hmo : move_ok p s m) by by apply dfs_moves_ok.
  cbv zeta. rewrite (undoMove_applyMove p z s m Hok Hs Hmo).
  destruct (bool_decide (hash (applyMove p z m s) ∈ v)).
  { apply IHm. intros m' Hm'. apply Hms. by right. }
  pose proof (applyMove_filledCount p z m s) as Hgrow.
  destruct (IH (m :: stk) (applyMove p z m s) ({[hash (applyMove p z m s)]} ∪ v) Hok
              (reach_dfs p z stk s m Hr Hm) ltac:(lia)) as (s3 & v3 & r3 & E).
  rewrite E. destruct r3; [by eauto|].
  pose proof (dfs_sound p z fuel (m :: stk) _ _ _ _ false Hok
                (reach_dfs p z stk s m Hr Hm) E) as ->.
  rewrite (undoMove_applyMove p z s m Hok Hs Hmo).
  apply IHm. intros m' Hm'. apply Hms. by right.
Qed.

(** *** The breadth-first search *)

Lemma pops_pos c k : (1 <= pops c k)%nat.
Proof. induction k; simpl; lia. Qed.

Lemma pops_mono c k k' : (k <= k')%nat -> (pops c k <= pops c k')%nat.
Proof.
  intros H. induction H as [|k' _ IH]; [done|]. etrans; [exact IH|].
  simpl. lia.
Qed.

Lemma bind_length_le {A B} (f : A -> list B) (k : nat) (l : list A) :
  (forall a, (length (f a) <= k)%nat) -> (length (l ≫= f) <= k * length l)%nat.
Proof.
  intros Hf. induction l as [|a l IH]; [simpl; lia|].
  cbn [mbind list_bind]. rewrite length_app. cbn [length]. specialize (Hf a). nia.
Qed.

Lemma bfs_candidates_length p s :
  (length (bfs_candidates p s) <= 4 * length (tiles p))%nat.
Proof.
  unfold bfs_candidates. apply bind_length_le. intros [x y].
  destruct (negb _); [|simpl; lia].
  etrans; [apply (bind_length_le _ 1)|simpl; lia].
  intros dir. cbv zeta. destruct (negb _); [simpl; lia|].
  destruct (getSymmetricTile _ _ _ _). destruct (_ || _); simpl; lia.
Qed.

Lemma queue_cost_app p q1 q2 : queue_cost p (q1 ++ q2) = (queue_cost p q1 + queue_cost p q2)%nat.
Proof. induction q1 as [|s q1 IH]; simpl; [done|]. rewrite IH. lia. Qed.

Lemma bfs_push_cost p z s k : forall cs acc,
  filledCount s + 1 <= pz_w p * pz_h p ->
  Z.to_nat (pz_w p * pz_h p - filledCount s) = S k ->
  (queue_cost p (foldl bfs_push acc (bfs_successor p z s <$> cs)).1
   <= queue_cost p acc.1 + length cs * pops (4 * length (tiles p)) k)%nat.
Proof.
  induction cs as [|c cs IH]; intros acc Hs Hk; [simpl; lia|].
  cbn [fmap list_fmap foldl length]. etrans; [by apply IH|].
  assert ((queue_cost p (bfs_push acc (bfs_successor p z s c)).1
           <= queue_cost p acc.1 + pops (4 * length (tiles p)) k)%nat); [|lia].
  unfold bfs_push. destruct (bfs_successor p z s c) as [next|] eqn:E; [|lia].
  destruct acc as [q visited]. destruct (bool_decide _); [cbn [fst]; lia|]. cbn [fst].
  rewrite queue_cost_app. cbn [queue_cost].
  apply bfs_successor_filledCount in E.
  pose proof (pops_mono (4 * length (tiles p))
                (Z.to_nat (pz_w p * pz_h p - filledCount next)) k ltac:(lia)).
  lia.
Qed.

Lemma bfs_loop_returns p z fuel : forall q visited,
  puzzle_ok p -> Forall (reach p z []) q -> (queue_cost p q < fuel)%nat ->
  bfs_loop p z fuel q visited <> OutOfFuel.
Proof.
  induction fuel as [|fuel IH]; intros q visited Hok Hq Hfuel; [lia|].
  cbn [bfs_loop]. destruct q as [|s q']; [done|].
  apply Forall_cons in Hq as [Hs Hq'].
  change (s :: q') with ([s] ++ q') in Hfuel. rewrite queue_cost_app in Hfuel.
  cbn [queue_cost] in Hfuel.
  pose proof (reach_filled_bounds p z [] s Hok Hs) as Hb.
  destruct (Z.eqb_spec (filledCount s) (pz_w p * pz_h p)) as [Hfull|Hnf].
  - destruct (allDotsUsed p s); [done|]. apply IH; [done|done|].
    pose proof (pops_pos (4 * length (tiles p))
                  (Z.to_nat (pz_w p * pz_h p - filledCount s))). lia.
  - destruct (foldl bfs_push (q', visited) (bfs_successor p z s <$> bfs_candidates p s))
      as [q'' visited'] eqn:E.
    destruct (Z.to_nat (pz_w p * pz_h p - filledCount s)) as [|k] eqn:Ek; [lia|].
    pose proof (bfs_push_cost p z s k (bfs_candidates p s) (q', visited) ltac:(lia) Ek) as Hc.
    rewrite E in Hc. cbn [fst] in Hc.
    pose proof (bfs_candidates_length p s) as Hl.
    cbn [pops] in Hfuel. pose proof (pops_pos (4 * length (tiles p)) k).
    apply IH; [done| |].
    + assert (G : forall cs acc, (forall c, c ∈ cs -> c ∈ bfs_candidates p s) ->
                Forall (reach p z []) acc.1 ->
                Forall (reach p z []) (foldl bfs_push acc (bfs_successor p z s <$> cs)).1).
      { induction cs as [|c cs IHc]; intros acc Hcs Hacc; [done|]. cbn [fmap list_fmap foldl].
        apply IHc; [intros c' Hc'; apply Hcs; by right|].
        apply bfs_push_reach; [done|done|]. apply Hcs. left. }
      specialize (G (bfs_candidates p s) (q', visited) ltac:(done) Hq').
      by rewrite E in G.
    + assert (length (bfs_candidates p s) * pops (4 * length (tiles p)) k
              <= 4 * length (tiles p) * pops (4 * length (tiles p)) k)%nat
        by (apply Nat.mul_le_mono_r; lia).
      lia.
Qed.



(** ** The C solver *)

Lemma int8_id d : -128 <= d <= 127 -> int8 d = d.
Proof. intros Hd. unfold int8. rewrite Z.mod_small by lia. lia. Qed.

Lemma is_valid_tile_spec p s x y :
  is_valid_tile s (pz_w p) (pz_h p) x y = true <->
  inTileBounds p x y = true /\ at_ (grid s) x y = -1.
Proof.
  unfold is_valid_tile. rewrite inTileBounds_spec.
  destruct (Z.ltb_spec x 0), (Z.leb_spec (pz_w p) x), (Z.ltb_spec y 0),
    (Z.leb_spec (pz_h p) y); cbn [orb]; rewrite ?Z.eqb_eq;
    first [ split; [done | intros [? _]; lia]
          | split; [intros; split; [lia|done] | tauto] ].
Qed.

(** The board lies within the fixed arrays. *)
Lemma at_set_c p g x y v x' y' :
  c_puzzle_ok p -> grid_dims MAX_W MAX_H g ->
  inTileBounds p x y = true -> inTileBounds p x' y' = true ->
  at_ (set_at g x y v) x' y' = if decide (x = x' /\ y = y') then v else at_ g x' y'.
Proof.
  intros Hok Hg Hb Hb'. rewrite inTileBounds_spec in Hb, Hb'.
  pose proof (cok_w _ Hok). pose proof (cok_h _ Hok).
  apply (at_set_at MAX_W MAX_H); (done || lia).
Qed.

Lemma filled_set_c p g x y v :
  c_puzzle_ok p -> grid_dims MAX_W MAX_H g -> inTileBounds p x y = true ->
  at_ g x y = -1 -> v <> -1 ->
  filled p (set_at g x y v) = filled p g + 1.
Proof.
  intros Hok Hg Hb He Hv. unfold filled.
  assert (Hlen : length (filter (fun '(x0, y0) => at_ (set_at g x y v) x0 y0 <> -1) (tiles p))
          = S (length (filter (fun '(x0, y0) => at_ g x0 y0 <> -1) (tiles p)))).
  { apply (filter_length_add _ _ _ (x, y)).
    - apply NoDup_tiles.
    - by apply elem_of_tiles, inTileBounds_spec.
    - simpl. tauto.
    - simpl. rewrite (at_set_c p) by done. by rewrite decide_True.
    - intros [x' y'] Hin Hne. apply elem_of_tiles, inTileBounds_spec in Hin.
      rewrite (at_set_c p) by done.
      rewrite decide_False; [done|]. intros [-> ->]. done. }
  rewrite Hlen. lia.
Qed.

Lemma cells_set_c p g x y d :
  c_puzzle_ok p -> grid_dims MAX_W MAX_H g -> cells_ok p g ->
  inTileBounds p x y = true -> 0 <= d < Z.of_nat (length (pz_dots p)) ->
  cells_ok p (set_at g x y d).
Proof.
  intros Hok Hg Hc Hb Hd x' y' Hb'. rewrite (at_set_c p) by done.
  destruct (decide _); [by right|by apply Hc].
Qed.

(** Giving an unassigned tile and its unassigned mirror image to a dot
    keeps the regions symmetric. *)
Lemma symmetric_add p g g' tx ty sx sy d :
  symmetric p g ->
  (forall x y, inTileBounds p x y = true ->
     at_ g' x y = if decide ((x = tx /\ y = ty) \/ (x = sx /\ y = sy)) then d else at_ g x y) ->
  at_ g tx ty = -1 -> at_ g sx sy = -1 ->
  sx = dot_x (dot_of p d) - tx - 1 -> sy = dot_y (dot_of p d) - ty - 1 ->
  d <> -1 ->
  symmetric p g'.
Proof.
  intros Hsym Hg' Ht Hs Hsx Hsy Hd x y Hb Hne. cbv zeta.
  rewrite getSymmetricTile_eq.
  pose proof (Hg' x y Hb) as E. rewrite E in Hne |- *.
  destruct (decide _) as [Hc|Hc]; intros Hb'.
  - rewrite Hg' by done. rewrite decide_True; [done|]. lia.
  - specialize (Hsym x y Hb Hne). cbv zeta in Hsym.
    rewrite getSymmetricTile_eq in Hsym. specialize (Hsym Hb').
    rewrite Hg' by done. rewrite decide_False; [done|].
    intros [[E1 E2]|[E1 E2]]; rewrite E1, E2 in Hsym; congruence.
Qed.

(** A tile that is its own mirror image. *)
Lemma c_add_one p s tx ty d hh :
  c_puzzle_ok p -> c_state_ok p s ->
  inTileBounds p tx ty = true -> at_ (grid s) tx ty = -1 ->
  0 <= d < Z.of_nat (length (pz_dots p)) ->
  tx = dot_x (dot_of p d) - tx - 1 -> ty = dot_y (dot_of p d) - ty - 1 ->
  c_state_ok p (mkSt (set_at (grid s) tx ty d) (filledCount s + 1) hh).
Proof.
  intros Hok Hs Hb He Hd Hx Hy. destruct Hs as [Hdims Hcells Hsym Hfill].
  split; cbn [grid filledCount].
  - by apply set_at_dims.
  - by apply cells_set_c.
  - apply (symmetric_add p (grid s) _ tx ty tx ty d); try done; [|lia].
    intros x y Hxy. rewrite (at_set_c p) by done.
    destruct (decide (tx = x /\ ty = y)) as [[-> ->]|Hne].
    + rewrite decide_True; [done|]. by left.
    + rewrite decide_False; [done|]. intros [[-> ->]|[-> ->]]; by apply Hne.
  - rewrite filled_set_c by (done || lia). lia.
Qed.

(** A tile and its mirror image. *)
Lemma c_add_two p s tx ty sx sy d hh :
  c_puzzle_ok p -> c_state_ok p s ->
  inTileBounds p tx ty = true -> at_ (grid s) tx ty = -1 ->
  inTileBounds p sx sy = true -> at_ (grid s) sx sy = -1 ->
  0 <= d < Z.of_nat (length (pz_dots p)) ->
  sx = dot_x (dot_of p d) - tx - 1 -> sy = dot_y (dot_of p d) - ty - 1 ->
  ~ (tx = sx /\ ty = sy) ->
  c_state_ok p (mkSt (set_at (set_at (grid s) tx ty d) sx sy d) (filledCount s + 1 + 1) hh).
Proof.
  intros Hok Hs Hb He Hbs Hes Hd Hx Hy Hne. destruct Hs as [Hdims Hcells Hsym Hfill].
  assert (Hdims' : grid_dims MAX_W MAX_H (set_at (grid s) tx ty d)) by by apply set_at_dims.
  split; cbn [grid filledCount].
  - by apply set_at_dims.
  - apply cells_set_c; try done. by apply cells_set_c.
  - apply (symmetric_add p (grid s) _ tx ty sx sy d); try done; [|lia].
    intros x y Hxy. rewrite !(at_set_c p) by done.
    destruct (decide (sx = x /\ sy = y)) as [[-> ->]|Hn1].
    + rewrite decide_True; [done|]. by right.
    + destruct (decide (tx = x /\ ty = y)) as [[-> ->]|Hn2].
      * rewrite decide_True; [done|]. by left.
      * rewrite decide_False; [done|]. intros [[-> ->]|[-> ->]]; tauto.
  - rewrite filled_set_c; try done; [|by rewrite (at_set_c p), decide_False by done|lia].
    rewrite filled_set_c by (done || lia). lia.
Qed.

(** *** The start state *)

Lemma c_initial_ok p : c_puzzle_ok p -> c_state_ok p c_initial.
Proof.
  intros Hok. pose proof (cok_w _ Hok). pose proof (cok_h _ Hok).
  assert (Hat : forall x y, inTileBounds p x y = true -> at_ (grid c_initial) x y = -1).
  { intros x y Hb. rewrite inTileBounds_spec in Hb.
    apply (initial_state_at MAX_W MAX_H); lia. }
  split.
  - apply (initial_state_dims MAX_W MAX_H).
  - intros x y Hb. left. by apply Hat.
  - intros x y Hb Hne. by rewrite Hat in Hne.
  - cbn [c_initial filledCount]. unfold filled.
    rewrite (filter_ext_elem _ (fun _ => False)).
    + by rewrite filter_False.
    + intros [x y] Hin. apply elem_of_tiles, inTileBounds_spec in Hin.
      rewrite (Hat x y Hin). tauto.
Qed.

Lemma prefill_ok p z : forall ds pre s s',
  c_puzzle_ok p -> pz_dots p = pre ++ ds -> c_state_ok p s ->
  prefill p z s (Z.of_nat (length pre)) ds = Some s' ->
  c_state_ok p s'.
Proof.
  induction ds as [|dot rest IH]; intros pre s s' Hok Hds Hs Hp.
  - cbn [prefill] in Hp. by injection Hp as <-.
  - cbn [prefill] in Hp.
    assert (Hds' : pz_dots p = (pre ++ [dot]) ++ rest) by by rewrite <- app_assoc.
    assert (Hi : Z.of_nat (length pre) + 1 = Z.of_nat (length (pre ++ [dot]))).
    { rewrite length_app. simpl. lia. }
    assert (Hdot : dot_of p (Z.of_nat (length pre)) = dot).
    { unfold dot_of. rewrite Nat2Z.id, Hds.
      by rewrite lookup_app_r, Nat.sub_diag by lia. }
    assert (Hrange : 0 <= dot_x dot < 2 * pz_w p + 1 /\ 0 <= dot_y dot < 2 * pz_h p + 1).
    { pose proof (cok_dots _ Hok) as Hf. rewrite Forall_forall in Hf. apply Hf.
      rewrite Hds. apply elem_of_app. right. left. }
    assert (Hn : 0 <= Z.of_nat (length pre) < Z.of_nat (length (pz_dots p))).
    { rewrite Hds, length_app. simpl. lia. }
    pose proof (cok_ndots _ Hok) as Hnd. unfold MAX_DOTS in Hnd.
    destruct (negb (Z.rem (dot_x dot) 2 =? 0) && negb (Z.rem (dot_y dot) 2 =? 0)) eqn:Eodd.
    + destruct (Z.eqb_spec (at_ (grid s) (Z.quot (dot_x dot - 1) 2)
                              (Z.quot (dot_y dot - 1) 2)) (-1)) as [He|]; [|done].
      rewrite Hi in Hp. apply (IH _ _ _ Hok Hds') in Hp; [done|].
      apply andb_true_iff in Eodd as [Ex Ey].
      apply negb_true_iff, Z.eqb_neq in Ex, Ey.
      rewrite Z.rem_mod_nonneg in Ex, Ey by lia.
      pose proof (Z.div_mod (dot_x dot) 2 ltac:(lia)).
      pose proof (Z.mod_pos_bound (dot_x dot) 2 ltac:(lia)).
      pose proof (Z.div_mod (dot_y dot) 2 ltac:(lia)).
      pose proof (Z.mod_pos_bound (dot_y dot) 2 ltac:(lia)).
      assert (Hqx : Z.quot (dot_x dot - 1) 2 = dot_x dot `div` 2).
      { rewrite Z.quot_div_nonneg by lia.
        replace (dot_x dot - 1) with (dot_x dot `div` 2 * 2) by lia.
        apply Z.div_mul. lia. }
      assert (Hqy : Z.quot (dot_y dot - 1) 2 = dot_y dot `div` 2).
      { rewrite Z.quot_div_nonneg by lia.
        replace (dot_y dot - 1) with (dot_y dot `div` 2 * 2) by lia.
        apply Z.div_mul. lia. }
      rewrite Hqx, Hqy in He |- *. rewrite int8_id by lia.
      apply c_add_one; try done.
      * apply inTileBounds_spec. lia.
      * rewrite Hdot. lia.
      * rewrite Hdot. lia.
    + rewrite Hi in Hp. by apply (IH _ _ _ Hok Hds') in Hp.
Qed.

(** *** The successors of a state *)

Lemma bfs_push_pushes (P : State -> Prop) acc c :
  (forall st, c = Some st -> P st) ->
  exists pushed, (bfs_push acc c).1 = acc.1 ++ pushed /\ (length pushed <= 1)%nat /\
                 Forall P pushed.
Proof.
  intros H. unfold bfs_push. destruct c as [st|].
  - destruct acc as [q visited]. destruct (bool_decide _); cbn [fst].
    + exists []. rewrite app_nil_r. split; [done|]. split; [simpl; lia|done].
    + exists [st]. split; [done|]. split; [simpl; lia|]. constructor; [by apply H|done].
  - exists []. rewrite app_nil_r. split; [done|]. split; [simpl; lia|done].
Qed.

Lemma foldl_pushes {B} (P : State -> Prop)
    (g : list State * gset Z -> B -> list State * gset Z) (k : nat) (l : list B) :
  (forall acc b, b ∈ l ->
     exists pushed, (g acc b).1 = acc.1 ++ pushed /\ (length pushed <= k)%nat /\
                    Forall P pushed) ->
  forall acc,
    exists pushed, (foldl g acc l).1 = acc.1 ++ pushed /\
                   (length pushed <= k * length l)%nat /\ Forall P pushed.
Proof.
  induction l as [|a l IH]; intros H acc.
  - exists []. simpl. rewrite app_nil_r. split; [done|]. split; [lia|done].
  - cbn [foldl]. destruct (H acc a ltac:(left)) as (p1 & E1 & L1 & F1).
    destruct (IH (fun acc b Hb => H acc b ltac:(by right)) (g acc a)) as (p2 & E2 & L2 & F2).
    exists (p1 ++ p2). rewrite E2, E1, app_assoc. split; [done|].
    split; [rewrite length_app; cbn [length]; lia|by apply Forall_app].
Qed.

Lemma unchanged_pushes (P : State -> Prop) (k : nat) (acc : list State * gset Z) :
  exists pushed, acc.1 = acc.1 ++ pushed /\ (length pushed <= k)%nat /\ Forall P pushed.
Proof. exists []. rewrite app_nil_r. split; [done|]. split; [simpl; lia|done]. Qed.

Lemma try_pair_pushes p z s d tx ty acc :
  c_puzzle_ok p -> c_state_ok p s ->
  is_valid_tile s (pz_w p) (pz_h p) tx ty = true ->
  0 <= d < Z.of_nat (length (pz_dots p)) ->
  exists pushed, (try_pair p z s d tx ty acc).1 = acc.1 ++ pushed /\
                 (length pushed <= 1)%nat /\ Forall (c_grown p s) pushed.
Proof.
  intros Hok Hs Hv Hd. apply is_valid_tile_spec in Hv as [Hb He].
  pose proof (cok_ndots _ Hok) as Hnd. unfold MAX_DOTS in Hnd.
  unfold try_pair. rewrite getSymmetricTile_eq.
  set (sx := dot_x (dot_of p d) - tx - 1). set (sy := dot_y (dot_of p d) - ty - 1).
  rewrite !int8_id by lia. cbn [grid filledCount hash].
  destruct (decide (tx = sx /\ ty = sy)) as [[Ex Ey]|Hne].
  - rewrite <- Ex, <- Ey, !Z.eqb_refl. cbn [andb orb negb]. rewrite orb_true_r.
    apply bfs_push_pushes. intros st [= <-]. split; [|cbn [filledCount]; lia].
    by apply c_add_one.
  - assert (Hneb : (tx =? sx) && (ty =? sy) = false).
    { apply andb_false_iff. destruct (Z.eqb_spec tx sx), (Z.eqb_spec ty sy); tauto. }
    assert (Hneb' : negb (tx =? sx) || negb (ty =? sy) = true).
    { rewrite <- negb_andb. by rewrite Hneb. }
    rewrite Hneb, Hneb', orb_false_r.
    destruct (is_valid_tile s (pz_w p) (pz_h p) sx sy) eqn:Ev; [|apply unchanged_pushes].
    apply is_valid_tile_spec in Ev as [Hbs Hes].
    rewrite (at_set_c p) by (done || apply Hs). rewrite decide_False by done.
    rewrite Hes. cbn [Z.eqb Pos.eqb].
    apply bfs_push_pushes. intros st [= <-]. split; [|cbn [filledCount]; lia].
    by apply c_add_two.
Qed.

Lemma expand_neighbors_pushes p z s d acc :
  c_puzzle_ok p -> c_state_ok p s -> 0 <= d < Z.of_nat (length (pz_dots p)) ->
  exists pushed, (expand_neighbors p z s d acc).1 = acc.1 ++ pushed /\
                 (length pushed <= 4 * length (tiles p))%nat /\ Forall (c_grown p s) pushed.
Proof.
  intros Hok Hs Hd. unfold expand_neighbors. apply foldl_pushes.
  intros acc' [x y] _. destruct (at_ (grid s) x y =? d); [|apply unchanged_pushes].
  match goal with |- context [foldl ?g acc' ?l] =>
    destruct (foldl_pushes (c_grown p s) g 1 l) with (acc := acc') as (ps & E & L & F)
  end.
  - intros acc'' [nx ny] _.
    destruct (is_valid_tile s (pz_w p) (pz_h p) nx ny) eqn:Ev; [|apply unchanged_pushes].
    by apply try_pair_pushes.
  - exists ps. split; [done|]. split; [cbn [length] in L; lia|done].
Qed.

Lemma expand_touching_pushes p z s d acc :
  c_puzzle_ok p -> c_state_ok p s -> 0 <= d < Z.of_nat (length (pz_dots p)) ->
  exists pushed, (expand_touching p z s d acc).1 = acc.1 ++ pushed /\
                 (length pushed <= 9)%nat /\ Forall (c_grown p s) pushed.
Proof.
  intros Hok Hs Hd. unfold expand_touching.
  match goal with |- context [foldl ?g acc ?l] =>
    destruct (foldl_pushes (c_grown p s) g 3 l) with (acc := acc) as (ps & E & L & F)
  end.
  - intros acc' ty _.
    match goal with |- context [foldl ?g acc' ?l] =>
      destruct (foldl_pushes (c_grown p s) g 1 l) with (acc := acc') as (ps & E & L & F)
    end.
    + intros acc'' tx _.
      destruct (is_valid_tile s (pz_w p) (pz_h p) tx ty) eqn:Ev;
        cbn [andb]; [|apply unchanged_pushes].
      destruct (touchesDot _ _ tx ty); [|apply unchanged_pushes].
      by apply try_pair_pushes.
    + exists ps. split; [done|]. split; [|done]. rewrite length_seqZ in L. lia.
  - exists ps. split; [done|]. split; [|done]. rewrite length_seqZ in L. lia.
Qed.

Lemma expand_dot_pushes p z s d acc :
  c_puzzle_ok p -> c_state_ok p s -> 0 <= d < Z.of_nat (length (pz_dots p)) ->
  exists pushed, (expand_dot p z s acc d).1 = acc.1 ++ pushed /\
                 (length pushed <= 4 * length (tiles p) + 9)%nat /\
                 Forall (c_grown p s) pushed.
Proof.
  intros Hok Hs Hd. unfold expand_dot.
  destruct (expand_neighbors_pushes p z s d acc Hok Hs Hd) as (p1 & E1 & L1 & F1).
  destruct (expand_touching_pushes p z s d (expand_neighbors p z s d acc) Hok Hs Hd)
    as (p2 & E2 & L2 & F2).
  exists (p1 ++ p2). rewrite app_assoc, <- E1, <- E2.
  split; [by destruct (negb _)|]. split; [rewrite length_app; lia|by apply Forall_app].
Qed.

Lemma c_step_pushes p z s acc :
  c_puzzle_ok p -> c_state_ok p s ->
  exists pushed,
    (foldl (expand_dot p z s) acc (seqZ 0 (Z.of_nat (length (pz_dots p))))).1 = acc.1 ++ pushed /\
    (length pushed <= c_branching p)%nat /\ Forall (c_grown p s) pushed.
Proof.
  intros Hok Hs.
  destruct (foldl_pushes (c_grown p s) (expand_dot p z s) (4 * length (tiles p) + 9)
              (seqZ 0 (Z.of_nat (length (pz_dots p))))) with (acc := acc)
    as (ps & E & L & F).
  - intros acc' d Hd. apply elem_of_seqZ in Hd. apply expand_dot_pushes; (done || lia).
  - exists ps. split; [done|]. split; [|done].
    rewrite length_seqZ, Nat2Z.id in L. by unfold c_branching.
Qed.

(** *** Soundness of the search *)

Lemma c_loop_sound p z fuel : forall q visited s,
  c_puzzle_ok p -> Forall (c_state_ok p) q ->
  c_loop p z fuel q visited = Found s ->
  c_state_ok p s /\ filledCount s = pz_w p * pz_h p /\ all_dots_used p s = true.
Proof.
  induction fuel as [|fuel IH]; intros q visited s Hok Hq Hr; [done|].
  cbn [c_loop] in Hr. destruct q as [|s0 q']; [done|].
  apply Forall_cons in Hq as [Hs0 Hq'].
  destruct (Z.eqb_spec (filledCount s0) (pz_w p * pz_h p)) as [Hfull|Hnf].
  - destruct (all_dots_used p s0) eqn:Hu.
    + injection Hr as <-. done.
    + by apply IH in Hr.
  - destruct (c_step_pushes p z s0 (q', visited) Hok Hs0) as (ps & E & L & F).
    destruct (foldl _ _ _) as [q'' visited']. cbn [fst] in E. subst q''.
    apply IH in Hr; [done|done|]. apply Forall_app. split; [done|].
    eapply Forall_impl; [exact F|]. by intros st [? _].
Qed.

(** *** Termination of the search *)

Lemma c_queue_cost_app p q1 q2 :
  c_queue_cost p (q1 ++ q2) = (c_queue_cost p q1 + c_queue_cost p q2)%nat.
Proof. induction q1 as [|s q1 IH]; simpl; lia. Qed.

Lemma c_queue_cost_grown p s k : forall ps,
  Forall (c_grown p s) ps ->
  Z.to_nat (pz_w p * pz_h p - filledCount s) = S k ->
  (c_queue_cost p ps <= length ps * pops (c_branching p) k)%nat.
Proof.
  induction ps as [|st ps IH]; intros Hf Hk; [simpl; lia|].
  apply Forall_cons in Hf as [[_ Hst] Hf]. cbn [c_queue_cost length].
  specialize (IH Hf Hk).
  pose proof (pops_mono (c_branching p)
                (Z.to_nat (pz_w p * pz_h p - filledCount st)) k ltac:(lia)).
  lia.
Qed.

Lemma c_loop_returns p z fuel : forall q visited,
  c_puzzle_ok p -> Forall (c_state_ok p) q -> (c_queue_cost p q < fuel)%nat ->
  c_loop p z fuel q visited <> OutOfFuel.
Proof.
  induction fuel as [|fuel IH]; intros q visited Hok Hq Hfuel; [lia|].
  cbn [c_loop]. destruct q as [|s q']; [done|].
  apply Forall_cons in Hq as [Hs Hq'].
  cbn [c_queue_cost] in Hfuel.
  pose proof (filled_bounds p (grid s) (proj1 (cok_w _ Hok)) (proj1 (cok_h _ Hok))) as Hb.
  rewrite <- (cs_filled _ _ Hs) in Hb.
  destruct (Z.eqb_spec (filledCount s) (pz_w p * pz_h p)) as [Hfull|Hnf].
  - destruct (all_dots_used p s); [done|]. apply IH; [done|done|].
    pose proof (pops_pos (c_branching p) (Z.to_nat (pz_w p * pz_h p - filledCount s))). lia.
  - destruct (c_step_pushes p z s (q', visited) Hok Hs) as (ps & E & L & F).
    destruct (foldl _ _ _) as [q'' visited']. cbn [fst] in E. subst q''.
    destruct (Z.to_nat (pz_w p * pz_h p - filledCount s)) as [|k] eqn:Ek; [lia|].
    pose proof (c_queue_cost_grown p s k ps F Ek) as Hc.
    cbn [pops] in Hfuel. pose proof (pops_pos (c_branching p) k).
    apply IH; [done| |].
    + apply Forall_app. split; [done|].
      eapply Forall_impl; [exact F|]. by intros st [? _].
    + rewrite c_queue_cost_app.
      assert (length ps * pops (c_branching p) k
              <= c_branching p * pops (c_branching p) k)%nat
        by (apply Nat.mul_le_mono_r; lia).
      lia.
Qed.

(** *** What the pre-fill loop assigns *)

Lemma dot_of_elem p d :
  0 <= d < Z.of_nat (length (pz_dots p)) -> dot_of p d ∈ pz_dots p.
Proof.
  intros Hd. unfold dot_of. destruct (pz_dots p !! Z.to_nat d) as [dot|] eqn:E.
  - by apply list_elem_of_lookup_2 in E.
  - apply lookup_ge_None in E. lia.
Qed.

(** A dot at the centre of a tile is at the centre of a tile of the
    board. *)
Lemma centred_tile p d x y :
  c_puzzle_ok p -> 0 <= d < Z.of_nat (length (pz_dots p)) -> centred p d x y ->
  inTileBounds p x y = true.
Proof.
  intros Hok Hd [Ex Ey]. pose proof (cok_dots _ Hok) as Hf. rewrite Forall_forall in Hf.
  specialize (Hf _ (dot_of_elem p d Hd)). apply inTileBounds_spec. lia.
Qed.

Lemma prefill_spec p z : forall ds pre s,
  c_puzzle_ok p -> pz_dots p = pre ++ ds -> c_state_ok p s ->
  prefilled p (Z.of_nat (length pre)) s ->
  match prefill p z s (Z.of_nat (length pre)) ds with
  | Some s' => c_state_ok p s' /\ prefilled p (Z.of_nat (length (pz_dots p))) s'
  | None => exists d1 d2 x y, 0 <= d1 < d2 /\ d2 < Z.of_nat (length (pz_dots p)) /\
                              centred p d1 x y /\ centred p d2 x y
  end.
Proof.
  induction ds as [|dot rest IH]; intros pre s Hok Hds Hs Hpre.
  - cbn [prefill]. rewrite app_nil_r in Hds. by rewrite Hds.
  - cbn [prefill].
    assert (Hds' : pz_dots p = (pre ++ [dot]) ++ rest) by by rewrite <- app_assoc.
    assert (Hi : Z.of_nat (length pre) + 1 = Z.of_nat (length (pre ++ [dot]))).
    { rewrite length_app. simpl. lia. }
    assert (Hdot : dot_of p (Z.of_nat (length pre)) = dot).
    { unfold dot_of. rewrite Nat2Z.id, Hds.
      by rewrite lookup_app_r, Nat.sub_diag by lia. }
    assert (Hrange : 0 <= dot_x dot < 2 * pz_w p + 1 /\ 0 <= dot_y dot < 2 * pz_h p + 1).
    { pose proof (cok_dots _ Hok) as Hf. rewrite Forall_forall in Hf. apply Hf.
      rewrite Hds. apply elem_of_app. right. left. }
    assert (Hn : 0 <= Z.of_nat (length pre) < Z.of_nat (length (pz_dots p))).
    { rewrite Hds, length_app. simpl. lia. }
    pose proof (cok_ndots _ Hok) as Hnd. unfold MAX_DOTS in Hnd.
    pose proof (Z.div_mod (dot_x dot) 2 ltac:(lia)) as Dx.
    pose proof (Z.mod_pos_bound (dot_x dot) 2 ltac:(lia)) as Mx.
    pose proof (Z.div_mod (dot_y dot) 2 ltac:(lia)) as Dy.
    pose proof (Z.mod_pos_bound (dot_y dot) 2 ltac:(lia)) as My.
    destruct (negb (Z.rem (dot_x dot) 2 =? 0) && negb (Z.rem (dot_y dot) 2 =? 0)) eqn:Eodd.
    + apply andb_true_iff in Eodd as [Ex Ey].
      apply negb_true_iff, Z.eqb_neq in Ex, Ey.
      rewrite Z.rem_mod_nonneg in Ex, Ey by lia.
      assert (Hqx : Z.quot (dot_x dot - 1) 2 = dot_x dot `div` 2).
      { rewrite Z.quot_div_nonneg by lia.
        replace (dot_x dot - 1) with (dot_x dot `div` 2 * 2) by lia.
        apply Z.div_mul. lia. }
      assert (Hqy : Z.quot (dot_y dot - 1) 2 = dot_y dot `div` 2).
      { rewrite Z.quot_div_nonneg by lia.
        replace (dot_y dot - 1) with (dot_y dot `div` 2 * 2) by lia.
        apply Z.div_mul. lia. }
      rewrite Hqx, Hqy. set (tx := dot_x dot `div` 2). set (ty := dot_y dot `div` 2).
      fold tx in Dx. fold ty in Dy.
      assert (Hc : centred p (Z.of_nat (length pre)) tx ty).
      { unfold centred. rewrite Hdot. lia. }
      assert (Hb : inTileBounds p tx ty = true) by (apply inTileBounds_spec; lia).
      destruct (Z.eqb_spec (at_ (grid s) tx ty) (-1)) as [He|Hne].
      * rewrite int8_id by lia. rewrite Hi. apply (IH _ _ Hok Hds').
        { apply c_add_one; try done; rewrite Hdot; lia. }
        rewrite <- Hi. intros x y Hxy. cbn [grid].
        rewrite (at_set_c p) by (done || apply Hs).
        destruct (decide (tx = x /\ ty = y)) as [[<- <-]|Hother].
        -- right. split; [lia|]. split; [done|]. intros d Hd Hcd.
           destruct (decide (d = Z.of_nat (length pre))) as [?|Hdn]; [done|].
           destruct (Hpre tx ty Hb) as [[_ Hno]|[Hr _]]; [|lia].
           exfalso. apply (Hno d); [lia|done].
        -- assert (Hnc : ~ centred p (Z.of_nat (length pre)) x y).
           { intros [Cx Cy]. destruct Hc as [Cx' Cy']. apply Hother. lia. }
           destruct (Hpre x y Hxy) as [[E Hno]|(Hr & Hcen & Huniq)].
           ++ left. split; [done|]. intros d Hd Hcd.
              destruct (decide (d = Z.of_nat (length pre))) as [->|Hdn]; [done|].
              apply (Hno d); [lia|done].
           ++ right. split; [lia|]. split; [done|]. intros d Hd Hcd.
              destruct (decide (d = Z.of_nat (length pre))) as [->|Hdn]; [done|].
              apply Huniq; [lia|done].
      * destruct (Hpre tx ty Hb) as [[E _]|(Hr & Hcen & _)]; [done|].
        exists (at_ (grid s) tx ty), (Z.of_nat (length pre)), tx, ty.
        split; [lia|]. split; [lia|]. done.
    + rewrite Hi. apply (IH _ _ Hok Hds'); [done|]. rewrite <- Hi.
      assert (Hnc : forall x y, ~ centred p (Z.of_nat (length pre)) x y).
      { intros x y [Cx Cy]. rewrite Hdot in Cx, Cy.
        apply andb_false_iff in Eodd as [E|E]; apply negb_false_iff, Z.eqb_eq in E;
          rewrite Z.rem_mod_nonneg in E by lia; lia. }
      intros x y Hxy. destruct (Hpre x y Hxy) as [[E Hno]|(Hr & Hcen & Huniq)].
      * left. split; [done|]. intros d Hd Hcd.
        destruct (decide (d = Z.of_nat (length pre))) as [->|Hdn]; [by apply (Hnc x y)|].
        apply (Hno d); [lia|done].
      * right. split; [lia|]. split; [done|]. intros d Hd Hcd.
        destruct (decide (d = Z.of_nat (length pre))) as [->|Hdn];
          [exfalso; by apply (Hnc x y)|].
        apply Huniq; [lia|done].
Qed.

(** The pre-fill loop of [solve] on the initial state. *)
Lemma prefill_initial p z :
  c_puzzle_ok p ->
  match prefill p z c_initial 0 (pz_dots p) with
  | Some s' => c_state_ok p s' /\ prefilled p (Z.of_nat (length (pz_dots p))) s'
  | None => exists d1 d2 x y, 0 <= d1 < d2 /\ d2 < Z.of_nat (length (pz_dots p)) /\
                              centred p d1 x y /\ centred p d2 x y
  end.
Proof.
  intros Hok. apply (prefill_spec p z (pz_dots p) [] c_initial Hok eq_refl).
  - by apply c_initial_ok.
  - intros x y Hb. left. split; [|simpl; lia].
    pose proof (cok_w _ Hok). pose proof (cok_h _ Hok). rewrite inTileBounds_spec in Hb.
    apply (initial_state_at MAX_W MAX_H); unfold MAX_W, MAX_H in *; lia.
Qed.



(** ** The example boards and puzzles *)

Lemma example_board_shape p : shape (add_dot (clear_game (blank_game 2 1)) p).
Proof. apply add_dot_shape, clear_game_shape, blank_game_shape; lia. Qed.



Lemma row3_ok : puzzle_ok row3.
Proof. split; simpl; [lia|lia|lia|]. constructor; [simpl; lia|constructor]. Qed.

Lemma row3_reach : reach row3 row3_table [] row3_seeded.
Proof. apply reach_seed. reflexivity. Qed.

(** A board of one row with two centre dots. *)
Lemma two_dots_ok : puzzle_ok (mkPuzzle 2 1 5 3 [mkDot 1 1 false; mkDot 3 1 false]).
Proof.
  split; simpl; [lia|lia|lia|]. repeat (constructor; [simpl; lia|]). constructor.
Qed.

Lemma corner_dot_ok : puzzle_ok (mkPuzzle 1 1 3 3 [mkDot 0 0 false]).
Proof. split; simpl; [lia|lia|lia|]. constructor; [simpl; lia|constructor]. Qed.

Lemma row3_moves :
  dfs_moves row3 row3_seeded = [mkMove 0 0 0 2 0 true; mkMove 2 0 0 0 0 true].
Proof. reflexivity. Qed.

Lemma cleared_board_reach : gen_reach cleared_board.
Proof. apply reach_clear, reach_blank; lia. Qed.

Lemma placed_board_eq : solver_obvious_dot (add_dot cleared_board 6) 6 = Ok (placed_board, 1).
Proof. vm_compute. reflexivity. Qed.

Lemma cleared_board_valid q : 0 <= q < 15 -> valid cleared_board q.
Proof. intros Hq. unfold valid. change (length (gs_grid cleared_board)) with 15%nat. lia. Qed.

Lemma placed_board_reach : gen_reach placed_board.
Proof.
  apply (reach_place cleared_board 6 placed_board 1).
  - exact cleared_board_reach.
  - apply cleared_board_valid. lia.
  - vm_compute. reflexivity.
  - exact placed_board_eq.
Qed.

(** The board with one dot after [game_update_dots]. *)
Lemma counted_board_regions : region_inv (game_update_dots placed_board).
Proof. apply region_inv_update, gen_reach_regions. exact placed_board_reach. Qed.

Lemma edge_conflict_ok : puzzle_ok edge_conflict.
Proof.
  split; simpl; [lia|lia|lia|]. repeat (constructor; [simpl; lia|]). constructor.
Qed.

Lemma edge_conflict_c_ok : c_puzzle_ok edge_conflict.
Proof.
  split; simpl; unfold MAX_W, MAX_H, MAX_DOTS; [lia|lia|lia|].
  repeat (constructor; [simpl; lia|]). constructor.
Qed.

Lemma two_dot_board_eq :
  solver_obvious_dot (add_dot placed_board 8) 8 = Ok (two_dot_board, 1).
Proof. vm_compute. reflexivity. Qed.

Lemma placed_board_valid q : 0 <= q < 15 -> valid placed_board q.
Proof. intros Hq. unfold valid. change (length (gs_grid placed_board)) with 15%nat. lia. Qed.

Lemma two_dot_board_reach : gen_reach two_dot_board.
Proof.
  apply (reach_place placed_board 8 two_dot_board 1).
  - exact placed_board_reach.
  - apply placed_board_valid. lia.
  - vm_compute. reflexivity.
  - exact two_dot_board_eq.
Qed.

Lemma two_dot_board_valid q : 0 <= q < 15 -> valid two_dot_board q.
Proof. intros Hq. unfold valid. change (length (gs_grid two_dot_board)) with 15%nat. lia. Qed.

Lemma edge_region_board_eq :
  solver_obvious_dot (add_dot cleared_board 7) 7 = Ok (edge_region_board, 1).
Proof. vm_compute. reflexivity. Qed.

Lemma edge_region_board_reach : gen_reach edge_region_board.
Proof.
  apply (reach_place cleared_board 7 edge_region_board 1).
  - exact cleared_board_reach.
  - apply cleared_board_valid. lia.
  - vm_compute. reflexivity.
  - exact edge_region_board_eq.
Qed.

Lemma edge_region_board_valid q : 0 <= q < 15 -> valid edge_region_board q.
Proof.
  intros Hq. unfold valid. change (length (gs_grid edge_region_board)) with 15%nat. lia.
Qed.



(** C1.  The divisor [state->ndots] of [maxsz = (w * h) / ndots] is zero
    during the generation pass: [blank_game] and [clear_game] set it to
    zero and only [game_update_dots], called after the pass, writes it
    again.  For every board of at least one tile and every order in which
    [shuffle] presents the cells, [generate_new_game] stops in
    [generate_try_block] on an integer division by zero. *)
Theorem generate_new_game_divides_by_zero (random_state : Type)
    (shuffle : forall A : Type, list A -> random_state -> list A * random_state)
    (w h : Z) (rs : random_state) :
  (forall (l : list Z) rs, (shuffle Z l rs).1 ≡ₚ l) ->
  1 <= w -> 1 <= h ->
  generate_new_game random_state shuffle w h rs = Fault DivideByZero.
Proof.
  intros Hperm Hw Hh. unfold generate_new_game.
  set (s0 := clear_game (blank_game w h)).
  destruct (blank_game_dims w h) as (_ & _ & Hsx & Hsy & _ & _).
  assert (Esx : gs_sx s0 = 2 * w + 1) by done.
  assert (Esy : gs_sy s0 = 2 * h + 1) by done.
  assert (Hinv0 : pass_inv s0 s0) by (apply start_pass_inv; lia).
  set (sz := gs_sx (blank_game w h) * gs_sy (blank_game w h)).
  assert (Hsz : sz = gs_sx s0 * gs_sy s0) by done.
  assert (Hsz0 : 0 <= sz) by (rewrite Hsz, Esx, Esy; nia).
  unfold generate_pass. fold sz. rewrite <- Hsz. clearbody sz.
  pose proof (Hperm (seqZ 0 sz) rs) as Hp.
  destruct (shuffle Z (seqZ 0 sz) rs) as [scratch rs'] eqn:Hsh. simpl in Hp.
  replace (Z.quot (100 * sz) 100) with sz by (rewrite Z.mul_comm, Z.quot_mul; lia).
  assert (Hlen : length scratch = Z.to_nat sz).
  { rewrite (Permutation_length Hp). apply length_seqZ. }
  assert (Hvalid : forall s sp, pass_inv s0 s -> sp ∈ scratch -> valid s sp).
  { intros s sp (Hs & _ & E1 & E2) Hin. rewrite Hp in Hin. apply elem_of_seqZ in Hin.
    unfold valid. rewrite (shape_len s Hs), E1, E2, <- Hsz. lia. }
  assert (Hfold : fold_res (generate_step random_state shuffle scratch GP_DOTS)
                    (seqZ 0 sz) (s0, rs') = Fault DivideByZero).
  { apply (fold_res_fault (fun acc => pass_inv s0 acc.1)).
    - done.
    - intros [s rs1] i Hi Hinv. simpl in Hinv. apply elem_of_seqZ in Hi.
      destruct (scratch !! Z.to_nat i) as [sp|] eqn:Hsp.
      2:{ apply lookup_ge_None in Hsp. exfalso. lia. }
      destruct (generate_step_pass random_state shuffle s0 scratch s rs1 i sp)
        as [(s' & rs2 & -> & Hinv')| ->]; try done.
      + apply Hvalid; [done|]. by apply list_elem_of_lookup_2 in Hsp.
      + left. by exists (s', rs2).
      + by right.
    - assert (Hin : SPACE s0 1 1 ∈ scratch).
      { rewrite Hp. apply elem_of_seqZ. unfold SPACE. rewrite Hsz, Esx, Esy. nia. }
      apply list_elem_of_lookup_1 in Hin as [n Hn].
      exists (Z.of_nat n). split.
      + apply elem_of_seqZ. apply lookup_lt_Some in Hn. unfold ptr in *. lia.
      + intros [s rs1] (Hs & Hnd & E1 & E2).
        apply (generate_step_tile random_state shuffle s0 scratch s rs1 _ (SPACE s0 1 1)).
        * done.
        * by rewrite Nat2Z.id.
        * simpl in *. replace (SPACE s0 1 1) with (SPACE s 1 1)
            by (unfold SPACE; by rewrite E1).
          apply tile_cell; [done| |by exists 0|by exists 0].
          apply INGRID_spec. lia. }
  by rewrite Hfold.
Qed.

(** The theorem at the smallest board, with the cells taken in their
    initial order. *)
Lemma generate_new_game_divides_by_zero_witness :
  generate_new_game unit (fun A l rs => (l, rs)) 1 1 tt = Fault DivideByZero.
Proof.
  apply generate_new_game_divides_by_zero; [intros l rs; reflexivity|lia|lia].
Defined.



Lemma forced_touch p d x y :
  puzzle_ok p -> 0 <= d < Z.of_nat (length (pz_dots p)) ->
  (x, y) ∈ forced p d <-> touches p d x y.
Proof.
  intros Hok Hd. unfold forced, touches.
  assert (Hpos : 0 <= dot_x (dot_of p d) /\ 0 <= dot_y (dot_of p d)).
  { pose proof (ok_dots p Hok) as Hall. rewrite Forall_forall in Hall. apply Hall.
    unfold dot_of. destruct (pz_dots p !! Z.to_nat d) as [dot|] eqn:E.
    - by apply list_elem_of_lookup_2 in E.
    - apply lookup_ge_None in E. lia. }
  apply forced_tiles_touch; lia.
Qed.

Lemma forced_tiles_length dx dy :
  0 <= dx -> 0 <= dy -> length (forced_tiles dx dy) = class_size dx dy.
Proof.
  intros Hx Hy. unfold forced_tiles, class_size.
  rewrite !Z.rem_mod_nonneg by lia.
  rewrite <- !Z.negb_odd, !Zodd_mod.
  pose proof (Z.mod_pos_bound dx 2 ltac:(lia)). pose proof (Z.mod_pos_bound dy 2 ltac:(lia)).
  destruct (Z.eqb_spec (dx `mod` 2) 0) as [Ex|Ex];
    destruct (Z.eqb_spec (dy `mod` 2) 0) as [Ey|Ey]; rewrite ?Ex, ?Ey; cbn; try done.
  - assert (dy `mod` 2 = 1) as -> by lia. done.
  - assert (dx `mod` 2 = 1) as -> by lia. done.
  - assert (dx `mod` 2 = 1) as -> by lia. assert (dy `mod` 2 = 1) as -> by lia. done.
Qed.

Lemma forced_tiles_NoDup dx dy : NoDup (forced_tiles dx dy).
Proof.
  unfold forced_tiles.
  destruct (negb (Z.rem dx 2 =? 0)), (negb (Z.rem dy 2 =? 0)); cbn [andb negb].
  all: repeat (apply NoDup_cons; split); try apply NoDup_nil_2.
  all: rewrite ?elem_of_cons, ?elem_of_nil.
  all: intros H; repeat destruct H as [H|H]; try done; injection H; lia.
Qed.

(** C2, amended.  For a puzzle as the parser builds it, the C++ solvers
    ([seq_solver.cpp], [seq_solver_dfs.cpp], [openmp_solver_dfs.cpp]) seed
    before the search.  A dot has one, two or four forced tiles according
    to its cell class, the tiles that touch it.  [seedForcedTiles] fails
    exactly when a tile of the board is forced by two different dots; then
    [solve] returns without a search, for every amount of fuel and every
    number of threads.  When it succeeds, a tile of the board is assigned
    to a dot exactly when the dot forces it, and is left unassigned exactly
    when no dot forces it; the searches start from this state (in
    [openmp_solver_dfs.cpp], with two threads or more, from the root moves
    of this state).

    The C solvers ([seq_solver.c], [openmp_solver.c]) pre-fill less: on a
    board that fits their arrays, the loop assigns a tile exactly when a dot
    lies at its centre and leaves every other tile, among them the tiles of
    the dots on edges and vertices, to the search; it stops with "Overlapping
    dots?" exactly when two dots lie at the same tile centre. *)
Theorem seedForcedTiles_assigns_forced p z s ok :
  puzzle_ok p ->
  seedForcedTiles p z (initial_state (pz_w p) (pz_h p)) = (s, ok) ->
  let n := Z.of_nat (length (pz_dots p)) in
  (forall d, 0 <= d < n ->
     length (forced p d) = class_size (dot_x (dot_of p d)) (dot_y (dot_of p d)) /\
     NoDup (forced p d) /\
     forall tx ty, (tx, ty) ∈ forced p d <-> touches p d tx ty) /\
  (ok = false <->
   exists d1 d2 tx ty, 0 <= d1 < d2 /\ d2 < n /\ inTileBounds p tx ty = true /\
     (tx, ty) ∈ forced p d1 /\ (tx, ty) ∈ forced p d2) /\
  (ok = false ->
   forall fuel, solve_bfs p z fuel = NoSolution /\ solve_dfs p z fuel = Found (s, false) /\
     forall threads, solve_omp_start p z threads = omp_false s) /\
  (ok = true ->
   (forall tx ty, inTileBounds p tx ty = true ->
      (forall d, 0 <= d < n -> (tx, ty) ∈ forced p d <-> at_ (grid s) tx ty = d) /\
      ((forall d, 0 <= d < n -> (tx, ty) ∉ forced p d) <-> at_ (grid s) tx ty = -1)) /\
   (forall fuel,
      solve_bfs p z fuel = bfs_loop p z fuel [s] {[hash s]} /\
      solve_dfs p z fuel = match dfs p z fuel s {[hash s]} with
                           | Found (s', _, r) => Found (s', r)
                           | NoSolution => NoSolution
                           | OutOfFuel => OutOfFuel
                           end) /\
   (forall threads,
      solve_omp_start p z threads
      = if 1 <? threads
        then match generateMoves p s with
             | [] => omp_false s
             | _ :: _ => omp_workers s {[hash s]} (generateMoves p s)
             end
        else omp_sequential s {[hash s]})) /\
  (c_puzzle_ok p ->
   (prefill p z c_initial 0 (pz_dots p) = None <->
    exists d1 d2 x y, 0 <= d1 < d2 /\ d2 < n /\ centred p d1 x y /\ centred p d2 x y) /\
   (prefill p z c_initial 0 (pz_dots p) = None -> forall fuel, solve p z fuel = Found None) /\
   forall s0, prefill p z c_initial 0 (pz_dots p) = Some s0 ->
     forall x y, inTileBounds p x y = true ->
       (forall d, 0 <= d < n -> centred p d x y <-> at_ (grid s0) x y = d) /\
       ((forall d, 0 <= d < n -> ~ centred p d x y) <-> at_ (grid s0) x y = -1)).
Proof.
  intros Hok Hrun n.
  destruct (seedForcedTiles_spec p z s ok Hok Hrun) as [Ht Hf]. fold n in Ht, Hf.
  assert (Hpos : forall d, 0 <= d < n ->
            0 <= dot_x (dot_of p d) /\ 0 <= dot_y (dot_of p d)).
  { intros d Hd. pose proof (ok_dots p Hok) as Hall. rewrite Forall_forall in Hall.
    apply Hall. by apply dot_of_elem. }
  split; [|split; [|split; [|split]]].
  - intros d Hd. destruct (Hpos d Hd). split.
    + unfold forced. by apply forced_tiles_length.
    + split; [apply forced_tiles_NoDup|]. intros tx ty. by apply forced_touch.
  - rewrite Hf. split.
    + intros (d1 & d2 & H12 & H2n & tx & ty & Hb & T1 & T2).
      exists d1, d2, tx, ty. split; [done|]. split; [done|]. split; [done|].
      split; apply forced_touch; (done || lia).
    + intros (d1 & d2 & tx & ty & H12 & H2n & Hb & Hin1 & Hin2).
      exists d1, d2. split; [done|]. split; [done|]. exists tx, ty.
      split; [done|]. split; apply forced_touch; (done || lia).
  - intros -> fuel. unfold solve_bfs, solve_dfs, solve_omp_start. rewrite Hrun. done.
  - intros ->. destruct (Ht eq_refl) as [Hinv Hdone]. split; [|split].
    + intros tx ty Hb. split.
      * intros d Hd. rewrite forced_touch by done. split.
        -- intros Htouch. by apply Hdone.
        -- intros E. destruct (sd_sound _ _ _ _ Hinv tx ty Hb) as [_ Htouch]; [lia|].
           by rewrite E in Htouch.
      * split.
        -- intros Hno. destruct (decide (at_ (grid s) tx ty = -1)) as [|Hne]; [done|].
           destruct (sd_sound _ _ _ _ Hinv tx ty Hb Hne) as [Hr Htouch].
           exfalso. apply (Hno (at_ (grid s) tx ty)); [lia|].
           apply forced_touch; [done|lia|done].
        -- intros E d Hd Hin. apply forced_touch in Hin; [|done|done].
           pose proof (Hdone d tx ty Hd Hb Hin). lia.
    + intros fuel. unfold solve_bfs, solve_dfs. by rewrite Hrun.
    + intros threads. unfold solve_omp_start. rewrite Hrun. cbn [negb].
      destruct (1 <? threads); [|done]. by destruct (generateMoves p s).
  - intros Hcok. pose proof (prefill_initial p z Hcok) as Hpre. fold n in Hpre.
    split; [|split].
    + split.
      * intros E. by rewrite E in Hpre.
      * intros (d1 & d2 & x & y & H12 & H2n & C1 & C2).
        destruct (prefill p z c_initial 0 (pz_dots p)) as [s0|]; [|done].
        destruct Hpre as [_ Hpre]. exfalso.
        assert (Hb : inTileBounds p x y = true).
        { apply (centred_tile p d1); [done|fold n; lia|done]. }
        destruct (Hpre x y Hb) as [[_ Hno]|(_ & _ & Huniq)].
        -- apply (Hno d1); [lia|done].
        -- pose proof (Huniq d1 ltac:(lia) C1). pose proof (Huniq d2 ltac:(lia) C2). lia.
    + intros E fuel. unfold solve. by rewrite E.
    + intros s0 E. rewrite E in Hpre. destruct Hpre as [_ Hpre].
      intros x y Hb. split.
      * intros d Hd. split.
        -- intros C. destruct (Hpre x y Hb) as [[_ Hno]|(_ & _ & Huniq)].
           ++ exfalso. by apply (Hno d).
           ++ symmetry. by apply Huniq.
        -- intros E'. destruct (Hpre x y Hb) as [[E0 _]|(_ & Hc & _)]; [lia|].
           by rewrite E' in Hc.
      * split.
        -- intros Hno. destruct (Hpre x y Hb) as [[E0 _]|(Hr & Hc & _)]; [done|].
           exfalso. by apply (Hno (at_ (grid s0) x y)).
        -- intros E0 d Hd C. destruct (Hpre x y Hb) as [[_ Hno]|(Hr & _ & _)]; [|lia].
           by apply (Hno d).
Qed.

(** The theorem on two puzzles of two tiles.  With a dot at the centre
    of each tile no tile is shared and each tile is given to its dot.
    With one dot at the centre of the left tile and one on the edge
    between the tiles, the left tile is forced by both: the C++ solvers
    return without a search, while the C solvers pre-fill the left tile
    for the first dot and go on. *)
Lemma seedForcedTiles_assigns_forced_witness :
  (at_ [[0; 1]] 0 0 = 0 /\ at_ [[0; 1]] 1 0 = 1) /\
  (forall fuel,
     solve_bfs edge_conflict (fun c d => 7 + 2 * d) fuel = NoSolution /\
     solve_dfs edge_conflict (fun c d => 7 + 2 * d) fuel
     = Found (mkSt [[0; -1]] 1 (Z.lxor 0 7), false) /\
     forall threads, solve_omp_start edge_conflict (fun c d => 7 + 2 * d) threads
                     = omp_false (mkSt [[0; -1]] 1 (Z.lxor 0 7))) /\
  (forall s0, prefill edge_conflict (fun c d => 7 + 2 * d) c_initial 0
                (pz_dots edge_conflict) = Some s0 ->
     at_ (grid s0) 0 0 = 0 /\ at_ (grid s0) 1 0 = -1).
Proof.
  pose proof (seedForcedTiles_assigns_forced
                (mkPuzzle 2 1 5 3 [mkDot 1 1 false; mkDot 3 1 false])
                (fun c d => 7 + 2 * d) (mkSt [[0; 1]] 2 (Z.lxor (Z.lxor 0 7) 9)) true
                two_dots_ok eq_refl) as (_ & _ & _ & HA & _).
  pose proof (seedForcedTiles_assigns_forced edge_conflict
                (fun c d => 7 + 2 * d) (mkSt [[0; -1]] 1 (Z.lxor 0 7)) false
                edge_conflict_ok eq_refl) as (_ & HB & HB' & _ & HC).
  cbv zeta in HA, HB, HC.
  destruct (HA eq_refl) as [HA1 _]. split; [|split].
  - split.
    + apply (proj1 (HA1 0 0 eq_refl)) with (d := 0); [simpl; lia|left].
    + apply (proj1 (HA1 1 0 eq_refl)) with (d := 1); [simpl; lia|left].
  - apply HB'. apply HB. exists 0, 1, 0, 0.
    split; [lia|]. split; [simpl; lia|]. split; [reflexivity|]. split; left.
  - intros s0 E. destruct (HC edge_conflict_c_ok) as (_ & _ & HC3).
    destruct (HC3 s0 E 0 0 eq_refl) as [H00 _].
    destruct (HC3 s0 E 1 0 eq_refl) as [_ H10]. split.
    + apply (H00 0); [simpl; lia|]. split; reflexivity.
    + apply H10. intros d Hd [Cx Cy]. simpl in Hd.
      assert (d = 0 \/ d = 1) as [-> | ->] by lia; simpl in Cx, Cy; lia.
Defined.

(** C2, counterexample.  The C solvers ([seq_solver.c], [openmp_solver.c])
    pre-fill only the tiles that have a dot in their centre: for the board
    of two tiles with one dot on the edge between them, both tiles are
    forced, and the pre-fill loop of [solve] leaves the initial state as it
    is. *)
Lemma c_solver_seeds_only_centre_dots :
  exists p, parse_game_id (text "2x1:gMg") = Some p /\
    pz_dots p = [mkDot 2 1 false] /\
    forced p 0 = [(0, 0); (1, 0)] /\
    inTileBounds p 0 0 = true /\ inTileBounds p 1 0 = true /\
    forall z, prefill p z c_initial 0 (pz_dots p) = Some c_initial.
Proof.
  eexists. split; [vm_compute; reflexivity|].
  split; [reflexivity|]. split; [reflexivity|]. split; [reflexivity|].
  split; [reflexivity|]. intros z. reflexivity.
Qed.



(** C3, amended.  A forced tile outside the board is ignored: [tryFill]
    returns true for it and leaves the state as it is.  Seeding rejects a
    puzzle only for a conflict on the board: when no tile of the board
    touches two distinct dots, [seedForcedTiles] succeeds, whatever forced
    tiles lie outside the board, and [solve] goes on to the search from the
    seeded state. *)
Theorem seedForcedTiles_ignores_outside p z :
  puzzle_ok p ->
  (forall d1 d2, 0 <= d1 < d2 -> d2 < Z.of_nat (length (pz_dots p)) ->
     ~ seed_conflict p d1 d2) ->
  (forall s tx ty d, inTileBounds p tx ty = false -> tryFill p z s tx ty d = (s, true)) /\
  exists s,
    seedForcedTiles p z (initial_state (pz_w p) (pz_h p)) = (s, true) /\
    (forall d tx ty, 0 <= d < Z.of_nat (length (pz_dots p)) ->
       inTileBounds p tx ty = true -> touches p d tx ty -> at_ (grid s) tx ty = d) /\
    forall fuel, solve_bfs p z fuel = bfs_loop p z fuel [s] {[hash s]}.
Proof.
  intros Hok Hfree. split.
  - intros s tx ty d Hb. unfold tryFill. by rewrite Hb.
  - destruct (seedForcedTiles p z (initial_state (pz_w p) (pz_h p))) as [s ok] eqn:Hrun.
    destruct (seedForcedTiles_spec p z s ok Hok Hrun) as [Ht Hf].
    destruct ok.
    + exists s. split; [done|]. destruct (Ht eq_refl) as [_ Hdone]. split.
      * intros d tx ty Hd Hb Htouch. by apply Hdone.
      * intros fuel. unfold solve_bfs. by rewrite Hrun.
    + exfalso. destruct (proj1 Hf eq_refl) as (d1 & d2 & H12 & H2 & Hc).
      by apply (Hfree d1 d2).
Qed.

Lemma seedForcedTiles_ignores_outside_witness :
  let p := mkPuzzle 1 1 3 3 [mkDot 0 0 false] in
  let z := fun c d : Z => 1 in
  (forall s tx ty d, inTileBounds p tx ty = false -> tryFill p z s tx ty d = (s, true)) /\
  exists s,
    seedForcedTiles p z (initial_state (pz_w p) (pz_h p)) = (s, true) /\
    (forall d tx ty, 0 <= d < Z.of_nat (length (pz_dots p)) ->
       inTileBounds p tx ty = true -> touches p d tx ty -> at_ (grid s) tx ty = d) /\
    forall fuel, solve_bfs p z fuel = bfs_loop p z fuel [s] {[hash s]}.
Proof.
  apply (seedForcedTiles_ignores_outside (mkPuzzle 1 1 3 3 [mkDot 0 0 false]) (fun _ _ => 1)).
  - exact corner_dot_ok.
  - simpl. intros d1 d2 H1 H2. lia.
Defined.

(** C3, counterexample.  In ["1x1:Ma"] the dot is the corner [(0, 0)] of
    the internal grid; three of its four forced tiles lie outside the board
    of one tile.  The solver does not reject the puzzle: seeding succeeds
    and [solve] returns a solution. *)
Lemma corner_dot_is_accepted :
  exists p, fromGameId (text "1x1:Ma") = Some p /\
    pz_dots p = [mkDot 0 0 false] /\
    forced p 0 = [(-1, -1); (-1, 0); (0, -1); (0, 0)] /\
    inTileBounds p (-1) (-1) = false /\
    forall z, solve_bfs p z 1 = Found (mkSt [[0]] 1 (Z.lxor 0 (z 0 0))) /\
              solve_dfs p z 1 = Found (mkSt [[0]] 1 (Z.lxor 0 (z 0 0)), true).
Proof.
  eexists. split; [vm_compute; reflexivity|].
  split; [reflexivity|]. split; [reflexivity|]. split; [reflexivity|].
  intros z. split; reflexivity.
Qed.



(** Encoding a board that holds the dots of data that is well formed and
    covers the grid gives the data back. *)
Lemma encode_decoded s data :
  shape s -> well_formed data -> span data = gs_sx s * gs_sy s ->
  decode_data (gs_sx s) data = board_dots s ->
  encode_game s = data.
Proof.
  intros Hs Hwf Hspan Hdata.
  pose proof (shape_sx _ Hs) as Hsx. pose proof (shape_sy _ Hs) as Hsy.
  rewrite encode_game_enc by lia.
  transitivity (enc (cells_of data)); [|by apply enc_cells_of]. f_equal.
  symmetry. apply (dots_at_inj (gs_sx s) _ _ 0); [done| |].
  - apply Nat2Z.inj. rewrite <- span_cells, Hspan. symmetry. apply kinds_length. nia.
  - by rewrite <- decode_data_cells, <- board_dots_at.
Qed.

Lemma fMh_well_formed : well_formed (text "fMh").
Proof.
  assert (Hf : is_run_char "f") by (unfold is_run_char; change (ord "f") with 102; lia).
  assert (Hh : is_run_char "h") by (unfold is_run_char; change (ord "h") with 104; lia).
  assert (HM : is_dot_char "M") by by left.
  simpl. split; [by right|]. split; [done|]. split; [by left|]. split.
  - intros Hr. exfalso. by apply (run_char_not_dot _ Hr).
  - split; [by right|]. done.
Qed.

(** C4, amended.  Decoding the data [encode_game] writes for a board gives
    the dots of the board, each with its internal coordinates and its
    colour, in the order of the scan; [fromGameId] gives the same dots for
    the Game ID made of the board's width and height and this data, when
    the internal width fits an [int].  Conversely, for data that is well
    formed (dots and runs whose ['z'] chunks are maximal) and that covers
    the internal grid exactly, a board that holds exactly the decoded dots
    is encoded to this data, character by character; so is a board that
    holds the dots of the puzzle [fromGameId] reads from a Game ID with
    such data. *)
Theorem game_id_round_trip s :
  shape s ->
  decode_data (gs_sx s) (encode_game s) = board_dots s /\
  (forall ws hs,
     ":"%char ∉ ws -> "x"%char ∉ ws -> ":"%char ∉ hs ->
     stoi ws = Some (gs_w s) -> stoi hs = Some (gs_h s) ->
     gs_sx s = 2 * gs_w s + 1 -> gs_sx s <= INT_MAX ->
     exists p, fromGameId (ws ++ "x"%char :: hs ++ ":"%char :: encode_game s) = Some p /\
               pz_w p = gs_w s /\ pz_h p = gs_h s /\ pz_dots p = board_dots s) /\
  (forall data,
     well_formed data -> span data = gs_sx s * gs_sy s ->
     decode_data (gs_sx s) data = board_dots s ->
     encode_game s = data) /\
  (forall ws hs data p,
     ":"%char ∉ ws -> "x"%char ∉ ws -> ":"%char ∉ hs ->
     fromGameId (ws ++ "x"%char :: hs ++ ":"%char :: data) = Some p ->
     pz_sx p = gs_sx s -> pz_dots p = board_dots s ->
     well_formed data -> span data = gs_sx s * gs_sy s ->
     encode_game s = data).
Proof.
  intros Hs. pose proof (shape_sx _ Hs) as Hsx. pose proof (shape_sy _ Hs) as Hsy.
  assert (Hdec : decode_data (gs_sx s) (encode_game s) = board_dots s).
  { rewrite encode_game_enc by lia.
    by rewrite decode_data_cells, cells_of_enc, board_dots_at. }
  split; [done|]. split; [|split].
  - intros ws hs Hc1 Hx Hc2 Hw Hh Esx Hmax.
    eexists. split.
    + apply fromGameId_text; try done. unfold INT_MIN. lia.
    + simpl. split; [done|]. split; [done|]. by rewrite <- Esx.
  - intros data. by apply encode_decoded.
  - intros ws hs data p Hc1 Hx Hc2 Hp Esx Edots Hwf Hspan.
    rewrite fromGameId_layout in Hp by done.
    destruct (stoi ws) as [w|]; [|done]. destruct (stoi hs) as [h|]; [|done].
    injection Hp as <-. cbn [pz_sx pz_dots] in Esx, Edots.
    apply encode_decoded; try done. by rewrite <- Esx.
Qed.

Lemma game_id_round_trip_witness :
  decode_data (gs_sx centre_dot_board) (encode_game centre_dot_board)
  = board_dots centre_dot_board /\
  fromGameId (text "2x1:fMh") = Some (mkPuzzle 2 1 5 3 [mkDot 1 1 false]) /\
  encode_game centre_dot_board = text "fMh".
Proof.
  destruct (game_id_round_trip centre_dot_board (example_board_shape 6))
    as (H1 & _ & _ & H4).
  split; [exact H1|]. split; [vm_compute; reflexivity|].
  apply (H4 (text "2") (text "1") (text "fMh") (mkPuzzle 2 1 5 3 [mkDot 1 1 false])).
  - intros Hin. apply elem_of_cons in Hin as [?|Hin]; [done|]. by apply elem_of_nil in Hin.
  - intros Hin. apply elem_of_cons in Hin as [?|Hin]; [done|]. by apply elem_of_nil in Hin.
  - intros Hin. apply elem_of_cons in Hin as [?|Hin]; [done|]. by apply elem_of_nil in Hin.
  - vm_compute. reflexivity.
  - vm_compute. reflexivity.
  - vm_compute. reflexivity.
  - exact fMh_well_formed.
  - vm_compute. reflexivity.
Defined.

(** C4, counterexample.  The Game ID ["2x1:fM"] is well formed and
    [fromGameId] reads it as the board of two tiles with a white dot at
    [(1, 1)]; its data stops after the dot.  Every board of this size that
    holds this dot is encoded ["fMh"], with the run that fills the grid: the
    Game ID is not reproduced. *)
Lemma short_game_id_not_reproduced :
  well_formed (text "fM") /\
  fromGameId (text "2x1:fM") = Some (mkPuzzle 2 1 5 3 [mkDot 1 1 false]) /\
  (shape centre_dot_board /\ gs_sx centre_dot_board = 5 /\ gs_sy centre_dot_board = 3 /\
   board_dots centre_dot_board = [mkDot 1 1 false]) /\
  forall s, shape s -> gs_sx s = 5 -> gs_sy s = 3 -> board_dots s = [mkDot 1 1 false] ->
    encode_game s = text "fMh" /\ encode_game s <> text "fM".
Proof.
  split; [|split; [|split]].
  - assert (Hf : is_run_char "f") by (unfold is_run_char; change (ord "f") with 102; lia).
    simpl. split; [by right|]. split; [intros _ _; by left|].
    split; [left; by left|]. done.
  - vm_compute. reflexivity.
  - split; [apply example_board_shape|]. split; [reflexivity|]. split; [reflexivity|].
    vm_compute. reflexivity.
  - intros s Hs Esx Esy Edots.
    assert (E : encode_game s = text "fMh").
    { apply encode_decoded; [done|exact fMh_well_formed| |].
      - rewrite Esx, Esy. vm_compute. reflexivity.
      - rewrite Esx, Edots. vm_compute. reflexivity. }
    split; [done|]. rewrite E. discriminate.
Qed.












Lemma tiles_kept_is_tile s st t :
  shape s -> tiles_kept s st -> is_tile st t <-> is_tile s t.
Proof.
  intros Hs Hk. pose proof Hk as (Ex & Ey & Hst & Hq).
  assert (Hty : valid s t -> sp_type (deref st t) = sp_type (deref s t)).
  { intros Hv. destruct (valid_coords s t Hs Hv) as [Hin Hsp].
    destruct (shape_cell s Hs _ _ Hin) as (_ & _ & T1).
    assert (Hin1 : INGRID st (t `mod` gs_sx s) (t `div` gs_sx s) = true).
    { unfold INGRID. rewrite Ex, Ey. exact Hin. }
    destruct (shape_cell st Hst _ _ Hin1) as (_ & _ & T2).
    assert (Hsp1 : SPACE st (t `mod` gs_sx s) (t `div` gs_sx s) = t).
    { unfold SPACE. rewrite Ex. exact Hsp. }
    rewrite Hsp in T1. rewrite Hsp1 in T2. congruence. }
  unfold is_tile. rewrite (tiles_kept_valid s st) by done.
  split; intros [Hv Ht]; (split; [done|]); [rewrite <- Hty|rewrite Hty]; done.
Qed.

(** [same] is false exactly when the edge separates two regions. *)
Lemma across_false s t d : across s t d = false <-> separates s t d.
Proof.
  unfold across, separates, outline_same, is_assoc. cbv zeta.
  destruct (INGRID s _ _); [|split; [by left|done]].
  destruct (has_flag (sp_flags (deref s t)) F_TILE_ASSOC);
    destruct (has_flag (sp_flags (deref s (SPACE s _ _))) F_TILE_ASSOC); cbn [negb andb].
  - destruct (Z.eqb_spec (sp_dotx (deref s t)) (sp_dotx (deref s (SPACE s
               (sp_x (deref s t) + d.1 + d.1) (sp_y (deref s t) + d.2 + d.2))))) as [E1|E1];
      destruct (Z.eqb_spec (sp_doty (deref s t)) (sp_doty (deref s (SPACE s
               (sp_x (deref s t) + d.1 + d.1) (sp_y (deref s t) + d.2 + d.2))))) as [E2|E2];
      cbn [andb].
    + split; [done|]. intros [?|[[_ ?]|[[? _]|(_ & _ & Hn)]]]; try done.
      exfalso. by apply Hn.
    + split; [|done]. intros _. right. right. right. split; [done|]. split; [done|].
      intros [_ ?]. done.
    + split; [|done]. intros _. right. right. right. split; [done|]. split; [done|].
      intros [? _]. done.
    + split; [|done]. intros _. right. right. right. split; [done|]. split; [done|].
      intros [? _]. done.
  - split; [|done]. intros _. right. left. split; [done|]. done.
  - split; [|done]. intros _. right. right. left. split; [done|]. done.
  - split; [done|]. intros [?|[[? _]|[[_ ?]|(? & _)]]]; done.
Qed.

(** A board whose edges are all outlined is left as it is by the pass. *)
Lemma outline_all_fixed st :
  shape st ->
  (forall t d, is_tile st t -> d ∈ outline_dirs ->
     INGRID st (sp_x (deref st t) + d.1) (sp_y (deref st t) + d.2) = true ->
     edge_flag st t d = negb (across st t d)) ->
  outline_all st = st.
Proof.
  intros Hst Hall. unfold outline_all.
  assert (G : forall l, (forall i, i ∈ l -> valid st i) ->
                foldl (fun s0 i => if bool_decide (sp_type (deref s0 i) = s_tile)
                                   then (outline_tile_fordot s0 i true).1 else s0) st l = st).
  2:{ apply G. intros i Hi. apply elem_of_seqZ in Hi. unfold valid.
      rewrite (shape_len _ Hst). lia. }
  induction l as [|i l IH]; intros Hl; [done|]. cbn [foldl].
  assert (Hstep : (if bool_decide (sp_type (deref st i) = s_tile)
                   then (outline_tile_fordot st i true).1 else st) = st).
  { destruct (bool_decide_reflect (sp_type (deref st i) = s_tile)) as [Hty|Hty]; [|done].
    assert (Hit : is_tile st i) by (split; [apply Hl; left|done]).
    unfold outline_tile_fordot.
    assert (F : forall ds b, (forall d, d ∈ ds -> d ∈ outline_dirs) ->
                  foldl (outline_step i true) (st, b) ds = (st, b)).
    { induction ds as [|d ds IHd]; intros b Hds; [done|]. cbn [foldl].
      assert (E : outline_step i true (st, b) d = (st, b)).
      { unfold outline_step.
        destruct (INGRID st (sp_x (deref st i) + d.1) (sp_y (deref st i) + d.2)) eqn:Hin;
          cbn [negb]; [|done].
        pose proof (Hall i d Hit ltac:(apply Hds; left) Hin) as Hf.
        unfold edge_flag in Hf. rewrite Hf. unfold across.
        by destruct (outline_same st i _ _). }
      rewrite E. apply IHd. intros d' Hd'. apply Hds. by right. }
    by rewrite F. }
  rewrite Hstep. apply IH. intros i' Hi'. apply Hl. by right.
Qed.

(** C7.  The pass that runs [outline_tile_fordot] with [mark] set over
    every tile of the board is idempotent: running it a second time changes
    nothing.  After the pass, for every tile and each of its four sides,
    the edge cell on that side is edge-set exactly when the tile across the
    edge does not exist, exactly one of the two tiles is associated, or the
    two are associated to different dots. *)
Theorem outline_pass_idempotent s :
  shape s ->
  outline_all (outline_all s) = outline_all s /\
  forall t dx dy, is_tile s t ->
    (dx, dy) = (-1, 0) \/ (dx, dy) = (1, 0) \/ (dx, dy) = (0, -1) \/ (dx, dy) = (0, 1) ->
    INGRID s (sp_x (deref s t) + dx) (sp_y (deref s t) + dy) = true ->
    (edge_flag (outline_all s) t (dx, dy) = true <-> separates s t (dx, dy)).
Proof.
  intros Hs. destruct (outline_all_spec s Hs) as (Hk & Hout).
  pose proof Hk as (Ex & Ey & Hst & Hq).
  assert (Hflag : forall t d, is_tile (outline_all s) t -> d ∈ outline_dirs ->
            INGRID (outline_all s) (sp_x (deref (outline_all s) t) + d.1)
                                   (sp_y (deref (outline_all s) t) + d.2) = true ->
            edge_flag (outline_all s) t d = negb (across (outline_all s) t d)).
  { intros t d Ht Hd Hin. apply (tiles_kept_is_tile s) in Ht; [|done|done].
    rewrite (Hq t Ht) in Hin. rewrite (tiles_kept_INGRID s) in Hin by done.
    rewrite (across_kept s) by done. by apply Hout. }
  split.
  - by apply outline_all_fixed.
  - intros t dx dy Ht Hd Hin.
    rewrite (Hout t Ht (dx, dy)); [|by apply elem_of_outline_dirs|done].
    rewrite <- across_false. by destruct (across s t (dx, dy)).
Qed.

(** The theorem on boards of two tiles the generator builds.  With a dot
    at the centre of each tile, the edge between the tiles is set: the
    tiles belong to different dots.  With one dot, at the centre of the
    left tile, it is set as well: only the left tile is associated; and the
    edge on the left of the left tile is set, since there is no tile across
    it.  With one dot on the edge between the tiles, both tiles belong to
    the dot and the edge is not set. *)
Lemma outline_pass_idempotent_witness :
  edge_flag (outline_all two_dot_board) 6 (1, 0) = true /\
  edge_flag (outline_all placed_board) 6 (1, 0) = true /\
  edge_flag (outline_all placed_board) 6 (-1, 0) = true /\
  edge_flag (outline_all edge_region_board) 6 (1, 0) <> true /\
  outline_all (outline_all two_dot_board) = outline_all two_dot_board.
Proof.
  destruct (outline_pass_idempotent two_dot_board
              (inv_shape _ (gen_reach_inv _ two_dot_board_reach))) as [I2 H2].
  destruct (outline_pass_idempotent placed_board
              (inv_shape _ (gen_reach_inv _ placed_board_reach))) as [_ H1].
  destruct (outline_pass_idempotent edge_region_board
              (inv_shape _ (gen_reach_inv _ edge_region_board_reach))) as [_ H0].
  split; [|split; [|split; [|split]]].
  - apply (H2 6 1 0).
    + split; [apply two_dot_board_valid; lia|]. vm_compute. reflexivity.
    + right. by left.
    + vm_compute. reflexivity.
    + right. right. right. split; [vm_compute; reflexivity|].
      split; [vm_compute; reflexivity|]. intros [H _]. vm_compute in H. discriminate H.
  - apply (H1 6 1 0).
    + split; [apply placed_board_valid; lia|]. vm_compute. reflexivity.
    + right. by left.
    + vm_compute. reflexivity.
    + right. left. split; [vm_compute; reflexivity|].
      intros H. vm_compute in H. discriminate H.
  - apply (H1 6 (-1) 0).
    + split; [apply placed_board_valid; lia|]. vm_compute. reflexivity.
    + by left.
    + vm_compute. reflexivity.
    + left. vm_compute. reflexivity.
  - intros E. apply (H0 6 1 0) in E.
    + destruct E as [E|[[_ E]|[[E _]|(_ & _ & E)]]].
      * vm_compute in E. discriminate E.
      * apply E. vm_compute. reflexivity.
      * apply E. vm_compute. reflexivity.
      * apply E. split; vm_compute; reflexivity.
    + split; [apply edge_region_board_valid; lia|]. vm_compute. reflexivity.
    + right. by left.
    + vm_compute. reflexivity.
  - exact I2.
Defined.



(** C8.  In every state the searches reach, each of the three enumerations
    (the candidates of the breadth-first [solve], the move list of [dfs],
    and [generateMoves]) proposes giving the tile [(x, y)] to the dot [d]
    exactly when the tile is on the board and unassigned, shares an edge
    with a tile of [d], and its mirror image about [d] is on the board and
    is unassigned, the tile itself, or a tile of [d]. *)
Theorem move_enumeration_exact p z stk s x y d :
  puzzle_ok p -> reach p z stk s ->
  ((x, y, d) ∈ bfs_candidates p s <-> proposable p s x y d) /\
  ((exists m, m ∈ dfs_moves p s /\ gives m x y d) <-> proposable p s x y d) /\
  ((exists m, m ∈ generateMoves p s /\ gives m x y d) <-> proposable p s x y d).
Proof.
  intros Hok Hr. pose proof (reach_state_ok p z stk s Hok Hr) as Hs.
  rewrite proposable_enumerable.
  split; [|split].
  - apply bfs_candidates_enumerable, Hs.
  - apply dfs_moves_enumerable, Hs.
  - apply generateMoves_enumerable.
Qed.

(** The theorem on the board of three tiles in a row with a dot at the
    centre of the middle tile, seeded: the left tile shares an edge with
    the middle one and its mirror image, the right tile, is free, so each
    enumeration proposes it; the middle tile is assigned, so none proposes
    it. *)
Lemma move_enumeration_exact_witness :
  ((0, 0, 0) ∈ bfs_candidates row3 row3_seeded /\
   (exists m, m ∈ dfs_moves row3 row3_seeded /\ gives m 0 0 0) /\
   (exists m, m ∈ generateMoves row3 row3_seeded /\ gives m 0 0 0)) /\
  (((1, 0, 0) ∉ bfs_candidates row3 row3_seeded) /\
   ~ (exists m, m ∈ dfs_moves row3 row3_seeded /\ gives m 1 0 0) /\
   ~ (exists m, m ∈ generateMoves row3 row3_seeded /\ gives m 1 0 0)).
Proof.
  destruct (move_enumeration_exact row3 row3_table [] row3_seeded 0 0 0 row3_ok row3_reach)
    as (B & D & G).
  destruct (move_enumeration_exact row3 row3_table [] row3_seeded 1 0 0 row3_ok row3_reach)
    as (B' & D' & G').
  assert (Hyes : proposable row3 row3_seeded 0 0 0).
  { split; [reflexivity|]. split; [reflexivity|]. split; [discriminate|]. split.
    - exists 1, 0. split; [reflexivity|]. split; reflexivity.
    - split; [reflexivity|]. left. reflexivity. }
  assert (Hno : ~ proposable row3 row3_seeded 1 0 0).
  { intros (_ & E & _). vm_compute in E. discriminate E. }
  split.
  - split; [by apply B|]. split; [by apply D|by apply G].
  - split; [by rewrite B'|]. split; [by rewrite D'|by rewrite G'].
Defined.



(** C9.  In every state reached from the seeded initial state by building
    breadth-first successors, by [applyMove] on a move the state's
    enumeration holds and by [undoMove] on the move applied last, the stored
    hash is the XOR, over the assigned tiles, of the Zobrist entries of the
    tile's cell index and its dot. *)
Theorem hash_is_zobrist_sum p z stk s :
  puzzle_ok p -> reach p z stk s -> hash s = zobrist_sum p z (grid s).
Proof. intros Hok Hr. apply (st_hash p z s). by eapply reach_state_ok. Qed.

Lemma hash_is_zobrist_sum_witness :
  let m := mkMove 0 0 0 2 0 true in
  let s1 := applyMove row3 row3_table m row3_seeded in
  let s2 := undoMove row3 row3_table m s1 in
  hash s2 = zobrist_sum row3 row3_table (grid s2).
Proof.
  apply (hash_is_zobrist_sum row3 row3_table []).
  - exact row3_ok.
  - apply reach_undo, reach_dfs.
    + exact row3_reach.
    + rewrite row3_moves. left.
Defined.



(** C10.  On every board built from a blank board by the operations of
    the generator as it runs them ([clear_game]; [add_dot] on a cell
    [dot_is_possible] accepts, followed by [solver_obvious_dot];
    [solver_obvious_dot] on a dot; [dot_expand_or_move] on a dot with the
    block collected in the rectangle of a candidate cell), the [nassoc] of
    every dot is the number of tiles whose recorded owning-dot coordinates
    are the coordinates of the dot. *)
Theorem nassoc_counts_recorded_tiles s : gen_reach s -> nassoc_ok s.
Proof. intros Hr. apply inv_nassoc. by apply gen_reach_inv. Qed.

Lemma nassoc_counts_recorded_tiles_witness :
  exists s' r, solver_obvious_dot (add_dot (clear_game (blank_game 2 1)) 7) 7 = Ok (s', r) /\
               nassoc_ok s'.
Proof.
  eexists _, _. split; [vm_compute; reflexivity|].
  apply nassoc_counts_recorded_tiles.
  apply (reach_place (clear_game (blank_game 2 1)) 7 _ 1).
  - apply reach_clear, reach_blank; lia.
  - rewrite valid_clear_game. unfold valid.
    destruct (blank_game_dims 2 1) as (_ & _ & _ & _ & _ & ->). simpl. lia.
  - vm_compute. reflexivity.
  - vm_compute. reflexivity.
Defined.



(* ===================================================================== *)
(** * Further properties of the solvers *)
(* ===================================================================== *)

(** X1.  [getSymmetricTile] is exact: the two divisions by 2 never
    truncate, the mirror image of the tile [(tx, ty)] about the dot
    [(dx, dy)] is [(dx - tx - 1, dy - ty - 1)].  Mirroring twice gives the
    tile back, and the mirror image of a tile touches the dot exactly when
    the tile does. *)
Theorem getSymmetricTile_involutive dx dy tx ty :
  getSymmetricTile dx dy tx ty = (dx - tx - 1, dy - ty - 1) /\
  getSymmetricTile dx dy (getSymmetricTile dx dy tx ty).1 (getSymmetricTile dx dy tx ty).2
  = (tx, ty) /\
  touchesDot dx dy (getSymmetricTile dx dy tx ty).1 (getSymmetricTile dx dy tx ty).2
  = touchesDot dx dy tx ty.
Proof.
  rewrite !getSymmetricTile_eq. cbn [fst snd]. split; [done|]. split.
  - f_equal; lia.
  - apply touchesDot_sym.
Qed.

(** X2.  For a dot at non-negative internal coordinates, the tiles
    [seedForcedTiles] passes to [tryFill] are exactly the tiles that
    [touchesDot] accepts. *)
Theorem forced_tiles_are_touching dx dy tx ty :
  0 <= dx -> 0 <= dy ->
  ((tx, ty) ∈ forced_tiles dx dy <-> touchesDot dx dy tx ty = true).
Proof. intros Hx Hy. by apply forced_tiles_touch. Qed.

Lemma forced_tiles_are_touching_witness :
  (0, 0) ∈ forced_tiles 2 1 <-> touchesDot 2 1 0 0 = true.
Proof. apply (forced_tiles_are_touching 2 1 0 0); lia. Defined.

(** X3.  In every state the searches reach, [undoMove] after [applyMove]
    on a move of the state's enumeration gives the state back: grid, count
    and hash. *)
Theorem undoMove_restores p z stk s m :
  puzzle_ok p -> reach p z stk s ->
  m ∈ dfs_moves p s \/ m ∈ generateMoves p s ->
  undoMove p z m (applyMove p z m s) = s.
Proof.
  intros Hok Hr Hm. apply undoMove_applyMove; [done|by eapply reach_state_ok|].
  destruct Hm as [Hm|Hm]; [by apply dfs_moves_ok|by apply generateMoves_ok].
Qed.

Lemma undoMove_restores_witness :
  undoMove row3 row3_table (mkMove 0 0 0 2 0 true)
    (applyMove row3 row3_table (mkMove 0 0 0 2 0 true) row3_seeded)
  = row3_seeded.
Proof.
  apply (undoMove_restores row3 row3_table [] row3_seeded).
  - exact row3_ok.
  - exact row3_reach.
  - left. rewrite row3_moves. left.
Defined.

(** X4.  In every state the searches reach, [filledCount] is the number
    of assigned tiles; it lies between 0 and [w * h], and it is [w * h],
    the test of the searches for a complete board, exactly when every tile
    of the board is assigned.  Every assigned tile holds the index of a
    dot. *)
Theorem filledCount_exact p z stk s :
  puzzle_ok p -> reach p z stk s ->
  filledCount s = filled p (grid s) /\
  0 <= filledCount s <= pz_w p * pz_h p /\
  (filledCount s = pz_w p * pz_h p <->
   forall x y, inTileBounds p x y = true ->
     0 <= at_ (grid s) x y < Z.of_nat (length (pz_dots p))).
Proof.
  intros Hok Hr. pose proof (reach_state_ok p z stk s Hok Hr) as Hs.
  pose proof (ok_w p Hok) as Hw. pose proof (ok_h p Hok) as Hh.
  rewrite (st_filled _ _ _ Hs). split; [done|]. split; [by apply filled_bounds|].
  rewrite filled_full by done. split.
  - intros H x y Hb. destruct (st_cells _ _ _ Hs x y Hb) as [E|E]; [|done].
    by apply H in E.
  - intros H x y Hb. specialize (H x y Hb). lia.
Qed.

Lemma filledCount_exact_witness :
  filledCount row3_seeded = filled row3 (grid row3_seeded) /\
  0 <= filledCount row3_seeded <= pz_w row3 * pz_h row3 /\
  (filledCount row3_seeded = pz_w row3 * pz_h row3 <->
   forall x y, inTileBounds row3 x y = true ->
     0 <= at_ (grid row3_seeded) x y < Z.of_nat (length (pz_dots row3))).
Proof. exact (filledCount_exact row3 row3_table [] row3_seeded row3_ok row3_reach). Defined.

(** X5.  In every state the searches reach, the regions are symmetric:
    the mirror image of an assigned tile about its dot, when it is on the
    board, is assigned to the same dot. *)
Theorem regions_symmetric p z stk s x y :
  puzzle_ok p -> reach p z stk s ->
  inTileBounds p x y = true -> at_ (grid s) x y <> -1 ->
  let d := dot_of p (at_ (grid s) x y) in
  inTileBounds p (dot_x d - x - 1) (dot_y d - y - 1) = true ->
  at_ (grid s) (dot_x d - x - 1) (dot_y d - y - 1) = at_ (grid s) x y.
Proof.
  intros Hok Hr Hb Hne. pose proof (reach_state_ok p z stk s Hok Hr) as Hs.
  pose proof (st_sym _ _ _ Hs x y Hb Hne) as H. cbv zeta in H.
  by rewrite getSymmetricTile_eq in H.
Qed.

Lemma regions_symmetric_witness :
  at_ (grid row3_seeded) (3 - 1 - 1) (1 - 0 - 1) = at_ (grid row3_seeded) 1 0.
Proof.
  apply (regions_symmetric row3 row3_table [] row3_seeded 1 0 row3_ok row3_reach).
  - reflexivity.
  - vm_compute. discriminate.
  - reflexivity.
Defined.

(** X6.  In every state the searches reach, the breadth-first search
    builds a successor for each of its candidates (the branch marked
    "should not happen" is never taken), and it is the state [applyMove]
    builds for the same tile and dot. *)
Theorem bfs_successor_is_applyMove p z stk s x y d :
  puzzle_ok p -> reach p z stk s -> (x, y, d) ∈ bfs_candidates p s ->
  bfs_successor p z s (x, y, d) = Some (applyMove p z (move_of p s x y d) s) /\
  move_ok p s (move_of p s x y d).
Proof.
  intros Hok Hr Hc. pose proof (reach_state_ok p z stk s Hok Hr) as Hs.
  apply bfs_candidates_enumerable in Hc; [|apply Hs].
  split; [by apply bfs_successor_applyMove|].
  apply enumerable_move_ok; [apply Hs|done].
Qed.

Lemma bfs_successor_is_applyMove_witness :
  bfs_successor row3 row3_table row3_seeded (0, 0, 0)
  = Some (applyMove row3 row3_table (move_of row3 row3_seeded 0 0 0) row3_seeded) /\
  move_ok row3 row3_seeded (move_of row3 row3_seeded 0 0 0).
Proof.
  apply (bfs_successor_is_applyMove row3 row3_table [] row3_seeded 0 0 0).
  - exact row3_ok.
  - exact row3_reach.
  - vm_compute. right. left.
Defined.

(** X7.  In every state the searches reach, the move list of the
    sequential [dfs] and the list [generateMoves] of the OpenMP solver
    builds are the same list. *)
Theorem enumerations_agree p z stk s :
  puzzle_ok p -> reach p z stk s -> dfs_moves p s = generateMoves p s.
Proof.
  intros Hok Hr. apply dfs_moves_generateMoves. by eapply reach_state_ok.
Qed.

Lemma enumerations_agree_witness : dfs_moves row3 row3_seeded = generateMoves row3 row3_seeded.
Proof. exact (enumerations_agree row3 row3_table [] row3_seeded row3_ok row3_reach). Defined.

(** X8.  On a complete board of a search no move is enumerated. *)
Theorem complete_board_has_no_moves p z stk s :
  puzzle_ok p -> reach p z stk s -> filledCount s = pz_w p * pz_h p ->
  bfs_candidates p s = [] /\ dfs_moves p s = [] /\ generateMoves p s = [].
Proof.
  intros Hok Hr Hfull. pose proof (reach_state_ok p z stk s Hok Hr) as Hs.
  rewrite (st_filled _ _ _ Hs) in Hfull.
  rewrite filled_full in Hfull by apply Hok.
  assert (Hnone : forall x y d, ~ enumerable p s x y d).
  { intros x y d (Hb & He & _). by apply (Hfull x y Hb). }
  split; [|split].
  - destruct (bfs_candidates p s) as [|[[x y] d] l] eqn:E; [done|]. exfalso.
    apply (Hnone x y d). apply bfs_candidates_enumerable; [apply Hs|]. rewrite E. left.
  - destruct (dfs_moves p s) as [|m l] eqn:E; [done|]. exfalso.
    apply (Hnone (mv_tx m) (mv_ty m) (mv_d m)).
    apply dfs_moves_enumerable; [apply Hs|]. exists m. split; [rewrite E; left|done].
  - destruct (generateMoves p s) as [|m l] eqn:E; [done|]. exfalso.
    apply (Hnone (mv_tx m) (mv_ty m) (mv_d m)).
    apply generateMoves_enumerable. exists m. split; [rewrite E; left|done].
Qed.

Lemma complete_board_has_no_moves_witness :
  bfs_candidates (mkPuzzle 1 1 3 3 [mkDot 1 1 false]) (mkSt [[0]] 1 (Z.lxor 0 1)) = [] /\
  dfs_moves (mkPuzzle 1 1 3 3 [mkDot 1 1 false]) (mkSt [[0]] 1 (Z.lxor 0 1)) = [] /\
  generateMoves (mkPuzzle 1 1 3 3 [mkDot 1 1 false]) (mkSt [[0]] 1 (Z.lxor 0 1)) = [].
Proof.
  apply (complete_board_has_no_moves (mkPuzzle 1 1 3 3 [mkDot 1 1 false])
           (fun _ _ => 1) []).
  - split; simpl; [lia|lia|lia|]. constructor; [simpl; lia|constructor].
  - apply reach_seed. reflexivity.
  - reflexivity.
Defined.

(** X9.  The decoder gives every dot coordinates inside the part of the
    grid the data covers: [0 <= x < sx], [0 <= y], and the cell of the dot
    comes before the position the decoder reaches.  The number of dots is at
    most the number of characters. *)
Theorem decode_data_in_range sx data :
  0 < sx ->
  Forall (fun d => 0 <= dot_x d < sx /\ 0 <= dot_y d /\
                   dot_y d * sx + dot_x d < span data)
         (decode_data sx data) /\
  (length (decode_data sx data) <= length data)%nat.
Proof.
  intros Hsx. split; [by apply decode_data_range|apply decode_data_length].
Qed.

Lemma decode_data_in_range_witness :
  Forall (fun d => 0 <= dot_x d < 5 /\ 0 <= dot_y d /\
                   dot_y d * 5 + dot_x d < span (text "fMh"))
         (decode_data 5 (text "fMh")) /\
  (length (decode_data 5 (text "fMh")) <= length (text "fMh"))%nat.
Proof. apply (decode_data_in_range 5 (text "fMh")). lia. Defined.

(** X10.  A puzzle [fromGameId] returns for a text of at most 32767
    characters, with a width and a height that are not negative and whose
    internal sizes [2 * w + 1] and [2 * h + 1] fit an [int], satisfies what
    the solvers rely on: its internal sizes are these numbers, its dots
    have non-negative coordinates and their indices fit the [int16_t] cells
    of the grid.  For a larger width the internal width wraps: for the
    width 2147483647 it is -1. *)
Theorem fromGameId_puzzle_ok game_id p :
  fromGameId game_id = Some p ->
  0 <= pz_w p -> 2 * pz_w p + 1 <= INT_MAX ->
  0 <= pz_h p -> 2 * pz_h p + 1 <= INT_MAX ->
  Z.of_nat (length game_id) <= 32767 ->
  (puzzle_ok p /\ pz_sx p = 2 * pz_w p + 1 /\ pz_sy p = 2 * pz_h p + 1) /\
  fromGameId (text "2147483647x1:aM")
  = Some (mkPuzzle 2147483647 1 (-1) 3 [mkDot 0 (-1) false]).
Proof.
  unfold fromGameId at 1.
  destruct (find_char ":"%char game_id) as [colon|]; [|done].
  destruct (find_char "x"%char game_id) as [xpos|]; [|done].
  destruct (bool_decide _); [done|].
  destruct (stoi _) as [w|]; [|done]. destruct (stoi _) as [h|]; [|done].
  intros [= <-]. cbn [pz_w pz_h pz_sx pz_sy pz_dots]. intros Hw Hw' Hh Hh' Hlen.
  split; [|vm_compute; reflexivity].
  rewrite !int32_id by (unfold INT_MIN; lia).
  split; [|done].
  pose proof (decode_data_range (2 * w + 1) (drop (colon + 1) game_id) ltac:(lia))
    as Hall.
  pose proof (decode_data_length (2 * w + 1) (drop (colon + 1) game_id)) as Hn.
  split; cbn [pz_w pz_h pz_dots]; [done|done| |].
  - rewrite length_drop in Hn. lia.
  - eapply Forall_impl; [exact Hall|]. intros d (? & ? & _). lia.
Qed.

Lemma fromGameId_puzzle_ok_witness :
  puzzle_ok (mkPuzzle 2 1 5 3 [mkDot 1 1 false]) /\
  pz_sx (mkPuzzle 2 1 5 3 [mkDot 1 1 false]) = 2 * pz_w (mkPuzzle 2 1 5 3 [mkDot 1 1 false]) + 1 /\
  pz_sy (mkPuzzle 2 1 5 3 [mkDot 1 1 false]) = 2 * pz_h (mkPuzzle 2 1 5 3 [mkDot 1 1 false]) + 1.
Proof.
  apply (fromGameId_puzzle_ok (text "2x1:fMh")).
  - vm_compute. reflexivity.
  - simpl. lia.
  - simpl. unfold INT_MAX. lia.
  - simpl. lia.
  - simpl. unfold INT_MAX. lia.
  - simpl. lia.
Defined.

(** X11.  The breadth-first [solve] is sound and terminates.  A state it
    returns assigns every tile of the board to a dot, its regions are
    symmetric about their dots, every dot owns a tile and every tile that
    touches a dot belongs to it; and the loop ends:
    with enough fuel the search returns a state or reports that there is no
    solution. *)
Theorem solve_bfs_sound_and_terminates p z :
  puzzle_ok p ->
  (forall fuel s, solve_bfs p z fuel = Found s ->
     complete_assignment p (grid s) /\ filledCount s = pz_w p * pz_h p) /\
  (exists fuel, forall fuel', (fuel <= fuel')%nat -> solve_bfs p z fuel' <> OutOfFuel).
Proof.
  intros Hok. unfold solve_bfs.
  destruct (seedForcedTiles p z (initial_state (pz_w p) (pz_h p))) as [s0 ok] eqn:E.
  destruct ok; cbn [negb].
  - assert (Hr : reach p z [] s0) by by apply reach_seed.
    split.
    + intros fuel s Hs.
      apply bfs_loop_sound in Hs as (Hrs & Hfull & Hused); [|by repeat constructor].
      split; [|done]. by apply (reach_complete p z [] s).
    + exists (S (queue_cost p [s0])). intros fuel' Hf.
      apply bfs_loop_returns; [done|by repeat constructor|lia].
  - split; [done|]. by exists O.
Qed.

Lemma solve_bfs_sound_and_terminates_witness :
  (forall fuel s,
     solve_bfs (mkPuzzle 1 1 3 3 [mkDot 1 1 false]) (fun _ _ => 1) fuel = Found s ->
     complete_assignment (mkPuzzle 1 1 3 3 [mkDot 1 1 false]) (grid s) /\
     filledCount s = pz_w (mkPuzzle 1 1 3 3 [mkDot 1 1 false])
                     * pz_h (mkPuzzle 1 1 3 3 [mkDot 1 1 false])) /\
  (exists fuel, forall fuel', (fuel <= fuel')%nat ->
     solve_bfs (mkPuzzle 1 1 3 3 [mkDot 1 1 false]) (fun _ _ => 1) fuel' <> OutOfFuel).
Proof.
  apply (solve_bfs_sound_and_terminates (mkPuzzle 1 1 3 3 [mkDot 1 1 false]) (fun _ _ => 1)).
  split; simpl; [lia|lia|lia|]. constructor; [simpl; lia|constructor].
Defined.

(** X12.  The depth-first [solve] is sound and terminates.  When it
    returns true, the grid assigns every tile of the board to a dot, its
    regions are symmetric about their dots, every dot owns a tile and every
    tile that touches a dot belongs to it.  The
    recursion is at most as deep as the board has tiles, so that with more
    fuel than tiles the search returns; and when it returns false every move
    has been undone: the state is the one [seedForcedTiles] left. *)
Theorem solve_dfs_sound_and_terminates p z :
  puzzle_ok p ->
  (forall fuel s, solve_dfs p z fuel = Found (s, true) -> complete_assignment p (grid s)) /\
  (forall fuel s, solve_dfs p z fuel = Found (s, false) ->
     s = (seedForcedTiles p z (initial_state (pz_w p) (pz_h p))).1) /\
  (forall fuel, pz_w p * pz_h p < Z.of_nat fuel ->
     exists s r, solve_dfs p z fuel = Found (s, r)).
Proof.
  intros Hok. unfold solve_dfs.
  destruct (seedForcedTiles p z (initial_state (pz_w p) (pz_h p))) as [s0 ok] eqn:E.
  destruct ok; cbn [negb fst].
  - assert (Hr : reach p z [] s0) by by apply reach_seed.
    split; [|split].
    + intros fuel s. destruct (dfs p z fuel s0 {[hash s0]}) as [[[s2 v2] r]| |] eqn:Ed;
        [|done|done].
      intros [= <- ->].
      destruct (dfs_sound p z fuel [] s0 _ _ _ true Hok Hr Ed) as ((stk' & Hr') & Hfull & Hused).
      by apply (reach_complete p z stk' s2).
    + intros fuel s. destruct (dfs p z fuel s0 {[hash s0]}) as [[[s2 v2] r]| |] eqn:Ed;
        [|done|done].
      intros [= <- ->]. apply (dfs_sound p z fuel [] s0 _ _ _ false Hok Hr Ed).
    + intros fuel Hf. pose proof (reach_filled_bounds p z [] s0 Hok Hr).
      destruct (dfs_returns p z fuel [] s0 {[hash s0]} Hok Hr ltac:(lia)) as (s2 & v2 & r & ->).
      by eauto.
  - split; [done|]. split; [by intros fuel s [= <-]|]. by eauto.
Qed.

Lemma solve_dfs_sound_and_terminates_witness :
  (forall fuel s,
     solve_dfs (mkPuzzle 1 1 3 3 [mkDot 1 1 false]) (fun _ _ => 1) fuel = Found (s, true) ->
     complete_assignment (mkPuzzle 1 1 3 3 [mkDot 1 1 false]) (grid s)) /\
  (forall fuel s,
     solve_dfs (mkPuzzle 1 1 3 3 [mkDot 1 1 false]) (fun _ _ => 1) fuel = Found (s, false) ->
     s = (seedForcedTiles (mkPuzzle 1 1 3 3 [mkDot 1 1 false]) (fun _ _ => 1)
            (initial_state (pz_w (mkPuzzle 1 1 3 3 [mkDot 1 1 false]))
                           (pz_h (mkPuzzle 1 1 3 3 [mkDot 1 1 false])))).1) /\
  (forall fuel,
     pz_w (mkPuzzle 1 1 3 3 [mkDot 1 1 false]) * pz_h (mkPuzzle 1 1 3 3 [mkDot 1 1 false])
     < Z.of_nat fuel ->
     exists s r,
       solve_dfs (mkPuzzle 1 1 3 3 [mkDot 1 1 false]) (fun _ _ => 1) fuel = Found (s, r)).
Proof.
  apply (solve_dfs_sound_and_terminates (mkPuzzle 1 1 3 3 [mkDot 1 1 false]) (fun _ _ => 1)).
  split; simpl; [lia|lia|lia|]. constructor; [simpl; lia|constructor].
Defined.




(** X27.  The [solve] of the C solver is sound and terminates.  On a board
    that fits its fixed arrays (at most 20 by 20 tiles, at most 100 dots,
    every dot inside the grid), a state it prints assigns every tile of the
    board to a dot, its regions are symmetric about their dots, every dot
    owns a tile and [filled_count] is the number of tiles; and the loop
    ends: with enough fuel the search prints a state, reports overlapping
    dots or reports that there is no solution. *)
Theorem solve_c_sound_and_terminates p z :
  c_puzzle_ok p ->
  (forall fuel s, solve p z fuel = Found (Some s) ->
     (forall x y, inTileBounds p x y = true ->
        0 <= at_ (grid s) x y < Z.of_nat (length (pz_dots p))) /\
     symmetric p (grid s) /\
     (forall d, 0 <= d < Z.of_nat (length (pz_dots p)) ->
        exists x y, inTileBounds p x y = true /\ at_ (grid s) x y = d) /\
     filledCount s = pz_w p * pz_h p) /\
  (exists fuel, forall fuel', (fuel <= fuel')%nat -> solve p z fuel' <> OutOfFuel).
Proof.
  intros Hok. unfold solve.
  destruct (prefill p z c_initial 0 (pz_dots p)) as [s0|] eqn:E.
  - assert (Hs0 : c_state_ok p s0).
    { apply (prefill_ok p z (pz_dots p) [] c_initial s0); try done.
      by apply c_initial_ok. }
    split.
    + intros fuel s Hs.
      destruct (c_loop p z fuel [s0] {[hash s0]}) as [s1| |] eqn:El; [|done|done].
      injection Hs as <-.
      apply c_loop_sound in El as (Hs1 & Hfull & Hused);
        [|done|constructor; [exact Hs0|constructor]].
      pose proof Hfull as Hfull'.
      rewrite (cs_filled _ _ Hs1), filled_full in Hfull' by apply Hok.
      split; [|split; [apply Hs1|split; [by apply all_dots_used_spec|done]]].
      intros x y Hb. destruct (cs_cells _ _ Hs1 x y Hb) as [Ec|Ec]; [|done].
      by apply Hfull' in Ec.
    + exists (S (c_queue_cost p [s0])). intros fuel' Hf.
      assert (Hq : Forall (c_state_ok p) [s0]) by (constructor; [exact Hs0|constructor]).
      pose proof (c_loop_returns p z fuel' [s0] {[hash s0]} Hok Hq ltac:(lia)) as Hr.
      by destruct (c_loop p z fuel' [s0] {[hash s0]}).
  - split; [done|]. by exists O.
Qed.

Lemma solve_c_sound_and_terminates_witness :
  (forall fuel s,
     solve (mkPuzzle 2 1 5 3 [mkDot 2 1 false]) (fun _ _ => 1) fuel = Found (Some s) ->
     (forall x y, inTileBounds (mkPuzzle 2 1 5 3 [mkDot 2 1 false]) x y = true ->
        0 <= at_ (grid s) x y
        < Z.of_nat (length (pz_dots (mkPuzzle 2 1 5 3 [mkDot 2 1 false])))) /\
     symmetric (mkPuzzle 2 1 5 3 [mkDot 2 1 false]) (grid s) /\
     (forall d, 0 <= d < Z.of_nat (length (pz_dots (mkPuzzle 2 1 5 3 [mkDot 2 1 false]))) ->
        exists x y, inTileBounds (mkPuzzle 2 1 5 3 [mkDot 2 1 false]) x y = true /\
                    at_ (grid s) x y = d) /\
     filledCount s = pz_w (mkPuzzle 2 1 5 3 [mkDot 2 1 false])
                     * pz_h (mkPuzzle 2 1 5 3 [mkDot 2 1 false])) /\
  (exists fuel, forall fuel', (fuel <= fuel')%nat ->
     solve (mkPuzzle 2 1 5 3 [mkDot 2 1 false]) (fun _ _ => 1) fuel' <> OutOfFuel).
Proof.
  apply (solve_c_sound_and_terminates (mkPuzzle 2 1 5 3 [mkDot 2 1 false]) (fun _ _ => 1)).
  split; simpl; unfold MAX_W, MAX_H, MAX_DOTS; [lia|lia|lia|].
  constructor; [simpl; lia|constructor].
Defined.



(* ===================================================================== *)
(** * Further properties of the generator *)
(* ===================================================================== *)

(** X15.  The data [encode_game] writes for a board is made of the
    letters [M], [B] and [a] to [z] only, every run is written with as many
    [z] as possible, the cells it stands for are exactly the cells of the
    grid, and it has at most one character per cell: with the final NUL it
    fits the buffer of [sx * sy + 100] characters. *)
Theorem encode_game_output s :
  shape s ->
  Forall (fun c => is_dot_char c \/ is_run_char c) (encode_game s) /\
  well_formed (encode_game s) /\
  span (encode_game s) = gs_sx s * gs_sy s /\
  Z.of_nat (length (encode_game s)) + 1 <= gs_sx s * gs_sy s + 100.
Proof.
  intros Hs. pose proof (shape_sx _ Hs). pose proof (shape_sy _ Hs).
  rewrite encode_game_enc by lia.
  pose proof (enc_wf (kinds s)) as Hwf. pose proof (wf_alphabet _ Hwf) as Hal.
  assert (Hspan : span (enc (kinds s)) = gs_sx s * gs_sy s).
  { rewrite span_cells, cells_of_enc. apply kinds_length. nia. }
  split; [done|]. split; [done|]. split; [done|].
  pose proof (alphabet_length _ Hal) as Hl. rewrite span_cells in Hspan. lia.
Qed.

Lemma encode_game_output_witness :
  Forall (fun c => is_dot_char c \/ is_run_char c) (encode_game centre_dot_board) /\
  well_formed (encode_game centre_dot_board) /\
  span (encode_game centre_dot_board) = gs_sx centre_dot_board * gs_sy centre_dot_board /\
  Z.of_nat (length (encode_game centre_dot_board)) + 1
  <= gs_sx centre_dot_board * gs_sy centre_dot_board + 100.
Proof. exact (encode_game_output centre_dot_board (example_board_shape 6)). Defined.

(** X16.  [game_update_dots] leaves the grid alone and collects the cells
    that hold a dot, each once: [dots] lists exactly the dots of the board,
    [ndots] is their number, and it is the number of dots a solver reads
    from the Game ID of the board. *)
Theorem game_update_dots_spec s :
  shape s ->
  gs_grid (game_update_dots s) = gs_grid s /\
  (forall d, d ∈ gs_dots (game_update_dots s) <-> is_dot s d) /\
  NoDup (gs_dots (game_update_dots s)) /\
  gs_ndots (game_update_dots s) = Z.of_nat (length (gs_dots (game_update_dots s))) /\
  gs_ndots (game_update_dots s)
  = Z.of_nat (length (decode_data (gs_sx s) (encode_game s))).
Proof.
  intros Hs. unfold game_update_dots. cbn [gs_grid gs_dots gs_ndots].
  split; [done|]. split; [|split; [|split; [done|]]].
  - intros d. rewrite list_elem_of_filter, <- valid_seq by done. unfold is_dot. tauto.
  - apply NoDup_filter, NoDup_seqZ.
  - by rewrite decode_encode, board_dots_length.
Qed.

Lemma game_update_dots_spec_witness :
  gs_grid (game_update_dots centre_dot_board) = gs_grid centre_dot_board /\
  (forall d, d ∈ gs_dots (game_update_dots centre_dot_board) <-> is_dot centre_dot_board d) /\
  NoDup (gs_dots (game_update_dots centre_dot_board)) /\
  gs_ndots (game_update_dots centre_dot_board)
  = Z.of_nat (length (gs_dots (game_update_dots centre_dot_board))) /\
  gs_ndots (game_update_dots centre_dot_board)
  = Z.of_nat (length (decode_data (gs_sx centre_dot_board) (encode_game centre_dot_board))).
Proof. exact (game_update_dots_spec centre_dot_board (example_board_shape 6)). Defined.

(** X17.  [blank_game w h] is a grid of [2w+1] by [2h+1] cells without
    dots.  The cell at [(x, y)] holds its coordinates; it is a tile when both
    are odd, a vertex when both are even and an edge otherwise; it is
    edge-set exactly on the border of the grid; it carries no other flag and
    its owning-dot record and its count are zero. *)
Theorem blank_game_cells w h x y :
  0 <= w -> 0 <= h -> 0 <= x < 2 * w + 1 -> 0 <= y < 2 * h + 1 ->
  gs_sx (blank_game w h) = 2 * w + 1 /\ gs_sy (blank_game w h) = 2 * h + 1 /\
  gs_ndots (blank_game w h) = 0 /\
  Z.of_nat (length (gs_grid (blank_game w h))) = (2 * w + 1) * (2 * h + 1) /\
  deref (blank_game w h) (SPACE (blank_game w h) x y)
  = mkSpace x y
      (if Z.odd x && Z.odd y then s_tile
       else if Z.even x && Z.even y then s_vertex else s_edge)
      (if (x =? 0) || (y =? 0) || (x =? 2 * w) || (y =? 2 * h) then F_EDGE_SET else 0)
      0 0 0.
Proof.
  intros Hw Hh Hx Hy.
  destruct (blank_game_dims w h) as (_ & _ & Esx & Esy & End & Hlen).
  split; [done|]. split; [done|]. split; [done|]. split; [rewrite Hlen; nia|].
  unfold SPACE. rewrite Esx, blank_game_cell by done. f_equal.
  - unfold init_space. cbn [sp_type].
    rewrite !Z.rem_mod_nonneg by lia.
    rewrite (Zmod_odd x), (Zmod_odd y), <- !Z.negb_odd.
    by destruct (Z.odd x), (Z.odd y).
  - unfold on_border.
    replace (2 * w + 1 - 1) with (2 * w) by lia.
    by replace (2 * h + 1 - 1) with (2 * h) by lia.
Qed.

Lemma blank_game_cells_witness :
  gs_sx (blank_game 2 1) = 2 * 2 + 1 /\ gs_sy (blank_game 2 1) = 2 * 1 + 1 /\
  gs_ndots (blank_game 2 1) = 0 /\
  Z.of_nat (length (gs_grid (blank_game 2 1))) = (2 * 2 + 1) * (2 * 1 + 1) /\
  deref (blank_game 2 1) (SPACE (blank_game 2 1) 1 1)
  = mkSpace 1 1
      (if Z.odd 1 && Z.odd 1 then s_tile
       else if Z.even 1 && Z.even 1 then s_vertex else s_edge)
      (if (1 =? 0) || (1 =? 0) || (1 =? 2 * 2) || (1 =? 2 * 1) then F_EDGE_SET else 0)
      0 0 0.
Proof. apply (blank_game_cells 2 1 1 1); lia. Defined.

(** X18.  On a board that satisfies the invariant of the generator,
    [solver_obvious_dot] on a dot never fails an assertion.  It returns 0
    or 1, keeps the dimensions and the invariant, takes no tile away, and
    the dot's [nassoc] grows by the number of tiles newly associated.  On a
    cell that is not a dot it stops on its first assertion. *)
Theorem solver_obvious_dot_safe s dot :
  gen_inv s ->
  (is_dot s dot ->
   exists s' r, solver_obvious_dot s dot = Ok (s', r) /\ (r = 0 \/ r = 1) /\
     gen_inv s' /\ is_dot s' dot /\
     gs_sx s' = gs_sx s /\ gs_sy s' = gs_sy s /\
     (forall q, 0 <= q -> is_assoc s q -> is_assoc s' q) /\
     sp_nassoc (deref s' dot)
     = sp_nassoc (deref s dot) + Z.of_nat (length (newly_assoc s s'))) /\
  (has_flag (sp_flags (deref s dot)) F_DOT = false ->
   solver_obvious_dot s dot = Fault AssertionFailed).
Proof.
  intros Hg. split.
  - intros Hd. pose proof (inv_shape _ Hg) as Hs.
    destruct (gen_inv_closed dot) as [Hb1 Hst1].
    destruct (counted_step s dot Hs) as [Hb2 Hst2].
    destruct (solver_obvious_dot_inv
                (fun s' => (gen_inv s' /\ is_dot s' dot) /\ counted s dot s') s dot)
      as (s' & r & E & [[Hg' Hd'] Hc] & _ & _ & _ & _ & _ & Hr).
    + intros s1 [H1 _]. by apply Hb1.
    + intros s1 t [H1 H2] Ht Hna. split; [by apply Hst1|by apply Hst2].
    + split; [done|]. by apply counted_refl.
    + exists s', r. destruct Hc as (_ & _ & Ex & Ey & Hmono & Hn).
      split; [done|]. split; [done|]. split; [done|]. split; [done|].
      split; [done|]. split; [done|]. split; [done|]. done.
  - intros Hf. unfold solver_obvious_dot. by rewrite Hf.
Qed.

Lemma solver_obvious_dot_safe_witness :
  (is_dot placed_board 6 ->
   exists s' r, solver_obvious_dot placed_board 6 = Ok (s', r) /\ (r = 0 \/ r = 1) /\
     gen_inv s' /\ is_dot s' 6 /\
     gs_sx s' = gs_sx placed_board /\ gs_sy s' = gs_sy placed_board /\
     (forall q, 0 <= q -> is_assoc placed_board q -> is_assoc s' q) /\
     sp_nassoc (deref s' 6)
     = sp_nassoc (deref placed_board 6) + Z.of_nat (length (newly_assoc placed_board s'))) /\
  (has_flag (sp_flags (deref placed_board 6)) F_DOT = false ->
   solver_obvious_dot placed_board 6 = Fault AssertionFailed).
Proof.
  apply (solver_obvious_dot_safe placed_board 6).
  apply gen_reach_inv. exact placed_board_reach.
Defined.

(** X19.  On every board of the generator, a tile that touches a dot is
    associated with that dot.  So every dot lies inside its own region, and
    no tile touches two dots. *)
Theorem dots_own_their_tiles s d t :
  gen_reach s -> is_dot s d -> is_tile s t -> touching s d t ->
  assoc_with s d t /\
  forall d', is_dot s d' -> touching s d' t -> d' = d.
Proof.
  intros Hr Hd Ht Htouch. pose proof (gen_reach_regions s Hr) as [Hg Hn Hsym].
  pose proof (Hn d t Hd Ht Htouch) as Ha. split; [done|].
  intros d' Hd' Htouch'. pose proof (Hn d' t Hd' Ht Htouch') as Ha'.
  destruct Ha as (_ & Ex & Ey). destruct Ha' as (_ & Ex' & Ey').
  apply (coords_inj s); [apply Hg|apply Hd'|apply Hd|congruence|congruence].
Qed.

Lemma dots_own_their_tiles_witness :
  assoc_with placed_board 6 6 /\
  forall d', is_dot placed_board d' -> touching placed_board d' 6 -> d' = 6.
Proof.
  apply (dots_own_their_tiles placed_board 6 6).
  - exact placed_board_reach.
  - split; [unfold valid; vm_compute; split; [discriminate|reflexivity]|reflexivity].
  - split; [unfold valid; vm_compute; split; [discriminate|reflexivity]|reflexivity].
  - unfold touching. vm_compute. split; discriminate.
Defined.

(** X20.  On every board of the generator the regions are symmetric: an
    associated tile records the coordinates of a dot of the board, and its
    mirror image about that dot is a tile of the grid associated with the
    same dot. *)
Theorem regions_are_symmetric s t :
  gen_reach s -> is_tile s t -> is_assoc s t ->
  exists d, is_dot s d /\ assoc_with s d t /\
    INGRID s (mirror_x s d t) (mirror_y s d t) = true /\
    is_tile s (SPACE s (mirror_x s d t) (mirror_y s d t)) /\
    assoc_with s d (SPACE s (mirror_x s d t) (mirror_y s d t)).
Proof.
  intros Hr Ht Ha. pose proof (gen_reach_regions s Hr) as [Hg Hn Hsym].
  pose proof (inv_shape _ Hg) as Hs.
  destruct (inv_assoc _ Hg t Ht Ha) as (d & Hd & Ex & Ey).
  destruct (Hsym t Ht Ha) as (Hin & Ham & Emx & Emy).
  exists d. unfold mirror_x, mirror_y. rewrite <- Ex, <- Ey.
  split; [done|]. split; [done|]. split; [done|]. split.
  - assert (Hopp : space_opposite_dot s t d
                   = Some (SPACE s (2 * sp_dotx (deref s t) - sp_x (deref s t))
                                   (2 * sp_doty (deref s t) - sp_y (deref s t)))).
    { rewrite space_opposite_dot_mirror. unfold mirror_x, mirror_y.
      rewrite <- Ex, <- Ey, Hin. done. }
    by destruct (space_opposite_dot_Some s t d _ Hs Ht (proj1 Hd) Hopp) as (Ho & _).
  - split; [done|]. split; congruence.
Qed.

Lemma regions_are_symmetric_witness :
  exists d, is_dot placed_board d /\ assoc_with placed_board d 6 /\
    INGRID placed_board (mirror_x placed_board d 6) (mirror_y placed_board d 6) = true /\
    is_tile placed_board
      (SPACE placed_board (mirror_x placed_board d 6) (mirror_y placed_board d 6)) /\
    assoc_with placed_board d
      (SPACE placed_board (mirror_x placed_board d 6) (mirror_y placed_board d 6)).
Proof.
  apply (regions_are_symmetric placed_board 6).
  - exact placed_board_reach.
  - split; [unfold valid; vm_compute; split; [discriminate|reflexivity]|reflexivity].
  - reflexivity.
Defined.

(** X21.  Placing a dot.  A cell [dot_is_possible] accepts is not
    edge-set and no tile next to it is associated.  On a board of the
    generator, [add_dot] on such a cell followed by [solver_obvious_dot]
    fails no assertion, and afterwards the new dot owns every tile it
    touches. *)
Theorem placing_a_dot s sp :
  gen_reach s -> valid s sp -> dot_is_possible s sp false = true ->
  has_flag (sp_flags (deref s sp)) F_EDGE_SET = false /\
  (forall t, is_tile s t -> touching s sp t -> ~ is_assoc s t) /\
  exists s' r, solver_obvious_dot (add_dot s sp) sp = Ok (s', r) /\
    gen_reach s' /\ is_dot s' sp /\
    forall t, is_tile s' t -> touching s' sp t -> assoc_with s' sp t.
Proof.
  intros Hr Hv Hp. pose proof (gen_reach_regions s Hr) as Hi.
  pose proof (inv_shape _ (ri_gen _ Hi)) as Hs.
  destruct (dot_is_possible_true s sp Hs Hv Hp) as [He Hnear].
  split; [done|]. split.
  - intros t Ht [Hx Hy] Ha.
    destruct (valid_xy s t Hs (proj1 Ht)) as [Hin Hsp].
    specialize (Hnear (sp_x (deref s t) - sp_x (deref s sp))
                      (sp_y (deref s t) - sp_y (deref s sp)) ltac:(lia) ltac:(lia)).
    replace (sp_x (deref s sp) + (sp_x (deref s t) - sp_x (deref s sp)))
      with (sp_x (deref s t)) in Hnear by lia.
    replace (sp_y (deref s sp) + (sp_y (deref s t) - sp_y (deref s sp)))
      with (sp_y (deref s t)) in Hnear by lia.
    rewrite Hsp in Hnear. specialize (Hnear Hin). unfold is_assoc in Ha. congruence.
  - destruct (place_regions s sp Hi Hv Hp) as (s' & r & E & Hi' & Hd' & _).
    exists s', r. split; [done|]. split; [by apply (reach_place s sp s' r)|].
    split; [done|]. intros t Ht Htouch. by apply (ri_near _ Hi').
Qed.

Lemma placing_a_dot_witness :
  has_flag (sp_flags (deref cleared_board 6)) F_EDGE_SET = false /\
  (forall t, is_tile cleared_board t -> touching cleared_board 6 t ->
             ~ is_assoc cleared_board t) /\
  exists s' r, solver_obvious_dot (add_dot cleared_board 6) 6 = Ok (s', r) /\
    gen_reach s' /\ is_dot s' 6 /\
    forall t, is_tile s' t -> touching s' 6 t -> assoc_with s' 6 t.
Proof.
  apply (placing_a_dot cleared_board 6).
  - exact cleared_board_reach.
  - apply cleared_board_valid. lia.
  - vm_compute. reflexivity.
Defined.

(** X22.  The outline pass only sets and clears edge-set flags.  It
    leaves the dimensions, the dot list, every cell's coordinates, type,
    owning-dot record and count and the flags [F_DOT], [F_TILE_ASSOC],
    [F_DOT_BLACK] and [F_MARK] as they were, so the Game ID of the board is
    the same before and after; and [outline_tile_fordot] without [mark]
    changes nothing at all. *)
Theorem outline_keeps_board s :
  shape s ->
  same_but_edges s (outline_all s) /\
  encode_game (outline_all s) = encode_game s /\
  forall t, (outline_tile_fordot s t false).1 = s.
Proof.
  intros Hs. pose proof (outline_all_edges s) as He.
  split; [done|]. split; [|apply outline_tile_unmarked].
  pose proof (shape_sx _ Hs). pose proof (shape_sy _ Hs).
  destruct He as (_ & _ & Esx & Esy & _).
  rewrite !encode_game_enc by lia. f_equal.
  apply same_but_edges_kinds, outline_all_edges.
Qed.

Lemma outline_keeps_board_witness :
  same_but_edges placed_board (outline_all placed_board) /\
  encode_game (outline_all placed_board) = encode_game placed_board /\
  forall t, (outline_tile_fordot placed_board t false).1 = placed_board.
Proof.
  apply (outline_keeps_board placed_board).
  apply gen_reach_inv. exact placed_board_reach.
Defined.

(** X23.  [random_upto] draws below its limit.  For a limit of zero it
    returns 0 without touching the state.  Otherwise the number of bits it
    asks for is the bit length of the limit, and the value it returns, when
    its loop ends, is at least 0 and below the limit; the words of the
    state stay within 64 bits.  When the bit length is below 32 (a limit
    below [2^31]) [random_bits] masks its result and every draw is below
    twice the limit; from 32 bits on it does not mask, and a draw is the
    whole 64-bit word of the state. *)
Theorem random_upto_in_range fuel rs limit :
  words_ok rs -> 0 <= limit < 2 ^ 64 ->
  (limit = 0 -> Random.random_upto fuel rs limit = Some (0, rs)) /\
  (forall r rs', Random.random_upto fuel rs limit = Some (r, rs') ->
     words_ok rs' /\ (0 < limit -> 0 <= r < limit)) /\
  (0 < limit ->
   let bits := Random.count_bits 64 0 limit in
   2 ^ (bits - 1) <= limit < 2 ^ bits /\
   (bits < 32 ->
    0 <= (Random.random_bits rs bits).1 < 2 ^ bits /\
    (Random.random_bits rs bits).1 < 2 * limit) /\
   (32 <= bits ->
    (Random.random_bits rs bits).1 = Random.st3 (Random.random_bits rs bits).2 /\
    0 <= (Random.random_bits rs bits).1 < 2 ^ 64)).
Proof.
  intros Hrs Hl. split; [|split].
  - intros ->. reflexivity.
  - intros r rs' E. apply random_upto_spec in E as [Hw Hr]; [|done|lia].
    split; [done|]. intros Hpos. by rewrite (proj2 (Z.eqb_neq _ 0)) in Hr by lia.
  - intros Hpos bits. destruct (count_bits_spec 64 0 limit) as (Hu & Hlo & Hb).
    { change (Z.of_nat 64) with 64. lia. }
    fold bits in Hu, Hlo, Hb.
    rewrite !Z.sub_0_r in Hu. rewrite Z.sub_0_r in Hlo.
    destruct (random_bits_spec rs bits Hrs (proj1 Hb)) as (_ & Hr & Hm).
    split; [split; [by apply Hlo|done]|]. split.
    + intros Hlt. split; [split; [apply Hr|by apply Hm]|].
      assert (Hb1 : 1 <= bits).
      { destruct (decide (bits = 0)) as [E|]; [|lia]. rewrite E in Hu. simpl in Hu. lia. }
      pose proof (Hm Hlt) as Hd. pose proof (Hlo Hpos) as Hlow.
      assert (E : 2 ^ bits = 2 * 2 ^ (bits - 1)).
      { rewrite <- Z.pow_succ_r by lia. f_equal. lia. }
      lia.
    + intros Hge. split; [|done]. unfold Random.random_bits. cbv zeta. cbn [fst snd].
      destruct (Z.ltb_spec bits 32); [lia|]. reflexivity.
Qed.

Lemma random_upto_in_range_witness :
  (forall r rs', Random.random_upto 3 (Random.mkRS 1 2 3 4) 5 = Some (r, rs') ->
     words_ok rs' /\ (0 < 5 -> 0 <= r < 5)) /\
  (Random.random_bits (Random.mkRS 1 2 3 4) (Random.count_bits 64 0 5)).1 < 2 * 5 /\
  (Random.random_bits (Random.mkRS 1 2 3 4) (Random.count_bits 64 0 2147483648)).1
  = Random.st3 (Random.random_bits (Random.mkRS 1 2 3 4)
                                   (Random.count_bits 64 0 2147483648)).2.
Proof.
  assert (Hw : words_ok (Random.mkRS 1 2 3 4)) by (unfold words_ok; simpl; lia).
  destruct (random_upto_in_range 3 (Random.mkRS 1 2 3 4) 5 Hw ltac:(lia))
    as (_ & H2 & H3).
  destruct (random_upto_in_range 3 (Random.mkRS 1 2 3 4) 2147483648 Hw ltac:(lia))
    as (_ & _ & H3').
  split; [exact H2|]. split.
  - destruct (H3 ltac:(lia)) as (_ & Hlt & _). apply Hlt. vm_compute. reflexivity.
  - destruct (H3' ltac:(lia)) as (_ & _ & Hge). apply Hge. vm_compute. discriminate.
Defined.

(** X24.  [shuffle] permutes.  When it returns, the array holds the same
    elements as before, each as often as before; an array of at most one
    element is returned as it is, without a draw; and [shuffle] fails to
    return only when the loop of one of its calls to [random_upto], for a
    limit between 2 and the length of the array, does not end. *)
Theorem shuffle_is_permutation {A} fuel (l : list A) rs :
  words_ok rs ->
  (forall l' rs', Random.shuffle fuel l rs = Some (l', rs') -> l' ≡ₚ l /\ words_ok rs') /\
  ((length l <= 1)%nat -> Random.shuffle fuel l rs = Some (l, rs)) /\
  (Random.shuffle fuel l rs = None ->
   exists rs1 limit, words_ok rs1 /\ 2 <= limit <= Z.of_nat (length l) /\
                     Random.random_upto fuel rs1 limit = None).
Proof.
  intros Hrs. unfold Random.shuffle. split; [|split].
  - intros l' rs' E. apply shuffle_from_spec in E as (Hp & Hw & _); done.
  - intros Hl. replace (length l - 1)%nat with O by lia. done.
  - intros E. apply shuffle_from_none in E as (rs1 & k & Hw & Hk & Hn); [|done].
    exists rs1, (Z.of_nat k + 1). split; [done|]. split; [lia|done].
Qed.

Lemma shuffle_is_permutation_witness :
  (forall l' rs', Random.shuffle 8 [1; 2; 3] (Random.mkRS 1 2 3 4) = Some (l', rs') ->
     l' ≡ₚ [1; 2; 3] /\ words_ok rs') /\
  ((length [1; 2; 3] <= 1)%nat ->
   Random.shuffle 8 [1; 2; 3] (Random.mkRS 1 2 3 4) = Some ([1; 2; 3], Random.mkRS 1 2 3 4)) /\
  (Random.shuffle 8 [1; 2; 3] (Random.mkRS 1 2 3 4) = None ->
   exists rs1 limit, words_ok rs1 /\ 2 <= limit <= Z.of_nat (length [1; 2; 3]) /\
                     Random.random_upto 8 rs1 limit = None).
Proof.
  apply (shuffle_is_permutation 8 [1; 2; 3] (Random.mkRS 1 2 3 4)).
  unfold words_ok. simpl. lia.
Defined.

(** X25.  Apart from the division by zero, the generation pass cannot
    fail.  On a board whose regions satisfy the invariant of the generator,
    with a dot count that is not zero and scratch cells that lie in the
    grid, and for every source of randomness whose [shuffle] permutes,
    [generate_pass] fails no assertion of [generate_try_block],
    [dot_expand_or_move] and [solver_obvious_dot]; it keeps the size of the
    board and the dot count, and it leaves a board whose regions are
    symmetric and on which every dot owns the tiles it touches. *)
Theorem generate_pass_is_safe (random_state : Type)
    (shuffle : forall A : Type, list A -> random_state -> list A * random_state)
    s rs (scratch : list Z) perc flags :
  (forall A (l : list A) rs, (shuffle A l rs).1 ≡ₚ l) ->
  region_inv s -> gs_ndots s <> 0 -> Forall (valid s) scratch ->
  Z.quot (perc * (gs_sx s * gs_sy s)) 100 <= Z.of_nat (length scratch) ->
  exists s' rs',
    generate_pass random_state shuffle s rs scratch perc flags = Ok (s', rs') /\
    region_inv s' /\ same_dims s s'.
Proof. intros Hsh Hi Hn Hscr Hp. by apply generate_pass_safe. Qed.

Lemma generate_pass_is_safe_witness :
  exists s' rs',
    generate_pass unit (fun A l rs => (l, rs)) (game_update_dots placed_board) tt
                  (seqZ 0 15) 100 GP_DOTS = Ok (s', rs') /\
    region_inv s' /\ same_dims (game_update_dots placed_board) s'.
Proof.
  apply (generate_pass_is_safe unit (fun A l rs => (l, rs))).
  - intros A l rs. reflexivity.
  - exact counted_board_regions.
  - vm_compute. discriminate.
  - apply Forall_forall. intros q Hq. apply elem_of_seqZ in Hq.
    unfold valid. change (length (gs_grid (game_update_dots placed_board))) with 15%nat. lia.
  - vm_compute. discriminate.
Defined.

(** X26.  On a board without tiles the generator returns.  When the
    width or the height is zero every cell of the grid lies on its border:
    the rectangle of an edge leaves the grid, so that [generate_try_block]
    returns before its division, and [dot_is_possible] rejects every cell,
    as it rejects every edge-set cell of any board.  For every [shuffle]
    that permutes, [generate_new_game] returns the cleared blank board: no
    dot, and every cell edge-set. *)
Theorem generate_new_game_without_tiles (random_state : Type)
    (shuffle : forall A : Type, list A -> random_state -> list A * random_state)
    w h rs :
  (forall A (l : list A) rs, (shuffle A l rs).1 ≡ₚ l) ->
  0 <= w -> 0 <= h -> w = 0 \/ h = 0 ->
  generate_new_game random_state shuffle w h rs
  = Ok (clear_game (blank_game w h),
        (shuffle Z (seqZ 0 ((2 * w + 1) * (2 * h + 1))) rs).2) /\
  gs_ndots (clear_game (blank_game w h)) = 0 /\
  (forall q, valid (clear_game (blank_game w h)) q ->
     sp_flags (deref (clear_game (blank_game w h)) q) = F_EDGE_SET) /\
  (forall s sp allow, shape s -> valid s sp ->
     has_flag (sp_flags (deref s sp)) F_EDGE_SET = true ->
     dot_is_possible s sp allow = false).
Proof.
  intros Hsh Hw Hh Hthin. split; [by apply generate_new_game_thin|].
  split; [done|]. split.
  - intros q Hq. by destruct (thin_board_cell w h q Hw Hh Hthin Hq) as (Hf & _).
  - intros s sp allow. apply dot_is_possible_edge_set.
Qed.

Lemma generate_new_game_without_tiles_witness :
  generate_new_game unit (fun A l rs => (l, rs)) 0 1 tt
  = Ok (clear_game (blank_game 0 1),
        ((fun A l rs => (l, rs)) Z (seqZ 0 ((2 * 0 + 1) * (2 * 1 + 1))) tt).2) /\
  gs_ndots (clear_game (blank_game 0 1)) = 0 /\
  (forall q, valid (clear_game (blank_game 0 1)) q ->
     sp_flags (deref (clear_game (blank_game 0 1)) q) = F_EDGE_SET) /\
  (forall s sp allow, shape s -> valid s sp ->
     has_flag (sp_flags (deref s sp)) F_EDGE_SET = true ->
     dot_is_possible s sp allow = false).
Proof.
  apply (generate_new_game_without_tiles unit (fun A l rs => (l, rs)) 0 1 tt).
  - intros A l rs. reflexivity.
  - lia.
  - lia.
  - by left.
Defined.

(** X28.  The generator never expands a region.  On every board it
    builds, no dot can take a free tile: the mirror image of the tile about
    the dot is out of the grid or belongs to another dot, because
    [solver_obvious_dot] gave the dot every tile it could take when the dot
    was placed.  On such a board [dot_expand_or_move] returns false, and
    leaves the board as it is, for every block that holds a free tile; and
    [generate_try_block], with a dot count that is not zero and for every
    [shuffle] that permutes, returns 0 with the board unchanged.  The
    regions grow through [solver_obvious_dot] only. *)
Theorem generate_try_block_never_expands (random_state : Type)
    (shuffle : forall A : Type, list A -> random_state -> list A * random_state) s :
  (forall A (l : list A) rs, (shuffle A l rs).1 ≡ₚ l) ->
  (gen_reach s -> region_inv s /\ saturated s) /\
  (region_inv s -> saturated s ->
   (forall dot t, is_dot s dot -> is_tile s t -> ~ is_assoc s t -> rejects s dot t) /\
   (forall dot toadd t, is_dot s dot -> t ∈ toadd -> is_tile s t -> ~ is_assoc s t ->
      dot_expand_or_move s dot toadd = Ok (s, false)) /\
   (forall rs sp x1 y1 x2 y2,
      gs_ndots s <> 0 -> valid s sp -> sp_type (deref s sp) <> s_vertex ->
      candidate_rect (deref s sp) = (x1, y1, x2, y2) ->
      exists rs', generate_try_block random_state shuffle s rs x1 y1 x2 y2
                  = Ok (s, rs', false))).
Proof.
  intros Hsh. split.
  - intros Hr. split; [by apply gen_reach_regions|by apply gen_reach_saturated].
  - intros Hi Hsat. split; [|split].
    + intros dot t Hd Ht Hna. apply blocked_rejects. by apply Hsat.
    + intros dot toadd t Hd Hin Ht Hna. by apply (expand_rejected s dot toadd t).
    + intros rs sp x1 y1 x2 y2 Hn Hv Hnv Hrect.
      by apply (generate_try_block_rejected random_state shuffle Hsh s rs sp).
Qed.

(** The theorem on the board of two tiles with a dot at the centre of the
    left tile, as the generator builds it and counts its dots: the block
    made of the free right tile is rejected by the dot, and
    [generate_try_block] for the right tile returns 0. *)
Lemma generate_try_block_never_expands_witness :
  dot_expand_or_move (game_update_dots placed_board) 6 [8]
  = Ok (game_update_dots placed_board, false) /\
  exists rs', generate_try_block unit (fun A l rs => (l, rs))
                (game_update_dots placed_board) tt 3 1 3 1
              = Ok (game_update_dots placed_board, rs', false).
Proof.
  destruct (generate_try_block_never_expands unit (fun A l rs => (l, rs))
              (game_update_dots placed_board)) as [_ H].
  { intros A l rs. reflexivity. }
  destruct H as (_ & H2 & H3).
  { exact counted_board_regions. }
  { apply saturated_update, gen_reach_saturated. exact placed_board_reach. }
  assert (Hv : forall q, 0 <= q < 15 -> valid (game_update_dots placed_board) q).
  { intros q Hq. unfold valid.
    change (length (gs_grid (game_update_dots placed_board))) with 15%nat. lia. }
  split.
  - apply (H2 6 [8] 8).
    + split; [apply Hv; lia|]. vm_compute. reflexivity.
    + left.
    + split; [apply Hv; lia|]. vm_compute. reflexivity.
    + intros H. vm_compute in H. discriminate H.
  - apply (H3 tt 8).
    + vm_compute. discriminate.
    + apply Hv. lia.
    + vm_compute. discriminate.
    + vm_compute. reflexivity.
Defined.

